(** * A shallow embedding of the midi-sampler voice engine

    The repository ships two builds of the same engine:
    - the plain build ([sampler.c], [voice.c], [src/core/envelope.c],
      [src/internal/internal.h]), modelled in [Module Core];
    - the real-time build ([src/realtime/sampler_rt.c], [voice_rt.c],
      [src/realtime/envelope_rt.c], [src/internal/internal_rt.h]),
      modelled in [Module RT].
    Both builds read files through the same two readers, the MIDI parser
    ([src/midi/midi_parser.c], [Module Midi]) and the WAV loader
    ([src/core/sample_loader.c], [Module Wav]), over the model of a binary
    stream in [Module Stdio].

    Conventions.
    - [uint8_t], [uint16_t], [uint32_t], [size_t] values are [Z]; the two
      indices of the event ring, which only ever hold values below the ring
      size, are [nat] so that they index the slot list directly.
    - [float] is IEEE binary32 and [double] is IEEE binary64, both carried by
      [spec_float] and computed with the operations of [SpecFloat].
    - A pointer is an [option]: [None] is [NULL].  A pointer to an instrument
      is an index into the list of live instruments. *)

From Stdlib Require Import ZArith Lia ZifyNat Bool SpecFloat Reals Lra.
From Stdlib Require Strings.Byte.
From stdpp Require Import base list.

Local Open Scope Z_scope.

(** ** Error codes ([midi_sampler.h]) *)

Inductive ms_error_t :=
  | MS_SUCCESS
  | MS_ERROR_INVALID_PARAM
  | MS_ERROR_OUT_OF_MEMORY
  | MS_ERROR_FILE_NOT_FOUND
  | MS_ERROR_INVALID_FORMAT
  | MS_ERROR_BUFFER_OVERFLOW
  | MS_ERROR_NOT_INITIALIZED
  | MS_ERROR_VOICE_LIMIT
  | MS_ERROR_UNKNOWN.

Definition ms_error_code (e : ms_error_t) : Z :=
  match e with
  | MS_SUCCESS => 0
  | MS_ERROR_INVALID_PARAM => -1
  | MS_ERROR_OUT_OF_MEMORY => -2
  | MS_ERROR_FILE_NOT_FOUND => -3
  | MS_ERROR_INVALID_FORMAT => -4
  | MS_ERROR_BUFFER_OVERFLOW => -5
  | MS_ERROR_NOT_INITIALIZED => -6
  | MS_ERROR_VOICE_LIMIT => -7
  | MS_ERROR_UNKNOWN => -99
  end.

(** ** The event ring ([internal_rt.h], lines 47-90) *)

Definition RT_EVENT_QUEUE_SIZE : nat := 256.

Record rt_event_t := {
  ev_note : Z;
  ev_velocity : Z;
  event_type : Z;              (* 0 = note_on, 1 = note_off *)
  ev_instrument : option nat   (* void *instrument *)
}.

Record rt_event_queue_t := {
  write_idx : nat;
  read_idx : nat;
  events : list rt_event_t     (* rt_event_t events[RT_EVENT_QUEUE_SIZE] *)
}.

(** [rt_queue_push]: the returned flag is the C function's result. *)
Definition rt_queue_push (q : rt_event_queue_t) (event : rt_event_t)
  : bool * rt_event_queue_t :=
  let write := write_idx q in
  let next_write := ((write + 1) mod RT_EVENT_QUEUE_SIZE)%nat in
  let read := read_idx q in
  if (next_write =? read)%nat then (false, q)
  else (true, {| write_idx := next_write;
                 read_idx := read_idx q;
                 events := <[write := event]> (events q) |}).

(** [rt_queue_pop]: [None] is the C function returning [false]; otherwise
    the event copied out of the slot (the slot list of a well-formed ring
    has [RT_EVENT_QUEUE_SIZE] entries, so the lookup finds one). *)
Definition rt_queue_pop (q : rt_event_queue_t)
  : option rt_event_t * rt_event_queue_t :=
  let read := read_idx q in
  let write := write_idx q in
  if (read =? write)%nat then (None, q)
  else (events q !! read,
        {| write_idx := write_idx q;
           read_idx := ((read + 1) mod RT_EVENT_QUEUE_SIZE)%nat;
           events := events q |}).

Definition zero_event : rt_event_t :=
  {| ev_note := 0; ev_velocity := 0; event_type := 0; ev_instrument := None |}.

(** The ring as [ms_sampler_create] leaves it: zeroed storage, both indices 0. *)
Definition empty_queue : rt_event_queue_t :=
  {| write_idx := 0; read_idx := 0;
     events := replicate RT_EVENT_QUEUE_SIZE zero_event |}.

(** Pushing a run of events one after the other, keeping every result. *)
Fixpoint push_all (q : rt_event_queue_t) (l : list rt_event_t)
  : list bool * rt_event_queue_t :=
  match l with
  | [] => ([], q)
  | e :: l' =>
      let '(ok, q1) := rt_queue_push q e in
      let '(oks, q2) := push_all q1 l' in
      (ok :: oks, q2)
  end.

(** Popping [n] times, keeping every result. *)
Fixpoint pop_n (q : rt_event_queue_t) (n : nat)
  : list (option rt_event_t) * rt_event_queue_t :=
  match n with
  | O => ([], q)
  | S n' =>
      let '(r, q1) := rt_queue_pop q in
      let '(rs, q2) := pop_n q1 n' in
      (r :: rs, q2)
  end.

(** Ghost view of the ring: the slots from [read_idx] up to [write_idx],
    walked cyclically. *)
Fixpoint slice (ev : list rt_event_t) (r : nat) (n : nat) : list rt_event_t :=
  match n with
  | O => []
  | S n' =>
      match ev !! r with
      | Some e => e :: slice ev ((r + 1) mod RT_EVENT_QUEUE_SIZE)%nat n'
      | None => []
      end
  end.

Definition pending (q : rt_event_queue_t) : nat :=
  ((write_idx q + RT_EVENT_QUEUE_SIZE - read_idx q) mod RT_EVENT_QUEUE_SIZE)%nat.

Definition contents (q : rt_event_queue_t) : list rt_event_t :=
  slice (events q) (read_idx q) (pending q).

Definition queue_wf (q : rt_event_queue_t) : Prop :=
  (write_idx q < RT_EVENT_QUEUE_SIZE)%nat /\
  (read_idx q < RT_EVENT_QUEUE_SIZE)%nat /\
  length (events q) = RT_EVENT_QUEUE_SIZE.

(** ** Floating point

    [float] values are binary32 and [double] values binary64; every
    operation rounds to nearest-even as [SpecFloat] specifies.  Expressions
    are evaluated in the type C gives them (no excess precision, no fused
    multiply-add). *)

Abbreviation float := spec_float (only parsing).
Abbreviation double := spec_float (only parsing).

(** Truncation toward zero, the value part of a C float-to-integer cast. *)
Definition SFtrunc (x : spec_float) : Z :=
  match x with
  | S754_finite s m e =>
      let v := if 0 <=? e then Zpos m * 2 ^ e else Zpos m / 2 ^ (- e) in
      if s then - v else v
  | _ => 0
  end.

Module F32.
Definition prec : Z := 24.
Definition emax : Z := 128.
Definition of_Z (z : Z) : float := binary_normalize prec emax z 0 false.
Definition zero : float := S754_zero false.
Definition one : float := of_Z 1.
Definition add : float -> float -> float := SFadd prec emax.
Definition sub : float -> float -> float := SFsub prec emax.
Definition mul : float -> float -> float := SFmul prec emax.
Definition div : float -> float -> float := SFdiv prec emax.
Definition ltb : float -> float -> bool := SFltb.
Definition leb : float -> float -> bool := SFleb.
(** [(float)d] for a [double] [d]. *)
Definition of_double (d : double) : float :=
  match d with
  | S754_finite s m e => binary_round prec emax s m e
  | _ => d
  end.
End F32.

Module F64.
Definition prec : Z := 53.
Definition emax : Z := 1024.
Definition of_Z (z : Z) : double := binary_normalize prec emax z 0 false.
Definition zero : double := S754_zero false.
Definition one : double := of_Z 1.
Definition add : double -> double -> double := SFadd prec emax.
Definition sub : double -> double -> double := SFsub prec emax.
Definition mul : double -> double -> double := SFmul prec emax.
Definition div : double -> double -> double := SFdiv prec emax.
Definition ltb : double -> double -> bool := SFltb.
Definition leb : double -> double -> bool := SFleb.
(** The implicit promotion of a [float] to [double] (exact). *)
Definition of_float (f : float) : double :=
  match f with
  | S754_finite s m e => binary_round prec emax s m e
  | _ => f
  end.
End F64.

(** [(uint32_t)x]: truncation, reduced modulo 2^32 (C leaves the
    out-of-range case open; the reduction is what the targeted x86-64
    conversion yields). *)
Definition to_uint32 (x : spec_float) : Z := SFtrunc x mod 2 ^ 32.

(** [(size_t)x] on a 64-bit target. *)
Definition to_size_t (x : spec_float) : Z := SFtrunc x mod 2 ^ 64.

(** A decimal literal with three fractional digits, e.g. [8.176], given in
    thousandths: the nearest [double]. *)
Definition milli (k : Z) : double := F64.div (F64.of_Z k) (F64.of_Z 1000).

(** A [float] literal [n / 10^k]. *)
Definition f32_lit (n : Z) (k : Z) : float := F32.div (F32.of_Z n) (F32.of_Z (10 ^ k)).

(** ** Public configuration records ([midi_sampler.h]) *)

Record ms_audio_config_t := {
  cfg_sample_rate : Z;      (* uint32_t *)
  channels : Z;             (* uint16_t *)
  max_polyphony : Z;        (* uint16_t *)
  buffer_size : Z           (* size_t *)
}.

Record ms_envelope_t := {
  attack_time : float;
  decay_time : float;
  sustain_level : float;
  release_time : float
}.

Record ms_sample_metadata_t := {
  root_note : Z;            (* uint8_t *)
  velocity_low : Z;         (* uint8_t *)
  velocity_high : Z;        (* uint8_t *)
  loop_enabled : bool;
  loop_start : Z;           (* uint32_t *)
  loop_end : Z              (* uint32_t *)
}.

(** ** Samples and instruments ([internal.h] / [internal_rt.h]) *)

Definition MS_MAX_SAMPLES_PER_INSTRUMENT : Z := 128.
Definition MS_MAX_VOICES : Z := 64.

Record ms_sample_data_t := {
  data : list float;        (* float *data *)
  num_frames : Z;           (* size_t *)
  smp_channels : Z;         (* uint16_t *)
  meta : ms_sample_metadata_t
}.

(** [samples] holds the first [num_samples] entries of the C array, so
    [num_samples] is its length.  [inst_sampler] tells whether the
    [sampler] back pointer is set. *)
Record ms_instrument_t := {
  samples : list ms_sample_data_t;
  inst_envelope : ms_envelope_t;
  pitch_bend_range : float;
  current_pitch_bend : Z;   (* int16_t *)
  inst_sampler : bool
}.

Definition num_samples (i : ms_instrument_t) : Z := Z.of_nat (length (samples i)).

(** *** [instrument_find_sample] ([sampler.c] 177-213, [sampler_rt.c] 244-283)

    The two builds have the same body (the real-time one adds a prefetch
    hint).  The loop state is the pair [(best_match, min_note_distance)]. *)

Definition find_state : Type := option ms_sample_data_t * Z.

(** Body of the first loop: only samples whose velocity range holds
    [velocity] compete. *)
Definition velocity_step (note velocity : Z) (st : find_state)
    (sample : ms_sample_data_t) : find_state :=
  let '(best_match, min_note_distance) := st in
  if (velocity_low (meta sample) <=? velocity) &&
     (velocity <=? velocity_high (meta sample))
  then
    let note_distance := Z.abs (note - root_note (meta sample)) in
    if note_distance <? min_note_distance
    then (Some sample, note_distance)
    else st
  else st.

(** Body of the fallback loop: every sample competes. *)
Definition closest_step (note : Z) (st : find_state)
    (sample : ms_sample_data_t) : find_state :=
  let '(best_match, min_note_distance) := st in
  let note_distance := Z.abs (note - root_note (meta sample)) in
  if note_distance <? min_note_distance
  then (Some sample, note_distance)
  else st.

Definition instrument_find_sample (instrument : option ms_instrument_t)
    (note velocity : Z) : option ms_sample_data_t :=
  match instrument with
  | None => None
  | Some inst =>
      let st := fold_left (velocity_step note velocity) (samples inst) (None, 128) in
      match fst st with
      | None =>
          if 0 <? num_samples inst
          then fst (fold_left (closest_step note) (samples inst) st)
          else None
      | Some s => Some s
      end
  end.

(** Specification-side vocabulary for sample resolution. *)
Definition velocity_match (velocity : Z) (s : ms_sample_data_t) : Prop :=
  velocity_low (meta s) <= velocity <= velocity_high (meta s).

Definition note_distance (note : Z) (s : ms_sample_data_t) : Z :=
  Z.abs (note - root_note (meta s)).

(** ** Envelope stages *)

Inductive envelope_stage_t :=
  | ENV_IDLE
  | ENV_ATTACK
  | ENV_DECAY
  | ENV_SUSTAIN
  | ENV_RELEASE.

(** The closing clamp of both [envelope_process] bodies: two tests in a
    row, the second one on the result of the first. *)
Definition clamp_level (level : float) : float :=
  let level1 := if F32.ltb level F32.zero then F32.zero else level in
  if F32.ltb F32.one level1 then F32.one else level1.

(** [stage_samples == 0 ? 1 : stage_samples] *)
Definition at_least_one (n : Z) : Z := if n =? 0 then 1 else n.

(** [x++] on a [uint32_t]. *)
Definition incr32 (x : Z) : Z := (x + 1) mod 2 ^ 32.

Definition zero_envelope_params : ms_envelope_t :=
  {| attack_time := F32.zero; decay_time := F32.zero;
     sustain_level := F32.zero; release_time := F32.zero |}.

(** [memset(output, 0, n * sizeof(float))] on a buffer of
    [length out] floats. *)
Definition memset_zero (n : nat) (out : list float) : list float :=
  replicate (n `min` length out) F32.zero ++ drop n out.

(** [output[i] += v] *)
Definition mix_into (out : list float) (i : nat) (v : float) : list float :=
  alter (fun x => F32.add x v) i out.

(** [data[i]]; reading past the buffer has no defined result in C and
    reads as [0.0f] here. *)
Definition read_sample (d : list float) (i : Z) : float :=
  default F32.zero (d !! Z.to_nat i).

(** * The plain build *)

Module Core.

(** ** Envelope generator ([src/core/envelope.c]) *)

Record envelope_generator_t := {
  stage : envelope_stage_t;
  current_level : float;
  sample_rate : float;
  params : ms_envelope_t;
  stage_samples : Z;        (* uint32_t *)
  samples_processed : Z     (* uint32_t *)
}.

(** A zeroed generator ([memset]). *)
Definition zero_envelope : envelope_generator_t :=
  {| stage := ENV_IDLE; current_level := F32.zero; sample_rate := F32.zero;
     params := zero_envelope_params; stage_samples := 0; samples_processed := 0 |}.

(** [envelope_init]; a [NULL] [params] leaves the generator as it was. *)
Definition envelope_init (env : envelope_generator_t) (rate : float)
    (p : option ms_envelope_t) : envelope_generator_t :=
  match p with
  | None => env
  | Some p =>
      {| stage := ENV_IDLE; current_level := F32.zero; sample_rate := rate;
         params := p; stage_samples := 0; samples_processed := 0 |}
  end.

Definition envelope_trigger (env : envelope_generator_t) : envelope_generator_t :=
  {| stage := ENV_ATTACK;
     current_level := current_level env;
     sample_rate := sample_rate env;
     params := params env;
     stage_samples :=
       at_least_one (to_uint32 (F32.mul (attack_time (params env)) (sample_rate env)));
     samples_processed := 0 |}.

Definition envelope_release (env : envelope_generator_t) : envelope_generator_t :=
  {| stage := ENV_RELEASE;
     current_level := current_level env;
     sample_rate := sample_rate env;
     params := params env;
     stage_samples :=
       at_least_one (to_uint32 (F32.mul (release_time (params env)) (sample_rate env)));
     samples_processed := 0 |}.

(** The [switch] of [envelope_process], before the clamp. *)
Definition envelope_advance (env : envelope_generator_t) : envelope_generator_t :=
  match stage env with
  | ENV_IDLE =>
      {| stage := ENV_IDLE; current_level := F32.zero;
         sample_rate := sample_rate env; params := params env;
         stage_samples := stage_samples env;
         samples_processed := samples_processed env |}
  | ENV_ATTACK =>
      if samples_processed env <? stage_samples env then
        {| stage := ENV_ATTACK;
           current_level :=
             F32.div (F32.of_Z (samples_processed env)) (F32.of_Z (stage_samples env));
           sample_rate := sample_rate env; params := params env;
           stage_samples := stage_samples env;
           samples_processed := incr32 (samples_processed env) |}
      else
        {| stage := ENV_DECAY; current_level := F32.one;
           sample_rate := sample_rate env; params := params env;
           stage_samples :=
             at_least_one (to_uint32 (F32.mul (decay_time (params env)) (sample_rate env)));
           samples_processed := 0 |}
  | ENV_DECAY =>
      if samples_processed env <? stage_samples env then
        let t := F32.div (F32.of_Z (samples_processed env)) (F32.of_Z (stage_samples env)) in
        {| stage := ENV_DECAY;
           current_level :=
             F32.sub F32.one (F32.mul t (F32.sub F32.one (sustain_level (params env))));
           sample_rate := sample_rate env; params := params env;
           stage_samples := stage_samples env;
           samples_processed := incr32 (samples_processed env) |}
      else
        {| stage := ENV_SUSTAIN; current_level := sustain_level (params env);
           sample_rate := sample_rate env; params := params env;
           stage_samples := stage_samples env;
           samples_processed := samples_processed env |}
  | ENV_SUSTAIN =>
      {| stage := ENV_SUSTAIN; current_level := sustain_level (params env);
         sample_rate := sample_rate env; params := params env;
         stage_samples := stage_samples env;
         samples_processed := samples_processed env |}
  | ENV_RELEASE =>
      if samples_processed env <? stage_samples env then
        let start_level := sustain_level (params env) in
        let t := F32.div (F32.of_Z (samples_processed env)) (F32.of_Z (stage_samples env)) in
        {| stage := ENV_RELEASE;
           current_level := F32.mul start_level (F32.sub F32.one t);
           sample_rate := sample_rate env; params := params env;
           stage_samples := stage_samples env;
           samples_processed := incr32 (samples_processed env) |}
      else
        {| stage := ENV_IDLE; current_level := F32.zero;
           sample_rate := sample_rate env; params := params env;
           stage_samples := stage_samples env;
           samples_processed := samples_processed env |}
  end.

Definition set_level (env : envelope_generator_t) (l : float) : envelope_generator_t :=
  {| stage := stage env; current_level := l;
     sample_rate := sample_rate env; params := params env;
     stage_samples := stage_samples env;
     samples_processed := samples_processed env |}.

(** [envelope_process]: the returned level is the one held on entry. *)
Definition envelope_process (env : envelope_generator_t)
  : float * envelope_generator_t :=
  let output := current_level env in
  let env1 := envelope_advance env in
  (output, set_level env1 (clamp_level (current_level env1))).

Definition envelope_is_active (env : envelope_generator_t) : bool :=
  match stage env with
  | ENV_IDLE => false
  | _ => true
  end.

(** [n] calls of [envelope_process] in a row: the levels returned, oldest
    first, and the generator afterwards. *)
Fixpoint envelope_run (n : nat) (env : envelope_generator_t)
  : list float * envelope_generator_t :=
  match n with
  | O => ([], env)
  | S n' =>
      let '(o, env1) := envelope_process env in
      let '(os, env2) := envelope_run n' env1 in
      (o :: os, env2)
  end.

(** ** Voice ([voice.c]) *)

Record voice_t := {
  active : bool;
  voice_id : Z;                         (* uint32_t *)
  note : Z;                             (* uint8_t *)
  velocity : Z;                         (* uint8_t *)
  sample : option ms_sample_data_t;     (* ms_sample_data_t *sample *)
  playback_position : double;
  playback_speed : double;
  envelope : envelope_generator_t;
  pitch_bend_multiplier : float;
  instrument : option nat               (* struct ms_instrument_t *instrument *)
}.

(** [voice_init]: [memset] to zero, then the two assignments. *)
Definition voice_init (id : Z) (rate : float) : voice_t :=
  {| active := false; voice_id := id; note := 0; velocity := 0;
     sample := None; playback_position := F64.zero; playback_speed := F64.zero;
     envelope := zero_envelope; pitch_bend_multiplier := F32.one;
     instrument := None |}.

(** A voice slot that [calloc] zeroed and no [voice_init] touched. *)
Definition zero_voice : voice_t :=
  {| active := false; voice_id := 0; note := 0; velocity := 0;
     sample := None; playback_position := F64.zero; playback_speed := F64.zero;
     envelope := zero_envelope; pitch_bend_multiplier := F32.zero;
     instrument := None |}.

Section Libm.

(** [pow] of the C library, which is not part of the repository. *)
Variable pow : double -> double -> double.

(** [440.0 * pow(2.0, (note - 69) / 12.0)] *)
Definition midi_note_to_frequency (n : Z) : double :=
  F64.mul (F64.of_Z 440)
          (pow (F64.of_Z 2) (F64.div (F64.of_Z (n - 69)) (F64.of_Z 12))).

(** [voice_trigger]; a [NULL] sample or envelope leaves the voice alone. *)
Definition voice_trigger (voice : voice_t) (smp : option ms_sample_data_t)
    (n vel : Z) (env : option ms_envelope_t) : voice_t :=
  match smp, env with
  | Some s, Some e =>
      let target_freq := midi_note_to_frequency n in
      let sample_freq := midi_note_to_frequency (root_note (meta s)) in
      {| active := true; voice_id := voice_id voice; note := n; velocity := vel;
         sample := Some s; playback_position := F64.zero;
         playback_speed :=
           F64.mul (F64.div target_freq sample_freq)
                   (F64.of_float (pitch_bend_multiplier voice));
         envelope :=
           envelope_trigger (envelope_init (envelope voice) (F32.of_Z 44100) (Some e));
         pitch_bend_multiplier := pitch_bend_multiplier voice;
         instrument := instrument voice |}
  | _, _ => voice
  end.

End Libm.

Definition voice_release (voice : voice_t) : voice_t :=
  {| active := active voice; voice_id := voice_id voice; note := note voice;
     velocity := velocity voice; sample := sample voice;
     playback_position := playback_position voice;
     playback_speed := playback_speed voice;
     envelope := envelope_release (envelope voice);
     pitch_bend_multiplier := pitch_bend_multiplier voice;
     instrument := instrument voice |}.

(** The locals of the frame loop of [voice_process] that change from one
    frame to the next, with the output buffer. *)
Record frame_state := {
  fs_position : double;
  fs_envelope : envelope_generator_t;
  fs_active : bool;
  fs_output : list float
}.

(** The end-of-sample test that opens every frame: [None] is the [break]
    (the voice goes inactive), otherwise the position the frame reads at. *)
Definition check_bounds (smp : ms_sample_data_t) (position : double)
  : option double :=
  if F64.leb (F64.of_Z (num_frames smp)) position then
    if loop_enabled (meta smp) && (loop_start (meta smp) <? loop_end (meta smp))
    then Some (F64.of_Z (loop_start (meta smp)))
    else None
  else Some position.

(** Linear interpolation at [position]; a stereo source is read on its
    left channel only. *)
Definition interpolate (smp : ms_sample_data_t) (position : double) : float :=
  let index := to_size_t position in
  let frac := F32.of_double (F64.sub position (F64.of_Z index)) in
  if smp_channels smp =? 1 then
    let s0 := read_sample (data smp) index in
    let s1 := if index + 1 <? num_frames smp
              then read_sample (data smp) (index + 1) else s0 in
    F32.add s0 (F32.mul frac (F32.sub s1 s0))
  else
    let s0 := read_sample (data smp) (index * 2) in
    let s1 := if index + 1 <? num_frames smp
              then read_sample (data smp) ((index + 1) * 2) else s0 in
    F32.add s0 (F32.mul frac (F32.sub s1 s0)).

(** One turn of the frame loop; the flag tells whether the loop goes on
    ([false] is a [break]). *)
Definition voice_frame (smp : ms_sample_data_t) (speed : double)
    (velocity_gain : float) (chans : Z) (i : nat) (st : frame_state)
  : bool * frame_state :=
  match check_bounds smp (fs_position st) with
  | None =>
      (false, {| fs_position := fs_position st; fs_envelope := fs_envelope st;
                 fs_active := false; fs_output := fs_output st |})
  | Some position =>
      let sample_value := interpolate smp position in
      let '(env_level, env1) := envelope_process (fs_envelope st) in
      let final_value := F32.mul (F32.mul sample_value env_level) velocity_gain in
      let out1 :=
        if chans =? 1 then mix_into (fs_output st) i final_value
        else mix_into (mix_into (fs_output st) (i * 2) final_value)
                      (i * 2 + 1) final_value in
      let position1 := F64.add position speed in
      if envelope_is_active env1 then
        (true, {| fs_position := position1; fs_envelope := env1;
                  fs_active := fs_active st; fs_output := out1 |})
      else
        (false, {| fs_position := position1; fs_envelope := env1;
                   fs_active := false; fs_output := out1 |})
  end.

(** The frame loop: [n] frames still to do, starting at frame [i]. *)
Fixpoint voice_frames (smp : ms_sample_data_t) (speed : double)
    (velocity_gain : float) (chans : Z) (n : nat) (i : nat) (st : frame_state)
  : frame_state :=
  match n with
  | O => st
  | S n' =>
      let '(go_on, st1) := voice_frame smp speed velocity_gain chans i st in
      if go_on then voice_frames smp speed velocity_gain chans n' (S i) st1
      else st1
  end.

(** [voice_process]; [frames] is [num_frames], [chans] the output channel
    count.  A [NULL] output, an inactive voice or a voice without a sample
    returns at once. *)
Definition voice_process (voice : voice_t) (output : option (list float))
    (frames : Z) (chans : Z) : voice_t * option (list float) :=
  match output, sample voice with
  | Some out, Some smp =>
      if active voice then
        let velocity_gain := F32.div (F32.of_Z (velocity voice)) (F32.of_Z 127) in
        let st := voice_frames smp (playback_speed voice) velocity_gain chans
                    (Z.to_nat frames) 0%nat
                    {| fs_position := playback_position voice;
                       fs_envelope := envelope voice;
                       fs_active := true;
                       fs_output := out |} in
        ({| active := fs_active st; voice_id := voice_id voice;
            note := note voice; velocity := velocity voice;
            sample := sample voice;
            playback_position := fs_position st;
            playback_speed := playback_speed voice;
            envelope := fs_envelope st;
            pitch_bend_multiplier := pitch_bend_multiplier voice;
            instrument := instrument voice |},
         Some (fs_output st))
      else (voice, output)
  | _, _ => (voice, output)
  end.

Definition voice_is_active (voice : option voice_t) : bool :=
  match voice with
  | Some v => active v
  | None => false
  end.

(** ** Sampler ([sampler.c])

    The [pthread] mutex that brackets every entry point serialises the
    calls; each call is modelled as one atomic step. *)

Record ms_sampler_t := {
  config : ms_audio_config_t;
  voices : list voice_t;                (* voice_t voices[MS_MAX_VOICES] *)
  next_voice_id : Z;                    (* uint32_t *)
  playback_event_index : Z;             (* size_t *)
  playback_sample_count : Z;            (* uint64_t *)
  is_playing : bool
}.

(** The bound [i < max_polyphony && i < MS_MAX_VOICES] of every pool loop. *)
Definition pool_size (cfg : ms_audio_config_t) : nat :=
  Z.to_nat (Z.min (max_polyphony cfg) MS_MAX_VOICES).

(** The sampler [ms_sampler_create] builds: [calloc] zeroes all 64 slots
    and the loop initialises the first [pool_size]. *)
Definition new_sampler (c : ms_audio_config_t) : ms_sampler_t :=
  let n := pool_size c in
  {| config := c;
     voices :=
       map (fun i => voice_init (1 + Z.of_nat i) (F32.of_Z (cfg_sample_rate c)))
           (seq 0 n)
       ++ replicate (Z.to_nat MS_MAX_VOICES - n) zero_voice;
     next_voice_id := 1 + Z.of_nat n;
     playback_event_index := 0;
     playback_sample_count := 0;
     is_playing := false |}.

(** [ms_sampler_create] once the allocation has succeeded. *)
Definition ms_sampler_create (cfg : option ms_audio_config_t)
  : ms_error_t * option ms_sampler_t :=
  match cfg with
  | None => (MS_ERROR_INVALID_PARAM, None)
  | Some c => (MS_SUCCESS, Some (new_sampler c))
  end.

(** What an instrument pointer points at. *)
Definition deref (heap : list ms_instrument_t) (p : option nat)
  : option ms_instrument_t :=
  match p with
  | Some a => heap !! a
  | None => None
  end.

(** The allocation scan: index of the first inactive slot among the first
    [n], if any. *)
Definition first_inactive (n : nat) (vs : list voice_t) : option nat :=
  fst <$> list_find (fun v => active v = false) (take n vs).

(** The slot a note-on takes: the first inactive one, else slot 0. *)
Definition available_voice (n : nat) (vs : list voice_t) : nat :=
  default 0%nat (first_inactive n vs).

Definition set_instrument (v : voice_t) (p : option nat) : voice_t :=
  {| active := active v; voice_id := voice_id v; note := note v;
     velocity := velocity v; sample := sample v;
     playback_position := playback_position v;
     playback_speed := playback_speed v; envelope := envelope v;
     pitch_bend_multiplier := pitch_bend_multiplier v; instrument := p |}.

Definition set_voices (s : ms_sampler_t) (vs : list voice_t) : ms_sampler_t :=
  {| config := config s; voices := vs; next_voice_id := next_voice_id s;
     playback_event_index := playback_event_index s;
     playback_sample_count := playback_sample_count s;
     is_playing := is_playing s |}.

Section Libm.

Variable pow : double -> double -> double.

(** [ms_note_on].  [voice_id] is the cell behind the output pointer
    ([None] for a [NULL] pointer); the third component of the result is
    that cell after the call. *)
Definition ms_note_on (heap : list ms_instrument_t) (s : ms_sampler_t)
    (instrument : option nat) (n vel : Z) (voice_id_out : option Z)
  : ms_error_t * ms_sampler_t * option Z :=
  match deref heap instrument with
  | None => (MS_ERROR_INVALID_PARAM, s, voice_id_out)
  | Some inst =>
      if negb (inst_sampler inst) then (MS_ERROR_INVALID_PARAM, s, voice_id_out)
      else
        match instrument_find_sample (Some inst) n vel with
        | None => (MS_ERROR_INVALID_PARAM, s, voice_id_out)
        | Some smp =>
            let j := available_voice (pool_size (config s)) (voices s) in
            let vs :=
              alter (fun v => set_instrument
                                (voice_trigger pow v (Some smp) n vel
                                               (Some (inst_envelope inst)))
                                instrument)
                    j (voices s) in
            let id := default 0 (voice_id <$> vs !! j) in
            (MS_SUCCESS, set_voices s vs,
             match voice_id_out with
             | Some _ => Some id
             | None => None
             end)
        end
  end.

End Libm.

(** The release loop of [ms_note_off] over the first [n] slots. *)
Definition release_matching (n : nat) (vs : list voice_t) (nt : Z)
    (instr : option nat) : list voice_t :=
  map (fun v => if active v && (note v =? nt) && bool_decide (instrument v = instr)
                then voice_release v else v) (take n vs)
  ++ drop n vs.

Definition ms_note_off (heap : list ms_instrument_t) (s : ms_sampler_t)
    (instrument : option nat) (n : Z) : ms_error_t * ms_sampler_t :=
  match deref heap instrument with
  | None => (MS_ERROR_INVALID_PARAM, s)
  | Some inst =>
      if negb (inst_sampler inst) then (MS_ERROR_INVALID_PARAM, s)
      else (MS_SUCCESS,
            set_voices s (release_matching (pool_size (config s)) (voices s) n instrument))
  end.

Definition deactivate (v : voice_t) : voice_t :=
  {| active := false; voice_id := voice_id v; note := note v;
     velocity := velocity v; sample := sample v;
     playback_position := playback_position v;
     playback_speed := playback_speed v; envelope := envelope v;
     pitch_bend_multiplier := pitch_bend_multiplier v;
     instrument := instrument v |}.

Definition ms_all_notes_off (s : ms_sampler_t) : ms_sampler_t :=
  set_voices s (map deactivate (take (pool_size (config s)) (voices s))
                ++ drop (pool_size (config s)) (voices s)).

(** The mixing loop of [ms_process] over the first [n] slots. *)
Fixpoint process_voices (n : nat) (vs : list voice_t) (out : option (list float))
    (frames chans : Z) : list voice_t * option (list float) :=
  match n, vs with
  | S n', v :: vs' =>
      let '(v1, out1) :=
        if active v then voice_process v out frames chans else (v, out) in
      let '(vs1, out2) := process_voices n' vs' out1 frames chans in
      (v1 :: vs1, out2)
  | _, _ => (vs, out)
  end.

(** [ms_process]: result code, sampler afterwards, output buffer
    afterwards. *)
Definition ms_process (sampler : option ms_sampler_t)
    (output : option (list float)) (frames : Z)
  : ms_error_t * option ms_sampler_t * option (list float) :=
  match sampler, output with
  | Some s, Some out =>
      let buffer_size := (frames * channels (config s)) mod 2 ^ 64 in
      let out0 := memset_zero (Z.to_nat buffer_size) out in
      let '(vs, out1) :=
        process_voices (pool_size (config s)) (voices s) (Some out0)
                       frames (channels (config s)) in
      (MS_SUCCESS,
       Some {| config := config s; voices := vs;
               next_voice_id := next_voice_id s;
               playback_event_index := playback_event_index s;
               playback_sample_count :=
                 (playback_sample_count s + frames) mod 2 ^ 64;
               is_playing := is_playing s |},
       out1)
  | _, _ => (MS_ERROR_INVALID_PARAM, sampler, output)
  end.

(** [ms_instrument_load_sample_memory] once both allocations have
    succeeded: the first [num_frames * channels] floats are copied. *)
Definition ms_instrument_load_sample_memory (instrument : option ms_instrument_t)
    (d : option (list float)) (frames : Z) (chans : Z)
    (metadata : option ms_sample_metadata_t)
  : ms_error_t * option ms_instrument_t :=
  match instrument, d, metadata with
  | Some inst, Some d, Some m =>
      if MS_MAX_SAMPLES_PER_INSTRUMENT <=? num_samples inst
      then (MS_ERROR_BUFFER_OVERFLOW, instrument)
      else
        let smp := {| data := take (Z.to_nat (frames * chans)) d;
                      num_frames := frames; smp_channels := chans; meta := m |} in
        (MS_SUCCESS,
         Some {| samples := samples inst ++ [smp];
                 inst_envelope := inst_envelope inst;
                 pitch_bend_range := pitch_bend_range inst;
                 current_pitch_bend := current_pitch_bend inst;
                 inst_sampler := inst_sampler inst |})
  | _, _, _ => (MS_ERROR_INVALID_PARAM, instrument)
  end.

(** [ms_instrument_create] once the allocation has succeeded. *)
Definition ms_instrument_create (sampler_present : bool)
  : ms_error_t * option ms_instrument_t :=
  if sampler_present then
    (MS_SUCCESS,
     Some {| samples := [];
             inst_envelope :=
               {| attack_time := f32_lit 1 2; decay_time := f32_lit 1 1;
                  sustain_level := f32_lit 7 1; release_time := f32_lit 3 1 |};
             pitch_bend_range := F32.of_Z 2;
             current_pitch_bend := 0;
             inst_sampler := true |})
  else (MS_ERROR_INVALID_PARAM, None).

Definition ms_instrument_set_envelope (instrument : option ms_instrument_t)
    (env : option ms_envelope_t) : ms_error_t * option ms_instrument_t :=
  match instrument, env with
  | Some inst, Some e =>
      (MS_SUCCESS,
       Some {| samples := samples inst; inst_envelope := e;
               pitch_bend_range := pitch_bend_range inst;
               current_pitch_bend := current_pitch_bend inst;
               inst_sampler := inst_sampler inst |})
  | _, _ => (MS_ERROR_INVALID_PARAM, instrument)
  end.

(** ** Pitch bend ([sampler.c] 290-314) *)

Definition set_pitch_bend_multiplier (v : voice_t) (m : float) : voice_t :=
  {| active := active v; voice_id := voice_id v; note := note v;
     velocity := velocity v; sample := sample v;
     playback_position := playback_position v;
     playback_speed := playback_speed v; envelope := envelope v;
     pitch_bend_multiplier := m; instrument := instrument v |}.

Definition set_current_pitch_bend (inst : ms_instrument_t) (value : Z)
  : ms_instrument_t :=
  {| samples := samples inst; inst_envelope := inst_envelope inst;
     pitch_bend_range := pitch_bend_range inst;
     current_pitch_bend := value; inst_sampler := inst_sampler inst |}.

Section Libm.

Variable pow : double -> double -> double.

(** [pow(2.0f, ((value / 8192.0f) * pitch_bend_range) / 12.0f)], stored
    in a [float]: the two arguments are promoted to [double], the result
    is rounded back. *)
Definition bend_multiplier (value : Z) (range : float) : float :=
  let semitones := F32.mul (F32.div (F32.of_Z value) (F32.of_Z 8192)) range in
  F32.of_double (pow (F64.of_float (F32.of_Z 2))
                     (F64.of_float (F32.div semitones (F32.of_Z 12)))).

(** The loop of [ms_pitch_bend], over all [MS_MAX_VOICES] slots. *)
Definition bend_matching (vs : list voice_t) (instr : option nat) (m : float)
  : list voice_t :=
  map (fun v => if active v && bool_decide (instrument v = instr)
                then set_pitch_bend_multiplier v m else v)
      (take (Z.to_nat MS_MAX_VOICES) vs)
  ++ drop (Z.to_nat MS_MAX_VOICES) vs.

(** [ms_pitch_bend]; [value] is an [int16_t].  The instrument is updated
    in the heap, the voices in the sampler it is bound to. *)
Definition ms_pitch_bend (heap : list ms_instrument_t) (s : ms_sampler_t)
    (instr : option nat) (value : Z)
  : ms_error_t * list ms_instrument_t * ms_sampler_t :=
  match instr, deref heap instr with
  | Some a, Some inst =>
      let heap1 := <[a := set_current_pitch_bend inst value]> heap in
      if inst_sampler inst then
        (MS_SUCCESS, heap1,
         set_voices s (bend_matching (voices s) instr
                         (bend_multiplier value (pitch_bend_range inst))))
      else (MS_SUCCESS, heap1, s)
  | _, _ => (MS_ERROR_INVALID_PARAM, heap, s)
  end.

End Libm.

(** ** Playback flags ([sampler.c] 387-409) *)

Definition ms_start_playback (sampler : option ms_sampler_t)
  : ms_error_t * option ms_sampler_t :=
  match sampler with
  | None => (MS_ERROR_INVALID_PARAM, None)
  | Some s =>
      (MS_SUCCESS,
       Some {| config := config s; voices := voices s;
               next_voice_id := next_voice_id s;
               playback_event_index := 0; playback_sample_count := 0;
               is_playing := true |})
  end.

Definition ms_stop_playback (sampler : option ms_sampler_t) : option ms_sampler_t :=
  match sampler with
  | None => None
  | Some s =>
      Some {| config := config s; voices := voices s;
              next_voice_id := next_voice_id s;
              playback_event_index := playback_event_index s;
              playback_sample_count := playback_sample_count s;
              is_playing := false |}
  end.

Definition ms_is_playing (sampler : option ms_sampler_t) : bool :=
  match sampler with
  | None => false
  | Some s => is_playing s
  end.

End Core.

(** * The real-time build *)

Module RT.

(** ** Envelope generator ([src/realtime/envelope_rt.c], [internal_rt.h]) *)

Record envelope_generator_t := {
  stage : envelope_stage_t;
  current_level : float;
  sample_rate : float;
  params : ms_envelope_t;
  attack_coeff : float;
  decay_coeff : float;
  release_coeff : float;
  stage_samples : Z;        (* uint32_t *)
  samples_processed : Z     (* uint32_t *)
}.

Definition zero_envelope : envelope_generator_t :=
  {| stage := ENV_IDLE; current_level := F32.zero; sample_rate := F32.zero;
     params := zero_envelope_params;
     attack_coeff := F32.zero; decay_coeff := F32.zero; release_coeff := F32.zero;
     stage_samples := 0; samples_processed := 0 |}.

(** [envelope_init] with its precomputed per-sample steps. *)
Definition envelope_init (env : envelope_generator_t) (rate : float)
    (p : option ms_envelope_t) : envelope_generator_t :=
  match p with
  | None => env
  | Some p =>
      let attack_samples := to_uint32 (F32.mul (attack_time p) rate) in
      let decay_samples := to_uint32 (F32.mul (decay_time p) rate) in
      let release_samples := to_uint32 (F32.mul (release_time p) rate) in
      {| stage := ENV_IDLE; current_level := F32.zero; sample_rate := rate;
         params := p;
         attack_coeff :=
           if 0 <? attack_samples
           then F32.div F32.one (F32.of_Z attack_samples) else F32.one;
         decay_coeff :=
           if 0 <? decay_samples
           then F32.div (F32.sub F32.one (sustain_level p)) (F32.of_Z decay_samples)
           else F32.zero;
         release_coeff :=
           if 0 <? release_samples
           then F32.div (sustain_level p) (F32.of_Z release_samples)
           else sustain_level p;
         stage_samples := 0; samples_processed := 0 |}
  end.

(** Record update helper: everything but stage, level and the two
    counters is kept by every operation below. *)
Definition with_state (env : envelope_generator_t) (st : envelope_stage_t)
    (level : float) (n processed : Z) : envelope_generator_t :=
  {| stage := st; current_level := level;
     sample_rate := sample_rate env; params := params env;
     attack_coeff := attack_coeff env; decay_coeff := decay_coeff env;
     release_coeff := release_coeff env;
     stage_samples := n; samples_processed := processed |}.

Definition envelope_trigger (env : envelope_generator_t) : envelope_generator_t :=
  with_state env ENV_ATTACK (current_level env)
    (at_least_one (to_uint32 (F32.mul (attack_time (params env)) (sample_rate env))))
    0.

Definition envelope_release (env : envelope_generator_t) : envelope_generator_t :=
  with_state env ENV_RELEASE (current_level env)
    (at_least_one (to_uint32 (F32.mul (release_time (params env)) (sample_rate env))))
    0.

(** The [switch] of the inlined [envelope_process] for the four stages
    that fall through to the clamp. *)
Definition envelope_advance (env : envelope_generator_t) : envelope_generator_t :=
  match stage env with
  | ENV_IDLE => env
  | ENV_ATTACK =>
      if samples_processed env <? stage_samples env then
        with_state env ENV_ATTACK
          (F32.add (current_level env) (attack_coeff env))
          (stage_samples env) (incr32 (samples_processed env))
      else
        with_state env ENV_DECAY F32.one
          (to_uint32 (F32.mul (decay_time (params env)) (sample_rate env))) 0
  | ENV_DECAY =>
      if samples_processed env <? stage_samples env then
        with_state env ENV_DECAY
          (F32.sub (current_level env) (decay_coeff env))
          (stage_samples env) (incr32 (samples_processed env))
      else
        with_state env ENV_SUSTAIN (sustain_level (params env))
          (stage_samples env) (samples_processed env)
  | ENV_SUSTAIN =>
      with_state env ENV_SUSTAIN (sustain_level (params env))
        (stage_samples env) (samples_processed env)
  | ENV_RELEASE =>
      if samples_processed env <? stage_samples env then
        with_state env ENV_RELEASE
          (F32.sub (current_level env) (release_coeff env))
          (stage_samples env) (incr32 (samples_processed env))
      else
        with_state env ENV_IDLE F32.zero
          (stage_samples env) (samples_processed env)
  end.

(** [envelope_process]: [ENV_IDLE] returns [0.0f] at once and leaves the
    generator alone; the other stages return the level held on entry. *)
Definition envelope_process (env : envelope_generator_t)
  : float * envelope_generator_t :=
  let output := current_level env in
  match stage env with
  | ENV_IDLE => (F32.zero, env)
  | _ =>
      let env1 := envelope_advance env in
      (output,
       with_state env1 (stage env1) (clamp_level (current_level env1))
         (stage_samples env1) (samples_processed env1))
  end.

Definition envelope_is_active (env : envelope_generator_t) : bool :=
  match stage env with
  | ENV_IDLE => false
  | _ => true
  end.

Fixpoint envelope_run (n : nat) (env : envelope_generator_t)
  : list float * envelope_generator_t :=
  match n with
  | O => ([], env)
  | S n' =>
      let '(o, env1) := envelope_process env in
      let '(os, env2) := envelope_run n' env1 in
      (o :: os, env2)
  end.

(** ** Voice ([voice_rt.c]) *)

(** [MIDI_FREQ_TABLE], each entry in thousandths of a hertz (the source
    writes every entry with three decimals). *)
Definition MIDI_FREQ_TABLE_milli : list Z := [
    8176; 8662; 9177; 9723; 10301; 10913; 11562; 12250;
    12978; 13750; 14568; 15434; 16352; 17324; 18354; 19445;
    20602; 21827; 23125; 24500; 25957; 27500; 29135; 30868;
    32703; 34648; 36708; 38891; 41203; 43654; 46249; 48999;
    51913; 55000; 58270; 61735; 65406; 69296; 73416; 77782;
    82407; 87307; 92499; 97999; 103826; 110000; 116541; 123471;
    130813; 138591; 146832; 155563; 164814; 174614; 184997; 195998;
    207652; 220000; 233082; 246942; 261626; 277183; 293665; 311127;
    329628; 349228; 369994; 391995; 415305; 440000; 466164; 493883;
    523251; 554365; 587330; 622254; 659255; 698456; 739989; 783991;
    830609; 880000; 932328; 987767; 1046502; 1108731; 1174659; 1244508;
    1318510; 1396913; 1479978; 1567982; 1661219; 1760000; 1864655; 1975533;
    2093005; 2217461; 2349318; 2489016; 2637020; 2793826; 2959955; 3135963;
    3322438; 3520000; 3729310; 3951066; 4186009; 4434922; 4698636; 4978032;
    5274041; 5587652; 5919911; 6271927; 6644875; 7040000; 7458620; 7902133;
    8372018; 8869844; 9397273; 9956063; 10548082; 11175303; 11839822; 12543854
  ].

Definition MIDI_FREQ_TABLE : list double := map milli MIDI_FREQ_TABLE_milli.

(** [MIDI_FREQ_TABLE[note & 0x7F]] *)
Definition midi_note_to_frequency (n : Z) : double :=
  default F64.zero (MIDI_FREQ_TABLE !! Z.to_nat (Z.land n 127)).

Record voice_t := {
  active : bool;
  voice_id : Z;                         (* uint32_t *)
  note : Z;                             (* uint8_t *)
  velocity : Z;                         (* uint8_t *)
  sample : option ms_sample_data_t;
  playback_position : double;
  playback_speed : double;
  envelope : envelope_generator_t;
  pitch_bend_multiplier : float;
  velocity_gain : float;
  instrument : option nat
}.

Definition voice_init (id : Z) (rate : float) : voice_t :=
  {| active := false; voice_id := id; note := 0; velocity := 0;
     sample := None; playback_position := F64.zero; playback_speed := F64.zero;
     envelope := zero_envelope; pitch_bend_multiplier := F32.one;
     velocity_gain := F32.zero; instrument := None |}.

Definition zero_voice : voice_t :=
  {| active := false; voice_id := 0; note := 0; velocity := 0;
     sample := None; playback_position := F64.zero; playback_speed := F64.zero;
     envelope := zero_envelope; pitch_bend_multiplier := F32.zero;
     velocity_gain := F32.zero; instrument := None |}.

Definition voice_trigger (voice : voice_t) (smp : option ms_sample_data_t)
    (n vel : Z) (env : option ms_envelope_t) : voice_t :=
  match smp, env with
  | Some s, Some e =>
      let target_freq := midi_note_to_frequency n in
      let sample_freq := midi_note_to_frequency (root_note (meta s)) in
      {| active := true; voice_id := voice_id voice; note := n; velocity := vel;
         sample := Some s; playback_position := F64.zero;
         playback_speed :=
           F64.mul (F64.div target_freq sample_freq)
                   (F64.of_float (pitch_bend_multiplier voice));
         envelope :=
           envelope_trigger (envelope_init (envelope voice) (F32.of_Z 44100) (Some e));
         pitch_bend_multiplier := pitch_bend_multiplier voice;
         velocity_gain :=
           F32.mul (F32.of_Z vel) (F32.div F32.one (F32.of_Z 127));
         instrument := instrument voice |}
  | _, _ => voice
  end.

Definition set_envelope (v : voice_t) (e : envelope_generator_t) : voice_t :=
  {| active := active v; voice_id := voice_id v; note := note v;
     velocity := velocity v; sample := sample v;
     playback_position := playback_position v;
     playback_speed := playback_speed v; envelope := e;
     pitch_bend_multiplier := pitch_bend_multiplier v;
     velocity_gain := velocity_gain v; instrument := instrument v |}.

Definition voice_release (voice : voice_t) : voice_t :=
  set_envelope voice (envelope_release (envelope voice)).

Record frame_state := {
  fs_position : double;
  fs_envelope : envelope_generator_t;
  fs_active : bool;
  fs_output : list float
}.

Definition check_bounds (smp : ms_sample_data_t) (position : double)
  : option double :=
  let max_frames := num_frames smp in
  if F64.leb (F64.of_Z max_frames) position then
    if loop_enabled (meta smp) && (loop_start (meta smp) <? loop_end (meta smp))
    then Some (F64.of_Z (loop_start (meta smp)))
    else None
  else Some position.

Definition interpolate (smp : ms_sample_data_t) (position : double) : float :=
  let is_mono := smp_channels smp =? 1 in
  let max_frames := num_frames smp in
  let index := to_size_t position in
  let frac := F32.of_double (F64.sub position (F64.of_Z index)) in
  if is_mono then
    let s0 := read_sample (data smp) index in
    let s1 := if index + 1 <? max_frames
              then read_sample (data smp) (index + 1) else s0 in
    F32.add s0 (F32.mul frac (F32.sub s1 s0))
  else
    let s0 := read_sample (data smp) (index * 2) in
    let s1 := if index + 1 <? max_frames
              then read_sample (data smp) ((index + 1) * 2) else s0 in
    F32.add s0 (F32.mul frac (F32.sub s1 s0)).

Definition voice_frame (smp : ms_sample_data_t) (speed : double)
    (gain : float) (chans : Z) (i : nat) (st : frame_state)
  : bool * frame_state :=
  let is_stereo_out := chans =? 2 in
  match check_bounds smp (fs_position st) with
  | None =>
      (false, {| fs_position := fs_position st; fs_envelope := fs_envelope st;
                 fs_active := false; fs_output := fs_output st |})
  | Some position =>
      let sample_value := interpolate smp position in
      let '(env_level, env1) := envelope_process (fs_envelope st) in
      let final_value := F32.mul (F32.mul sample_value env_level) gain in
      let out1 :=
        if is_stereo_out
        then mix_into (mix_into (fs_output st) (i * 2) final_value)
                      (i * 2 + 1) final_value
        else mix_into (fs_output st) i final_value in
      let position1 := F64.add position speed in
      if envelope_is_active env1 then
        (true, {| fs_position := position1; fs_envelope := env1;
                  fs_active := fs_active st; fs_output := out1 |})
      else
        (false, {| fs_position := position1; fs_envelope := env1;
                   fs_active := false; fs_output := out1 |})
  end.

Fixpoint voice_frames (smp : ms_sample_data_t) (speed : double)
    (gain : float) (chans : Z) (n : nat) (i : nat) (st : frame_state)
  : frame_state :=
  match n with
  | O => st
  | S n' =>
      let '(go_on, st1) := voice_frame smp speed gain chans i st in
      if go_on then voice_frames smp speed gain chans n' (S i) st1
      else st1
  end.

Definition voice_process (voice : voice_t) (output : option (list float))
    (frames : Z) (chans : Z) : voice_t * option (list float) :=
  match output, sample voice with
  | Some out, Some smp =>
      if active voice then
        let st := voice_frames smp (playback_speed voice) (velocity_gain voice)
                    chans (Z.to_nat frames) 0%nat
                    {| fs_position := playback_position voice;
                       fs_envelope := envelope voice;
                       fs_active := true;
                       fs_output := out |} in
        ({| active := fs_active st; voice_id := voice_id voice;
            note := note voice; velocity := velocity voice;
            sample := sample voice;
            playback_position := fs_position st;
            playback_speed := playback_speed voice;
            envelope := fs_envelope st;
            pitch_bend_multiplier := pitch_bend_multiplier voice;
            velocity_gain := velocity_gain voice;
            instrument := instrument voice |},
         Some (fs_output st))
      else (voice, output)
  | _, _ => (voice, output)
  end.

Definition voice_is_active (voice : option voice_t) : bool :=
  match voice with
  | Some v => active v
  | None => false
  end.

(** ** Sampler ([src/realtime/sampler_rt.c]) *)

Record ms_sampler_t := {
  config : ms_audio_config_t;
  voices : list voice_t;                (* voice_t voices[MS_MAX_VOICES] *)
  next_voice_id : Z;
  event_queue : rt_event_queue_t;
  playback_event_index : Z;
  playback_sample_count : Z;
  is_playing : bool;
  rt_priority : Z;
  rt_enabled : bool;
  frames_processed : Z;                 (* atomic_uint_fast64_t *)
  xruns : Z                             (* atomic_uint_fast32_t *)
}.

Definition MS_RT_PRIORITY : Z := 80.

Definition pool_size (cfg : ms_audio_config_t) : nat :=
  Z.to_nat (Z.min (max_polyphony cfg) MS_MAX_VOICES).

Definition new_sampler (c : ms_audio_config_t) : ms_sampler_t :=
  let n := pool_size c in
  {| config := c;
     voices :=
       map (fun i => voice_init (1 + Z.of_nat i) (F32.of_Z (cfg_sample_rate c)))
           (seq 0 n)
       ++ replicate (Z.to_nat MS_MAX_VOICES - n) zero_voice;
     next_voice_id := 1 + Z.of_nat n;
     event_queue := empty_queue;
     playback_event_index := 0;
     playback_sample_count := 0;
     is_playing := false;
     rt_priority := MS_RT_PRIORITY;
     rt_enabled := false;
     frames_processed := 0;
     xruns := 0 |}.

Definition ms_sampler_create (cfg : option ms_audio_config_t)
  : ms_error_t * option ms_sampler_t :=
  match cfg with
  | None => (MS_ERROR_INVALID_PARAM, None)
  | Some c => (MS_SUCCESS, Some (new_sampler c))
  end.

Definition deref (heap : list ms_instrument_t) (p : option nat)
  : option ms_instrument_t :=
  match p with
  | Some a => heap !! a
  | None => None
  end.

Definition set_queue (s : ms_sampler_t) (q : rt_event_queue_t) : ms_sampler_t :=
  {| config := config s; voices := voices s; next_voice_id := next_voice_id s;
     event_queue := q;
     playback_event_index := playback_event_index s;
     playback_sample_count := playback_sample_count s;
     is_playing := is_playing s; rt_priority := rt_priority s;
     rt_enabled := rt_enabled s; frames_processed := frames_processed s;
     xruns := xruns s |}.

Definition set_voices (s : ms_sampler_t) (vs : list voice_t) : ms_sampler_t :=
  {| config := config s; voices := vs; next_voice_id := next_voice_id s;
     event_queue := event_queue s;
     playback_event_index := playback_event_index s;
     playback_sample_count := playback_sample_count s;
     is_playing := is_playing s; rt_priority := rt_priority s;
     rt_enabled := rt_enabled s; frames_processed := frames_processed s;
     xruns := xruns s |}.

(** [ms_note_on]: the event is only queued; the [voice_id] cell is never
    written. *)
Definition ms_note_on (heap : list ms_instrument_t) (s : ms_sampler_t)
    (instrument : option nat) (n vel : Z) (voice_id_out : option Z)
  : ms_error_t * ms_sampler_t * option Z :=
  match deref heap instrument with
  | None => (MS_ERROR_INVALID_PARAM, s, voice_id_out)
  | Some inst =>
      if negb (inst_sampler inst) then (MS_ERROR_INVALID_PARAM, s, voice_id_out)
      else
        let event := {| ev_note := n; ev_velocity := vel; event_type := 0;
                        ev_instrument := instrument |} in
        let '(ok, q) := rt_queue_push (event_queue s) event in
        if ok then (MS_SUCCESS, set_queue s q, voice_id_out)
        else (MS_ERROR_BUFFER_OVERFLOW, s, voice_id_out)
  end.

Definition ms_note_off (heap : list ms_instrument_t) (s : ms_sampler_t)
    (instrument : option nat) (n : Z) : ms_error_t * ms_sampler_t :=
  match deref heap instrument with
  | None => (MS_ERROR_INVALID_PARAM, s)
  | Some inst =>
      if negb (inst_sampler inst) then (MS_ERROR_INVALID_PARAM, s)
      else
        let event := {| ev_note := n; ev_velocity := 0; event_type := 1;
                        ev_instrument := instrument |} in
        let '(ok, q) := rt_queue_push (event_queue s) event in
        if ok then (MS_SUCCESS, set_queue s q)
        else (MS_ERROR_BUFFER_OVERFLOW, s)
  end.

Definition first_inactive (n : nat) (vs : list voice_t) : option nat :=
  fst <$> list_find (fun v => active v = false) (take n vs).

Definition available_voice (n : nat) (vs : list voice_t) : nat :=
  default 0%nat (first_inactive n vs).

Definition set_instrument (v : voice_t) (p : option nat) : voice_t :=
  {| active := active v; voice_id := voice_id v; note := note v;
     velocity := velocity v; sample := sample v;
     playback_position := playback_position v;
     playback_speed := playback_speed v; envelope := envelope v;
     pitch_bend_multiplier := pitch_bend_multiplier v;
     velocity_gain := velocity_gain v; instrument := p |}.

Definition release_matching (n : nat) (vs : list voice_t) (nt : Z)
    (instr : option nat) : list voice_t :=
  map (fun v => if active v && (note v =? nt) && bool_decide (instrument v = instr)
                then voice_release v else v) (take n vs)
  ++ drop n vs.

Definition deactivate (v : voice_t) : voice_t :=
  {| active := false; voice_id := voice_id v; note := note v;
     velocity := velocity v; sample := sample v;
     playback_position := playback_position v;
     playback_speed := playback_speed v; envelope := envelope v;
     pitch_bend_multiplier := pitch_bend_multiplier v;
     velocity_gain := velocity_gain v; instrument := instrument v |}.

(** [ms_all_notes_off]: direct access, outside the event ring. *)
Definition ms_all_notes_off (s : ms_sampler_t) : ms_sampler_t :=
  set_voices s (map deactivate (take (pool_size (config s)) (voices s))
                ++ drop (pool_size (config s)) (voices s)).

(** What [process_events] does with one popped event. *)
Definition handle_event (heap : list ms_instrument_t) (cfg : ms_audio_config_t)
    (vs : list voice_t) (event : rt_event_t) : list voice_t :=
  let inst := deref heap (ev_instrument event) in
  if event_type event =? 0 then
    match instrument_find_sample inst (ev_note event) (ev_velocity event), inst with
    | Some smp, Some i =>
        let j := available_voice (pool_size cfg) vs in
        alter (fun v => set_instrument
                          (voice_trigger v (Some smp) (ev_note event)
                                         (ev_velocity event)
                                         (Some (inst_envelope i)))
                          (ev_instrument event))
              j vs
    | _, _ => vs
    end
  else release_matching (pool_size cfg) vs (ev_note event) (ev_instrument event).

(** The drain loop of [process_events], [fuel] turns left. *)
Fixpoint drain (heap : list ms_instrument_t) (fuel : nat) (s : ms_sampler_t)
  : ms_sampler_t :=
  match fuel with
  | O => s
  | S fuel' =>
      match rt_queue_pop (event_queue s) with
      | (None, _) => s
      | (Some event, q) =>
          drain heap fuel'
            (set_voices (set_queue s q)
               (handle_event heap (config s) (voices s) event))
      end
  end.

Definition process_events (heap : list ms_instrument_t) (s : ms_sampler_t)
  : ms_sampler_t :=
  drain heap RT_EVENT_QUEUE_SIZE s.

Fixpoint process_voices (n : nat) (vs : list voice_t) (out : option (list float))
    (frames chans : Z) : list voice_t * option (list float) :=
  match n, vs with
  | S n', v :: vs' =>
      let '(v1, out1) :=
        if active v then voice_process v out frames chans else (v, out) in
      let '(vs1, out2) := process_voices n' vs' out1 frames chans in
      (v1 :: vs1, out2)
  | _, _ => (vs, out)
  end.

Definition ms_process (heap : list ms_instrument_t)
    (sampler : option ms_sampler_t) (output : option (list float)) (frames : Z)
  : ms_error_t * option ms_sampler_t * option (list float) :=
  match sampler, output with
  | Some s, Some out =>
      let buffer_size := (frames * channels (config s)) mod 2 ^ 64 in
      let out0 := memset_zero (Z.to_nat buffer_size) out in
      let s1 := process_events heap s in
      let max_voices := pool_size (config s1) in
      let '(vs, out1) :=
        process_voices max_voices (voices s1) (Some out0)
                       frames (channels (config s1)) in
      let s2 := set_voices s1 vs in
      (MS_SUCCESS,
       Some {| config := config s2; voices := voices s2;
               next_voice_id := next_voice_id s2;
               event_queue := event_queue s2;
               playback_event_index := playback_event_index s2;
               playback_sample_count := playback_sample_count s2;
               is_playing := is_playing s2; rt_priority := rt_priority s2;
               rt_enabled := rt_enabled s2;
               frames_processed := (frames_processed s2 + frames) mod 2 ^ 64;
               xruns := xruns s2 |},
       out1)
  | _, _ => (MS_ERROR_INVALID_PARAM, sampler, output)
  end.

Definition ms_instrument_load_sample_memory (instrument : option ms_instrument_t)
    (d : option (list float)) (frames : Z) (chans : Z)
    (metadata : option ms_sample_metadata_t)
  : ms_error_t * option ms_instrument_t :=
  match instrument, d, metadata with
  | Some inst, Some d, Some m =>
      if MS_MAX_SAMPLES_PER_INSTRUMENT <=? num_samples inst
      then (MS_ERROR_BUFFER_OVERFLOW, instrument)
      else
        let smp := {| data := take (Z.to_nat (frames * chans)) d;
                      num_frames := frames; smp_channels := chans; meta := m |} in
        (MS_SUCCESS,
         Some {| samples := samples inst ++ [smp];
                 inst_envelope := inst_envelope inst;
                 pitch_bend_range := pitch_bend_range inst;
                 current_pitch_bend := current_pitch_bend inst;
                 inst_sampler := inst_sampler inst |})
  | _, _, _ => (MS_ERROR_INVALID_PARAM, instrument)
  end.

(** ** Instruments ([sampler_rt.c] 112-138, 221-229) *)

(** [ms_instrument_create] once the allocation has succeeded; the default
    envelope is shorter than the plain build's. *)
Definition ms_instrument_create (sampler_present : bool)
  : ms_error_t * option ms_instrument_t :=
  if sampler_present then
    (MS_SUCCESS,
     Some {| samples := [];
             inst_envelope :=
               {| attack_time := f32_lit 5 3; decay_time := f32_lit 5 2;
                  sustain_level := f32_lit 7 1; release_time := f32_lit 1 1 |};
             pitch_bend_range := F32.of_Z 2;
             current_pitch_bend := 0;
             inst_sampler := true |})
  else (MS_ERROR_INVALID_PARAM, None).

Definition ms_instrument_set_envelope (instrument : option ms_instrument_t)
    (env : option ms_envelope_t) : ms_error_t * option ms_instrument_t :=
  match instrument, env with
  | Some inst, Some e =>
      (MS_SUCCESS,
       Some {| samples := samples inst; inst_envelope := e;
               pitch_bend_range := pitch_bend_range inst;
               current_pitch_bend := current_pitch_bend inst;
               inst_sampler := inst_sampler inst |})
  | _, _ => (MS_ERROR_INVALID_PARAM, instrument)
  end.

(** ** Pitch bend ([sampler_rt.c] 339-358) *)

Definition set_pitch_bend_multiplier (v : voice_t) (m : float) : voice_t :=
  {| active := active v; voice_id := voice_id v; note := note v;
     velocity := velocity v; sample := sample v;
     playback_position := playback_position v;
     playback_speed := playback_speed v; envelope := envelope v;
     pitch_bend_multiplier := m; velocity_gain := velocity_gain v;
     instrument := instrument v |}.

Definition set_current_pitch_bend (inst : ms_instrument_t) (value : Z)
  : ms_instrument_t :=
  {| samples := samples inst; inst_envelope := inst_envelope inst;
     pitch_bend_range := pitch_bend_range inst;
     current_pitch_bend := value; inst_sampler := inst_sampler inst |}.

Section Libm.

(** [powf] of the C library. *)
Variable powf : float -> float -> float.

(** [powf(2.0f, ((value / 8192.0f) * pitch_bend_range) / 12.0f)] *)
Definition bend_multiplier (value : Z) (range : float) : float :=
  let semitones := F32.mul (F32.div (F32.of_Z value) (F32.of_Z 8192)) range in
  powf (F32.of_Z 2) (F32.div semitones (F32.of_Z 12)).

Definition bend_matching (vs : list voice_t) (instr : option nat) (m : float)
  : list voice_t :=
  map (fun v => if active v && bool_decide (instrument v = instr)
                then set_pitch_bend_multiplier v m else v)
      (take (Z.to_nat MS_MAX_VOICES) vs)
  ++ drop (Z.to_nat MS_MAX_VOICES) vs.

(** [ms_pitch_bend]: direct access to the voices, outside the event
    ring. *)
Definition ms_pitch_bend (heap : list ms_instrument_t) (s : ms_sampler_t)
    (instr : option nat) (value : Z)
  : ms_error_t * list ms_instrument_t * ms_sampler_t :=
  match instr, deref heap instr with
  | Some a, Some inst =>
      let heap1 := <[a := set_current_pitch_bend inst value]> heap in
      if inst_sampler inst then
        (MS_SUCCESS, heap1,
         set_voices s (bend_matching (voices s) instr
                         (bend_multiplier value (pitch_bend_range inst))))
      else (MS_SUCCESS, heap1, s)
  | _, _ => (MS_ERROR_INVALID_PARAM, heap, s)
  end.

End Libm.

(** ** Real-time mode and statistics ([sampler_rt.c] 82-106, 465-474) *)

(** [ms_sampler_enable_rt]; the two flags tell whether [mlockall] and
    [pthread_setschedparam] succeeded.  Neither failure is an error. *)
Definition ms_sampler_enable_rt (sampler : option ms_sampler_t) (priority : Z)
    (memory_locked scheduled : bool) : ms_error_t * option ms_sampler_t :=
  match sampler with
  | None => (MS_ERROR_INVALID_PARAM, None)
  | Some s =>
      (MS_SUCCESS,
       Some {| config := config s; voices := voices s;
               next_voice_id := next_voice_id s;
               event_queue := event_queue s;
               playback_event_index := playback_event_index s;
               playback_sample_count := playback_sample_count s;
               is_playing := is_playing s;
               rt_priority := priority;
               rt_enabled := if scheduled then true else rt_enabled s;
               frames_processed := frames_processed s;
               xruns := xruns s |})
  end.

(** [ms_get_stats]: the two output cells after the call ([None] for a
    [NULL] pointer). *)
Definition ms_get_stats (sampler : option ms_sampler_t) (frames xruns_out : option Z)
  : option Z * option Z :=
  match sampler with
  | None => (frames, xruns_out)
  | Some s =>
      (match frames with Some _ => Some (frames_processed s) | None => None end,
       match xruns_out with Some _ => Some (xruns s) | None => None end)
  end.

End RT.

(** * Files

    The MIDI parser and the WAV loader read a file through [stdio.h].  A
    path is a C string, the file system a map from paths to contents. *)

Module Stdio.

(** An open binary stream: the bytes of the file and the position
    indicator, which [fseek] may move past the end. *)
Record FILE := {
  content : list Byte.byte;
  position : Z                (* long *)
}.

(** The value of a byte as [uint8_t]. *)
Definition u8 (b : Byte.byte) : Z := Z.of_N (Byte.to_N b).

(** [fopen(filepath, "rb")] *)
Definition fopen (fs : list Byte.byte -> option (list Byte.byte))
    (filepath : list Byte.byte) : option FILE :=
  match fs filepath with
  | Some c => Some {| content := c; position := 0 |}
  | None => None
  end.

(** [fread(buf, 1, n, fp)]: the bytes it stores, fewer than [n] when the
    file ends first, and the stream moved past them. *)
Definition fread (n : nat) (fp : FILE) : list Byte.byte * FILE :=
  let got := take n (drop (Z.to_nat (position fp)) (content fp)) in
  (got, {| content := content fp;
           position := position fp + Z.of_nat (length got) |}).

(** [fseek(fp, offset, SEEK_CUR)]: a move to before the start fails and
    leaves the stream where it is. *)
Definition fseek_cur (fp : FILE) (offset : Z) : FILE :=
  if position fp + offset <? 0 then fp
  else {| content := content fp; position := position fp + offset |}.

Definition ftell (fp : FILE) : Z := position fp.

(** [memcmp(buf, lit, n) == 0] for a buffer holding [buf] and a literal
    with the character codes [lit]. *)
Definition memcmp_eq (buf : list Byte.byte) (lit : list Z) : bool :=
  bool_decide (u8 <$> buf = lit).

End Stdio.

(** * The MIDI parser ([src/midi/midi_parser.c])

    None of the reads of the parser tests what [fread] returns.  A read
    whose value the parser goes on to use yields [None] here when the file
    ends before it: the C code then computes with bytes it never set, and
    no result is modelled.  [realloc] is taken to succeed. *)

Module Midi.
Import Stdio.

Inductive midi_event_type_t :=
  | MIDI_NOTE_ON
  | MIDI_NOTE_OFF
  | MIDI_PITCH_BEND
  | MIDI_CONTROL_CHANGE.

Record midi_event_t := {
  timestamp : Z;              (* uint32_t *)
  type : midi_event_type_t;
  channel : Z;                (* uint8_t *)
  data1 : Z;                  (* uint8_t *)
  data2 : Z                   (* uint8_t *)
}.

(** [events] holds the first [num_events] entries of the C array, so
    [num_events] is its length; the array pointer is [NULL] exactly when
    [capacity] is 0. *)
Record midi_track_t := {
  events : list midi_event_t;
  capacity : Z;               (* size_t *)
  ticks_per_beat : Z;         (* uint32_t *)
  tempo : Z                   (* uint32_t *)
}.

Definition num_events (t : midi_track_t) : Z := Z.of_nat (length (events t)).

(** The track after [memset] has zeroed it. *)
Definition zero_track : midi_track_t :=
  {| events := []; capacity := 0; ticks_per_beat := 0; tempo := 0 |}.

(** A one-byte read whose value is used. *)
Definition read_byte (fp : FILE) : option (Z * FILE) :=
  match fread 1 fp with
  | ([b], fp1) => Some (u8 b, fp1)
  | _ => None
  end.

(** An [n]-byte read whose bytes are all used. *)
Definition read_bytes (n : nat) (fp : FILE) : option (list Byte.byte * FILE) :=
  let '(got, fp1) := fread n fp in
  if (length got =? n)%nat then Some (got, fp1) else None.

Definition read_be16 (fp : FILE) : option (Z * FILE) :=
  match fread 2 fp with
  | ([b0; b1], fp1) => Some (Z.lor (Z.shiftl (u8 b0) 8) (u8 b1), fp1)
  | _ => None
  end.

Definition read_be32 (fp : FILE) : option (Z * FILE) :=
  match fread 4 fp with
  | ([b0; b1; b2; b3], fp1) =>
      Some (Z.lor (Z.lor (Z.lor (Z.shiftl (u8 b0) 24) (Z.shiftl (u8 b1) 16))
                         (Z.shiftl (u8 b2) 8)) (u8 b3), fp1)
  | _ => None
  end.

(** The [do ... while (byte & 0x80)] loop of [read_variable_length]; every
    turn reads one byte, so the fuel [read_variable_length] passes, the
    size of the file, only runs out where the next read fails anyway. *)
Fixpoint variable_length_loop (fuel : nat) (value : Z) (fp : FILE)
  : option (Z * FILE) :=
  match fuel with
  | O => None
  | S fuel' =>
      '(byte, fp1) ← read_byte fp;
      let value1 := Z.lor (Z.shiftl value 7 mod 2 ^ 32) (Z.land byte 127) in
      if Z.land byte 128 =? 0 then Some (value1, fp1)
      else variable_length_loop fuel' value1 fp1
  end.

Definition read_variable_length (fp : FILE) : option (Z * FILE) :=
  variable_length_loop (length (content fp)) 0 fp.

Definition add_midi_event (track : midi_track_t) (event : midi_event_t)
  : ms_error_t * midi_track_t :=
  let new_capacity :=
    if capacity track <=? num_events track
    then (if capacity track =? 0 then 1024 else (capacity track * 2) mod 2 ^ 64)
    else capacity track in
  (MS_SUCCESS,
   {| events := events track ++ [event];
      capacity := new_capacity;
      ticks_per_beat := ticks_per_beat track;
      tempo := tempo track |}).

(** The variables of the track loop of [midi_parse_file]. *)
Record parse_state := {
  fp : FILE;
  track : midi_track_t;
  current_time : Z;           (* uint32_t *)
  running_status : Z          (* uint8_t *)
}.

Definition set_tempo (t : midi_track_t) (v : Z) : midi_track_t :=
  {| events := events t; capacity := capacity t;
     ticks_per_beat := ticks_per_beat t; tempo := v |}.

(** The dispatch on the status byte in the track loop of
    [midi_parse_file]: [fp3] is the stream at the first data byte. *)
Definition parse_message (track : midi_track_t)
    (current_time status running_status : Z) (fp3 : FILE) : option parse_state :=
  let event_type := Z.land status 240 in
  let channel := Z.land status 15 in
  let next fp' track' :=
    {| fp := fp'; track := track'; current_time := current_time;
       running_status := running_status |} in
  if (event_type =? 144) || (event_type =? 128) then
    (* note on / note off *)
    '(note, fp4) ← read_byte fp3;
    '(velocity, fp5) ← read_byte fp4;
    let event :=
      {| timestamp := current_time;
         type := if (event_type =? 144) && (0 <? velocity)
                 then MIDI_NOTE_ON else MIDI_NOTE_OFF;
         channel := channel; data1 := note; data2 := velocity |} in
    Some (next fp5 (add_midi_event track event).2)
  else if event_type =? 224 then
    (* pitch bend *)
    '(lsb, fp4) ← read_byte fp3;
    '(msb, fp5) ← read_byte fp4;
    let bend_value := Z.lor (Z.shiftl msb 7) lsb - 8192 in
    let event :=
      {| timestamp := current_time; type := MIDI_PITCH_BEND;
         channel := channel;
         data1 := Z.land bend_value 255;
         data2 := Z.land (Z.shiftr bend_value 8) 255 |} in
    Some (next fp5 (add_midi_event track event).2)
  else if event_type =? 176 then
    (* control change: two data bytes, not looked at *)
    Some (next (fread 1 (fread 1 fp3).2).2 track)
  else if (event_type =? 192) || (event_type =? 208) then
    (* program change / channel pressure: one data byte *)
    Some (next (fread 1 fp3).2 track)
  else if event_type =? 160 then
    (* polyphonic key pressure: two data bytes *)
    Some (next (fread 1 (fread 1 fp3).2).2 track)
  else if status =? 255 then
    (* meta event *)
    '(meta_type, fp4) ← read_byte fp3;
    '(length, fp5) ← read_variable_length fp4;
    if (meta_type =? 81) && (length =? 3) then
      match fread 3 fp5 with
      | ([b0; b1; b2], fp6) =>
          Some (next fp6
                  (set_tempo track
                     (Z.lor (Z.lor (Z.shiftl (u8 b0) 16) (Z.shiftl (u8 b1) 8))
                            (u8 b2))))
      | _ => None
      end
    else Some (next (fseek_cur fp5 length) track)
  else if (status =? 240) || (status =? 247) then
    (* system exclusive *)
    '(length, fp4) ← read_variable_length fp3;
    Some (next (fseek_cur fp4 length) track)
  else Some (next fp3 track).

(** One turn of the [while (ftell(fp) < track_end)] loop: the delta time
    and the status byte, given or running, then the dispatch. *)
Definition parse_event (st : parse_state) : option parse_state :=
  '(delta_time, fp1) ← read_variable_length (fp st);
  let current_time := (current_time st + delta_time) mod 2 ^ 32 in
  '(status0, fp2) ← read_byte fp1;
  (* running status *)
  let '(status, running_status, fp3) :=
    if status0 <? 128
    then (running_status st, running_status st, fseek_cur fp2 (-1))
    else (status0, status0, fp2) in
  parse_message (track st) current_time status running_status fp3.

(** The track loop.  A turn that returns has moved the stream forward, so
    the fuel [midi_parse_file] passes, the size of the file, only runs out
    where the next read fails anyway. *)
Fixpoint parse_events (fuel : nat) (track_end : Z) (st : parse_state)
  : option parse_state :=
  if ftell (fp st) <? track_end then
    match fuel with
    | O => None
    | S fuel' => st1 ← parse_event st; parse_events fuel' track_end st1
    end
  else Some st.

(** The result holds the error code and what [*track] is after the call. *)
Definition midi_parse_file (fs : list Byte.byte -> option (list Byte.byte))
    (filepath : option (list Byte.byte)) (track : option midi_track_t)
  : option (ms_error_t * option midi_track_t) :=
  match filepath, track with
  | Some path, Some _ =>
      match fopen fs path with
      | None => Some (MS_ERROR_FILE_NOT_FOUND, Some zero_track)
      | Some fp0 =>
          (* header chunk *)
          '(header_id, fp1) ← read_bytes 4 fp0;
          if negb (memcmp_eq header_id [77; 84; 104; 100]) (* "MThd" *)
          then Some (MS_ERROR_INVALID_FORMAT, Some zero_track)
          else
            '(header_length, fp2) ← read_be32 fp1;
            '(format, fp3) ← read_be16 fp2;
            '(num_tracks, fp4) ← read_be16 fp3;
            '(division, fp5) ← read_be16 fp4;
            let track1 :=
              {| events := []; capacity := 0;
                 ticks_per_beat := Z.land division 32767;
                 tempo := 500000 |} in
            (* skip any extra header data *)
            let fp6 :=
              if 6 <? header_length then fseek_cur fp5 (header_length - 6)
              else fp5 in
            (* first track *)
            '(track_id, fp7) ← read_bytes 4 fp6;
            if negb (memcmp_eq track_id [77; 84; 114; 107]) (* "MTrk" *)
            then Some (MS_ERROR_INVALID_FORMAT, Some track1)
            else
              '(track_length, fp8) ← read_be32 fp7;
              let track_end := ftell fp8 + track_length in
              st ← parse_events (length (content fp8)) track_end
                     {| fp := fp8; track := track1; current_time := 0;
                        running_status := 0 |};
              Some (MS_SUCCESS, Some (Midi.track st))
      end
  | _, _ => Some (MS_ERROR_INVALID_PARAM, track)
  end.

Definition midi_track_destroy (track : option midi_track_t)
  : option midi_track_t :=
  match track with
  | Some t =>
      if capacity t =? 0 then Some t
      else Some {| events := []; capacity := 0;
                   ticks_per_beat := ticks_per_beat t; tempo := tempo t |}
  | None => None
  end.

(** [ms_load_midi_file] ([sampler.c] 353-385), once [calloc] has
    succeeded.  [current_track] is the field of the sampler that points at
    the loaded track; [Core.ms_sampler_t] leaves it out, so it is passed
    beside the sampler here.  The instrument is only tested for [NULL]. *)
Definition ms_load_midi_file (fs : list Byte.byte -> option (list Byte.byte))
    (sampler : option Core.ms_sampler_t) (current_track : option midi_track_t)
    (instrument : option nat) (filepath : option (list Byte.byte))
  : option (ms_error_t * option Core.ms_sampler_t * option midi_track_t) :=
  match sampler, instrument, filepath with
  | Some s, Some _, Some _ =>
      r ← midi_parse_file fs filepath (Some zero_track);
      match r with
      | (MS_SUCCESS, t) =>
          Some (MS_SUCCESS,
                Some {| Core.config := Core.config s;
                        Core.voices := Core.voices s;
                        Core.next_voice_id := Core.next_voice_id s;
                        Core.playback_event_index := 0;
                        Core.playback_sample_count := 0;
                        Core.is_playing := Core.is_playing s |},
                t)
      | (err, _) => Some (err, Some s, None)
      end
  | _, _, _ => Some (MS_ERROR_INVALID_PARAM, sampler, current_track)
  end.

End Midi.

(** * The WAV loader ([src/core/sample_loader.c])

    The loader reads the headers with [fread] straight into packed
    structs, so their fields are little-endian as on the x86-64 target.
    Every [malloc] is taken to succeed. *)

Module Wav.
Import Stdio.

Definition le16 (b0 b1 : Byte.byte) : Z := u8 b0 + 256 * u8 b1.

Definition le32 (b0 b1 b2 b3 : Byte.byte) : Z :=
  u8 b0 + 256 * u8 b1 + 65536 * u8 b2 + 16777216 * u8 b3.

Record chunk_header_t := {
  id : list Byte.byte;        (* char id[4] *)
  size : Z                    (* uint32_t *)
}.

Record wav_fmt_chunk_t := {
  audio_format : Z;           (* uint16_t *)
  num_channels : Z;           (* uint16_t *)
  sample_rate : Z;            (* uint32_t *)
  byte_rate : Z;              (* uint32_t *)
  block_align : Z;            (* uint16_t *)
  bits_per_sample : Z         (* uint16_t *)
}.

(** [fread(&chunk, sizeof(chunk), 1, fp) == 1], with the chunk it read. *)
Definition read_chunk_header (fp : FILE) : option chunk_header_t * FILE :=
  match fread 8 fp with
  | ([i0; i1; i2; i3; s0; s1; s2; s3], fp1) =>
      (Some {| id := [i0; i1; i2; i3]; size := le32 s0 s1 s2 s3 |}, fp1)
  | (_, fp1) => (None, fp1)
  end.

(** [fread(&fmt, sizeof(fmt), 1, fp) == 1], with the chunk it read. *)
Definition read_fmt_chunk (fp : FILE) : option wav_fmt_chunk_t * FILE :=
  match fread 16 fp with
  | ([a0; a1; c0; c1; r0; r1; r2; r3; y0; y1; y2; y3; k0; k1; t0; t1], fp1) =>
      (Some {| audio_format := le16 a0 a1; num_channels := le16 c0 c1;
               sample_rate := le32 r0 r1 r2 r3; byte_rate := le32 y0 y1 y2 y3;
               block_align := le16 k0 k1; bits_per_sample := le16 t0 t1 |},
       fp1)
  | (_, fp1) => (None, fp1)
  end.

(** The first loop of [read_wav_header]: [None] stands for both ways it
    ends in [MS_ERROR_INVALID_FORMAT], a short format chunk and no format
    chunk at all.  Every turn reads eight bytes, so the fuel
    [read_wav_header] passes, the size of the file, only runs out where
    the next read fails anyway. *)
Fixpoint find_fmt (fuel : nat) (fp : FILE) : option (wav_fmt_chunk_t * FILE) :=
  match fuel with
  | O => None
  | S fuel' =>
      match read_chunk_header fp with
      | (Some chunk, fp1) =>
          if memcmp_eq (id chunk) [102; 109; 116; 32] (* "fmt " *) then
            match read_fmt_chunk fp1 with
            | (Some fmt, fp2) =>
                (* skip any extra fmt data *)
                Some (fmt, if 16 <? size chunk
                           then fseek_cur fp2 (size chunk - 16) else fp2)
            | (None, _) => None
            end
          else find_fmt fuel' (fseek_cur fp1 (size chunk))
      | (None, _) => None
      end
  end.

(** The second loop: the size of the data chunk and the stream at its
    first byte, [None] when the file has no data chunk. *)
Fixpoint find_data (fuel : nat) (fp : FILE) : option (Z * FILE) :=
  match fuel with
  | O => None
  | S fuel' =>
      match read_chunk_header fp with
      | (Some chunk, fp1) =>
          if memcmp_eq (id chunk) [100; 97; 116; 97] (* "data" *)
          then Some (size chunk, fp1)
          else find_data fuel' (fseek_cur fp1 (size chunk))
      | (None, _) => None
      end
  end.

(** What [read_wav_header] hands back on success. *)
Record wav_header_info := {
  hdr_sample_rate : Z;
  hdr_channels : Z;
  hdr_bits_per_sample : Z;
  hdr_data_size : Z
}.

Definition read_wav_header (fp : FILE)
  : ms_error_t * option wav_header_info * FILE :=
  match fread 12 fp with
  | ([r0; r1; r2; r3; _; _; _; _; w0; w1; w2; w3], fp1) =>
      if negb (memcmp_eq [r0; r1; r2; r3] [82; 73; 70; 70]) (* "RIFF" *)
         || negb (memcmp_eq [w0; w1; w2; w3] [87; 65; 86; 69]) (* "WAVE" *)
      then (MS_ERROR_INVALID_FORMAT, None, fp1)
      else
        match find_fmt (length (content fp1)) fp1 with
        | None => (MS_ERROR_INVALID_FORMAT, None, fp1)
        | Some (fmt, fp2) =>
            (* only PCM *)
            if negb (audio_format fmt =? 1)
            then (MS_ERROR_INVALID_FORMAT, None, fp2)
            else
              match find_data (length (content fp2)) fp2 with
              | None => (MS_ERROR_INVALID_FORMAT, None, fp2)
              | Some (data_size, fp3) =>
                  (MS_SUCCESS,
                   Some {| hdr_sample_rate := sample_rate fmt;
                           hdr_channels := num_channels fmt;
                           hdr_bits_per_sample := bits_per_sample fmt;
                           hdr_data_size := data_size |},
                   fp3)
              end
        end
  | (_, fp1) => (MS_ERROR_INVALID_FORMAT, None, fp1)
  end.

(** [temp_buffer[i]] of the [int16_t] buffer. *)
Definition int16_at (buf : list Byte.byte) (i : nat) : Z :=
  let v := le16 (default Byte.x00 (buf !! (2 * i)%nat))
                (default Byte.x00 (buf !! (2 * i + 1)%nat)) in
  if v <? 32768 then v else v - 65536.

(** [temp_buffer[i]] of the [uint8_t] buffer. *)
Definition uint8_at (buf : list Byte.byte) (i : nat) : Z :=
  u8 (default Byte.x00 (buf !! i)).

(** [temp_buffer[i] / 32768.0f] *)
Definition pcm16_to_float (v : Z) : float :=
  F32.div (F32.of_Z v) (F32.of_Z 32768).

(** [(temp_buffer[i] - 128) / 128.0f] *)
Definition pcm8_to_float (v : Z) : float :=
  F32.div (F32.of_Z (v - 128)) (F32.of_Z 128).

(** The result holds the error code and what [*sample] is after the call;
    on the paths that free the buffer again its [data] is left empty.
    [None]: the frame count divides by zero. *)
Definition load_wav_file (fs : list Byte.byte -> option (list Byte.byte))
    (filepath : option (list Byte.byte)) (sample : option ms_sample_data_t)
  : option (ms_error_t * option ms_sample_data_t) :=
  match filepath, sample with
  | Some path, Some smp =>
      match fopen fs path with
      | None => Some (MS_ERROR_FILE_NOT_FOUND, sample)
      | Some fp =>
          match read_wav_header fp with
          | (MS_SUCCESS, Some h, fp1) =>
              let channels := hdr_channels h in
              let data_size := hdr_data_size h in
              (* number of frames *)
              let bytes_per_sample := hdr_bits_per_sample h / 8 in
              if channels * bytes_per_sample =? 0 then None
              else
                let num_frames := data_size / (channels * bytes_per_sample) in
                let filled d :=
                  {| data := d; num_frames := num_frames;
                     smp_channels := channels; meta := meta smp |} in
                let count := Z.to_nat (num_frames * channels) in
                if hdr_bits_per_sample h =? 16 then
                  let '(temp_buffer, _) := fread (Z.to_nat data_size) fp1 in
                  if negb (Z.of_nat (length temp_buffer) =? data_size)
                  then Some (MS_ERROR_INVALID_FORMAT, Some (filled []))
                  else
                    Some (MS_SUCCESS,
                          Some (filled
                                  ((fun i => pcm16_to_float (int16_at temp_buffer i))
                                     <$> seq 0 count)))
                else if hdr_bits_per_sample h =? 8 then
                  let '(temp_buffer, _) := fread (Z.to_nat data_size) fp1 in
                  if negb (Z.of_nat (length temp_buffer) =? data_size)
                  then Some (MS_ERROR_INVALID_FORMAT, Some (filled []))
                  else
                    Some (MS_SUCCESS,
                          Some (filled
                                  ((fun i => pcm8_to_float (uint8_at temp_buffer i))
                                     <$> seq 0 count)))
                else Some (MS_ERROR_INVALID_FORMAT, Some (filled []))
          | (err, _, _) => Some (err, sample)
          end
      end
  | _, _ => Some (MS_ERROR_INVALID_PARAM, sample)
  end.

(** The record [calloc] hands to [ms_instrument_load_sample]. *)
Definition zero_sample : ms_sample_data_t :=
  {| data := []; num_frames := 0; smp_channels := 0;
     meta := {| root_note := 0; velocity_low := 0; velocity_high := 0;
                loop_enabled := false; loop_start := 0; loop_end := 0 |} |}.

(** [ms_instrument_load_sample] ([sampler.c] 92-118, [sampler_rt.c]
    140-180; the real-time build also moves the floats to an aligned
    buffer, which changes no value). *)
Definition ms_instrument_load_sample
    (fs : list Byte.byte -> option (list Byte.byte))
    (instrument : option ms_instrument_t) (filepath : option (list Byte.byte))
    (metadata : option ms_sample_metadata_t)
  : option (ms_error_t * option ms_instrument_t) :=
  match instrument, filepath, metadata with
  | Some inst, Some _, Some m =>
      if MS_MAX_SAMPLES_PER_INSTRUMENT <=? num_samples inst
      then Some (MS_ERROR_BUFFER_OVERFLOW, instrument)
      else
        r ← load_wav_file fs filepath (Some zero_sample);
        match r with
        | (MS_SUCCESS, Some smp) =>
            let smp1 := {| data := data smp; num_frames := num_frames smp;
                           smp_channels := smp_channels smp; meta := m |} in
            Some (MS_SUCCESS,
                  Some {| samples := samples inst ++ [smp1];
                          inst_envelope := inst_envelope inst;
                          pitch_bend_range := pitch_bend_range inst;
                          current_pitch_bend := current_pitch_bend inst;
                          inst_sampler := inst_sampler inst |})
        | (err, _) => Some (err, instrument)
        end
  | _, _, _ => Some (MS_ERROR_INVALID_PARAM, instrument)
  end.

End Wav.

(** * Vocabulary of the properties *)

(** ** Runs of note-on calls *)

(** The event a real-time note-on queues, and the code a push result
    turns into. *)
Definition note_on_event (instrument : option nat) (nv : Z * Z) : rt_event_t :=
  {| ev_note := nv.1; ev_velocity := nv.2; event_type := 0;
     ev_instrument := instrument |}.

Definition push_result (ok : bool) : ms_error_t :=
  if ok then MS_SUCCESS else MS_ERROR_BUFFER_OVERFLOW.

(** A run of real-time note-on calls on one instrument, each given as
    [(note, velocity)] and made with a [NULL] [voice_id]; the result codes
    come back oldest first. *)
Fixpoint rt_note_on_all (heap : list ms_instrument_t) (s : RT.ms_sampler_t)
    (instrument : option nat) (l : list (Z * Z))
  : list ms_error_t * RT.ms_sampler_t :=
  match l with
  | [] => ([], s)
  | (n, vel) :: l' =>
      let '(err, s1, _) := RT.ms_note_on heap s instrument n vel None in
      let '(errs, s2) := rt_note_on_all heap s1 instrument l' in
      (err :: errs, s2)
  end.

(** The same for the plain build. *)
Fixpoint note_on_all (pow : double -> double -> double)
    (heap : list ms_instrument_t) (s : Core.ms_sampler_t)
    (instrument : option nat) (l : list (Z * Z))
  : list ms_error_t * Core.ms_sampler_t :=
  match l with
  | [] => ([], s)
  | (n, vel) :: l' =>
      let '(err, s1, _) := Core.ms_note_on pow heap s instrument n vel None in
      let '(errs, s2) := note_on_all pow heap s1 instrument l' in
      (err :: errs, s2)
  end.

(** ** Sample resolution *)

(** Both loop bodies of [instrument_find_sample] are one step guarded by
    a test on the sample; the proofs go through this common form. *)
Definition guarded_step (note : Z) (p : ms_sample_data_t -> bool)
    (st : find_state) (s : ms_sample_data_t) : find_state :=
  if p s then
    if note_distance note s <? st.2 then (Some s, note_distance note s) else st
  else st.

Definition in_velocity_range (velocity : Z) (s : ms_sample_data_t) : bool :=
  (velocity_low (meta s) <=? velocity) && (velocity <=? velocity_high (meta s)).

(** ** Envelope runs *)

(** The generator after [n] calls of [envelope_process], and the level
    the next call returns. *)
Fixpoint core_envelope_after (n : nat) (env : Core.envelope_generator_t)
  : Core.envelope_generator_t :=
  match n with
  | O => env
  | S n' => core_envelope_after n' (Core.envelope_process env).2
  end.

Definition core_envelope_output (n : nat) (env : Core.envelope_generator_t) : float :=
  (Core.envelope_process (core_envelope_after n env)).1.

Fixpoint rt_envelope_after (n : nat) (env : RT.envelope_generator_t)
  : RT.envelope_generator_t :=
  match n with
  | O => env
  | S n' => rt_envelope_after n' (RT.envelope_process env).2
  end.

Definition rt_envelope_output (n : nat) (env : RT.envelope_generator_t) : float :=
  (RT.envelope_process (rt_envelope_after n env)).1.

(** The sustain level lies in [0, 1], as the data model requires. *)
Definition sustain_in_range (p : ms_envelope_t) : Prop :=
  F32.ltb (sustain_level p) F32.zero = false /\
  F32.ltb F32.one (sustain_level p) = false.

(** Lengths of the attack, decay and release stages in samples, as
    [envelope_trigger], [envelope_process] and [envelope_release] compute
    them. *)
Definition attack_samples (rate : float) (p : ms_envelope_t) : Z :=
  at_least_one (to_uint32 (F32.mul (attack_time p) rate)).

Definition core_decay_samples (rate : float) (p : ms_envelope_t) : Z :=
  at_least_one (to_uint32 (F32.mul (decay_time p) rate)).

Definition rt_decay_samples (rate : float) (p : ms_envelope_t) : Z :=
  to_uint32 (F32.mul (decay_time p) rate).

Definition release_samples (rate : float) (p : ms_envelope_t) : Z :=
  at_least_one (to_uint32 (F32.mul (release_time p) rate)).

(** The stages whose length is counted in samples. *)
Definition counted_stage (st : envelope_stage_t) : Prop :=
  st = ENV_ATTACK \/ st = ENV_DECAY \/ st = ENV_RELEASE.

(** While in Sustain the held level is the clamped sustain level. *)
Definition core_sustain_inv (env : Core.envelope_generator_t) : Prop :=
  Core.stage env = ENV_SUSTAIN ->
  Core.current_level env = clamp_level (sustain_level (Core.params env)).

Definition rt_sustain_inv (env : RT.envelope_generator_t) : Prop :=
  RT.stage env = ENV_SUSTAIN ->
  RT.current_level env = clamp_level (sustain_level (RT.params env)).

(** Silent in Release or Idle, with a non-negative release step. *)
Definition rt_silent (env : RT.envelope_generator_t) : Prop :=
  (RT.stage env = ENV_RELEASE \/ RT.stage env = ENV_IDLE) /\
  RT.current_level env = F32.zero /\
  F32.leb F32.zero (RT.release_coeff env) = true.

(** ** The frame loop *)

(** The sample loops: [loop_enabled && loop_end > loop_start]. *)
Definition sample_loops (smp : ms_sample_data_t) : Prop :=
  loop_enabled (meta smp) = true /\ loop_start (meta smp) < loop_end (meta smp).

(** The playback position has reached or passed the end of the sample. *)
Definition past_end (smp : ms_sample_data_t) (position : double) : Prop :=
  F64.leb (F64.of_Z (num_frames smp)) position = true.

(** Neither an infinity nor a NaN. *)
Definition SFis_finite (x : spec_float) : bool :=
  match x with
  | S754_zero _ | S754_finite _ _ _ => true
  | _ => false
  end.

Definition SFis_zero (x : spec_float) : bool :=
  match x with
  | S754_zero _ => true
  | _ => false
  end.

(** The fractional part [voice_process] computes for a position. *)
Definition frame_frac (position : double) : float :=
  F32.of_double (F64.sub position (F64.of_Z (to_size_t position))).

(** The sample after frame [k] that the interpolation reads, the frame
    itself at the end of the buffer. *)
Definition next_sample (smp : ms_sample_data_t) (k : Z) : float :=
  if k + 1 <? num_frames smp
  then read_sample (data smp) (k + 1) else read_sample (data smp) k.

(** ** The voice pool

    The allocation scan is the same in both builds; its properties are
    proved once, over any slot type with an activity flag [act] and a
    note [nt]. *)

Definition pool_first_free {V : Type} (act : V -> bool) (n : nat) (vs : list V)
  : option nat :=
  fst <$> list_find (fun v => act v = false) (take n vs).

Definition pool_slot {V : Type} (act : V -> bool) (n : nat) (vs : list V) : nat :=
  default 0%nat (pool_first_free act n vs).

(** The first [m] slots of a pool of [n] sound the notes [ns] in order and
    every other slot of the array is silent. *)
Definition pool_filled {V : Type} (act : V -> bool) (nt : V -> Z)
    (n m : nat) (ns : list Z) (vs : list V) : Prop :=
  length ns = m /\ (m <= n)%nat /\ (n <= length vs)%nat /\
  Forall (fun v => act v = true) (take m vs) /\
  Forall (fun v => act v = false) (drop m vs) /\
  nt <$> take m vs = ns.

(** Number of sounding slots in the whole array. *)
Definition active_count {V : Type} (act : V -> bool) (vs : list V) : nat :=
  length (filter (fun v => act v = true) vs).

(** What a note-on does to the slot it takes, in each build. *)
Definition core_fill (pow : double -> double -> double) (smp : ms_sample_data_t)
    (n vel : Z) (e : ms_envelope_t) (instrument : option nat) (v : Core.voice_t)
  : Core.voice_t :=
  Core.set_instrument (Core.voice_trigger pow v (Some smp) n vel (Some e)) instrument.

Definition rt_fill (smp : ms_sample_data_t) (n vel : Z) (e : ms_envelope_t)
    (instrument : option nat) (v : RT.voice_t) : RT.voice_t :=
  RT.set_instrument (RT.voice_trigger v (Some smp) n vel (Some e)) instrument.

(** Every note-on of the run resolves to a sample of the instrument. *)
Definition all_resolve (i : ms_instrument_t) (l : list (Z * Z)) : Prop :=
  Forall (fun nv => is_Some (instrument_find_sample (Some i) nv.1 nv.2)) l.

(** ** Playback speed against the equal-tempered relation

    To compare the speed the real-time [voice_trigger] stores with the
    equal-tempered formula, the stored [double] is read as the real
    number it stands for. *)

(** Structural equality of two floats. *)
Definition SFsame (a b : spec_float) : bool :=
  match a, b with
  | S754_zero s, S754_zero s' => Bool.eqb s s'
  | S754_infinity s, S754_infinity s' => Bool.eqb s s'
  | S754_nan, S754_nan => true
  | S754_finite s m e, S754_finite s' m' e' =>
      Bool.eqb s s' && (m =? m')%positive && (e =? e')
  | _, _ => false
  end.

(** The real number a finite float stands for; 0 for the others. *)
Definition SF2R (x : spec_float) : R :=
  match x with
  | S754_finite s m e => (IZR (cond_Zopp s (Z.pos m)) * powerRZ 2 e)%R
  | _ => 0%R
  end.

(** The equal-tempered relation of the specification,
    [freq(n) = 440 * 2^((n - 69) / 12)], which is also what
    [midi_note_to_frequency] of [voice.c] computes with [pow]. *)
Definition frequency_spec (n : Z) : R :=
  (440 * Rpower 2 ((IZR n - 69) / 12))%R.

Definition speed_spec (note root : Z) (bend : R) : R :=
  (frequency_spec note / frequency_spec root * bend)%R.

(** [target_freq / sample_freq] of [voice_trigger] in [voice_rt.c]: the
    [double] quotient of two table entries. *)
Definition rt_ratio (note root : Z) : double :=
  F64.div (RT.midi_note_to_frequency note) (RT.midi_note_to_frequency root).

(** Twelfth powers of the table entries, as the source writes them in
    thousandths, scaled by [99993^12], [100000^12] and [100007^12],
    computed once. *)
Definition scaled_pow12 (c : Z) : list Z :=
  map (fun k => c ^ 12 * k ^ 12) RT.MIDI_FREQ_TABLE_milli.

Definition POW12_LOW : list Z := Eval vm_compute in scaled_pow12 99993.
Definition POW12_MID : list Z := Eval vm_compute in scaled_pow12 100000.
Definition POW12_HIGH : list Z := Eval vm_compute in scaled_pow12 100007.

(** The integer form of "the ratio of two table entries is within
    7/100000 of the equal-tempered ratio", after raising to the twelfth
    power and clearing denominators:
    [0.99993^12 * 2^n * k_r^12 <= k_n^12 * 2^r <= 1.00007^12 * 2^n * k_r^12]. *)
Definition speed_pair_ok (n r : nat) : bool :=
  (0 <? nth n RT.MIDI_FREQ_TABLE_milli 0) &&
  (0 <? nth r RT.MIDI_FREQ_TABLE_milli 0) &&
  (Z.shiftl (nth r POW12_LOW 0) (Z.of_nat n)
   <=? Z.shiftl (nth n POW12_MID 0) (Z.of_nat r)) &&
  (Z.shiftl (nth n POW12_MID 0) (Z.of_nat r)
   <=? Z.shiftl (nth r POW12_HIGH 0) (Z.of_nat n)).

(** The [double] quotient of two table entries is a normal number
    [m * 2^e] that differs from the quotient [k_n / k_r] of the decimal
    entries by less than [10^-14] of it, and it is 1.0 when the two
    notes are the same. *)
Definition ratio_pair_ok (n r : nat) : bool :=
  match rt_ratio (Z.of_nat n) (Z.of_nat r) with
  | S754_finite false m e =>
      let kn := nth n RT.MIDI_FREQ_TABLE_milli 0 in
      let kr := nth r RT.MIDI_FREQ_TABLE_milli 0 in
      (Z.pos (digits2_pos m) =? 53) && (-64 <=? e) && (e <=? -41) &&
      (Z.abs (Z.pos m * kr - kn * 2 ^ (- e)) * 10 ^ 14 <=? kn * 2 ^ (- e)) &&
      (negb (n =? r)%nat || SFsame (S754_finite false m e) F64.one)
  | _ => false
  end.

(** ** Envelope levels *)

(** Neither below 0 nor above 1, as the closing clamp of
    [envelope_process] tests it. *)
Definition level_in_range (x : float) : Prop :=
  F32.ltb x F32.zero = false /\ F32.ltb F32.one x = false.

(** ** Runs of render calls on one voice *)

(** A voice rendered block after block through [voice_process]; every
    block comes with its output buffer and its frame count. *)
Definition core_voice_blocks (chans : Z) (v : Core.voice_t)
    (blocks : list (list float * Z)) : Core.voice_t :=
  fold_left (fun v b => (Core.voice_process v (Some b.1) b.2 chans).1) blocks v.

Definition rt_voice_blocks (chans : Z) (v : RT.voice_t)
    (blocks : list (list float * Z)) : RT.voice_t :=
  fold_left (fun v b => (RT.voice_process v (Some b.1) b.2 chans).1) blocks v.

(** Frames rendered by a run of blocks. *)
Definition frames_of (blocks : list (list float * Z)) : Z :=
  fold_right (fun b n => Z.max 0 b.2 + n) 0 blocks.

(** The stages a sounding note passes through before its release. *)
Definition holding_stage (st : envelope_stage_t) : Prop :=
  st = ENV_ATTACK \/ st = ENV_DECAY \/ st = ENV_SUSTAIN.

(** A voice whose note was released, [p] samples into a release of [N]. *)
Definition core_releasing (N p : Z) (v : Core.voice_t) : Prop :=
  Core.active v = false \/
  Core.stage (Core.envelope v) = ENV_RELEASE /\
  Core.stage_samples (Core.envelope v) = N /\
  Core.samples_processed (Core.envelope v) = p /\ p <= N.

Definition rt_releasing (N p : Z) (v : RT.voice_t) : Prop :=
  RT.active v = false \/
  RT.stage (RT.envelope v) = ENV_RELEASE /\
  RT.stage_samples (RT.envelope v) = N /\
  RT.samples_processed (RT.envelope v) = p /\ p <= N.

(** ** The output block *)

(** Index just past the slots that [n] frames write, counted from frame 0:
    the plain build writes one slot per frame when the output is mono and
    two otherwise; the real-time build writes two when the output is
    stereo and one otherwise. *)
Definition core_block_end (chans : Z) (n : nat) : nat :=
  if chans =? 1 then n else (2 * n)%nat.

Definition rt_block_end (chans : Z) (n : nat) : nat :=
  if chans =? 2 then (2 * n)%nat else n.

(** Two buffers of one length that agree from index [k] on. *)
Definition same_from (k : nat) (a b : list float) : Prop :=
  length a = length b /\ forall j, (k <= j)%nat -> a !! j = b !! j.

(** ** Runs of sample loads *)

(** One call of [ms_instrument_load_sample_memory]: the buffer, its frame
    and channel counts and the metadata. *)
Record load_request := {
  lr_data : list float;
  lr_frames : Z;
  lr_channels : Z;
  lr_meta : ms_sample_metadata_t
}.

(** The sample a successful load stores. *)
Definition loaded_sample (r : load_request) : ms_sample_data_t :=
  {| data := take (Z.to_nat (lr_frames r * lr_channels r)) (lr_data r);
     num_frames := lr_frames r; smp_channels := lr_channels r;
     meta := lr_meta r |}.

(** A run of loads into one instrument; the result codes come back oldest
    first. *)
Fixpoint load_all (instrument : option ms_instrument_t) (l : list load_request)
  : list ms_error_t * option ms_instrument_t :=
  match l with
  | [] => ([], instrument)
  | r :: l' =>
      let '(err, inst1) :=
        Core.ms_instrument_load_sample_memory instrument (Some (lr_data r))
          (lr_frames r) (lr_channels r) (Some (lr_meta r)) in
      let '(errs, inst2) := load_all inst1 l' in
      (err :: errs, inst2)
  end.

(** ** Velocity gain *)

(** [voice->velocity / 127.0f] of [voice_process] in [voice.c], and
    [velocity * (1.0f / 127.0f)] of [voice_trigger] in [voice_rt.c]. *)
Definition core_velocity_gain (vel : Z) : float :=
  F32.div (F32.of_Z vel) (F32.of_Z 127).

Definition rt_velocity_gain (vel : Z) : float :=
  F32.mul (F32.of_Z vel) (F32.div F32.one (F32.of_Z 127)).

(** The gains of the 256 values a [uint8_t] velocity takes, computed
    once. *)
Definition CORE_GAINS : list float :=
  Eval vm_compute in map (fun k => core_velocity_gain (Z.of_nat k)) (seq 0 256).

Definition RT_GAINS : list float :=
  Eval vm_compute in map (fun k => rt_velocity_gain (Z.of_nat k)) (seq 0 256).

(** Velocities up to 127 at which the two builds compute different
    gains. *)
Definition GAIN_MISMATCHES : list Z := [9; 13; 18; 26; 36; 52; 72; 104].

Definition gains_ok (a b : nat) : bool :=
  implb (a <? b)%nat
        (SFltb (nth a CORE_GAINS F32.zero) (nth b CORE_GAINS F32.zero)
         && SFltb (nth a RT_GAINS F32.zero) (nth b RT_GAINS F32.zero)).

Definition gains_agree_ok (a : nat) : bool :=
  Bool.eqb (SFeqb (nth a CORE_GAINS F32.zero) (nth a RT_GAINS F32.zero))
           (negb (existsb (Z.eqb (Z.of_nat a)) GAIN_MISMATCHES)).

(** ** Direction of the transposition *)

(** The playback speed [voice_trigger] of [voice_rt.c] stores for a note
    played on a sample rooted at [root], with pitch-bend multiplier
    [bend]. *)
Definition rt_speed (note root : Z) (bend : float) : double :=
  F64.mul (F64.div (RT.midi_note_to_frequency note) (RT.midi_note_to_frequency root))
          (F64.of_float bend).

(** With no bend the speed is below, at or above 1.0 as the note is
    below, at or above the root; and the table rises with the note. *)
Definition speed_direction_ok (n r : nat) : bool :=
  let speed := rt_speed (Z.of_nat n) (Z.of_nat r) F32.one in
  match (n ?= r)%nat with
  | Lt => SFltb speed F64.one
         && SFltb (RT.midi_note_to_frequency (Z.of_nat n))
                  (RT.midi_note_to_frequency (Z.of_nat r))
  | Eq => SFsame speed F64.one
  | Gt => SFltb F64.one speed
  end.

(** ** Voices up to the pitch-bend multiplier *)

(** Two voices that differ at most in [pitch_bend_multiplier]. *)
Definition core_same_but_bend (v v' : Core.voice_t) : Prop :=
  Core.set_pitch_bend_multiplier v F32.zero
  = Core.set_pitch_bend_multiplier v' F32.zero.

Definition rt_same_but_bend (v v' : RT.voice_t) : Prop :=
  RT.set_pitch_bend_multiplier v F32.zero
  = RT.set_pitch_bend_multiplier v' F32.zero.

(** No sounding voice belongs to the instrument. *)
Definition core_instrument_silent (instr : option nat) (vs : list Core.voice_t)
  : Prop :=
  Forall (fun v => Core.active v && bool_decide (Core.instrument v = instr) = false) vs.

Definition rt_instrument_silent (instr : option nat) (vs : list RT.voice_t)
  : Prop :=
  Forall (fun v => RT.active v && bool_decide (RT.instrument v = instr) = false) vs.

(** ** Runs of API calls

    A client's use of a sampler, as a list of calls made one after the
    other on the sampler and on the instruments created for it.  The
    state is the list of live instruments and the sampler; an instrument
    pointer is an index into the list. *)

(** The calls of the plain build. *)
Module CoreAPI.
Inductive call :=
  | InstrumentCreate
  | LoadSample (instr : option nat) (r : load_request)
  | SetEnvelope (instr : option nat) (e : ms_envelope_t)
  | NoteOn (instr : option nat) (note vel : Z)
  | NoteOff (instr : option nat) (note : Z)
  | AllNotesOff
  | PitchBend (instr : option nat) (value : Z)
  | Process (out : list float) (frames : Z)
  | StartPlayback
  | StopPlayback.
End CoreAPI.

(** The real-time build has no playback calls; it has
    [ms_sampler_enable_rt], whose two flags tell whether the two system
    calls succeeded. *)
Module RTAPI.
Inductive call :=
  | InstrumentCreate
  | LoadSample (instr : option nat) (r : load_request)
  | SetEnvelope (instr : option nat) (e : ms_envelope_t)
  | NoteOn (instr : option nat) (note vel : Z)
  | NoteOff (instr : option nat) (note : Z)
  | AllNotesOff
  | PitchBend (instr : option nat) (value : Z)
  | Process (out : list float) (frames : Z)
  | EnableRT (priority : Z) (memory_locked scheduled : bool).
End RTAPI.

(** What a call hands back: its result code ([MS_SUCCESS] for a [void]
    function), the output block of a render call, and the [voice_id] cell
    of a note-on, which holds 0 before the call. *)
Record call_result := {
  res_code : ms_error_t;
  res_block : option (list float);
  res_voice_id : option Z
}.

Definition code_only (e : ms_error_t) : call_result :=
  {| res_code := e; res_block := None; res_voice_id := None |}.

(** Writing an instrument back to where the pointer points. *)
Definition store_instrument (heap : list ms_instrument_t) (instr : option nat)
    (i : option ms_instrument_t) : list ms_instrument_t :=
  match instr, i with
  | Some a, Some inst => <[a := inst]> heap
  | _, _ => heap
  end.

Definition new_instrument (heap : list ms_instrument_t)
    (i : option ms_instrument_t) : list ms_instrument_t :=
  match i with
  | Some inst => heap ++ [inst]
  | None => heap
  end.

Section CoreRun.

Variable pow : double -> double -> double.

Definition core_step (w : list ms_instrument_t * Core.ms_sampler_t) (c : CoreAPI.call)
  : list ms_instrument_t * Core.ms_sampler_t * call_result :=
  let heap := w.1 in
  let s := w.2 in
  match c with
  | CoreAPI.InstrumentCreate =>
      let r := Core.ms_instrument_create true in
      (new_instrument heap r.2, s, code_only r.1)
  | CoreAPI.LoadSample instr l =>
      let r := Core.ms_instrument_load_sample_memory (Core.deref heap instr)
                 (Some (lr_data l)) (lr_frames l) (lr_channels l)
                 (Some (lr_meta l)) in
      (store_instrument heap instr r.2, s, code_only r.1)
  | CoreAPI.SetEnvelope instr e =>
      let r := Core.ms_instrument_set_envelope (Core.deref heap instr) (Some e) in
      (store_instrument heap instr r.2, s, code_only r.1)
  | CoreAPI.NoteOn instr note vel =>
      let r := Core.ms_note_on pow heap s instr note vel (Some 0) in
      (heap, r.1.2,
       {| res_code := r.1.1; res_block := None; res_voice_id := r.2 |})
  | CoreAPI.NoteOff instr note =>
      let r := Core.ms_note_off heap s instr note in
      (heap, r.2, code_only r.1)
  | CoreAPI.AllNotesOff => (heap, Core.ms_all_notes_off s, code_only MS_SUCCESS)
  | CoreAPI.PitchBend instr value =>
      let r := Core.ms_pitch_bend pow heap s instr value in
      (r.1.2, r.2, code_only r.1.1)
  | CoreAPI.Process out frames =>
      let r := Core.ms_process (Some s) (Some out) frames in
      (heap, default s r.1.2,
       {| res_code := r.1.1; res_block := r.2; res_voice_id := None |})
  | CoreAPI.StartPlayback =>
      let r := Core.ms_start_playback (Some s) in
      (heap, default s r.2, code_only r.1)
  | CoreAPI.StopPlayback =>
      (heap, default s (Core.ms_stop_playback (Some s)), code_only MS_SUCCESS)
  end.

Fixpoint core_run (w : list ms_instrument_t * Core.ms_sampler_t)
    (calls : list CoreAPI.call)
  : list ms_instrument_t * Core.ms_sampler_t * list call_result :=
  match calls with
  | [] => (w, [])
  | c :: calls' =>
      let r := core_step w c in
      let rs := core_run r.1 calls' in
      (rs.1, r.2 :: rs.2)
  end.

End CoreRun.

(** The plain build right after [ms_sampler_create]. *)
Definition core_start (cfg : ms_audio_config_t)
  : list ms_instrument_t * Core.ms_sampler_t :=
  ([], Core.new_sampler cfg).

Section RTRun.

Variable powf : float -> float -> float.

Definition rt_step (w : list ms_instrument_t * RT.ms_sampler_t) (c : RTAPI.call)
  : list ms_instrument_t * RT.ms_sampler_t * call_result :=
  let heap := w.1 in
  let s := w.2 in
  match c with
  | RTAPI.InstrumentCreate =>
      let r := RT.ms_instrument_create true in
      (new_instrument heap r.2, s, code_only r.1)
  | RTAPI.LoadSample instr l =>
      let r := RT.ms_instrument_load_sample_memory (RT.deref heap instr)
                 (Some (lr_data l)) (lr_frames l) (lr_channels l)
                 (Some (lr_meta l)) in
      (store_instrument heap instr r.2, s, code_only r.1)
  | RTAPI.SetEnvelope instr e =>
      let r := RT.ms_instrument_set_envelope (RT.deref heap instr) (Some e) in
      (store_instrument heap instr r.2, s, code_only r.1)
  | RTAPI.NoteOn instr note vel =>
      let r := RT.ms_note_on heap s instr note vel (Some 0) in
      (heap, r.1.2,
       {| res_code := r.1.1; res_block := None; res_voice_id := r.2 |})
  | RTAPI.NoteOff instr note =>
      let r := RT.ms_note_off heap s instr note in
      (heap, r.2, code_only r.1)
  | RTAPI.AllNotesOff => (heap, RT.ms_all_notes_off s, code_only MS_SUCCESS)
  | RTAPI.PitchBend instr value =>
      let r := RT.ms_pitch_bend powf heap s instr value in
      (r.1.2, r.2, code_only r.1.1)
  | RTAPI.Process out frames =>
      let r := RT.ms_process heap (Some s) (Some out) frames in
      (heap, default s r.1.2,
       {| res_code := r.1.1; res_block := r.2; res_voice_id := None |})
  | RTAPI.EnableRT priority memory_locked scheduled =>
      let r := RT.ms_sampler_enable_rt (Some s) priority memory_locked scheduled in
      (heap, default s r.2, code_only r.1)
  end.

Fixpoint rt_run (w : list ms_instrument_t * RT.ms_sampler_t)
    (calls : list RTAPI.call)
  : list ms_instrument_t * RT.ms_sampler_t * list call_result :=
  match calls with
  | [] => (w, [])
  | c :: calls' =>
      let r := rt_step w c in
      let rs := rt_run r.1 calls' in
      (rs.1, r.2 :: rs.2)
  end.

End RTRun.

Definition rt_start (cfg : ms_audio_config_t)
  : list ms_instrument_t * RT.ms_sampler_t :=
  ([], RT.new_sampler cfg).

(** The identifiers [ms_sampler_create] gives the 64 slots: 1, 2, ... for
    the slots of the pool, 0 for the slots [calloc] zeroed and no
    [voice_init] touched. *)
Definition slot_ids (cfg : ms_audio_config_t) : list Z :=
  ((fun k => 1 + Z.of_nat k) <$> seq 0 (Core.pool_size cfg))
  ++ replicate (Z.to_nat MS_MAX_VOICES - Core.pool_size cfg) 0.

(** Frames rendered by the render calls of a run. *)
Definition core_frames_rendered (calls : list CoreAPI.call) : Z :=
  fold_right (fun c n => match c with
                         | CoreAPI.Process _ frames => frames + n
                         | _ => n
                         end) 0 calls.

Definition rt_frames_rendered (calls : list RTAPI.call) : Z :=
  fold_right (fun c n => match c with
                         | RTAPI.Process _ frames => frames + n
                         | _ => n
                         end) 0 calls.

(** ** Playback calls

    The plain build has one more call that touches the playback fields,
    [ms_load_midi_file]; a client's use of the player is a run of plain
    calls and file loads.  The state adds [current_track], the track the
    sampler points at, to the instruments and the sampler. *)
Inductive player_call :=
  | Plain (c : CoreAPI.call)
  | LoadMidiFile (instr : option nat) (path : option (list Byte.byte)).

Record player_t := {
  p_heap : list ms_instrument_t;
  p_sampler : Core.ms_sampler_t;
  p_track : option Midi.midi_track_t
}.

(** The player right after [ms_sampler_create]. *)
Definition player_start (cfg : ms_audio_config_t) : player_t :=
  {| p_heap := []; p_sampler := Core.new_sampler cfg; p_track := None |}.

Section PlayerRun.

Variable pow : double -> double -> double.
Variable fs : list Byte.byte -> option (list Byte.byte).

(** One call; [None] where the MIDI parser has no result. *)
Definition player_step (w : player_t) (c : player_call)
  : option (player_t * call_result) :=
  match c with
  | Plain c =>
      let r := core_step pow (p_heap w, p_sampler w) c in
      Some ({| p_heap := r.1.1; p_sampler := r.1.2; p_track := p_track w |}, r.2)
  | LoadMidiFile instr path =>
      r ← Midi.ms_load_midi_file fs (Some (p_sampler w)) (p_track w) instr path;
      Some ({| p_heap := p_heap w; p_sampler := default (p_sampler w) r.1.2;
               p_track := r.2 |},
            code_only r.1.1)
  end.

Fixpoint player_run (w : player_t) (calls : list player_call)
  : option (player_t * list call_result) :=
  match calls with
  | [] => Some (w, [])
  | c :: calls' =>
      r ← player_step w c;
      rs ← player_run r.1 calls';
      Some (rs.1, r.2 :: rs.2)
  end.

End PlayerRun.

(** The playback flag after a run that starts with the flag at [b]: the
    last of its start and stop calls decides. *)
Definition playing_after (calls : list player_call) (b : bool) : bool :=
  fold_left (fun b c => match c with
                        | Plain CoreAPI.StartPlayback => true
                        | Plain CoreAPI.StopPlayback => false
                        | _ => b
                        end) calls b.

(** A call that sets the frame count back to 0: a start call, or a file
    load that returned [MS_SUCCESS]. *)
Definition resets_count (c : player_call) (res : call_result) : bool :=
  match c, res_code res with
  | Plain CoreAPI.StartPlayback, _ => true
  | LoadMidiFile _ _, MS_SUCCESS => true
  | _, _ => false
  end.

(** Frames rendered since the last such call of a run, given as the calls
    with their results; [n] is the count before the run. *)
Definition frames_since_reset (trace : list (player_call * call_result)) (n : Z) : Z :=
  fold_left (fun n cr =>
               if resets_count cr.1 cr.2 then 0
               else match cr.1 with
                    | Plain (CoreAPI.Process _ frames) => n + frames
                    | _ => n
                    end) trace n.

(** ** The configured sample rate *)

Definition config_with_rate (cfg : ms_audio_config_t) (rate : Z) : ms_audio_config_t :=
  {| cfg_sample_rate := rate; channels := channels cfg;
     max_polyphony := max_polyphony cfg; buffer_size := buffer_size cfg |}.

(** A sampler with another sample rate in its configuration and all else
    as it is. *)
Definition core_with_rate (s : Core.ms_sampler_t) (rate : Z) : Core.ms_sampler_t :=
  {| Core.config := config_with_rate (Core.config s) rate;
     Core.voices := Core.voices s;
     Core.next_voice_id := Core.next_voice_id s;
     Core.playback_event_index := Core.playback_event_index s;
     Core.playback_sample_count := Core.playback_sample_count s;
     Core.is_playing := Core.is_playing s |}.

Definition rt_with_rate (s : RT.ms_sampler_t) (rate : Z) : RT.ms_sampler_t :=
  {| RT.config := config_with_rate (RT.config s) rate;
     RT.voices := RT.voices s;
     RT.next_voice_id := RT.next_voice_id s;
     RT.event_queue := RT.event_queue s;
     RT.playback_event_index := RT.playback_event_index s;
     RT.playback_sample_count := RT.playback_sample_count s;
     RT.is_playing := RT.is_playing s;
     RT.rt_priority := RT.rt_priority s;
     RT.rt_enabled := RT.rt_enabled s;
     RT.frames_processed := RT.frames_processed s;
     RT.xruns := RT.xruns s |}.

(** The real-time render call once [process_events] has handled the
    pending events: [s1] is the sampler it left, [buffer_size] the number
    of floats to clear. *)
Definition rt_render (s1 : RT.ms_sampler_t) (buffer_size : Z) (out : list float)
    (frames : Z) : ms_error_t * option RT.ms_sampler_t * option (list float) :=
  let out0 := memset_zero (Z.to_nat buffer_size) out in
  let '(vs, out1) :=
    RT.process_voices (RT.pool_size (RT.config s1)) (RT.voices s1) (Some out0)
                      frames (channels (RT.config s1)) in
  let s2 := RT.set_voices s1 vs in
  (MS_SUCCESS,
   Some {| RT.config := RT.config s2; RT.voices := RT.voices s2;
           RT.next_voice_id := RT.next_voice_id s2;
           RT.event_queue := RT.event_queue s2;
           RT.playback_event_index := RT.playback_event_index s2;
           RT.playback_sample_count := RT.playback_sample_count s2;
           RT.is_playing := RT.is_playing s2; RT.rt_priority := RT.rt_priority s2;
           RT.rt_enabled := RT.rt_enabled s2;
           RT.frames_processed := (RT.frames_processed s2 + frames) mod 2 ^ 64;
           RT.xruns := RT.xruns s2 |},
   out1).

(** ** Files with known contents *)

(** The byte with value [z], for [z] in 0..255. *)
Definition byte_of (z : Z) : Byte.byte :=
  default Byte.x00 (Byte.of_N (Z.to_N z)).

(** A stream that has read [pre] and has [rest] before it. *)
Definition file_at (pre rest : list Byte.byte) : Stdio.FILE :=
  {| Stdio.content := pre ++ rest;
     Stdio.position := Z.of_nat (length pre) |}.

(** A file system that holds one file. *)
Definition one_file (path c : list Byte.byte)
  : list Byte.byte -> option (list Byte.byte) :=
  fun p => if bool_decide (Stdio.u8 <$> p = Stdio.u8 <$> path) then Some c else None.

(** [f] holds at [v], [v + 1], ..., [v + n - 1]. *)
Fixpoint check_from (f : Z -> bool) (n : nat) (v : Z) : bool :=
  match n with
  | O => true
  | S n' => f v && check_from f n' (v + 1)
  end.

(** ** WAV files *)

Definition le16_bytes (v : Z) : list Byte.byte :=
  [byte_of (v mod 256); byte_of (v / 256 mod 256)].

Definition le32_bytes (v : Z) : list Byte.byte :=
  [byte_of (v mod 256); byte_of (v / 256 mod 256);
   byte_of (v / 65536 mod 256); byte_of (v / 16777216 mod 256)].

(** A RIFF chunk as the loader walks it: four identifier bytes, the size
    of the body, the body, and no padding byte. *)
Record riff_chunk := {
  ck_id : list Byte.byte;
  ck_body : list Byte.byte
}.

Definition chunk_bytes (c : riff_chunk) : list Byte.byte :=
  ck_id c ++ le32_bytes (Z.of_nat (length (ck_body c))) ++ ck_body c.

Definition chunks_bytes (cs : list riff_chunk) : list Byte.byte :=
  concat (chunk_bytes <$> cs).

(** A chunk the loader steps over while it looks for the identifier with
    the character codes [lit]. *)
Definition other_chunk (lit : list Z) (c : riff_chunk) : Prop :=
  length (ck_id c) = 4%nat /\ Stdio.u8 <$> ck_id c <> lit /\
  Z.of_nat (length (ck_body c)) < 2 ^ 32.

(** The parts of a WAV file: the RIFF size field, chunks before the
    format chunk, the fields of the format chunk and bytes that extend
    it, chunks before the data chunk, the size the data chunk declares and
    all bytes that follow its header. *)
Record wav_layout := {
  wl_riff_size : Z;
  wl_before_fmt : list riff_chunk;
  wl_format : Z;
  wl_channels : Z;
  wl_sample_rate : Z;
  wl_byte_rate : Z;
  wl_block_align : Z;
  wl_bits : Z;
  wl_fmt_extra : list Byte.byte;
  wl_before_data : list riff_chunk;
  wl_data_size : Z;
  wl_body : list Byte.byte
}.

Definition riff_header (w : wav_layout) : list Byte.byte :=
  [Byte.x52; Byte.x49; Byte.x46; Byte.x46]        (* "RIFF" *)
  ++ le32_bytes (wl_riff_size w)
  ++ [Byte.x57; Byte.x41; Byte.x56; Byte.x45].    (* "WAVE" *)

Definition fmt_fields (w : wav_layout) : list Byte.byte :=
  le16_bytes (wl_format w) ++ le16_bytes (wl_channels w)
  ++ le32_bytes (wl_sample_rate w) ++ le32_bytes (wl_byte_rate w)
  ++ le16_bytes (wl_block_align w) ++ le16_bytes (wl_bits w).

Definition fmt_header (w : wav_layout) : list Byte.byte :=
  [Byte.x66; Byte.x6d; Byte.x74; Byte.x20]        (* "fmt " *)
  ++ le32_bytes (16 + Z.of_nat (length (wl_fmt_extra w))).

Definition data_header (w : wav_layout) : list Byte.byte :=
  [Byte.x64; Byte.x61; Byte.x74; Byte.x61]        (* "data" *)
  ++ le32_bytes (wl_data_size w).

(** Everything up to the first byte after the data header. *)
Definition wav_prefix (w : wav_layout) : list Byte.byte :=
  riff_header w ++ chunks_bytes (wl_before_fmt w)
  ++ fmt_header w ++ fmt_fields w ++ wl_fmt_extra w
  ++ chunks_bytes (wl_before_data w) ++ data_header w.

Definition wav_file (w : wav_layout) : list Byte.byte :=
  wav_prefix w ++ wl_body w.

Definition layout_ok (w : wav_layout) : Prop :=
  Forall (other_chunk [102; 109; 116; 32]) (wl_before_fmt w) /\
  Forall (other_chunk [100; 97; 116; 97]) (wl_before_data w) /\
  0 <= wl_format w < 2 ^ 16 /\ 0 <= wl_channels w < 2 ^ 16 /\
  0 <= wl_bits w < 2 ^ 16 /\
  16 + Z.of_nat (length (wl_fmt_extra w)) < 2 ^ 32 /\
  0 <= wl_data_size w < 2 ^ 32.

(** The bytes of 16-bit samples, and of 8-bit ones. *)
Definition pcm16_bytes (samples : list Z) : list Byte.byte :=
  concat ((fun v => le16_bytes (v mod 65536)) <$> samples).

Definition pcm8_bytes (samples : list Z) : list Byte.byte :=
  byte_of <$> samples.

(** The value of the finite float [x] is the fraction [num / den]. *)
Definition SFis_fraction (x : spec_float) (num den : Z) : bool :=
  match x with
  | S754_zero _ => num =? 0
  | S754_finite s m e =>
      let v := if s then - Zpos m else Zpos m in
      if 0 <=? e then v * 2 ^ e * den =? num else v * den =? num * 2 ^ (- e)
  | _ => false
  end.

(** [-1.0f <= x && x < 1.0f] *)
Definition unit_range (x : float) : bool :=
  F32.leb (F32.of_Z (-1)) x && F32.ltb x F32.one.

Definition pcm16_ok (v : Z) : bool :=
  SFis_fraction (Wav.pcm16_to_float v) v 32768
  && unit_range (Wav.pcm16_to_float v).

Definition pcm8_ok (v : Z) : bool :=
  SFis_fraction (Wav.pcm8_to_float v) (v - 128) 128
  && unit_range (Wav.pcm8_to_float v).

(** ** MIDI files *)

Definition be16_bytes (v : Z) : list Byte.byte :=
  [byte_of (v / 256 mod 256); byte_of (v mod 256)].

Definition be32_bytes (v : Z) : list Byte.byte :=
  [byte_of (v / 16777216 mod 256); byte_of (v / 65536 mod 256);
   byte_of (v / 256 mod 256); byte_of (v mod 256)].

(** The variable-length quantity of a number below 2^28: groups of seven
    bits, the high group first, every byte but the last with bit 7 set. *)
Definition vlq_high_digits (n : Z) : list Z :=
  (if 2097152 <=? n then [n / 2097152 mod 128] else [])
  ++ (if 16384 <=? n then [n / 16384 mod 128] else [])
  ++ (if 128 <=? n then [n / 128 mod 128] else []).

Definition vlq_bytes (n : Z) : list Byte.byte :=
  ((fun d => byte_of (128 + d)) <$> vlq_high_digits n) ++ [byte_of (n mod 128)].

(** The messages of a track chunk. *)
Inductive midi_message :=
  | MsgNote (on : bool) (ch note velocity : Z)          (* 9n / 8n *)
  | MsgBend (ch lsb msb : Z)                            (* En *)
  | MsgControl (ch controller value : Z)                (* Bn *)
  | MsgProgram (ch program : Z)                         (* Cn *)
  | MsgPressure (ch pressure : Z)                       (* Dn *)
  | MsgKeyPressure (ch note pressure : Z)               (* An *)
  | MsgTempo (microseconds : Z)                         (* FF 51 03 *)
  | MsgMeta (meta_type : Z) (payload : list Byte.byte)  (* FF *)
  | MsgSysEx (escape : bool) (payload : list Byte.byte) (* F0 / F7 *).

(** A message with its delta time; [it_running] tells that the status
    byte is left out (running status). *)
Record track_item := {
  it_delta : Z;
  it_running : bool;
  it_msg : midi_message
}.

Definition msg_status (m : midi_message) : Z :=
  match m with
  | MsgNote on ch _ _ => (if on then 144 else 128) + ch
  | MsgBend ch _ _ => 224 + ch
  | MsgControl ch _ _ => 176 + ch
  | MsgProgram ch _ => 192 + ch
  | MsgPressure ch _ => 208 + ch
  | MsgKeyPressure ch _ _ => 160 + ch
  | MsgTempo _ | MsgMeta _ _ => 255
  | MsgSysEx escape _ => if escape then 247 else 240
  end.

Definition msg_data (m : midi_message) : list Byte.byte :=
  match m with
  | MsgNote _ _ a b | MsgBend _ a b | MsgControl _ a b | MsgKeyPressure _ a b =>
      [byte_of a; byte_of b]
  | MsgProgram _ a | MsgPressure _ a => [byte_of a]
  | MsgTempo t =>
      byte_of 81 :: vlq_bytes 3
      ++ [byte_of (t / 65536 mod 256); byte_of (t / 256 mod 256); byte_of (t mod 256)]
  | MsgMeta ty p => byte_of ty :: vlq_bytes (Z.of_nat (length p)) ++ p
  | MsgSysEx _ p => vlq_bytes (Z.of_nat (length p)) ++ p
  end.

Definition item_bytes (it : track_item) : list Byte.byte :=
  vlq_bytes (it_delta it)
  ++ (if it_running it then [] else [byte_of (msg_status (it_msg it))])
  ++ msg_data (it_msg it).

Definition track_bytes (items : list track_item) : list Byte.byte :=
  concat (item_bytes <$> items).

Definition channel_msg (m : midi_message) : bool :=
  match m with
  | MsgTempo _ | MsgMeta _ _ | MsgSysEx _ _ => false
  | _ => true
  end.

(** Channels below 16, data bytes below 128, lengths that fit four
    variable-length bytes; a meta message that is not a tempo change. *)
Definition msg_ok (m : midi_message) : Prop :=
  match m with
  | MsgNote _ ch a b | MsgBend ch a b | MsgControl ch a b | MsgKeyPressure ch a b =>
      0 <= ch < 16 /\ 0 <= a < 128 /\ 0 <= b < 128
  | MsgProgram ch a | MsgPressure ch a => 0 <= ch < 16 /\ 0 <= a < 128
  | MsgTempo t => 0 <= t < 2 ^ 24
  | MsgMeta ty p =>
      0 <= ty < 128 /\ Z.of_nat (length p) < 2 ^ 28 /\
      ~ (ty = 81 /\ length p = 3%nat)
  | MsgSysEx _ p => Z.of_nat (length p) < 2 ^ 28
  end.

(** A track whose running-status items repeat the status [prev] of the
    message before them. *)
Fixpoint items_ok (prev : Z) (items : list track_item) : Prop :=
  match items with
  | [] => True
  | it :: l =>
      0 <= it_delta it < 2 ^ 28 /\ msg_ok (it_msg it) /\
      (it_running it = true ->
       channel_msg (it_msg it) = true /\ msg_status (it_msg it) = prev) /\
      items_ok (msg_status (it_msg it)) l
  end.

(** The event a message is stored as, if it is stored. *)
Definition msg_event (time : Z) (m : midi_message) : option Midi.midi_event_t :=
  match m with
  | MsgNote on ch note velocity =>
      Some {| Midi.timestamp := time;
              Midi.type := if on && (0 <? velocity)
                           then Midi.MIDI_NOTE_ON else Midi.MIDI_NOTE_OFF;
              Midi.channel := ch; Midi.data1 := note; Midi.data2 := velocity |}
  | MsgBend ch lsb msb =>
      let bend := msb * 128 + lsb - 8192 in
      Some {| Midi.timestamp := time; Midi.type := Midi.MIDI_PITCH_BEND;
              Midi.channel := ch;
              Midi.data1 := bend mod 256; Midi.data2 := bend / 256 mod 256 |}
  | _ => None
  end.

(** The events of a track that starts at [time]: time stamps are the
    running sums of the delta times, modulo 2^32. *)
Fixpoint track_events (time : Z) (items : list track_item)
  : list Midi.midi_event_t :=
  match items with
  | [] => []
  | it :: l =>
      let time1 := (time + it_delta it) mod 2 ^ 32 in
      match msg_event time1 (it_msg it) with
      | Some e => e :: track_events time1 l
      | None => track_events time1 l
      end
  end.

(** The last tempo of a track, [start] when it sets none. *)
Definition track_tempo (start : Z) (items : list track_item) : Z :=
  fold_left (fun t it => match it_msg it with MsgTempo v => v | _ => t end)
            items start.

(** The capacity of the event array after [adds] more events, from
    capacity [cap] with [count] events stored. *)
Fixpoint capacity_after (cap count : Z) (adds : nat) : Z :=
  match adds with
  | O => cap
  | S k =>
      capacity_after
        (if cap <=? count
         then (if cap =? 0 then 1024 else (cap * 2) mod 2 ^ 64)
         else cap)
        (count + 1) k
  end.

(** The header chunk of a format-[fmt] file with [ntracks] declared
    tracks and [extra] bytes after its six data bytes. *)
Definition midi_header (fmt ntracks division : Z) (extra : list Byte.byte)
  : list Byte.byte :=
  [Byte.x4d; Byte.x54; Byte.x68; Byte.x64]          (* "MThd" *)
  ++ be32_bytes (6 + Z.of_nat (length extra))
  ++ be16_bytes fmt ++ be16_bytes ntracks ++ be16_bytes division
  ++ extra.

(** A file whose first track holds [items], with [rest] after it. *)
Definition midi_file (fmt ntracks division : Z) (extra : list Byte.byte)
    (items : list track_item) (rest : list Byte.byte) : list Byte.byte :=
  midi_header fmt ntracks division extra
  ++ [Byte.x4d; Byte.x54; Byte.x72; Byte.x6b]       (* "MTrk" *)
  ++ be32_bytes (Z.of_nat (length (track_bytes items)))
  ++ track_bytes items ++ rest.

(** What the track loop does to the track for one message. *)
Definition track_step (t : Midi.midi_track_t) (time : Z) (m : midi_message)
  : Midi.midi_track_t :=
  match msg_event time m with
  | Some e => (Midi.add_midi_event t e).2
  | None =>
      match m with
      | MsgTempo v => Midi.set_tempo t v
      | _ => t
      end
  end.

Definition status_nibbles_ok (x : Z) : bool :=
  (Z.land x 240 =? 16 * (x / 16)) && (Z.land x 15 =? x mod 16).

(** The track, the time and the running status after the items of a
    track. *)
Fixpoint track_after (t : Midi.midi_track_t) (time : Z) (items : list track_item)
  : Midi.midi_track_t :=
  match items with
  | [] => t
  | it :: l =>
      let time1 := (time + it_delta it) mod 2 ^ 32 in
      track_after (track_step t time1 (it_msg it)) time1 l
  end.

Definition time_after (time : Z) (items : list track_item) : Z :=
  fold_left (fun tm it => (tm + it_delta it) mod 2 ^ 32) items time.

Definition status_after (prev : Z) (items : list track_item) : Z :=
  fold_left (fun _ it => msg_status (it_msg it)) items prev.

(** What every stored event satisfies. *)
Definition event_ok (e : Midi.midi_event_t) : Prop :=
  0 <= Midi.timestamp e < 2 ^ 32 /\
  Midi.type e <> Midi.MIDI_CONTROL_CHANGE /\
  0 <= Midi.channel e < 16 /\
  0 <= Midi.data1 e < 256 /\ 0 <= Midi.data2 e < 256 /\
  (Midi.type e = Midi.MIDI_NOTE_ON -> 0 < Midi.data2 e).

Definition track_ok (t : Midi.midi_track_t) : Prop :=
  Forall event_ok (Midi.events t) /\
  0 <= Midi.ticks_per_beat t < 2 ^ 15 /\ 0 <= Midi.tempo t < 2 ^ 24 /\
  Midi.capacity t = capacity_after 0 0 (length (Midi.events t)).

(** ** A sampler without voices *)

(** The block a render call hands back when no voice is mixed in. *)
Definition silent_block (cfg : ms_audio_config_t) (out : list float) (frames : Z)
  : list float :=
  memset_zero (Z.to_nat ((frames * channels cfg) mod 2 ^ 64)) out.

Definition core_renders_silence (cfg : ms_audio_config_t) (c : CoreAPI.call)
    (res : call_result) : Prop :=
  match c with
  | CoreAPI.Process out frames =>
      res_code res = MS_SUCCESS /\
      res_block res = Some (silent_block cfg out frames)
  | _ => True
  end.

Definition rt_renders_silence (cfg : ms_audio_config_t) (c : RTAPI.call)
    (res : call_result) : Prop :=
  match c with
  | RTAPI.Process out frames =>
      res_code res = MS_SUCCESS /\
      res_block res = Some (silent_block cfg out frames)
  | _ => True
  end.

(** ** What is left of a file *)

(** The bytes between the position of a stream and the end of its file. *)
Definition bytes_left (fp : Stdio.FILE) : nat :=
  (length (Stdio.content fp) - Z.to_nat (Stdio.position fp))%nat.

(** ** One frame of a voice in the output *)

(** The output block once frame [i] of a voice has added [v] to it: one
    cell of a mono block, two of a stereo one.  The plain build takes
    every channel count but 1 for stereo, the real-time build every
    count but 2 for mono. *)
Definition core_mix_frame (chans : Z) (i : nat) (out : list float) (v : float)
  : list float :=
  if chans =? 1 then mix_into out i v
  else mix_into (mix_into out (i * 2) v) (i * 2 + 1) v.

Definition rt_mix_frame (chans : Z) (i : nat) (out : list float) (v : float)
  : list float :=
  if chans =? 2 then mix_into (mix_into out (i * 2) v) (i * 2 + 1) v
  else mix_into out i v.

(** ** Round trip through load, note-on and render *)

(** What frame [k] of a mono sample, played at speed 1.0 with velocity
    gain 1.0 at envelope level [level], leaves in an output cell that
    held [0.0f]: [0 + (s0 + 0 * (s1 - s0)) * level * 1], every operation
    in binary32; [s1] is the next frame, or [s0] at the end of the
    buffer. *)
Definition read_back (input : list float) (level : float) (k : nat) : float :=
  let s0 := read_sample input (Z.of_nat k) in
  let s1 := if Z.of_nat k + 1 <? Z.of_nat (length input)
            then read_sample input (Z.of_nat k + 1) else s0 in
  F32.add F32.zero
    (F32.mul (F32.mul (F32.add s0 (F32.mul F32.zero (F32.sub s1 s0))) level)
             F32.one).

(** The metadata of the sample: root note 69, every velocity, no loop. *)
Definition roundtrip_meta : ms_sample_metadata_t :=
  {| root_note := 69; velocity_low := 0; velocity_high := 127;
     loop_enabled := false; loop_start := 0; loop_end := 0 |}.

(** The calls of a round trip: an instrument is created, given the
    envelope [env] and the mono sample [input] from memory; note 69, the
    root note, is played at velocity 127; [frames] frames are rendered
    into [out]. *)
Definition core_roundtrip_calls (env : ms_envelope_t) (input out : list float)
    (frames : nat) : list CoreAPI.call :=
  [CoreAPI.InstrumentCreate;
   CoreAPI.SetEnvelope (Some 0%nat) env;
   CoreAPI.LoadSample (Some 0%nat)
     {| lr_data := input; lr_frames := Z.of_nat (length input);
        lr_channels := 1; lr_meta := roundtrip_meta |};
   CoreAPI.NoteOn (Some 0%nat) 69 127;
   CoreAPI.Process out (Z.of_nat frames)].

Definition rt_roundtrip_calls (env : ms_envelope_t) (input out : list float)
    (frames : nat) : list RTAPI.call :=
  [RTAPI.InstrumentCreate;
   RTAPI.SetEnvelope (Some 0%nat) env;
   RTAPI.LoadSample (Some 0%nat)
     {| lr_data := input; lr_frames := Z.of_nat (length input);
        lr_channels := 1; lr_meta := roundtrip_meta |};
   RTAPI.NoteOn (Some 0%nat) 69 127;
   RTAPI.Process out (Z.of_nat frames)].

(** The envelope levels of the first [frames] frames after a trigger:
    what [envelope_process] returns on its first [frames] calls. *)
Definition core_levels (env : ms_envelope_t) (frames : nat) : list float :=
  (Core.envelope_run frames
     (Core.envelope_trigger
        (Core.envelope_init Core.zero_envelope (F32.of_Z 44100) (Some env)))).1.

Definition rt_levels (env : ms_envelope_t) (frames : nat) : list float :=
  (RT.envelope_run frames
     (RT.envelope_trigger
        (RT.envelope_init RT.zero_envelope (F32.of_Z 44100) (Some env)))).1.

(** An envelope that is sounding and has not been released. *)
Definition core_held (env : Core.envelope_generator_t) : bool :=
  match Core.stage env with
  | ENV_ATTACK | ENV_DECAY | ENV_SUSTAIN => true
  | _ => false
  end.

Definition rt_held (env : RT.envelope_generator_t) : bool :=
  match RT.stage env with
  | ENV_ATTACK | ENV_DECAY | ENV_SUSTAIN => true
  | _ => false
  end.

(** What a call handed back, without the [voice_id] cell. *)
Definition code_and_block (r : call_result) : ms_error_t * option (list float) :=
  (res_code r, res_block r).

(** * Fixtures for the concrete instances *)

Definition example_meta (root lo hi : Z) : ms_sample_metadata_t :=
  {| root_note := root; velocity_low := lo; velocity_high := hi;
     loop_enabled := false; loop_start := 0; loop_end := 0 |}.

(** A four-frame mono sample holding 0.5, 0.25, -0.5, 0.75. *)
Definition example_sample (root lo hi : Z) : ms_sample_data_t :=
  {| data := [f32_lit 5 1; f32_lit 25 2; f32_lit (-5) 1; f32_lit 75 2];
     num_frames := 4; smp_channels := 1; meta := example_meta root lo hi |}.

(** The envelope [ms_instrument_create] installs in the plain build. *)
Definition example_envelope : ms_envelope_t :=
  {| attack_time := f32_lit 1 2; decay_time := f32_lit 1 1;
     sustain_level := f32_lit 7 1; release_time := f32_lit 3 1 |}.

(** Two velocity layers: a soft one rooted at 60, a loud one rooted at 72
    and at 48. *)
Definition example_instrument : ms_instrument_t :=
  {| samples := [example_sample 60 0 63; example_sample 72 64 127;
                 example_sample 48 64 127];
     inst_envelope := example_envelope;
     pitch_bend_range := F32.of_Z 2;
     current_pitch_bend := 0;
     inst_sampler := true |}.

(** A stereo sampler with a pool of two voices, and the one-instrument
    heap the examples play. *)
Definition example_config : ms_audio_config_t :=
  {| cfg_sample_rate := 48000; channels := 2; max_polyphony := 2; buffer_size := 512 |}.

Definition example_heap : list ms_instrument_t := [example_instrument].

(** The four-frame sample again, looping over frames 1..3. *)
Definition example_looping_sample : ms_sample_data_t :=
  {| data := data (example_sample 69 0 127); num_frames := 4; smp_channels := 1;
     meta := {| root_note := 69; velocity_low := 0; velocity_high := 127;
                loop_enabled := true; loop_start := 1; loop_end := 3 |} |}.

(** Stand-in for the C library's [pow] in concrete runs.  The fixtures
    only play a sample at its root note 69, where the exponent is 0 and
    [pow(2.0, 0.0)] is 1. *)
Definition example_pow (x y : double) : double := F64.one.

(** A sounding voice of each build, at playback position [position]. *)
Definition example_core_voice (smp : ms_sample_data_t) (position : double)
  : Core.voice_t :=
  {| Core.active := true; Core.voice_id := 1; Core.note := 69; Core.velocity := 127;
     Core.sample := Some smp;
     Core.playback_position := position; Core.playback_speed := F64.one;
     Core.envelope :=
       Core.envelope_trigger
         (Core.envelope_init Core.zero_envelope (F32.of_Z 44100) (Some example_envelope));
     Core.pitch_bend_multiplier := F32.one; Core.instrument := Some 0%nat |}.

Definition example_rt_voice (smp : ms_sample_data_t) (position : double)
  : RT.voice_t :=
  {| RT.active := true; RT.voice_id := 1; RT.note := 69; RT.velocity := 127;
     RT.sample := Some smp;
     RT.playback_position := position; RT.playback_speed := F64.one;
     RT.envelope :=
       RT.envelope_trigger
         (RT.envelope_init RT.zero_envelope (F32.of_Z 44100) (Some example_envelope));
     RT.pitch_bend_multiplier := F32.one; RT.velocity_gain := F32.one;
     RT.instrument := Some 0%nat |}.

(** An output block of eight floats, all 0.25. *)
Definition example_output : list float := replicate 8 (f32_lit 25 2).

(** The round-trip set-up: an envelope with zero attack, decay and
    release times and sustain level 1.0; a mono sample rooted at note 69
    loaded from memory; a mono sampler with one voice; one note-on for
    note 69 at velocity 127; one render call over a buffer pre-filled
    with 0.25. *)
Definition roundtrip_envelope : ms_envelope_t :=
  {| attack_time := F32.zero; decay_time := F32.zero;
     sustain_level := F32.one; release_time := F32.zero |}.

Definition roundtrip_config : ms_audio_config_t :=
  {| cfg_sample_rate := 44100; channels := 1; max_polyphony := 1; buffer_size := 4 |}.

Definition roundtrip_instrument (input : list float) : option ms_instrument_t :=
  let inst0 := (Core.ms_instrument_create true).2 in
  let inst1 := (Core.ms_instrument_set_envelope inst0 (Some roundtrip_envelope)).2 in
  (Core.ms_instrument_load_sample_memory inst1 (Some input)
     (Z.of_nat (length input)) 1 (Some (example_meta 69 0 127))).2.

(** The sampler after the note-on. *)
Definition core_roundtrip_sampler (input : list float) : option Core.ms_sampler_t :=
  match roundtrip_instrument input with
  | Some inst =>
      Some (Core.ms_note_on example_pow [inst] (Core.new_sampler roundtrip_config)
                            (Some 0%nat) 69 127 None).1.2
  | None => None
  end.

(** The output buffer after the render call. *)
Definition core_roundtrip (input : list float) : option (list float) :=
  (Core.ms_process (core_roundtrip_sampler input)
     (Some (replicate (length input) (f32_lit 25 2)))
     (Z.of_nat (length input))).2.

Definition rt_roundtrip_sampler (input : list float) : option RT.ms_sampler_t :=
  match roundtrip_instrument input with
  | Some inst =>
      Some (RT.ms_note_on [inst] (RT.new_sampler roundtrip_config)
                          (Some 0%nat) 69 127 None).1.2
  | None => None
  end.

(** The sampler and the output buffer after the render call. *)
Definition rt_roundtrip_render (input : list float)
  : option RT.ms_sampler_t * option (list float) :=
  match roundtrip_instrument input with
  | Some inst =>
      let r := RT.ms_process [inst] (rt_roundtrip_sampler input)
                 (Some (replicate (length input) (f32_lit 25 2)))
                 (Z.of_nat (length input)) in
      (r.1.2, r.2)
  | None => (None, None)
  end.

Definition rt_roundtrip (input : list float) : option (list float) :=
  (rt_roundtrip_render input).2.

(** ** A small WAV file

    One channel, 16 bits, three samples, with a chunk of another kind
    between the format and the data chunk and a sample rate that is not
    44100 Hz. *)
Definition wav_example : wav_layout :=
  {| wl_riff_size := 59;
     wl_before_fmt := [];
     wl_format := 1;
     wl_channels := 1;
     wl_sample_rate := 22050;
     wl_byte_rate := 44100;
     wl_block_align := 2;
     wl_bits := 16;
     wl_fmt_extra := [];
     wl_before_data :=
       [{| ck_id := [Byte.x4c; Byte.x49; Byte.x53; Byte.x54];   (* "LIST" *)
           ck_body := [Byte.x00] |}];
     wl_data_size := 6;
     wl_body := pcm16_bytes [0; 16384; -32768] |}.

(** The same file declared as IEEE float samples (format tag 3). *)
Definition wav_float_example : wav_layout :=
  {| wl_riff_size := 59;
     wl_before_fmt := [];
     wl_format := 3;
     wl_channels := 1;
     wl_sample_rate := 22050;
     wl_byte_rate := 44100;
     wl_block_align := 2;
     wl_bits := 16;
     wl_fmt_extra := [];
     wl_before_data := [];
     wl_data_size := 6;
     wl_body := pcm16_bytes [0; 16384; -32768] |}.

(** ** A small MIDI track

    A tempo change, middle C on channel 0, its end 480 ticks later as a
    note-on with velocity 0 under running status, a controller, a pitch
    bend on channel 1 after 240 more ticks, and the end-of-track meta
    event. *)
Definition midi_example_items : list track_item :=
  [{| it_delta := 0; it_running := false; it_msg := MsgTempo 600000 |};
   {| it_delta := 0; it_running := false; it_msg := MsgNote true 0 60 100 |};
   {| it_delta := 480; it_running := true; it_msg := MsgNote true 0 60 0 |};
   {| it_delta := 0; it_running := false; it_msg := MsgControl 0 7 100 |};
   {| it_delta := 240; it_running := false; it_msg := MsgBend 1 0 96 |};
   {| it_delta := 0; it_running := false; it_msg := MsgMeta 47 [] |}].

(** The sample the round trip loads, and the instrument that holds it
    when the note is played. *)
Definition roundtrip_sample (input : list float) : ms_sample_data_t :=
  {| data := take (Z.to_nat (Z.of_nat (length input) * 1)) input;
     num_frames := Z.of_nat (length input); smp_channels := 1;
     meta := roundtrip_meta |}.

Definition roundtrip_loaded (env : ms_envelope_t) (input : list float)
  : ms_instrument_t :=
  {| samples := [roundtrip_sample input]; inst_envelope := env;
     pitch_bend_range := F32.of_Z 2; current_pitch_bend := 0;
     inst_sampler := true |}.

(** The event the real-time note-on queues. *)
Definition roundtrip_event : rt_event_t :=
  {| ev_note := 69; ev_velocity := 127; event_type := 0;
     ev_instrument := Some 0%nat |}.

(** The generator of the zero-time envelope once it holds its sustain
    level: four frames after the trigger in the plain build, three in the
    real-time build. *)
Definition core_sustained : Core.envelope_generator_t :=
  (Core.envelope_run 4
     (Core.envelope_trigger
        (Core.envelope_init Core.zero_envelope (F32.of_Z 44100)
           (Some roundtrip_envelope)))).2.

Definition rt_sustained : RT.envelope_generator_t :=
  (RT.envelope_run 3
     (RT.envelope_trigger
        (RT.envelope_init RT.zero_envelope (F32.of_Z 44100)
           (Some roundtrip_envelope)))).2.

(** * Properties *)

(** ** The event ring *)

Section Ring.

Local Arguments Nat.modulo : simpl never.
Local Arguments Nat.div : simpl never.

Implicit Types (q : rt_event_queue_t) (e : rt_event_t).

Lemma push_wf q e : queue_wf q -> queue_wf (rt_queue_push q e).2.
Proof.
  intros (Hw & Hr & Hl). unfold rt_queue_push, queue_wf.
  destruct (_ =? _)%nat eqn:E; simpl; [done|].
  rewrite length_insert. split_and!; [|done..].
  by apply Nat.mod_upper_bound.
Qed.

Lemma pop_wf q : queue_wf q -> queue_wf (rt_queue_pop q).2.
Proof.
  intros (Hw & Hr & Hl). unfold rt_queue_pop, queue_wf.
  destruct (_ =? _)%nat eqn:E; simpl; [done|].
  split_and!; [done| |done]. by apply Nat.mod_upper_bound.
Qed.

Lemma empty_queue_wf : queue_wf empty_queue.
Proof.
  unfold queue_wf, empty_queue. cbn [write_idx read_idx events].
  rewrite length_replicate. unfold RT_EVENT_QUEUE_SIZE. lia.
Qed.

End Ring.

Section RingContents.

Local Arguments Nat.modulo : simpl never.
Local Arguments Nat.div : simpl never.

Implicit Types (q : rt_event_queue_t) (e : rt_event_t) (ev : list rt_event_t).

Ltac ring_arith :=
  unfold RT_EVENT_QUEUE_SIZE in *;
  repeat match goal with
  | H : (_ =? _)%nat = true |- _ => apply Nat.eqb_eq in H
  | H : (_ =? _)%nat = false |- _ => apply Nat.eqb_neq in H
  end;
  try lia.

Lemma slice_S ev r n :
  slice ev r (S n) =
  match ev !! r with
  | Some x => x :: slice ev ((r + 1) mod RT_EVENT_QUEUE_SIZE)%nat n
  | None => []
  end.
Proof. reflexivity. Qed.

Lemma slice_length ev r n :
  length ev = RT_EVENT_QUEUE_SIZE -> (r < RT_EVENT_QUEUE_SIZE)%nat ->
  length (slice ev r n) = n.
Proof.
  intros Hl. revert r. induction n as [|n IH]; intros r Hr; [done|].
  cbn [slice]. destruct (lookup_lt_is_Some_2 ev r) as [x ->]; [lia|].
  cbn [length]. rewrite IH; [done|]. by apply Nat.mod_upper_bound.
Qed.

Lemma slice_insert_snoc ev e r n :
  length ev = RT_EVENT_QUEUE_SIZE -> (r < RT_EVENT_QUEUE_SIZE)%nat ->
  (n < RT_EVENT_QUEUE_SIZE - 1)%nat ->
  slice (<[((r + n) mod RT_EVENT_QUEUE_SIZE)%nat := e]> ev) r (S n)
  = slice ev r n ++ [e].
Proof.
  intros Hl. revert r. induction n as [|n IH]; intros r Hr Hn.
  - cbn [slice]. replace ((r + 0) mod RT_EVENT_QUEUE_SIZE)%nat with r by ring_arith.
    rewrite list_lookup_insert_eq; [done|lia].
  - rewrite (slice_S _ r (S n)), (slice_S ev r n).
    rewrite list_lookup_insert_ne by ring_arith.
    destruct (lookup_lt_is_Some_2 ev r) as [x Hx]; [lia|].
    rewrite Hx.
    replace ((r + S n) mod RT_EVENT_QUEUE_SIZE)%nat
      with (((r + 1) mod RT_EVENT_QUEUE_SIZE + n) mod RT_EVENT_QUEUE_SIZE)%nat
      by ring_arith.
    rewrite IH; [done| |lia]. by apply Nat.mod_upper_bound.
Qed.

Lemma pending_length q : queue_wf q -> length (contents q) = pending q.
Proof. intros (_ & Hr & Hl). by apply slice_length. Qed.

Lemma pending_lt q : queue_wf q -> (pending q < RT_EVENT_QUEUE_SIZE)%nat.
Proof. intros _. by apply Nat.mod_upper_bound. Qed.

(** A push fails exactly when [capacity - 1] events are pending. *)
Lemma push_full_iff q e :
  queue_wf q ->
  (rt_queue_push q e).1 = false <-> pending q = (RT_EVENT_QUEUE_SIZE - 1)%nat.
Proof.
  intros (Hw & Hr & Hl). unfold rt_queue_push, pending.
  destruct (_ =? _)%nat eqn:E; cbn [fst]; split; intros H; try done; ring_arith.
Qed.

Lemma push_fail_unchanged q e : (rt_queue_push q e).1 = false -> (rt_queue_push q e).2 = q.
Proof. unfold rt_queue_push. by destruct (_ =? _)%nat. Qed.

(** A successful push appends the event to the pending run. *)
Lemma push_contents q e :
  queue_wf q -> (rt_queue_push q e).1 = true ->
  contents (rt_queue_push q e).2 = contents q ++ [e].
Proof.
  intros (Hw & Hr & Hl). unfold rt_queue_push, contents, pending.
  destruct (_ =? _)%nat eqn:E; cbn [fst snd write_idx read_idx events]; [done|].
  intros _.
  replace ((((write_idx q + 1) mod RT_EVENT_QUEUE_SIZE) + RT_EVENT_QUEUE_SIZE - read_idx q)
             mod RT_EVENT_QUEUE_SIZE)%nat
    with (S ((write_idx q + RT_EVENT_QUEUE_SIZE - read_idx q) mod RT_EVENT_QUEUE_SIZE))
    by ring_arith.
  set (n := ((write_idx q + RT_EVENT_QUEUE_SIZE - read_idx q) mod RT_EVENT_QUEUE_SIZE)%nat).
  replace (write_idx q) with ((read_idx q + n) mod RT_EVENT_QUEUE_SIZE)%nat at 1
    by (subst n; ring_arith).
  apply slice_insert_snoc; [done..|]. subst n. ring_arith.
Qed.

(** A pop hands out the head of the pending run and leaves its tail. *)
Lemma pop_contents q :
  queue_wf q ->
  match contents q with
  | [] => rt_queue_pop q = (None, q)
  | e :: rest =>
      (rt_queue_pop q).1 = Some e /\ contents (rt_queue_pop q).2 = rest
  end.
Proof.
  intros (Hw & Hr & Hl). unfold rt_queue_pop, contents, pending.
  destruct (_ =? _)%nat eqn:E.
  - replace ((write_idx q + RT_EVENT_QUEUE_SIZE - read_idx q) mod RT_EVENT_QUEUE_SIZE)%nat
      with 0%nat by ring_arith.
    done.
  - cbn [fst snd write_idx read_idx events].
    destruct ((write_idx q + RT_EVENT_QUEUE_SIZE - read_idx q) mod RT_EVENT_QUEUE_SIZE)%nat
      as [|n] eqn:En; [exfalso; ring_arith|].
    cbn [slice]. destruct (lookup_lt_is_Some_2 (events q) (read_idx q)) as [x Hx]; [lia|].
    rewrite Hx. split; [done|]. f_equal. ring_arith.
Qed.

End RingContents.

Section RingRuns.

Local Arguments Nat.modulo : simpl never.
Local Arguments Nat.div : simpl never.

Implicit Types (q : rt_event_queue_t) (e : rt_event_t) (l : list rt_event_t).

Lemma push_all_wf q l : queue_wf q -> queue_wf (push_all q l).2.
Proof.
  revert q. induction l as [|e l IH]; intros q Hq; [done|].
  cbn [push_all]. pose proof (push_wf q e Hq) as Hq1.
  destruct (rt_queue_push q e) as [ok q1]. specialize (IH q1 Hq1).
  by destruct (push_all q1 l).
Qed.

(** As long as the ring has room, every push of a run succeeds and the
    run is appended in order. *)
Lemma push_all_room q l :
  queue_wf q ->
  (pending q + length l <= RT_EVENT_QUEUE_SIZE - 1)%nat ->
  (push_all q l).1 = replicate (length l) true /\
  contents (push_all q l).2 = contents q ++ l.
Proof.
  revert q. induction l as [|e l IH]; intros q Hq Hroom.
  - cbn. by rewrite app_nil_r.
  - cbn [push_all length] in *.
    pose proof (push_wf q e Hq) as Hq1.
    pose proof (push_full_iff q e Hq) as Hfull.
    pose proof (push_contents q e Hq) as Hc.
    destruct (rt_queue_push q e) as [ok q1]. cbn [fst snd] in *.
    destruct ok; [|exfalso; destruct Hfull as [Hf _]; specialize (Hf eq_refl); lia].
    specialize (Hc eq_refl).
    destruct (IH q1 Hq1) as [IH1 IH2].
    { rewrite <- (pending_length q1 Hq1), Hc, length_app, (pending_length q Hq).
      cbn [length]. lia. }
    destruct (push_all q1 l) as [oks q2]. cbn [fst snd] in *.
    rewrite IH1, IH2, Hc, <- app_assoc. done.
Qed.

(** Popping as many times as events are pending returns them oldest
    first and empties the ring. *)
Lemma pop_n_contents q n :
  queue_wf q -> n = length (contents q) ->
  (pop_n q n).1 = map Some (contents q) /\ contents (pop_n q n).2 = [].
Proof.
  revert q. induction n as [|n IH]; intros q Hq Hn.
  - cbn [pop_n fst snd]. destruct (contents q); [done|discriminate].
  - cbn [pop_n]. pose proof (pop_contents q Hq) as Hp.
    pose proof (pop_wf q Hq) as Hq1.
    destruct (contents q) as [|e rest] eqn:Ec; [discriminate|].
    destruct Hp as [Hp1 Hp2].
    destruct (rt_queue_pop q) as [r q1]. cbn [fst snd] in *. subst r.
    destruct (IH q1 Hq1) as [IH1 IH2].
    { rewrite Hp2. cbn [length] in Hn. lia. }
    destruct (pop_n q1 n) as [rs q2]. cbn [fst snd map] in *.
    by rewrite IH1, Hp2.
Qed.

Lemma contents_empty_queue : contents empty_queue = [].
Proof. reflexivity. Qed.

(** A real-time note-on with a usable instrument is a push of its event. *)
Lemma rt_note_on_push heap s instrument i n vel vid :
  RT.deref heap instrument = Some i -> inst_sampler i = true ->
  RT.ms_note_on heap s instrument n vel vid =
  let r := rt_queue_push (RT.event_queue s) (note_on_event instrument (n, vel)) in
  (push_result r.1, if r.1 then RT.set_queue s r.2 else s, vid).
Proof.
  intros Hd Hs. unfold RT.ms_note_on. rewrite Hd, Hs. cbn [negb].
  unfold note_on_event. cbn [fst snd].
  by destruct (rt_queue_push _ _) as [[] q].
Qed.

Lemma rt_note_on_all_push heap instrument i (l : list (Z * Z)) s :
  RT.deref heap instrument = Some i -> inst_sampler i = true ->
  queue_wf (RT.event_queue s) ->
  (pending (RT.event_queue s) + length l <= RT_EVENT_QUEUE_SIZE - 1)%nat ->
  (rt_note_on_all heap s instrument l).1 = replicate (length l) MS_SUCCESS /\
  contents (RT.event_queue (rt_note_on_all heap s instrument l).2)
  = contents (RT.event_queue s) ++ map (note_on_event instrument) l /\
  queue_wf (RT.event_queue (rt_note_on_all heap s instrument l).2).
Proof.
  intros Hd Hs. revert s. induction l as [|[n vel] l IH]; intros s Hq Hroom.
  - cbn. by rewrite app_nil_r.
  - cbn [rt_note_on_all length map] in *.
    rewrite (rt_note_on_push _ _ _ _ _ _ _ Hd Hs). cbn zeta.
    set (e := note_on_event instrument (n, vel)).
    pose proof (push_wf _ e Hq) as Hq1.
    pose proof (push_full_iff _ e Hq) as Hfull.
    pose proof (push_contents _ e Hq) as Hc.
    destruct (rt_queue_push (RT.event_queue s) e) as [ok q1]. cbn [fst snd] in *.
    destruct ok; [|exfalso; destruct Hfull as [Hf _]; specialize (Hf eq_refl); lia].
    specialize (Hc eq_refl).
    destruct (IH (RT.set_queue s q1)) as (IH1 & IH2 & IH3); [done| |].
    { cbn [RT.set_queue RT.event_queue].
      rewrite <- (pending_length q1 Hq1), Hc, length_app, (pending_length _ Hq).
      cbn [length]. lia. }
    destruct (rt_note_on_all heap (RT.set_queue s q1) instrument l) as [errs s2].
    cbn [fst snd push_result RT.set_queue RT.event_queue] in *.
    rewrite IH1, IH2, Hc, <- app_assoc. done.
Qed.

End RingRuns.

Lemma pop_n_wf q n : queue_wf q -> queue_wf (pop_n q n).2.
Proof.
  revert q. induction n as [|n IH]; intros q Hwf; [done|].
  cbn [pop_n]. pose proof (pop_wf q Hwf) as Hwf1.
  destruct (rt_queue_pop q) as [r q1]. cbn [snd] in Hwf1.
  specialize (IH q1 Hwf1). by destruct (pop_n q1 n) as [rs q2].
Qed.

(** [C1] Event ring of capacity 256.  Starting from any empty ring (read
    index equal to write index, wherever in the array the two stand),
    [capacity - 1] pushes all succeed and one more push fails, leaving the
    ring as it was; through [ms_note_on] of the real-time build the same
    run returns [MS_SUCCESS] 255 times and then [MS_ERROR_BUFFER_OVERFLOW]
    with the sampler untouched.  In any ring a push succeeds exactly when
    fewer than 255 events are pending; a failed push changes nothing.
    Popping a ring whose read index equals its write index yields no event
    and changes nothing.  The ring is first-in first-out: a successful
    push appends to the pending run, a pop removes its head, so events
    pushed by one producer are popped in the order they were pushed, after
    the events that were pending before them, and the ring is empty again
    once they are popped. *)
Theorem event_queue_capacity_and_fifo :
  (forall q (l : list rt_event_t),
      queue_wf q -> read_idx q = write_idx q ->
      length l = (RT_EVENT_QUEUE_SIZE - 1)%nat ->
      (push_all q l).1 = replicate (RT_EVENT_QUEUE_SIZE - 1) true /\
      contents (push_all q l).2 = l /\
      forall e, rt_queue_push (push_all q l).2 e = (false, (push_all q l).2)) /\
  (forall heap s instrument i (l : list (Z * Z)) n vel vid,
      queue_wf (RT.event_queue s) ->
      read_idx (RT.event_queue s) = write_idx (RT.event_queue s) ->
      RT.deref heap instrument = Some i -> inst_sampler i = true ->
      length l = (RT_EVENT_QUEUE_SIZE - 1)%nat ->
      let s' := (rt_note_on_all heap s instrument l).2 in
      (rt_note_on_all heap s instrument l).1
      = replicate (RT_EVENT_QUEUE_SIZE - 1) MS_SUCCESS /\
      contents (RT.event_queue s') = map (note_on_event instrument) l /\
      RT.ms_note_on heap s' instrument n vel vid
      = (MS_ERROR_BUFFER_OVERFLOW, s', vid)) /\
  (forall q, read_idx q = write_idx q -> rt_queue_pop q = (None, q)) /\
  (forall q e, queue_wf q ->
      queue_wf (rt_queue_push q e).2 /\
      ((rt_queue_push q e).1 = true
       <-> (length (contents q) < RT_EVENT_QUEUE_SIZE - 1)%nat) /\
      ((rt_queue_push q e).1 = true ->
       contents (rt_queue_push q e).2 = contents q ++ [e]) /\
      ((rt_queue_push q e).1 = false -> (rt_queue_push q e).2 = q)) /\
  (forall q, queue_wf q ->
      queue_wf (rt_queue_pop q).2 /\
      (read_idx q = write_idx q <-> contents q = []) /\
      match contents q with
      | [] => rt_queue_pop q = (None, q)
      | e :: rest => (rt_queue_pop q).1 = Some e /\
                     contents (rt_queue_pop q).2 = rest
      end) /\
  (forall q (l : list rt_event_t),
      queue_wf q ->
      (length (contents q) + length l <= RT_EVENT_QUEUE_SIZE - 1)%nat ->
      let q1 := (push_all q l).2 in
      let n := (length (contents q) + length l)%nat in
      (push_all q l).1 = replicate (length l) true /\
      (pop_n q1 n).1 = map Some (contents q ++ l) /\
      read_idx (pop_n q1 n).2 = write_idx (pop_n q1 n).2).
Proof.
  assert (Hempty : forall q, queue_wf q ->
            (read_idx q = write_idx q <-> contents q = [])).
  { intros q Hwf. pose proof (pending_length q Hwf) as Hlen.
    destruct Hwf as (Hw & Hr & _). unfold RT_EVENT_QUEUE_SIZE in *.
    assert (Hp : read_idx q = write_idx q <-> pending q = 0%nat).
    { unfold pending, RT_EVENT_QUEUE_SIZE.
      destruct (Nat.le_gt_cases (read_idx q) (write_idx q)) as [Hle|Hgt].
      - replace (write_idx q + 256 - read_idx q)%nat
          with ((write_idx q - read_idx q) + 1 * 256)%nat by lia.
        rewrite Nat.Div0.mod_add, Nat.mod_small by lia. lia.
      - rewrite Nat.mod_small by lia. lia. }
    rewrite Hp, <- Hlen. split; [apply nil_length_inv|by intros ->]. }
  split_and!.
  - intros q l Hwf Hrw Hl.
    pose proof (proj1 (Hempty q Hwf) Hrw) as Hc.
    destruct (push_all_room q l Hwf) as [H1 H2].
    { rewrite <- pending_length, Hc by done. cbn [length]. lia. }
    rewrite Hc in H2. cbn [app] in H2.
    rewrite H1, Hl. split_and!; [done|done|]. intros e.
    pose proof (push_all_wf q l Hwf) as Hwf1.
    pose proof (push_full_iff _ e Hwf1) as [_ Hfull].
    pose proof (push_fail_unchanged (push_all q l).2 e) as Hsame.
    rewrite <- pending_length, H2 in Hfull by done.
    specialize (Hfull Hl). specialize (Hsame Hfull).
    destruct (rt_queue_push _ e) as [ok q']. cbn [fst snd] in *. by subst.
  - intros heap s instrument i l n vel vid Hwf Hrw Hd Hs Hl s'.
    pose proof (proj1 (Hempty _ Hwf) Hrw) as Hc.
    destruct (rt_note_on_all_push heap instrument i l s Hd Hs Hwf) as (H1 & H2 & H3).
    { rewrite <- pending_length, Hc by done. cbn [length]. lia. }
    rewrite Hc in H2. cbn [app] in H2. fold s' in H2, H3.
    rewrite H1, Hl. split_and!; [done|done|].
    rewrite (rt_note_on_push _ _ _ _ _ _ _ Hd Hs). cbn zeta.
    pose proof (push_full_iff _ (note_on_event instrument (n, vel)) H3) as [_ Hfull].
    rewrite <- pending_length, H2, length_map in Hfull by done.
    specialize (Hfull Hl). by rewrite Hfull.
  - intros q Hrw. unfold rt_queue_pop. rewrite Hrw, Nat.eqb_refl. done.
  - intros q e Hwf. split_and!.
    + by apply push_wf.
    + pose proof (push_full_iff q e Hwf) as Hfull.
      pose proof (pending_lt q Hwf) as Hlt.
      rewrite (pending_length q Hwf). unfold RT_EVENT_QUEUE_SIZE in *.
      destruct (rt_queue_push q e).1 eqn:E; (split; [intros H|intros H]).
      * destruct (decide (pending q = 255%nat)) as [Hp|Hp]; [|lia].
        destruct Hfull as [_ Hf]. by specialize (Hf Hp).
      * done.
      * done.
      * destruct Hfull as [Hf _]. specialize (Hf eq_refl). lia.
    + by apply push_contents.
    + by apply push_fail_unchanged.
  - intros q Hwf. split_and!; [by apply pop_wf|by apply Hempty|by apply pop_contents].
  - intros q l Hwf Hroom q1 n.
    destruct (push_all_room q l Hwf) as [H1 H2].
    { by rewrite <- pending_length. }
    fold q1 in H2. split; [done|].
    pose proof (push_all_wf q l Hwf) as Hwf1. fold q1 in Hwf1.
    assert (Hn : n = length (contents q1)) by (by rewrite H2, length_app).
    destruct (pop_n_contents q1 n Hwf1 Hn) as [H3 H4].
    rewrite H3, H2. split; [done|].
    apply Hempty; [|done]. by apply pop_n_wf.
Qed.

Lemma event_queue_capacity_and_fifo_witness :
  let q := {| write_idx := 200; read_idx := 200;
              events := replicate RT_EVENT_QUEUE_SIZE zero_event |} in
  let l := map (fun k => note_on_event (Some 0%nat) (Z.of_nat k mod 128, 100))
               (seq 0 255) in
  length l = (RT_EVENT_QUEUE_SIZE - 1)%nat /\
  (push_all q l).1 = replicate (RT_EVENT_QUEUE_SIZE - 1) true /\
  write_idx (push_all q l).2 = 199%nat /\
  (forall e, rt_queue_push (push_all q l).2 e = (false, (push_all q l).2)) /\
  (pop_n (push_all q l).2 (length l)).1 = map Some l.
Proof.
  intros q l.
  assert (Hl : length l = (RT_EVENT_QUEUE_SIZE - 1)%nat) by reflexivity.
  assert (Hwf : queue_wf q).
  { unfold queue_wf, RT_EVENT_QUEUE_SIZE. cbn. lia. }
  assert (Hc : contents q = []) by reflexivity.
  destruct event_queue_capacity_and_fifo as (Hcap & _ & _ & _ & _ & Hfifo).
  destruct (Hcap q l Hwf eq_refl Hl) as (H1 & _ & H2).
  destruct (Hfifo q l Hwf) as (_ & H3 & _).
  { rewrite Hc, Hl. cbn. lia. }
  rewrite Hc in H3. cbn [app length Nat.add] in H3.
  split_and!; [exact Hl|exact H1|vm_compute; reflexivity|exact H2|exact H3].
Defined.

(** ** Sample resolution *)

Section FindSample.

Variables (note velocity : Z).

Implicit Types (s : ms_sample_data_t) (l : list ms_sample_data_t) (st : find_state).

Lemma velocity_step_guarded st s :
  velocity_step note velocity st s = guarded_step note (in_velocity_range velocity) st s.
Proof. by destruct st. Qed.

Lemma closest_step_guarded st s :
  closest_step note st s = guarded_step note (fun _ => true) st s.
Proof. by destruct st. Qed.

Lemma in_velocity_range_spec s :
  in_velocity_range velocity s = true <-> velocity_match velocity s.
Proof. unfold in_velocity_range, velocity_match. lia. Qed.

(** What a scan leaves behind: a bound no competing sample beats, and
    either the state it started from or a competing sample that attains
    the bound. *)
Lemma guarded_fold p l st :
  let st' := fold_left (guarded_step note p) l st in
  st'.2 <= st.2 /\
  (forall s, s ∈ l -> p s = true -> st'.2 <= note_distance note s) /\
  (st' = st /\ (forall s, s ∈ l -> p s = true -> st.2 <= note_distance note s)
   \/ exists s, st'.1 = Some s /\ s ∈ l /\ p s = true /\
                note_distance note s = st'.2 /\ st'.2 < st.2).
Proof.
  revert st. induction l as [|x l IH]; intros st; cbn [fold_left].
  - split_and!; [lia|by intros ? ?%elem_of_nil|].
    left. split; [done|]. by intros ? ?%elem_of_nil.
  - specialize (IH (guarded_step note p st x)). cbn zeta in IH.
    set (st1 := guarded_step note p st x) in *.
    set (st' := fold_left (guarded_step note p) l st1) in *.
    destruct IH as (Hle & Hmin & Hres).
    assert (Hst1 : st1.2 <= st.2 /\
                   (p x = true -> st1.2 <= note_distance note x) /\
                   (st1 = st /\ (p x = true -> st.2 <= note_distance note x) \/
                    st1 = (Some x, note_distance note x) /\ p x = true /\
                    note_distance note x < st.2)).
    { subst st1. unfold guarded_step. destruct (p x); [|split_and!; [lia|done|by left]].
      destruct (_ <? _) eqn:E; cbn [fst snd]; [|split_and!; [lia|lia|left; split; [done|lia]]].
      split_and!; [lia|lia|right; split_and!; [done|done|lia]]. }
    destruct Hst1 as (Hle1 & Hx & Hcase).
    split_and!; [lia| |].
    + intros s [->|Hs]%elem_of_cons Hp; [specialize (Hx Hp); lia|by apply Hmin].
    + destruct Hres as [[Heq Hall]|(s & Hs1 & Hs2 & Hs3 & Hs4 & Hs5)].
      * destruct Hcase as [[Heq1 Hx1]|(Heq1 & Hp1 & Hlt1)].
        -- left. split; [congruence|].
           intros s [->|Hs]%elem_of_cons Hp; [by apply Hx1|].
           rewrite <- Heq1. by apply Hall.
        -- right. exists x. rewrite Heq, Heq1. cbn [fst snd].
           split_and!; [done|apply elem_of_cons; by left|done|done|done].
      * right. exists s. split_and!; [done|apply elem_of_cons; by right|done|done|lia].
Qed.

End FindSample.

Section FindSampleSpec.

Variables (note velocity : Z).

Implicit Types (s : ms_sample_data_t) (l : list ms_sample_data_t) (st : find_state).

Lemma velocity_scan_guarded l st :
  fold_left (velocity_step note velocity) l st
  = fold_left (guarded_step note (in_velocity_range velocity)) l st.
Proof.
  revert st. induction l as [|x l IH]; intros st; [done|].
  cbn [fold_left]. by rewrite velocity_step_guarded, IH.
Qed.

Lemma closest_scan_guarded l st :
  fold_left (closest_step note) l st
  = fold_left (guarded_step note (fun _ => true)) l st.
Proof.
  revert st. induction l as [|x l IH]; intros st; [done|].
  cbn [fold_left]. by rewrite closest_step_guarded, IH.
Qed.

(** A MIDI note is never 128 or more semitones away from a MIDI root. *)
Lemma note_distance_bound s :
  0 <= note <= 127 -> 0 <= root_note (meta s) <= 127 ->
  note_distance note s < 128.
Proof. unfold note_distance. lia. Qed.

(** The first scan returns the closest sample of the right velocity
    layer when there is one. *)
Lemma velocity_scan_hit l :
  0 <= note <= 127 ->
  Forall (fun s => 0 <= root_note (meta s) <= 127) l ->
  (exists s, s ∈ l /\ velocity_match velocity s) ->
  exists b, (fold_left (velocity_step note velocity) l (None, 128)).1 = Some b /\
            b ∈ l /\ velocity_match velocity b /\
            forall s, s ∈ l -> velocity_match velocity s ->
                      note_distance note b <= note_distance note s.
Proof.
  intros Hn Hroots (s0 & Hs0 & Hv0). rewrite velocity_scan_guarded.
  destruct (guarded_fold note (in_velocity_range velocity) l (None, 128))
    as (_ & Hmin & [[_ Hall]|(b & Hb1 & Hb2 & Hb3 & Hb4 & _)]).
  - exfalso. specialize (Hall s0 Hs0 (proj2 (in_velocity_range_spec velocity s0) Hv0)).
    rewrite Forall_forall in Hroots.
    pose proof (note_distance_bound s0 Hn (Hroots s0 Hs0)). cbn [snd] in Hall. lia.
  - exists b. split_and!; [done|done|by apply in_velocity_range_spec|].
    intros s Hs Hv. rewrite Hb4. apply Hmin; [done|by apply in_velocity_range_spec].
Qed.

(** Without any sample of the right velocity layer the first scan leaves
    its state alone. *)
Lemma velocity_scan_miss l st :
  (forall s, s ∈ l -> ~ velocity_match velocity s) ->
  fold_left (velocity_step note velocity) l st = st.
Proof.
  intros Hnone. rewrite velocity_scan_guarded.
  destruct (guarded_fold note (in_velocity_range velocity) l st)
    as (_ & _ & [[Heq _]|(b & _ & Hb2 & Hb3 & _)]); [done|].
  exfalso. apply (Hnone b Hb2). by apply in_velocity_range_spec.
Qed.

(** The fallback scan returns the closest sample of a non-empty list. *)
Lemma closest_scan_hit l :
  0 <= note <= 127 ->
  Forall (fun s => 0 <= root_note (meta s) <= 127) l ->
  l <> [] ->
  exists b, (fold_left (closest_step note) l (None, 128)).1 = Some b /\
            b ∈ l /\
            forall s, s ∈ l -> note_distance note b <= note_distance note s.
Proof.
  intros Hn Hroots Hne. rewrite closest_scan_guarded.
  destruct (guarded_fold note (fun _ => true) l (None, 128))
    as (_ & Hmin & [[_ Hall]|(b & Hb1 & Hb2 & _ & Hb4 & _)]).
  - exfalso. destruct l as [|x l]; [done|].
    assert (Hx : x ∈ x :: l) by (apply elem_of_cons; by left).
    specialize (Hall x Hx eq_refl). rewrite Forall_forall in Hroots.
    pose proof (note_distance_bound x Hn (Hroots x Hx)). cbn [snd] in Hall. lia.
  - exists b. split_and!; [done|done|]. intros s Hs. rewrite Hb4. by apply Hmin.
Qed.

End FindSampleSpec.

(** [C2] For every note and velocity in 0..127 and every instrument whose
    samples carry MIDI root notes (0..127, as the data model requires),
    [instrument_find_sample] returns a sample whose velocity range holds
    the velocity whenever such a sample exists, and among those one at
    minimum absolute note distance; when no velocity range holds the
    velocity it returns a sample at minimum note distance over all
    samples; and it returns no match exactly when the instrument has no
    sample. *)
Theorem find_sample_resolution (inst : ms_instrument_t) (note velocity : Z) :
  0 <= note <= 127 -> 0 <= velocity <= 127 ->
  Forall (fun s => 0 <= root_note (meta s) <= 127) (samples inst) ->
  let r := instrument_find_sample (Some inst) note velocity in
  ((exists s, s ∈ samples inst /\ velocity_match velocity s) ->
   exists b, r = Some b /\ b ∈ samples inst /\ velocity_match velocity b /\
             forall s, s ∈ samples inst -> velocity_match velocity s ->
                       note_distance note b <= note_distance note s) /\
  ((forall s, s ∈ samples inst -> ~ velocity_match velocity s) ->
   samples inst <> [] ->
   exists b, r = Some b /\ b ∈ samples inst /\
             forall s, s ∈ samples inst ->
                       note_distance note b <= note_distance note s) /\
  (r = None <-> samples inst = []).
Proof.
  intros Hn Hv Hroots r. subst r. unfold instrument_find_sample.
  assert (Hhit :
    (exists s, s ∈ samples inst /\ velocity_match velocity s) ->
    exists b, (fold_left (velocity_step note velocity) (samples inst) (None, 128)).1
              = Some b /\ b ∈ samples inst /\ velocity_match velocity b /\
              forall s, s ∈ samples inst -> velocity_match velocity s ->
                        note_distance note b <= note_distance note s)
    by (by apply velocity_scan_hit).
  assert (Hnum : samples inst <> [] -> (0 <? num_samples inst) = true).
  { intros Hne. unfold num_samples. destruct (samples inst); [done|].
    cbn [length]. apply Z.ltb_lt. lia. }
  split_and!.
  - intros Hex. destruct (Hhit Hex) as (b & Hb & Hrest). rewrite Hb. by exists b.
  - intros Hnone Hne. rewrite (velocity_scan_miss note velocity _ _ Hnone).
    cbn [fst]. rewrite (Hnum Hne).
    by apply closest_scan_hit.
  - split.
    + intros Hr. destruct (samples inst) as [|x l] eqn:El; [done|exfalso].
      destruct (decide (Exists (fun s => in_velocity_range velocity s = true) (x :: l)))
        as [Hex|Hno].
      * apply Exists_exists in Hex as (s & Hs & Hm).
        destruct Hhit as (b & Hb & _); [|by rewrite Hb in Hr].
        exists s. split; [done|]. by apply in_velocity_range_spec.
      * rewrite velocity_scan_miss in Hr.
        2:{ intros s Hs Hm. apply Hno, Exists_exists. exists s.
            split; [done|]. by apply in_velocity_range_spec. }
        cbn [fst] in Hr. rewrite Hnum in Hr by done.
        destruct (closest_scan_hit note (x :: l) Hn Hroots) as (b & Hb & _); [done|].
        by rewrite Hb in Hr.
    + intros E. unfold num_samples. rewrite E. reflexivity.
Qed.

(** Outside the data model: a root note above 127 can lie 128 or more
    semitones from the note, where the scan's starting bound of 128 hides
    the sample. *)
Example find_sample_root_out_of_range :
  instrument_find_sample
    (Some {| samples := [example_sample 200 0 127];
             inst_envelope := example_envelope;
             pitch_bend_range := F32.of_Z 2;
             current_pitch_bend := 0;
             inst_sampler := true |}) 10 100
  = None.
Proof. reflexivity. Qed.

Lemma find_sample_resolution_witness :
  instrument_find_sample (Some example_instrument) 58 100
  = Some (example_sample 48 64 127) /\
  (instrument_find_sample (Some example_instrument) 58 100 = None
   <-> samples example_instrument = []).
Proof.
  split; [reflexivity|].
  refine (proj2 (proj2 (find_sample_resolution example_instrument 58 100 _ _ _)));
    [lia|lia|].
  unfold example_instrument. cbn [samples].
  repeat constructor; cbn; lia.
Defined.

(** ** Envelope generator *)

Lemma clamp_level_in_range (x : float) :
  F32.ltb x F32.zero = false -> F32.ltb F32.one x = false -> clamp_level x = x.
Proof. intros H0 H1. unfold clamp_level. by rewrite H0, H1. Qed.

Lemma to_uint32_range x : 0 <= to_uint32 x < 2 ^ 32.
Proof. unfold to_uint32. apply Z.mod_pos_bound. lia. Qed.

Lemma at_least_one_range n : 0 <= n < 2 ^ 32 -> 1 <= at_least_one n < 2 ^ 32.
Proof. unfold at_least_one. destruct (Z.eqb_spec n 0); lia. Qed.

Lemma incr32_small x n : 0 <= x < n -> n < 2 ^ 32 -> incr32 x = x + 1.
Proof. intros Hx Hn. unfold incr32. apply Z.mod_small. lia. Qed.

Section CoreEnvelope.

Import Core.

Implicit Types (env : envelope_generator_t) (p : ms_envelope_t).

Lemma core_after_S n env :
  core_envelope_after (S n) env = (envelope_process (core_envelope_after n env)).2.
Proof.
  revert env. induction n as [|n IH]; intros env; [done|].
  change (core_envelope_after (S (S n)) env)
    with (core_envelope_after (S n) (envelope_process env).2).
  by rewrite IH.
Qed.

Lemma core_after_add n m env :
  core_envelope_after (n + m) env = core_envelope_after m (core_envelope_after n env).
Proof. revert env. induction n as [|n IH]; intros env; [done|]. cbn. by rewrite IH. Qed.

Lemma core_process_params env : params (envelope_process env).2 = params env.
Proof.
  unfold envelope_process, envelope_advance, set_level. cbn [snd].
  destruct (stage env); repeat (destruct (_ <? _)); reflexivity.
Qed.

Lemma core_process_rate env : sample_rate (envelope_process env).2 = sample_rate env.
Proof.
  unfold envelope_process, envelope_advance, set_level. cbn [snd].
  destruct (stage env); repeat (destruct (_ <? _)); reflexivity.
Qed.

Lemma core_sustain_inv_step env :
  core_sustain_inv (envelope_process env).2.
Proof.
  unfold core_sustain_inv, envelope_process, envelope_advance, set_level. cbn [snd].
  destruct (stage env); repeat (destruct (_ <? _)); cbn; congruence.
Qed.

Lemma core_sustain_inv_after n env :
  core_sustain_inv env -> core_sustain_inv (core_envelope_after n env).
Proof.
  destruct n as [|n]; [done|]. intros _. rewrite core_after_S.
  apply core_sustain_inv_step.
Qed.

Lemma core_params_after n env : params (core_envelope_after n env) = params env.
Proof.
  induction n as [|n IH]; [done|]. by rewrite core_after_S, core_process_params.
Qed.

(** One call inside a counted stage (Attack, Decay or Release) with
    samples left: the stage stays and the counter moves by one. *)
Lemma core_count_step env :
  counted_stage (stage env) ->
  0 <= samples_processed env < stage_samples env -> stage_samples env < 2 ^ 32 ->
  let env' := (envelope_process env).2 in
  stage env' = stage env /\ stage_samples env' = stage_samples env /\
  samples_processed env' = samples_processed env + 1.
Proof.
  intros Hc Hp Hs.
  assert (Hlt : (samples_processed env <? stage_samples env) = true)
    by (apply Z.ltb_lt; lia).
  unfold envelope_process, envelope_advance, set_level.
  cbn [snd]. destruct (stage env) eqn:E; try (by destruct Hc as [Hc|[Hc|Hc]]);
    rewrite Hlt; cbn [stage stage_samples samples_processed];
    (split_and!; [done|done|by apply (incr32_small _ (stage_samples env))]).
Qed.

(** [k] calls inside a counted stage. *)
Lemma core_count k env :
  counted_stage (stage env) -> 0 <= samples_processed env ->
  samples_processed env + Z.of_nat k <= stage_samples env < 2 ^ 32 ->
  let env' := core_envelope_after k env in
  stage env' = stage env /\ stage_samples env' = stage_samples env /\
  samples_processed env' = samples_processed env + Z.of_nat k.
Proof.
  revert env. induction k as [|k IH]; intros env Hs H0 Hk; cbn zeta.
  - cbn [core_envelope_after]. split_and!; [done|done|lia].
  - cbn [core_envelope_after].
    destruct (core_count_step env) as (S1 & S2 & S3); [done|lia|lia|].
    destruct (IH (envelope_process env).2) as (I1 & I2 & I3).
    + by rewrite S1.
    + lia.
    + lia.
    + rewrite I1, I2, I3, S1, S2, S3. split_and!; [done|done|lia].
Qed.

Lemma core_sustain_stays k env :
  stage env = ENV_SUSTAIN -> stage (core_envelope_after k env) = ENV_SUSTAIN.
Proof.
  revert env. induction k as [|k IH]; intros env Hs; [done|].
  cbn [core_envelope_after]. apply IH.
  unfold envelope_process, envelope_advance. by rewrite Hs.
Qed.

(** A triggered generator is in Sustain after the attack and decay
    stages and the two calls that switch stage. *)
Lemma core_reaches_sustain env rate p n :
  let e0 := envelope_trigger (envelope_init env rate (Some p)) in
  (Z.to_nat (attack_samples rate p) + 1
   + Z.to_nat (core_decay_samples rate p) + 1 <= n)%nat ->
  stage (core_envelope_after n e0) = ENV_SUSTAIN.
Proof.
  intros e0 Hn.
  pose proof (at_least_one_range _ (to_uint32_range (F32.mul (attack_time p) rate))) as HA.
  pose proof (at_least_one_range _ (to_uint32_range (F32.mul (decay_time p) rate))) as HD.
  fold (attack_samples rate p) in HA. fold (core_decay_samples rate p) in HD.
  set (A := Z.to_nat (attack_samples rate p)) in *.
  set (D := Z.to_nat (core_decay_samples rate p)) in *.
  replace n with (A + (1 + (D + (1 + (n - (A + 1 + D + 1)))))%nat)%nat by lia.
  rewrite !core_after_add.
  destruct (core_count A e0) as (A1 & A2 & A3);
    [by left|cbn; lia|cbn; fold (attack_samples rate p); lia|].
  set (e1 := core_envelope_after A e0) in *.
  assert (HeA : stage_samples e1 = attack_samples rate p) by (rewrite A2; done).
  assert (HpA : samples_processed e1 = attack_samples rate p)
    by (rewrite A3; cbn; lia).
  set (e2 := core_envelope_after 1 e1).
  assert (Hparams : params e1 = p) by (unfold e1; by rewrite core_params_after).
  assert (Hrate : sample_rate e1 = rate).
  { unfold e1. clear. induction A as [|A IH]; [done|].
    by rewrite core_after_S, core_process_rate. }
  assert (E2 : stage e2 = ENV_DECAY /\ stage_samples e2 = core_decay_samples rate p
               /\ samples_processed e2 = 0).
  { unfold e2. cbn [core_envelope_after]. unfold envelope_process, envelope_advance.
    rewrite A1, HeA, HpA, Z.ltb_irrefl, Hparams, Hrate. done. }
  destruct E2 as (E21 & E22 & E23).
  destruct (core_count D e2) as (D1 & D2 & D3);
    [rewrite E21; right; by left|lia|lia|].
  set (e3 := core_envelope_after D e2) in *.
  apply core_sustain_stays.
  cbn [core_envelope_after]. unfold envelope_process, envelope_advance.
  rewrite D1, E21, D2, D3, E22, E23.
  replace (0 + Z.of_nat D) with (core_decay_samples rate p) by lia.
  by rewrite Z.ltb_irrefl.
Qed.

End CoreEnvelope.

Section RTEnvelope.

Import RT.

Implicit Types (env : envelope_generator_t) (p : ms_envelope_t).

Lemma rt_after_S n env :
  rt_envelope_after (S n) env = (envelope_process (rt_envelope_after n env)).2.
Proof.
  revert env. induction n as [|n IH]; intros env; [done|].
  change (rt_envelope_after (S (S n)) env)
    with (rt_envelope_after (S n) (envelope_process env).2).
  by rewrite IH.
Qed.

Lemma rt_after_add n m env :
  rt_envelope_after (n + m) env = rt_envelope_after m (rt_envelope_after n env).
Proof. revert env. induction n as [|n IH]; intros env; [done|]. cbn. by rewrite IH. Qed.

Lemma rt_process_params env : params (envelope_process env).2 = params env.
Proof.
  unfold envelope_process, envelope_advance, with_state.
  destruct (stage env); cbn [snd]; repeat (destruct (_ <? _)); reflexivity.
Qed.

Lemma rt_process_rate env : sample_rate (envelope_process env).2 = sample_rate env.
Proof.
  unfold envelope_process, envelope_advance, with_state.
  destruct (stage env); cbn [snd]; repeat (destruct (_ <? _)); reflexivity.
Qed.

Lemma rt_sustain_inv_step env :
  rt_sustain_inv env -> rt_sustain_inv (envelope_process env).2.
Proof.
  unfold rt_sustain_inv, envelope_process, envelope_advance, with_state.
  destruct (stage env) eqn:E; cbn [snd]; repeat (destruct (_ <? _)); cbn;
    congruence.
Qed.

Lemma rt_sustain_inv_after n env :
  rt_sustain_inv env -> rt_sustain_inv (rt_envelope_after n env).
Proof.
  induction n as [|n IH]; [done|]. intros H. rewrite rt_after_S.
  by apply rt_sustain_inv_step, IH.
Qed.

Lemma rt_params_after n env : params (rt_envelope_after n env) = params env.
Proof.
  induction n as [|n IH]; [done|]. by rewrite rt_after_S, rt_process_params.
Qed.

Lemma rt_rate_after n env : sample_rate (rt_envelope_after n env) = sample_rate env.
Proof.
  induction n as [|n IH]; [done|]. by rewrite rt_after_S, rt_process_rate.
Qed.

Lemma rt_count_step env :
  counted_stage (stage env) ->
  0 <= samples_processed env < stage_samples env -> stage_samples env < 2 ^ 32 ->
  let env' := (envelope_process env).2 in
  stage env' = stage env /\ stage_samples env' = stage_samples env /\
  samples_processed env' = samples_processed env + 1.
Proof.
  intros Hc Hp Hs.
  assert (Hlt : (samples_processed env <? stage_samples env) = true)
    by (apply Z.ltb_lt; lia).
  unfold envelope_process, envelope_advance, with_state.
  destruct (stage env) eqn:E; try (by destruct Hc as [Hc|[Hc|Hc]]);
    rewrite Hlt; cbn [snd stage stage_samples samples_processed];
    (split_and!; [done|done|by apply (incr32_small _ (stage_samples env))]).
Qed.

Lemma rt_count k env :
  counted_stage (stage env) -> 0 <= samples_processed env ->
  samples_processed env + Z.of_nat k <= stage_samples env < 2 ^ 32 ->
  let env' := rt_envelope_after k env in
  stage env' = stage env /\ stage_samples env' = stage_samples env /\
  samples_processed env' = samples_processed env + Z.of_nat k.
Proof.
  revert env. induction k as [|k IH]; intros env Hs H0 Hk; cbn zeta.
  - cbn [rt_envelope_after]. split_and!; [done|done|lia].
  - cbn [rt_envelope_after].
    destruct (rt_count_step env) as (S1 & S2 & S3); [done|lia|lia|].
    destruct (IH (envelope_process env).2) as (I1 & I2 & I3).
    + by rewrite S1.
    + lia.
    + lia.
    + rewrite I1, I2, I3, S1, S2, S3. split_and!; [done|done|lia].
Qed.

Lemma rt_sustain_stays k env :
  stage env = ENV_SUSTAIN -> stage (rt_envelope_after k env) = ENV_SUSTAIN.
Proof.
  revert env. induction k as [|k IH]; intros env Hs; [done|].
  cbn [rt_envelope_after]. apply IH.
  unfold envelope_process, envelope_advance. by rewrite Hs.
Qed.

Lemma rt_reaches_sustain env rate p n :
  let e0 := envelope_trigger (envelope_init env rate (Some p)) in
  (Z.to_nat (attack_samples rate p) + 1
   + Z.to_nat (rt_decay_samples rate p) + 1 <= n)%nat ->
  stage (rt_envelope_after n e0) = ENV_SUSTAIN.
Proof.
  intros e0 Hn.
  pose proof (at_least_one_range _ (to_uint32_range (F32.mul (attack_time p) rate))) as HA.
  pose proof (to_uint32_range (F32.mul (decay_time p) rate)) as HD.
  fold (attack_samples rate p) in HA. fold (rt_decay_samples rate p) in HD.
  set (A := Z.to_nat (attack_samples rate p)) in *.
  set (D := Z.to_nat (rt_decay_samples rate p)) in *.
  replace n with (A + (1 + (D + (1 + (n - (A + 1 + D + 1)))))%nat)%nat by lia.
  rewrite !rt_after_add.
  destruct (rt_count A e0) as (A1 & A2 & A3);
    [by left|cbn; lia|cbn; fold (attack_samples rate p); lia|].
  set (e1 := rt_envelope_after A e0) in *.
  assert (HeA : stage_samples e1 = attack_samples rate p) by (rewrite A2; done).
  assert (HpA : samples_processed e1 = attack_samples rate p)
    by (rewrite A3; cbn; lia).
  set (e2 := rt_envelope_after 1 e1).
  assert (Hparams : params e1 = p) by (unfold e1; by rewrite rt_params_after).
  assert (Hrate : sample_rate e1 = rate) by (unfold e1; by rewrite rt_rate_after).
  assert (E2 : stage e2 = ENV_DECAY /\ stage_samples e2 = rt_decay_samples rate p
               /\ samples_processed e2 = 0).
  { unfold e2. cbn [rt_envelope_after]. unfold envelope_process, envelope_advance.
    rewrite A1, HeA, HpA, Z.ltb_irrefl, Hparams, Hrate. done. }
  destruct E2 as (E21 & E22 & E23).
  destruct (rt_count D e2) as (D1 & D2 & D3);
    [rewrite E21; right; by left|lia|lia|].
  set (e3 := rt_envelope_after D e2) in *.
  apply rt_sustain_stays.
  cbn [rt_envelope_after]. unfold envelope_process, envelope_advance.
  rewrite D1, E21, D2, D3, E22, E23.
  replace (0 + Z.of_nat D) with (rt_decay_samples rate p) by lia.
  by rewrite Z.ltb_irrefl.
Qed.

End RTEnvelope.

(** [C3] In both builds: for every generator freshly initialised with
    parameters [p] and then triggered, the first [envelope_process] call
    returns exactly 0 (the level before advancing).  When the configured
    sustain level lies in [0, 1], every call made while the stage is
    Sustain returns exactly that level (for any sustain level at all it
    returns that level put through the closing clamp); and the stage is
    Sustain from the call that completes Decay onwards (after the attack
    samples, the decay samples and the two stage switches). *)
Theorem envelope_first_sample_and_sustain
    (cenv : Core.envelope_generator_t) (renv : RT.envelope_generator_t)
    (rate : float) (p : ms_envelope_t) :
  let c0 := Core.envelope_trigger (Core.envelope_init cenv rate (Some p)) in
  let r0 := RT.envelope_trigger (RT.envelope_init renv rate (Some p)) in
  (Core.envelope_process c0).1 = F32.zero /\
  (RT.envelope_process r0).1 = F32.zero /\
  (sustain_in_range p ->
   (forall n, Core.stage (core_envelope_after n c0) = ENV_SUSTAIN ->
              core_envelope_output n c0 = sustain_level p) /\
   (forall n, RT.stage (rt_envelope_after n r0) = ENV_SUSTAIN ->
              rt_envelope_output n r0 = sustain_level p)) /\
  (forall n, Core.stage (core_envelope_after n c0) = ENV_SUSTAIN ->
             core_envelope_output n c0 = clamp_level (sustain_level p)) /\
  (forall n, RT.stage (rt_envelope_after n r0) = ENV_SUSTAIN ->
             rt_envelope_output n r0 = clamp_level (sustain_level p)) /\
  (forall n, (Z.to_nat (attack_samples rate p) + 1
              + Z.to_nat (core_decay_samples rate p) + 1 <= n)%nat ->
             Core.stage (core_envelope_after n c0) = ENV_SUSTAIN) /\
  (forall n, (Z.to_nat (attack_samples rate p) + 1
              + Z.to_nat (rt_decay_samples rate p) + 1 <= n)%nat ->
             RT.stage (rt_envelope_after n r0) = ENV_SUSTAIN).
Proof.
  intros c0 r0. split_and!.
  - reflexivity.
  - reflexivity.
  - intros [Hlo Hhi]. split.
    + intros n Hs. unfold core_envelope_output, Core.envelope_process. cbn [fst].
      rewrite (core_sustain_inv_after n c0) by done.
      rewrite core_params_after. cbn. by apply clamp_level_in_range.
    + intros n Hs. unfold rt_envelope_output, RT.envelope_process. rewrite Hs. cbn [fst].
      rewrite (rt_sustain_inv_after n r0) by done.
      rewrite rt_params_after. cbn. by apply clamp_level_in_range.
  - intros n Hs. unfold core_envelope_output, Core.envelope_process. cbn [fst].
    rewrite (core_sustain_inv_after n c0) by done.
    by rewrite core_params_after.
  - intros n Hs. unfold rt_envelope_output, RT.envelope_process. rewrite Hs. cbn [fst].
    rewrite (rt_sustain_inv_after n r0) by done.
    by rewrite rt_params_after.
  - apply core_reaches_sustain.
  - apply rt_reaches_sustain.
Qed.

Lemma envelope_first_sample_and_sustain_witness :
  let rate := F32.of_Z 44100 in
  let c0 := Core.envelope_trigger
              (Core.envelope_init Core.zero_envelope rate (Some example_envelope)) in
  let r0 := RT.envelope_trigger
              (RT.envelope_init RT.zero_envelope rate (Some example_envelope)) in
  sustain_in_range example_envelope /\
  core_envelope_output 4853 c0 = sustain_level example_envelope /\
  rt_envelope_output 4853 r0 = sustain_level example_envelope.
Proof.
  intros rate c0 r0.
  assert (Hrange : sustain_in_range example_envelope) by (split; reflexivity).
  destruct (envelope_first_sample_and_sustain Core.zero_envelope RT.zero_envelope
              rate example_envelope) as (_ & _ & Hsus & _ & _ & Hc & Hr).
  destruct (Hsus Hrange) as [Hcs Hrs].
  split; [exact Hrange|]. split.
  - apply Hcs, Hc. vm_compute. lia.
  - apply Hrs, Hr. vm_compute. lia.
Defined.

(** ** Releasing a silent generator *)

Lemma clamp_level_zero : clamp_level F32.zero = F32.zero.
Proof. reflexivity. Qed.

(** Stepping down from silence by a non-negative amount clamps back to
    silence. *)
Lemma clamp_zero_minus (c : float) :
  F32.leb F32.zero c = true -> clamp_level (F32.sub F32.zero c) = F32.zero.
Proof. destruct c as [[]|[]| |[] m e]; intros H; try discriminate H; reflexivity. Qed.

Section CoreRelease.

Import Core.

Implicit Types (env : envelope_generator_t).

Lemma core_idle_stays n env :
  stage env = ENV_IDLE -> current_level env = F32.zero ->
  stage (core_envelope_after n env) = ENV_IDLE /\
  current_level (core_envelope_after n env) = F32.zero.
Proof.
  revert env. induction n as [|n IH]; intros env Hs Hl; [done|].
  cbn [core_envelope_after]. apply IH.
  - unfold envelope_process, envelope_advance. by rewrite Hs.
  - unfold envelope_process, envelope_advance. by rewrite Hs.
Qed.

(** The level a call in Release leaves behind while samples remain. *)
Lemma core_release_level env :
  stage env = ENV_RELEASE -> samples_processed env < stage_samples env ->
  current_level (envelope_process env).2
  = clamp_level
      (F32.mul (sustain_level (params env))
         (F32.sub F32.one
            (F32.div (F32.of_Z (samples_processed env))
                     (F32.of_Z (stage_samples env))))).
Proof.
  intros Hs Hlt. unfold envelope_process, envelope_advance.
  rewrite Hs. by rewrite (proj2 (Z.ltb_lt _ _) Hlt).
Qed.

Lemma core_release_of_idle env :
  let e := envelope_release env in
  let N := release_samples (sample_rate env) (params env) in
  stage env = ENV_IDLE -> current_level env = F32.zero ->
  core_envelope_output 0 e = F32.zero /\
  (forall k, 1 <= Z.of_nat k <= N ->
     core_envelope_output k e
     = clamp_level
         (F32.mul (sustain_level (params env))
            (F32.sub F32.one
               (F32.div (F32.of_Z (Z.of_nat k - 1)) (F32.of_Z N))))) /\
  (forall n, N + 1 <= Z.of_nat n ->
     stage (core_envelope_after n e) = ENV_IDLE /\
     core_envelope_output n e = F32.zero).
Proof.
  intros e N Hs Hl.
  pose proof (at_least_one_range _
    (to_uint32_range (F32.mul (release_time (params env)) (sample_rate env)))) as HN.
  fold (release_samples (sample_rate env) (params env)) in HN. fold N in HN.
  assert (He : stage e = ENV_RELEASE /\ stage_samples e = N /\
               samples_processed e = 0 /\ params e = params env) by done.
  destruct He as (He1 & He2 & He3 & He4).
  split_and!.
  - exact Hl.
  - intros k Hk. unfold core_envelope_output, envelope_process at 1. cbn [fst].
    destruct k as [|k]; [lia|]. rewrite core_after_S.
    destruct (core_count k e) as (C1 & C2 & C3);
      [rewrite He1; right; by right|lia|lia|].
    rewrite core_release_level by (rewrite ?C1, ?C2, ?C3; (done || lia)).
    rewrite core_params_after, C2, C3, He2, He3, He4.
    repeat f_equal. lia.
  - intros n Hn.
    replace n with (Z.to_nat N + (1 + (n - (Z.to_nat N + 1))))%nat by lia.
    rewrite !core_after_add.
    destruct (core_count (Z.to_nat N) e) as (C1 & C2 & C3);
      [rewrite He1; right; by right|lia|lia|].
    set (e1 := core_envelope_after (Z.to_nat N) e) in *.
    assert (Hidle : stage (core_envelope_after 1 e1) = ENV_IDLE /\
                    current_level (core_envelope_after 1 e1) = F32.zero).
    { cbn [core_envelope_after]. unfold envelope_process, envelope_advance.
      rewrite C1, He1, C2, C3, He2, He3.
      replace (0 + Z.of_nat (Z.to_nat N)) with N by lia.
      by rewrite Z.ltb_irrefl. }
    destruct Hidle as [I1 I2].
    destruct (core_idle_stays (n - (Z.to_nat N + 1)) _ I1 I2) as [J1 J2].
    split; [exact J1|]. unfold core_envelope_output, envelope_process. cbn [fst].
    rewrite core_after_add. cbn [core_envelope_after] in *. exact J2.
Qed.

End CoreRelease.

Section RTRelease.

Import RT.

Implicit Types (env : envelope_generator_t).

Lemma rt_silent_step env :
  rt_silent env ->
  (envelope_process env).1 = F32.zero /\ rt_silent (envelope_process env).2.
Proof.
  intros ([Hs|Hs] & Hl & Hc); unfold envelope_process, envelope_advance, rt_silent;
    rewrite Hs.
  - destruct (_ <? _); cbn [fst snd with_state stage current_level release_coeff].
    + rewrite Hl, clamp_zero_minus by done. split_and!; [done|by left|done|done].
    + split_and!; [done|by right|done|done].
  - cbn [fst snd]. rewrite Hs. split_and!; [done|by right|done|done].
Qed.

Lemma rt_silent_after n env :
  rt_silent env -> rt_silent (rt_envelope_after n env).
Proof.
  revert env. induction n as [|n IH]; intros env H; [done|].
  cbn [rt_envelope_after]. by apply IH, rt_silent_step.
Qed.

End RTRelease.




(** ** End of sample in the frame loop *)

Lemma sample_loops_test smp :
  loop_enabled (meta smp) && (loop_start (meta smp) <? loop_end (meta smp)) = true
  <-> sample_loops smp.
Proof. unfold sample_loops. rewrite andb_true_iff, Z.ltb_lt. done. Qed.

Lemma sample_loops_test_false smp :
  ~ sample_loops smp ->
  loop_enabled (meta smp) && (loop_start (meta smp) <? loop_end (meta smp)) = false.
Proof.
  intros H. apply not_true_is_false. intros E. by apply H, sample_loops_test.
Qed.

Section CoreEndOfSample.

Import Core.

Lemma core_check_bounds_wrap smp position :
  past_end smp position -> sample_loops smp ->
  check_bounds smp position = Some (F64.of_Z (loop_start (meta smp))).
Proof.
  intros Hp Hl. unfold check_bounds. unfold past_end in Hp. rewrite Hp.
  by rewrite (proj2 (sample_loops_test smp) Hl).
Qed.

Lemma core_check_bounds_stop smp position :
  past_end smp position -> ~ sample_loops smp -> check_bounds smp position = None.
Proof.
  intros Hp Hl. unfold check_bounds. unfold past_end in Hp. rewrite Hp.
  by rewrite sample_loops_test_false.
Qed.

Lemma core_check_bounds_inside smp position :
  ~ past_end smp position -> check_bounds smp position = Some position.
Proof.
  intros Hp. unfold check_bounds. unfold past_end in Hp.
  by destruct (F64.leb _ _).
Qed.

(** A frame that starts past the end of a sample that does not loop ends
    the loop: nothing more is mixed in this call. *)
Lemma core_frames_stop smp speed gain chans n i st :
  past_end smp (fs_position st) -> ~ sample_loops smp ->
  voice_frames smp speed gain chans (S n) i st
  = {| fs_position := fs_position st; fs_envelope := fs_envelope st;
       fs_active := false; fs_output := fs_output st |}.
Proof.
  intros Hp Hl. cbn [voice_frames]. unfold voice_frame.
  by rewrite core_check_bounds_stop.
Qed.

Lemma core_voice_inactive v out frames chans :
  active v = false -> voice_process v out frames chans = (v, out).
Proof.
  intros Ha. unfold voice_process. rewrite Ha. by destruct out, (sample v).
Qed.

(** While the loop goes on the flag of the state stays as it was; a
    [break] clears it. *)
Lemma core_frame_flag smp speed gain chans i st :
  fs_active st = true ->
  fs_active (voice_frame smp speed gain chans i st).2
  = (voice_frame smp speed gain chans i st).1.
Proof.
  intros Ha. unfold voice_frame. destruct (check_bounds smp (fs_position st)); [|done].
  destruct (envelope_process (fs_envelope st)) as [lvl env1].
  by destruct (envelope_is_active env1).
Qed.

(** The first [k] turns of the loop, then the rest of them unless one of
    the first [k] was a [break]. *)
Lemma core_frames_split smp speed gain chans k : forall n i st,
  fs_active st = true ->
  voice_frames smp speed gain chans (k + n) i st
  = (let st_k := voice_frames smp speed gain chans k i st in
     if fs_active st_k then voice_frames smp speed gain chans n (i + k) st_k
     else st_k).
Proof.
  induction k as [|k IH]; intros n i st Ha.
  - cbn [voice_frames Nat.add]. cbn zeta. by rewrite Ha, Nat.add_0_r.
  - cbn [voice_frames Nat.add].
    pose proof (core_frame_flag smp speed gain chans i st Ha) as Hflag.
    destruct (voice_frame smp speed gain chans i st) as [go_on st1].
    cbn [fst snd] in Hflag. destruct go_on.
    + rewrite IH by done. cbn zeta. by rewrite Nat.add_succ_r.
    + cbn zeta. by rewrite Hflag.
Qed.

(** The turn of the loop that finds the position past the end of a
    looping sample. *)
Lemma core_frames_wrap smp speed gain chans i st :
  fs_active st = true -> past_end smp (fs_position st) -> sample_loops smp ->
  let e := envelope_process (fs_envelope st) in
  let value := F32.mul (F32.mul (interpolate smp (F64.of_Z (loop_start (meta smp))))
                                e.1) gain in
  voice_frames smp speed gain chans 1 i st
  = {| fs_position := F64.add (F64.of_Z (loop_start (meta smp))) speed;
       fs_envelope := e.2;
       fs_active := envelope_is_active e.2;
       fs_output := core_mix_frame chans i (fs_output st) value |}.
Proof.
  intros Ha Hp Hl. cbn [voice_frames]. unfold voice_frame.
  rewrite core_check_bounds_wrap by done.
  destruct (envelope_process (fs_envelope st)) as [lvl env1]. cbn [fst snd].
  unfold core_mix_frame. rewrite Ha. by destruct (envelope_is_active env1).
Qed.

(** Frame [k] of a call that finds the position past the end of a looping
    sample: the call up to and with that frame, from the call up to it. *)
Lemma core_wrap_at_frame v smp out chans k :
  active v = true -> sample v = Some smp ->
  let r := voice_process v (Some out) (Z.of_nat k) chans in
  active r.1 = true -> past_end smp (playback_position r.1) -> sample_loops smp ->
  let r' := voice_process v (Some out) (Z.of_nat (S k)) chans in
  let e := envelope_process (envelope r.1) in
  let value := F32.mul (F32.mul (interpolate smp (F64.of_Z (loop_start (meta smp))))
                                e.1) (F32.div (F32.of_Z (velocity v)) (F32.of_Z 127)) in
  playback_position r'.1
  = F64.add (F64.of_Z (loop_start (meta smp))) (playback_speed v) /\
  envelope r'.1 = e.2 /\
  active r'.1 = envelope_is_active e.2 /\
  r'.2 = (fun o => core_mix_frame chans k o value) <$> r.2.
Proof.
  intros Ha Hs. unfold voice_process. rewrite Hs, Ha, !Nat2Z.id.
  cbn [fst snd active playback_position envelope fmap option_fmap option_map].
  intros Hk Hp Hl.
  replace (S k) with (k + 1)%nat by lia.
  rewrite core_frames_split by done. cbn zeta. rewrite Hk.
  rewrite core_frames_wrap by done.
  cbn [fs_position fs_envelope fs_active fs_output Nat.add]. done.
Qed.

(** Frame [k] of a call that finds the position past the end of a sample
    that does not loop: the call ends there, whatever its length. *)
Lemma core_stop_at_frame v smp out chans k n :
  active v = true -> sample v = Some smp ->
  let r := voice_process v (Some out) (Z.of_nat k) chans in
  active r.1 = true -> past_end smp (playback_position r.1) -> ~ sample_loops smp ->
  (0 < n)%nat ->
  voice_process v (Some out) (Z.of_nat (k + n)) chans = (deactivate r.1, r.2).
Proof.
  intros Ha Hs. unfold voice_process. rewrite Hs, Ha, !Nat2Z.id.
  cbn [fst snd active playback_position].
  intros Hk Hp Hl Hn.
  rewrite core_frames_split by done. cbn zeta. rewrite Hk.
  destruct n as [|n]; [lia|].
  rewrite core_frames_stop by done. unfold deactivate. by cbn.
Qed.

End CoreEndOfSample.

Section RTEndOfSample.

Import RT.

Lemma rt_check_bounds_wrap smp position :
  past_end smp position -> sample_loops smp ->
  check_bounds smp position = Some (F64.of_Z (loop_start (meta smp))).
Proof.
  intros Hp Hl. unfold check_bounds. unfold past_end in Hp. rewrite Hp.
  by rewrite (proj2 (sample_loops_test smp) Hl).
Qed.

Lemma rt_check_bounds_stop smp position :
  past_end smp position -> ~ sample_loops smp -> check_bounds smp position = None.
Proof.
  intros Hp Hl. unfold check_bounds. unfold past_end in Hp. rewrite Hp.
  by rewrite sample_loops_test_false.
Qed.

Lemma rt_check_bounds_inside smp position :
  ~ past_end smp position -> check_bounds smp position = Some position.
Proof.
  intros Hp. unfold check_bounds. unfold past_end in Hp.
  by destruct (F64.leb _ _).
Qed.

(** A frame that starts past the end of a sample that does not loop ends
    the loop: nothing more is mixed in this call. *)
Lemma rt_frames_stop smp speed gain chans n i st :
  past_end smp (fs_position st) -> ~ sample_loops smp ->
  voice_frames smp speed gain chans (S n) i st
  = {| fs_position := fs_position st; fs_envelope := fs_envelope st;
       fs_active := false; fs_output := fs_output st |}.
Proof.
  intros Hp Hl. cbn [voice_frames]. unfold voice_frame.
  by rewrite rt_check_bounds_stop.
Qed.

Lemma rt_voice_inactive v out frames chans :
  active v = false -> voice_process v out frames chans = (v, out).
Proof.
  intros Ha. unfold voice_process. rewrite Ha. by destruct out, (sample v).
Qed.

(** While the loop goes on the flag of the state stays as it was; a
    [break] clears it. *)
Lemma rt_frame_flag smp speed gain chans i st :
  fs_active st = true ->
  fs_active (voice_frame smp speed gain chans i st).2
  = (voice_frame smp speed gain chans i st).1.
Proof.
  intros Ha. unfold voice_frame. destruct (check_bounds smp (fs_position st)); [|done].
  destruct (envelope_process (fs_envelope st)) as [lvl env1].
  by destruct (envelope_is_active env1).
Qed.

(** The first [k] turns of the loop, then the rest of them unless one of
    the first [k] was a [break]. *)
Lemma rt_frames_split smp speed gain chans k : forall n i st,
  fs_active st = true ->
  voice_frames smp speed gain chans (k + n) i st
  = (let st_k := voice_frames smp speed gain chans k i st in
     if fs_active st_k then voice_frames smp speed gain chans n (i + k) st_k
     else st_k).
Proof.
  induction k as [|k IH]; intros n i st Ha.
  - cbn [voice_frames Nat.add]. cbn zeta. by rewrite Ha, Nat.add_0_r.
  - cbn [voice_frames Nat.add].
    pose proof (rt_frame_flag smp speed gain chans i st Ha) as Hflag.
    destruct (voice_frame smp speed gain chans i st) as [go_on st1].
    cbn [fst snd] in Hflag. destruct go_on.
    + rewrite IH by done. cbn zeta. by rewrite Nat.add_succ_r.
    + cbn zeta. by rewrite Hflag.
Qed.

(** The turn of the loop that finds the position past the end of a
    looping sample. *)
Lemma rt_frames_wrap smp speed gain chans i st :
  fs_active st = true -> past_end smp (fs_position st) -> sample_loops smp ->
  let e := envelope_process (fs_envelope st) in
  let value := F32.mul (F32.mul (interpolate smp (F64.of_Z (loop_start (meta smp))))
                                e.1) gain in
  voice_frames smp speed gain chans 1 i st
  = {| fs_position := F64.add (F64.of_Z (loop_start (meta smp))) speed;
       fs_envelope := e.2;
       fs_active := envelope_is_active e.2;
       fs_output := rt_mix_frame chans i (fs_output st) value |}.
Proof.
  intros Ha Hp Hl. cbn [voice_frames]. unfold voice_frame.
  rewrite rt_check_bounds_wrap by done.
  destruct (envelope_process (fs_envelope st)) as [lvl env1]. cbn [fst snd].
  unfold rt_mix_frame. rewrite Ha. by destruct (envelope_is_active env1).
Qed.

(** Frame [k] of a call that finds the position past the end of a looping
    sample: the call up to and with that frame, from the call up to it. *)
Lemma rt_wrap_at_frame v smp out chans k :
  active v = true -> sample v = Some smp ->
  let r := voice_process v (Some out) (Z.of_nat k) chans in
  active r.1 = true -> past_end smp (playback_position r.1) -> sample_loops smp ->
  let r' := voice_process v (Some out) (Z.of_nat (S k)) chans in
  let e := envelope_process (envelope r.1) in
  let value := F32.mul (F32.mul (interpolate smp (F64.of_Z (loop_start (meta smp))))
                                e.1) (velocity_gain v) in
  playback_position r'.1
  = F64.add (F64.of_Z (loop_start (meta smp))) (playback_speed v) /\
  envelope r'.1 = e.2 /\
  active r'.1 = envelope_is_active e.2 /\
  r'.2 = (fun o => rt_mix_frame chans k o value) <$> r.2.
Proof.
  intros Ha Hs. unfold voice_process. rewrite Hs, Ha, !Nat2Z.id.
  cbn [fst snd active playback_position envelope fmap option_fmap option_map].
  intros Hk Hp Hl.
  replace (S k) with (k + 1)%nat by lia.
  rewrite rt_frames_split by done. cbn zeta. rewrite Hk.
  rewrite rt_frames_wrap by done.
  cbn [fs_position fs_envelope fs_active fs_output Nat.add]. done.
Qed.

(** Frame [k] of a call that finds the position past the end of a sample
    that does not loop: the call ends there, whatever its length. *)
Lemma rt_stop_at_frame v smp out chans k n :
  active v = true -> sample v = Some smp ->
  let r := voice_process v (Some out) (Z.of_nat k) chans in
  active r.1 = true -> past_end smp (playback_position r.1) -> ~ sample_loops smp ->
  (0 < n)%nat ->
  voice_process v (Some out) (Z.of_nat (k + n)) chans = (deactivate r.1, r.2).
Proof.
  intros Ha Hs. unfold voice_process. rewrite Hs, Ha, !Nat2Z.id.
  cbn [fst snd active playback_position].
  intros Hk Hp Hl Hn.
  rewrite rt_frames_split by done. cbn zeta. rewrite Hk.
  destruct n as [|n]; [lia|].
  rewrite rt_frames_stop by done. unfold deactivate. by cbn.
Qed.

End RTEndOfSample.



(** ** Voice allocation *)

Section Pool.

Context {V : Type} (act : V -> bool) (nt : V -> Z).

Implicit Types (vs : list V) (ns : list Z).

Lemma pool_slot_free n m ns vs :
  pool_filled act nt n m ns vs -> (m < n)%nat ->
  pool_first_free act n vs = Some m.
Proof.
  intros (Hlen & Hmn & Hn & Hact & Hidle & Hnotes) Hlt.
  unfold pool_first_free.
  destruct (lookup_lt_is_Some_2 vs m) as [v Hv]; [lia|].
  assert (Hvi : act v = false).
  { rewrite Forall_lookup in Hidle. apply (Hidle 0%nat).
    by rewrite lookup_drop, Nat.add_0_r. }
  assert (Hfind : list_find (fun v => act v = false) (take n vs) = Some (m, v)).
  { apply list_find_Some. split_and!.
    - by rewrite lookup_take_lt.
    - done.
    - intros j y Hj Hjm. rewrite lookup_take_lt in Hj by lia.
      rewrite Forall_lookup in Hact. specialize (Hact j y).
      rewrite lookup_take_lt in Hact by lia. rewrite (Hact Hj). done. }
  by rewrite Hfind.
Qed.

Lemma pool_slot_full n ns vs :
  pool_filled act nt n n ns vs -> pool_first_free act n vs = None.
Proof.
  intros (Hlen & Hmn & Hn & Hact & Hidle & Hnotes).
  unfold pool_first_free.
  assert (Hfind : list_find (fun v => act v = false) (take n vs) = None).
  { apply list_find_None. eapply Forall_impl; [exact Hact|].
    intros v Hv. cbn. rewrite Hv. done. }
  by rewrite Hfind.
Qed.

(** Filling the first free slot. *)
Lemma pool_fill_free n m ns vs g x :
  pool_filled act nt n m ns vs -> (m < n)%nat ->
  (forall v, act (g v) = true /\ nt (g v) = x) ->
  pool_filled act nt n (S m) (ns ++ [x]) (alter g m vs).
Proof.
  intros (Hlen & Hmn & Hn & Hact & Hidle & Hnotes) Hlt Hg.
  destruct (lookup_lt_is_Some_2 vs m) as [v Hv]; [lia|].
  assert (Htake : take (S m) (alter g m vs) = take m vs ++ [g v]).
  { rewrite (take_S_r _ _ (g v)) by (by rewrite list_lookup_alter_eq, Hv).
    by rewrite take_alter_ge. }
  unfold pool_filled. rewrite length_alter, length_app, Htake.
  split_and!; [cbn; lia|lia|lia| | |].
  - apply Forall_app. split; [done|]. apply Forall_singleton. apply Hg.
  - rewrite drop_alter_lt by lia. rewrite (drop_S _ _ _ Hv) in Hidle.
    by apply Forall_cons in Hidle as [_ ?].
  - rewrite fmap_app, Hnotes. cbn. by rewrite (proj2 (Hg v)).
Qed.

(** Stealing slot 0 of a full pool. *)
Lemma pool_fill_steal n ns vs g x :
  pool_filled act nt n n ns vs -> (0 < n)%nat ->
  (forall v, act (g v) = true /\ nt (g v) = x) ->
  pool_filled act nt n n (<[0%nat := x]> ns) (alter g 0%nat vs).
Proof.
  intros (Hlen & Hmn & Hn & Hact & Hidle & Hnotes) Hlt Hg.
  unfold pool_filled. rewrite length_alter, length_insert.
  rewrite take_alter_lt, drop_alter_lt by lia.
  split_and!; [done|done|done| |done|].
  - destruct (take n vs) as [|v l]; [done|]. cbn.
    apply Forall_cons in Hact as [_ Hl]. apply Forall_cons. split; [apply Hg|done].
  - rewrite <- Hnotes. destruct (take n vs) as [|v l]; [done|]. cbn.
    by rewrite (proj2 (Hg v)).
Qed.

Lemma pool_filled_count n m ns vs :
  pool_filled act nt n m ns vs -> active_count act vs = m.
Proof.
  intros (Hlen & Hmn & Hn & Hact & Hidle & Hnotes).
  unfold active_count. rewrite <- (take_drop m vs), filter_app, length_app.
  assert (H1 : filter (fun v => act v = true) (take m vs) = take m vs).
  { clear -Hact. induction Hact as [|v l Hv Hl IH]; [done|].
    rewrite filter_cons_True by done. by rewrite IH. }
  assert (H2 : filter (fun v => act v = true) (drop m vs) = []).
  { clear -Hidle. induction Hidle as [|v l Hv Hl IH]; [done|].
    rewrite filter_cons_False by (by rewrite Hv). done. }
  rewrite H1, H2, length_take. cbn. lia.
Qed.

Lemma pool_filled_idle n vs :
  (n <= length vs)%nat -> Forall (fun v => act v = false) vs ->
  pool_filled act nt n 0 [] vs.
Proof.
  intros Hn Hidle. unfold pool_filled. rewrite take_0, drop_0.
  split_and!; [done|lia|done|constructor|done|done].
Qed.

Lemma pool_filled_notes n ns vs :
  pool_filled act nt n n ns vs ->
  nt <$> take n vs = ns /\ Forall (fun v => act v = true) (take n vs).
Proof. intros (_ & _ & _ & Hact & _ & Hnotes). done. Qed.

End Pool.

Section CorePolyphony.

Variable pow : double -> double -> double.
Variables (heap : list ms_instrument_t) (instrument : option nat) (i : ms_instrument_t).
Hypothesis Hderef : Core.deref heap instrument = Some i.
Hypothesis Hsampler : inst_sampler i = true.

Lemma core_fill_spec smp n vel e v :
  Core.active (core_fill pow smp n vel e instrument v) = true /\
  Core.note (core_fill pow smp n vel e instrument v) = n.
Proof. done. Qed.

Lemma core_note_on_resolved s n vel vid smp :
  instrument_find_sample (Some i) n vel = Some smp ->
  let j := pool_slot Core.active (Core.pool_size (Core.config s)) (Core.voices s) in
  exists vid',
    Core.ms_note_on pow heap s instrument n vel vid
    = (MS_SUCCESS,
       Core.set_voices s
         (alter (core_fill pow smp n vel (inst_envelope i) instrument) j (Core.voices s)),
       vid').
Proof.
  intros Hfind j. unfold Core.ms_note_on. rewrite Hderef, Hsampler, Hfind.
  cbn [negb]. eexists. reflexivity.
Qed.

Lemma core_note_on_all_fill l : forall s m ns,
  let n := Core.pool_size (Core.config s) in
  pool_filled Core.active Core.note n m ns (Core.voices s) ->
  (m + length l <= n)%nat -> all_resolve i l ->
  let r := note_on_all pow heap s instrument l in
  r.1 = replicate (length l) MS_SUCCESS /\
  Core.config r.2 = Core.config s /\
  pool_filled Core.active Core.note n (m + length l) (ns ++ l.*1) (Core.voices r.2).
Proof.
  induction l as [|[x vel] l IH]; intros s m ns n Hfill Hroom Hres; subst n; cbn zeta.
  - cbn. rewrite app_nil_r, Nat.add_0_r. done.
  - apply Forall_cons in Hres as [[smp Hsmp] Hres]. cbn [fst snd] in Hsmp.
    cbn [note_on_all length] in *.
    destruct (core_note_on_resolved s x vel None smp Hsmp) as [vid' ->].
    unfold pool_slot. rewrite (pool_slot_free _ _ _ _ _ _ Hfill) by lia.
    cbn [default from_option]. unfold Datatypes.id.
    set (s1 := Core.set_voices s _).
    destruct (IH s1 (S m) (ns ++ [x])) as (I1 & I2 & I3).
    + change (Core.config s1) with (Core.config s).
      apply pool_fill_free; [done|lia|]. intros v. apply core_fill_spec.
    + change (Core.config s1) with (Core.config s). lia.
    + done.
    + destruct (note_on_all pow heap s1 instrument l) as [errs s2].
      cbn [fst snd] in *. rewrite I1, I2.
      change (Core.config s1) with (Core.config s) in *.
      split_and!; [done|done|].
      cbn [fmap list_fmap fst]. rewrite <- app_assoc in I3.
      replace (m + S (length l))%nat with (S m + length l)%nat by lia. exact I3.
Qed.

Lemma note_on_all_app l1 l2 s :
  note_on_all pow heap s instrument (l1 ++ l2)
  = ((note_on_all pow heap s instrument l1).1
     ++ (note_on_all pow heap (note_on_all pow heap s instrument l1).2 instrument l2).1,
     (note_on_all pow heap (note_on_all pow heap s instrument l1).2 instrument l2).2).
Proof.
  revert s. induction l1 as [|[x vel] l1 IH]; intros s.
  - cbn. by destruct (note_on_all pow heap s instrument l2).
  - cbn [app note_on_all].
    destruct (Core.ms_note_on pow heap s instrument x vel None) as [[err s1] vid].
    rewrite IH. destruct (note_on_all pow heap s1 instrument l1) as [e1 s2].
    cbn [fst snd]. by destruct (note_on_all pow heap s2 instrument l2).
Qed.

Lemma core_polyphony s l1 nv :
  let n := Core.pool_size (Core.config s) in
  (0 < n)%nat -> (n <= length (Core.voices s))%nat ->
  Forall (fun v => Core.active v = false) (Core.voices s) ->
  length l1 = n -> all_resolve i (l1 ++ [nv]) ->
  let before := note_on_all pow heap s instrument l1 in
  let after := note_on_all pow heap s instrument (l1 ++ [nv]) in
  after.1 = replicate (S n) MS_SUCCESS /\
  Core.first_inactive n (Core.voices before.2) = None /\
  Core.available_voice n (Core.voices before.2) = 0%nat /\
  Core.note <$> take n (Core.voices before.2) = l1.*1 /\
  active_count Core.active (Core.voices after.2) = n /\
  Core.note <$> take n (Core.voices after.2) = <[0%nat := nv.1]> (l1.*1) /\
  Forall (fun v => Core.active v = true) (take n (Core.voices after.2)).
Proof.
  intros n Hpos Hlen Hidle Hl1 Hres before after.
  apply Forall_app in Hres as [Hres1 Hres2].
  apply Forall_singleton in Hres2 as [smp Hsmp].
  destruct (core_note_on_all_fill l1 s 0%nat []) as (B1 & B2 & B3).
  { by apply pool_filled_idle. }
  { fold n. lia. }
  { done. }
  fold before in B1, B2, B3. fold n in B3. cbn [app] in B3.
  rewrite Hl1 in B1, B3. cbn [Nat.add] in B3.
  assert (Hfull : pool_first_free Core.active n (Core.voices before.2) = None)
    by (by eapply pool_slot_full).
  assert (Hafter : after = (before.1 ++ [MS_SUCCESS],
            Core.set_voices before.2
              (alter (core_fill pow smp nv.1 nv.2 (inst_envelope i) instrument) 0%nat
                 (Core.voices before.2)))).
  { unfold after. rewrite note_on_all_app. fold before. destruct nv as [x vel].
    cbn [note_on_all fst snd].
    destruct (core_note_on_resolved before.2 x vel None smp Hsmp) as [vid' ->].
    unfold pool_slot. rewrite B2. fold n. rewrite Hfull. done. }
  pose proof (pool_fill_steal Core.active Core.note n (l1.*1) (Core.voices before.2)
                (core_fill pow smp nv.1 nv.2 (inst_envelope i) instrument) nv.1
                B3 Hpos (fun v => core_fill_spec smp nv.1 nv.2 _ v)) as Hsteal.
  rewrite Hafter. cbn [fst snd Core.set_voices Core.voices].
  split_and!.
  - rewrite B1. by rewrite <- replicate_S_end.
  - exact Hfull.
  - unfold Core.available_voice, Core.first_inactive.
    fold (pool_first_free Core.active n (Core.voices before.2)). by rewrite Hfull.
  - by apply (pool_filled_notes _ _ _ _ _ B3).
  - by apply (pool_filled_count _ _ _ _ _ _ Hsteal).
  - by apply (pool_filled_notes _ _ _ _ _ Hsteal).
  - by apply (pool_filled_notes _ _ _ _ _ Hsteal).
Qed.

End CorePolyphony.

Section RTPolyphony.

Variables (heap : list ms_instrument_t) (instrument : option nat) (i : ms_instrument_t).
Hypothesis Hderef : RT.deref heap instrument = Some i.
Hypothesis Hsampler : inst_sampler i = true.

Lemma rt_fill_spec smp n vel e v :
  RT.active (rt_fill smp n vel e instrument v) = true /\
  RT.note (rt_fill smp n vel e instrument v) = n.
Proof. done. Qed.

Lemma rt_handle_note_on cfg vs n vel smp :
  instrument_find_sample (Some i) n vel = Some smp ->
  RT.handle_event heap cfg vs (note_on_event instrument (n, vel))
  = alter (rt_fill smp n vel (inst_envelope i) instrument)
          (pool_slot RT.active (RT.pool_size cfg) vs) vs.
Proof.
  intros Hfind. unfold RT.handle_event, note_on_event.
  cbn [event_type ev_instrument ev_note ev_velocity fst snd].
  rewrite Hderef, Hfind. reflexivity.
Qed.

(** The drain loop handles the pending events oldest first and leaves
    the ring empty, when its fuel covers them. *)
Lemma rt_drain fuel : forall s,
  queue_wf (RT.event_queue s) ->
  (length (contents (RT.event_queue s)) <= fuel)%nat ->
  RT.voices (RT.drain heap fuel s)
  = fold_left (RT.handle_event heap (RT.config s))
              (contents (RT.event_queue s)) (RT.voices s) /\
  RT.config (RT.drain heap fuel s) = RT.config s /\
  contents (RT.event_queue (RT.drain heap fuel s)) = [].
Proof.
  induction fuel as [|fuel IH]; intros s Hwf Hlen.
  - destruct (contents (RT.event_queue s)) eqn:E; [done|cbn in Hlen; lia].
  - cbn [RT.drain]. pose proof (pop_contents _ Hwf) as Hpop.
    pose proof (pop_wf _ Hwf) as Hwf1.
    destruct (contents (RT.event_queue s)) as [|e rest] eqn:E.
    + rewrite Hpop. by rewrite E.
    + destruct Hpop as [Hp1 Hp2].
      destruct (rt_queue_pop (RT.event_queue s)) as [r q]. cbn [fst snd] in *.
      subst r.
      destruct (IH (RT.set_voices (RT.set_queue s q)
                      (RT.handle_event heap (RT.config s) (RT.voices s) e)))
        as (I1 & I2 & I3);
        [done
        |cbn [RT.set_voices RT.set_queue RT.event_queue]; rewrite Hp2;
         cbn [length] in Hlen; lia|].
      rewrite I1, I2, I3.
      cbn [RT.set_voices RT.set_queue RT.event_queue RT.voices RT.config].
      by rewrite Hp2.
Qed.

Lemma rt_note_on_all_keeps l : forall s,
  RT.voices (rt_note_on_all heap s instrument l).2 = RT.voices s /\
  RT.config (rt_note_on_all heap s instrument l).2 = RT.config s.
Proof.
  induction l as [|[n vel] l IH]; intros s; [done|].
  cbn [rt_note_on_all]. rewrite (rt_note_on_push _ _ _ _ _ _ _ Hderef Hsampler).
  cbn zeta. destruct (rt_queue_push _ _) as [[] q]; cbn [fst snd].
  - specialize (IH (RT.set_queue s q)).
    by destruct (rt_note_on_all heap (RT.set_queue s q) instrument l).
  - specialize (IH s). by destruct (rt_note_on_all heap s instrument l).
Qed.

Lemma rt_fold_fill cfg l : forall vs m ns,
  let n := RT.pool_size cfg in
  pool_filled RT.active RT.note n m ns vs ->
  (m + length l <= n)%nat -> all_resolve i l ->
  pool_filled RT.active RT.note n (m + length l) (ns ++ l.*1)
    (fold_left (RT.handle_event heap cfg) (note_on_event instrument <$> l) vs).
Proof.
  induction l as [|[x vel] l IH]; intros vs m ns n Hfill Hroom Hres; subst n.
  - cbn. by rewrite app_nil_r, Nat.add_0_r.
  - apply Forall_cons in Hres as [[smp Hsmp] Hres]. cbn [fst snd] in Hsmp.
    cbn [fmap list_fmap fold_left length] in *.
    rewrite (rt_handle_note_on _ _ _ _ smp Hsmp).
    unfold pool_slot. rewrite (pool_slot_free _ _ _ _ _ _ Hfill) by lia.
    cbn [default from_option]. unfold Datatypes.id.
    replace (m + S (length l))%nat with (S m + length l)%nat by lia.
    replace (ns ++ x :: l.*1) with ((ns ++ [x]) ++ l.*1) by (by rewrite <- app_assoc).
    apply IH; [|lia|done].
    apply pool_fill_free; [done|lia|]. intros v. apply rt_fill_spec.
Qed.

Lemma rt_pool_size_bound cfg : (RT.pool_size cfg <= 64)%nat.
Proof. unfold RT.pool_size, MS_MAX_VOICES. lia. Qed.

(** Queueing a run of note-ons and draining it. *)
Lemma rt_queue_and_drain s l :
  RT.event_queue s = empty_queue -> (length l <= 255)%nat ->
  let queued := rt_note_on_all heap s instrument l in
  queued.1 = replicate (length l) MS_SUCCESS /\
  RT.voices (RT.process_events heap queued.2)
  = fold_left (RT.handle_event heap (RT.config s))
              (note_on_event instrument <$> l) (RT.voices s).
Proof.
  intros Hq Hl queued.
  destruct (rt_note_on_all_push heap instrument i l s Hderef Hsampler)
    as (Q1 & Q2 & Q3).
  { rewrite Hq. apply empty_queue_wf. }
  { rewrite Hq, <- pending_length, contents_empty_queue by apply empty_queue_wf.
    unfold RT_EVENT_QUEUE_SIZE. cbn [length]. lia. }
  fold queued in Q1, Q2, Q3. rewrite Hq, contents_empty_queue in Q2. cbn [app] in Q2.
  split; [done|].
  destruct (rt_drain RT_EVENT_QUEUE_SIZE queued.2 Q3) as (D1 & _ & _).
  { rewrite Q2, length_map. unfold RT_EVENT_QUEUE_SIZE. lia. }
  unfold RT.process_events. rewrite D1, Q2.
  destruct (rt_note_on_all_keeps l s) as [K1 K2]. fold queued in K1, K2.
  by rewrite K1, K2.
Qed.

Lemma rt_polyphony s l1 nv :
  let n := RT.pool_size (RT.config s) in
  RT.event_queue s = empty_queue ->
  (0 < n)%nat -> (n <= length (RT.voices s))%nat ->
  Forall (fun v => RT.active v = false) (RT.voices s) ->
  length l1 = n -> all_resolve i (l1 ++ [nv]) ->
  let before := RT.process_events heap (rt_note_on_all heap s instrument l1).2 in
  let queued := rt_note_on_all heap s instrument (l1 ++ [nv]) in
  let after := RT.process_events heap queued.2 in
  queued.1 = replicate (S n) MS_SUCCESS /\
  RT.first_inactive n (RT.voices before) = None /\
  RT.available_voice n (RT.voices before) = 0%nat /\
  RT.note <$> take n (RT.voices before) = l1.*1 /\
  active_count RT.active (RT.voices after) = n /\
  RT.note <$> take n (RT.voices after) = <[0%nat := nv.1]> (l1.*1) /\
  Forall (fun v => RT.active v = true) (take n (RT.voices after)).
Proof.
  intros n Hq Hpos Hlen Hidle Hl1 Hres before queued after.
  pose proof (rt_pool_size_bound (RT.config s)) as Hn. fold n in Hn.
  destruct (rt_queue_and_drain s l1 Hq) as [_ Hb]; [lia|]. fold before in Hb.
  destruct (rt_queue_and_drain s (l1 ++ [nv]) Hq) as [Ha1 Ha2].
  { rewrite length_app. cbn. lia. }
  fold queued in Ha1, Ha2. fold after in Ha2.
  apply Forall_app in Hres as [Hres1 Hres2].
  apply Forall_singleton in Hres2 as [smp Hsmp].
  pose proof (rt_fold_fill (RT.config s) l1 (RT.voices s) 0%nat []
                (pool_filled_idle _ _ _ _ Hlen Hidle)) as B3.
  cbn zeta in B3. fold n in B3. rewrite Hl1 in B3. cbn [Nat.add app] in B3.
  specialize (B3 (Nat.le_refl _) Hres1). rewrite <- Hb in B3.
  assert (Hfull : pool_first_free RT.active n (RT.voices before) = None)
    by (by eapply pool_slot_full).
  assert (Hafter : RT.voices after
            = alter (rt_fill smp nv.1 nv.2 (inst_envelope i) instrument) 0%nat
                    (RT.voices before)).
  { rewrite Ha2, fmap_app, fold_left_app, <- Hb. cbn [fmap list_fmap fold_left].
    destruct nv as [x vel]. rewrite (rt_handle_note_on _ _ _ _ smp Hsmp).
    unfold pool_slot. fold n. by rewrite Hfull. }
  pose proof (pool_fill_steal RT.active RT.note n (l1.*1) (RT.voices before)
                (rt_fill smp nv.1 nv.2 (inst_envelope i) instrument) nv.1
                B3 Hpos (fun v => rt_fill_spec smp nv.1 nv.2 _ v)) as Hsteal.
  rewrite Hafter.
  split_and!.
  - rewrite Ha1, length_app, Hl1. cbn [length]. f_equal. lia.
  - exact Hfull.
  - unfold RT.available_voice, RT.first_inactive.
    fold (pool_first_free RT.active n (RT.voices before)). by rewrite Hfull.
  - by apply (pool_filled_notes _ _ _ _ _ B3).
  - by apply (pool_filled_count _ _ _ _ _ _ Hsteal).
  - by apply (pool_filled_notes _ _ _ _ _ Hsteal).
  - by apply (pool_filled_notes _ _ _ _ _ Hsteal).
Qed.

End RTPolyphony.



(** ** The render call *)

(** [C8] [ms_process] returns [MS_SUCCESS] for every sampler and output
    buffer that are not [NULL], in both builds; with a [NULL] sampler or a
    [NULL] output it returns [MS_ERROR_INVALID_PARAM], a non-zero code, and
    hands back the sampler and the output buffer as they were. *)
Theorem ms_process_infallible :
  (forall s out frames,
      (Core.ms_process (Some s) (Some out) frames).1.1 = MS_SUCCESS) /\
  (forall heap s out frames,
      (RT.ms_process heap (Some s) (Some out) frames).1.1 = MS_SUCCESS) /\
  (forall sampler output frames,
      sampler = None \/ output = None ->
      Core.ms_process sampler output frames
      = (MS_ERROR_INVALID_PARAM, sampler, output)) /\
  (forall heap sampler output frames,
      sampler = None \/ output = None ->
      RT.ms_process heap sampler output frames
      = (MS_ERROR_INVALID_PARAM, sampler, output)) /\
  ms_error_code MS_ERROR_INVALID_PARAM <> ms_error_code MS_SUCCESS.
Proof.
  split_and!.
  - intros s out frames. unfold Core.ms_process.
    by destruct (Core.process_voices _ _ _ _ _).
  - intros heap s out frames. unfold RT.ms_process.
    by destruct (RT.process_voices _ _ _ _ _).
  - intros sampler output frames [-> | ->]; [done|]. by destruct sampler.
  - intros heap sampler output frames [-> | ->]; [done|]. by destruct sampler.
  - discriminate.
Qed.

Lemma ms_process_infallible_witness :
  Core.ms_process None (Some example_output) 4
  = (MS_ERROR_INVALID_PARAM, None, Some example_output) /\
  RT.ms_process example_heap (Some (RT.new_sampler example_config)) None 4
  = (MS_ERROR_INVALID_PARAM, Some (RT.new_sampler example_config), None) /\
  (Core.ms_process (Some (Core.new_sampler example_config)) (Some example_output) 4).1.1
  = MS_SUCCESS.
Proof.
  destruct ms_process_infallible as (Hc & _ & Hce & Hre & _).
  split_and!.
  - apply Hce. by left.
  - apply Hre. by right.
  - apply Hc.
Defined.

(** ** The voice identifier of a note-on *)

(** The plain build stores the identifier of the slot that takes the
    note: after a successful call on a non-[NULL] cell, the cell holds the
    [voice_id] of an active voice that sounds the note. *)
Lemma core_note_on_stores_voice_id pow heap s instrument i n vel old smp :
  Core.deref heap instrument = Some i -> inst_sampler i = true ->
  instrument_find_sample (Some i) n vel = Some smp ->
  let j := Core.available_voice (Core.pool_size (Core.config s)) (Core.voices s) in
  (j < length (Core.voices s))%nat ->
  let r := Core.ms_note_on pow heap s instrument n vel (Some old) in
  r.1.1 = MS_SUCCESS /\
  exists v, Core.voices r.1.2 !! j = Some v /\
            Core.active v = true /\ Core.note v = n /\
            r.2 = Some (Core.voice_id v).
Proof.
  intros Hd Hs Hfind j Hj r. subst r. unfold Core.ms_note_on.
  rewrite Hd, Hs, Hfind. cbn [negb fst snd]. fold j.
  split; [done|].
  destruct (lookup_lt_is_Some_2 (Core.voices s) j Hj) as [v Hv].
  exists (core_fill pow smp n vel (inst_envelope i) instrument v).
  cbn [Core.set_voices Core.voices].
  fold (core_fill pow smp n vel (inst_envelope i) instrument).
  rewrite list_lookup_alter_eq, Hv. done.
Qed.

(** [C9] in the real-time build: [ms_note_on] never writes the
    [voice_id] cell.  On the two-voice example sampler a note-on for note
    60 made with a cell holding [0xDEADBEEF] succeeds and leaves the cell
    as it was, while the voice that then plays the note (slot 0 after the
    next [process_events]) has identifier 1. *)
Theorem rt_note_on_leaves_voice_id_unset :
  (forall heap s instrument n vel cell,
      (RT.ms_note_on heap s instrument n vel cell).2 = cell) /\
  let r := RT.ms_note_on example_heap (RT.new_sampler example_config)
             (Some 0%nat) 60 100 (Some 3735928559) in
  r.1.1 = MS_SUCCESS /\ r.2 = Some 3735928559 /\
  (fun v => (RT.active v, RT.note v, RT.voice_id v))
    <$> RT.voices (RT.process_events example_heap r.1.2) !! 0%nat
  = Some (true, 60, 1).
Proof.
  split.
  - intros heap s instrument n vel cell. unfold RT.ms_note_on.
    destruct (RT.deref heap instrument) as [i|]; [|done].
    destruct (inst_sampler i); [|done]. cbn [negb].
    by destruct (rt_queue_push _ _) as [[] q].
  - vm_compute. done.
Qed.

(** ** Rounding to nearest

    What [binary_round_aux] does to a positive integer times a power of
    two, in the range of the normal numbers. *)

Section RoundingBounds.

Variables prec emax : Z.
Hypothesis Hprec : 0 < prec.

Lemma digits2_pos_bounds (m : positive) :
  2 ^ (Z.pos (digits2_pos m) - 1) <= Z.pos m < 2 ^ Z.pos (digits2_pos m).
Proof.
  induction m as [m IH|m IH|]; cbn [digits2_pos].
  - rewrite Pos2Z.inj_succ.
    replace (Z.succ (Z.pos (digits2_pos m)) - 1)
      with (Z.succ (Z.pos (digits2_pos m) - 1)) by lia.
    rewrite !Z.pow_succ_r by lia. lia.
  - rewrite Pos2Z.inj_succ.
    replace (Z.succ (Z.pos (digits2_pos m)) - 1)
      with (Z.succ (Z.pos (digits2_pos m) - 1)) by lia.
    rewrite !Z.pow_succ_r by lia. lia.
  - cbn. lia.
Qed.

Lemma digits2_pos_unique (m : positive) (d : Z) :
  2 ^ (d - 1) <= Z.pos m < 2 ^ d -> Z.pos (digits2_pos m) = d.
Proof.
  intros [Hlo Hhi]. pose proof (digits2_pos_bounds m) as [Dlo Dhi].
  assert (Hd : 0 < d).
  { destruct (Z.lt_trichotomy d 0) as [H|[H|H]]; [|subst d; cbn in Hhi; lia|done].
    rewrite Z.pow_neg_r in Hhi by done. lia. }
  assert (H1 : Z.pos (digits2_pos m) - 1 < d).
  { apply (Z.pow_lt_mono_r_iff 2); lia. }
  assert (H2 : d - 1 < Z.pos (digits2_pos m)).
  { apply (Z.pow_lt_mono_r_iff 2); lia. }
  lia.
Qed.

Lemma shr_1_m (mrs : shr_record) :
  0 <= shr_m mrs -> shr_m (shr_1 mrs) = shr_m mrs / 2.
Proof.
  destruct mrs as [[|[p|p|]|p] r s]; cbn [shr_m shr_1]; intros H; lia.
Qed.

Lemma iter_pos_shr_m (p : positive) : forall mrs,
  0 <= shr_m mrs -> shr_m (SpecFloat.iter_pos shr_1 p mrs) = shr_m mrs / 2 ^ Z.pos p.
Proof.
  induction p as [p IH|p IH|]; intros mrs H; cbn [SpecFloat.iter_pos].
  - assert (H1 : 0 <= shr_m (shr_1 mrs)) by (rewrite shr_1_m by done; apply Z.div_pos; lia).
    assert (H2 : 0 <= shr_m (SpecFloat.iter_pos shr_1 p (shr_1 mrs)))
      by (rewrite IH by done; apply Z.div_pos; lia).
    rewrite IH, IH, shr_1_m by done.
    rewrite !Z.div_div by lia. f_equal.
    rewrite (Pos2Z.inj_xI p).
    replace (2 * Z.pos p + 1) with (1 + Z.pos p + Z.pos p) by lia.
    rewrite !Z.pow_add_r by lia. change (2 ^ 1) with 2. ring.
  - assert (H2 : 0 <= shr_m (SpecFloat.iter_pos shr_1 p mrs))
      by (rewrite IH by done; apply Z.div_pos; lia).
    rewrite IH, IH by done. rewrite Z.div_div by lia. f_equal.
    rewrite (Pos2Z.inj_xO p).
    replace (2 * Z.pos p) with (Z.pos p + Z.pos p) by lia.
    by rewrite Z.pow_add_r by lia.
  - by rewrite shr_1_m.
Qed.

Lemma round_nearest_even_cases (mx : Z) (lx : location) :
  round_nearest_even mx lx = mx \/ round_nearest_even mx lx = mx + 1.
Proof.
  destruct lx as [|[]]; cbn [round_nearest_even]; auto.
  destruct (Z.even mx); auto.
Qed.

Lemma shr_nonpos mrs e n : n <= 0 -> shr mrs e n = (mrs, e).
Proof. destruct n; [done|lia|done]. Qed.

(** Rounding a positive integer times a power of two in the normal
    range: the result is finite, and within one unit in the last place. *)
Lemma binary_round_aux_bound (s : bool) (m : positive) (e : Z) :
  let d := Z.pos (digits2_pos m) in
  3 - emax - prec <= d + e - prec -> d + e < emax -> e <= emax - prec ->
  exists m' k,
    binary_round_aux prec emax s (Z.pos m) e loc_Exact = S754_finite s m' (e + k) /\
    0 <= k /\
    Z.abs (Z.pos m' * 2 ^ k - Z.pos m) * 2 ^ (prec - 1) <= Z.pos m /\
    (d <= prec -> k = 0 /\ m' = m).
Proof.
  intros d Hmin Hmax He.
  pose proof (digits2_pos_bounds m) as [Dlo Dhi]. fold d in Dlo, Dhi.
  unfold binary_round_aux, shr_fexp, fexp, emin. cbn [Zdigits2]. fold d.
  rewrite (Z.max_l (d + e - prec)) by lia.
  destruct (Z_le_gt_dec d prec) as [Hd|Hd].
  - rewrite shr_nonpos by lia.
    cbn [shr_record_of_loc shr_m loc_of_shr_record round_nearest_even Zdigits2].
    fold d. rewrite (Z.max_l (d + e - prec)) by lia.
    rewrite shr_nonpos by lia. cbn [shr_record_of_loc shr_m].
    rewrite (proj2 (Z.leb_le _ _) He).
    exists m, 0. rewrite Z.add_0_r, Z.mul_1_r, Z.sub_diag. cbn [Z.abs].
    split_and!; [done|lia|lia|done].
  - set (n := d - prec).
    replace (d + e - prec - e) with n by lia.
    assert (Hn : 0 < n) by lia.
    destruct n as [|p|p] eqn:En; [lia| |lia]. cbn [shr].
    set (mrs := SpecFloat.iter_pos shr_1 p (shr_record_of_loc (Z.pos m) loc_Exact)).
    assert (Hm1 : shr_m mrs = Z.pos m / 2 ^ Z.pos p)
      by (unfold mrs; by rewrite iter_pos_shr_m).
    assert (Hpow : 2 ^ (d - 1) = 2 ^ (prec - 1) * 2 ^ Z.pos p).
    { rewrite <- Z.pow_add_r by lia. f_equal. lia. }
    assert (Hpow' : 2 ^ d = 2 ^ prec * 2 ^ Z.pos p).
    { rewrite <- Z.pow_add_r by lia. f_equal. lia. }
    assert (Hp2 : 0 < 2 ^ Z.pos p) by (apply Z.pow_pos_nonneg; lia).
    assert (Hq2 : 0 < 2 ^ (prec - 1)) by (apply Z.pow_pos_nonneg; lia).
    assert (Hprec2 : 2 ^ prec = 2 * 2 ^ (prec - 1)).
    { rewrite <- Z.pow_succ_r by lia. f_equal. lia. }
    pose proof (Z.div_mod (Z.pos m) (2 ^ Z.pos p) ltac:(lia)) as Hdm.
    pose proof (Z.mod_pos_bound (Z.pos m) (2 ^ Z.pos p) Hp2) as Hmod.
    set (m1 := Z.pos m / 2 ^ Z.pos p) in *.
    assert (Hm1lo : 2 ^ (prec - 1) <= m1) by nia.
    assert (Hm1hi : m1 < 2 ^ prec) by nia.
    set (m2 := round_nearest_even (shr_m mrs) (loc_of_shr_record mrs)).
    assert (Hm2 : m2 = m1 \/ m2 = m1 + 1).
    { unfold m2. rewrite <- Hm1. apply round_nearest_even_cases. }
    destruct m2 as [|p2|p2] eqn:Em2; [lia| |lia].
    destruct (Z_lt_le_dec (Z.pos p2) (2 ^ prec)) as [Hlt|Hge].
    + assert (Hdig : Z.pos (digits2_pos p2) = prec)
        by (apply digits2_pos_unique; lia).
      cbn [Zdigits2]. rewrite Hdig.
      rewrite (Z.max_l (prec + (e + Z.pos p) - prec)) by lia.
      rewrite shr_nonpos by lia. cbn [shr_record_of_loc shr_m].
      rewrite (proj2 (Z.leb_le (e + Z.pos p) (emax - prec))) by lia.
      exists p2, (Z.pos p). split_and!; [done|lia| |lia].
      assert (Habs : Z.abs (Z.pos p2 * 2 ^ Z.pos p - Z.pos m) <= 2 ^ Z.pos p) by nia.
      nia.
    + assert (Heq : Z.pos p2 = 2 ^ prec) by lia.
      assert (Hdig : Z.pos (digits2_pos p2) = prec + 1).
      { apply digits2_pos_unique. replace (prec + 1 - 1) with prec by lia.
        rewrite Heq, Z.pow_add_r by lia. lia. }
      cbn [Zdigits2]. rewrite Hdig.
      rewrite (Z.max_l (prec + 1 + (e + Z.pos p) - prec)) by lia.
      replace (prec + 1 + (e + Z.pos p) - prec - (e + Z.pos p)) with 1 by lia.
      cbn [shr SpecFloat.iter_pos]. rewrite shr_1_m by (cbn; lia).
      cbn [shr_record_of_loc shr_m]. rewrite Heq, Hprec2.
      rewrite Z.mul_comm, Z.div_mul by lia.
      destruct (2 ^ (prec - 1)) as [|q|q] eqn:Eq; [lia| |lia].
      rewrite (proj2 (Z.leb_le (e + Z.pos p + 1) (emax - prec))) by lia.
      exists q, (Z.pos p + 1). split_and!; [by rewrite Z.add_assoc|lia| |lia].
      rewrite Z.pow_add_r by lia. change (2 ^ 1) with 2.
      assert (Habs : Z.abs (Z.pos q * (2 ^ Z.pos p * 2) - Z.pos m) <= 2 ^ Z.pos p) by nia.
      nia.
Qed.


Lemma shr_1_even (z : Z) :
  0 < z ->
  shr_1 {| shr_m := 2 * z; shr_r := false; shr_s := false |}
  = {| shr_m := z; shr_r := false; shr_s := false |}.
Proof. by destruct z. Qed.

(** Shifting out zero bits loses nothing. *)
Lemma iter_pos_shr_exact (p : positive) : forall z,
  0 < z ->
  SpecFloat.iter_pos shr_1 p {| shr_m := z * 2 ^ Z.pos p; shr_r := false; shr_s := false |}
  = {| shr_m := z; shr_r := false; shr_s := false |}.
Proof.
  induction p as [p IH|p IH|]; intros z Hz; cbn [SpecFloat.iter_pos].
  - replace (z * 2 ^ Z.pos p~1) with (2 * ((z * 2 ^ Z.pos p) * 2 ^ Z.pos p)).
    + assert (0 < 2 ^ Z.pos p) by (apply Z.pow_pos_nonneg; lia).
      rewrite shr_1_even by nia. rewrite IH by nia. by rewrite IH.
    + rewrite (Pos2Z.inj_xI p).
      replace (2 * Z.pos p + 1) with (1 + Z.pos p + Z.pos p) by lia.
      rewrite !Z.pow_add_r by lia. change (2 ^ 1) with 2. ring.
  - replace (z * 2 ^ Z.pos p~0) with ((z * 2 ^ Z.pos p) * 2 ^ Z.pos p).
    + assert (0 < 2 ^ Z.pos p) by (apply Z.pow_pos_nonneg; lia).
      rewrite IH by nia. by rewrite IH.
    + rewrite (Pos2Z.inj_xO p).
      replace (2 * Z.pos p) with (Z.pos p + Z.pos p) by lia.
      rewrite !Z.pow_add_r by lia. ring.
  - change (2 ^ 1) with 2. rewrite Z.mul_comm. by apply shr_1_even.
Qed.

(** Rounding a [prec]-digit integer shifted left is exact. *)
Lemma binary_round_aux_exact (s : bool) (m0 m : positive) (k e : Z) :
  Z.pos (digits2_pos m0) = prec -> 0 <= k -> Z.pos m = Z.pos m0 * 2 ^ k ->
  3 - emax - prec <= e + k -> e + k <= emax - prec ->
  binary_round_aux prec emax s (Z.pos m) e loc_Exact = S754_finite s m0 (e + k).
Proof.
  intros Hd0 Hk Hm Hmin Hmax.
  pose proof (digits2_pos_bounds m0) as [Dlo Dhi]. rewrite Hd0 in Dlo, Dhi.
  assert (Hp2 : 0 < 2 ^ k) by (apply Z.pow_pos_nonneg; lia).
  assert (Hd : Z.pos (digits2_pos m) = prec + k).
  { apply digits2_pos_unique. rewrite Hm.
    replace (prec + k - 1) with (prec - 1 + k) by lia.
    rewrite !Z.pow_add_r by lia. nia. }
  unfold binary_round_aux, shr_fexp, fexp, emin. cbn [Zdigits2]. rewrite Hd.
  rewrite (Z.max_l (prec + k + e - prec)) by lia.
  replace (prec + k + e - prec - e) with k by lia.
  assert (Hsecond :
    (let '(mrs'', e'') :=
       shr (shr_record_of_loc (Z.pos m0) loc_Exact) (e + k)
           (Z.max (Zdigits2 (Z.pos m0) + (e + k) - prec) (3 - emax - prec) - (e + k)) in
     match shr_m mrs'' with
     | 0 => S754_zero s
     | Z.pos m1 => if e'' <=? emax - prec then S754_finite s m1 e'' else S754_infinity s
     | Z.neg _ => S754_nan
     end) = S754_finite s m0 (e + k)).
  { cbn [Zdigits2]. rewrite Hd0.
    rewrite (Z.max_l (prec + (e + k) - prec)) by lia.
    rewrite shr_nonpos by lia. cbn [shr_record_of_loc shr_m].
    by rewrite (proj2 (Z.leb_le (e + k) (emax - prec))) by lia. }
  destruct k as [|p|p]; [| |lia].
  - rewrite Z.add_0_r in *. cbn [shr shr_record_of_loc shr_m loc_of_shr_record
                                  round_nearest_even].
    assert (m = m0) as -> by lia. exact Hsecond.
  - cbn [shr shr_record_of_loc]. rewrite Hm, iter_pos_shr_exact by lia.
    cbn [shr_m loc_of_shr_record round_nearest_even]. exact Hsecond.
Qed.

Lemma pos_iter_xO (m d : positive) :
  Z.pos (Pos.iter xO m d) = Z.pos m * 2 ^ Z.pos d.
Proof.
  induction d as [|d IH] using Pos.peano_ind.
  - cbn. lia.
  - rewrite Pos.iter_succ, Pos2Z.inj_xO, IH, Pos2Z.inj_succ, Z.pow_succ_r by lia. ring.
Qed.

(** Rounding a number of fewer than [prec] digits: it is shifted to
    [prec] digits and kept as it is. *)
Lemma binary_round_short (s : bool) (m : positive) (e : Z) :
  let d := Z.pos (digits2_pos m) in
  d <= prec -> 3 - emax - prec <= d + e - prec -> d + e <= emax ->
  exists m', binary_round prec emax s m e = S754_finite s m' (d + e - prec) /\
             Z.pos m' = Z.pos m * 2 ^ (prec - d) /\
             Z.pos (digits2_pos m') = prec.
Proof.
  intros d Hd Hmin Hmax.
  pose proof (digits2_pos_bounds m) as [Dlo Dhi]. fold d in Dlo, Dhi.
  assert (Hp2 : 0 < 2 ^ (prec - d)) by (apply Z.pow_pos_nonneg; lia).
  assert (Hsh : exists m', shl_align m e (d + e - prec) = (m', d + e - prec) /\
                           Z.pos m' = Z.pos m * 2 ^ (prec - d)).
  { unfold shl_align. destruct (d + e - prec - e) as [|q|q] eqn:E.
    - assert (d = prec) as -> by lia. exists m.
      replace (prec + e - prec) with e by lia. rewrite Z.sub_diag. split; [done|lia].
    - lia.
    - exists (Pos.iter xO m q). split; [done|]. rewrite pos_iter_xO. f_equal. f_equal. lia. }
  destruct Hsh as (m' & Hsh & Hm').
  assert (Hd' : Z.pos (digits2_pos m') = prec).
  { apply digits2_pos_unique. rewrite Hm'.
    replace (prec - 1) with (d - 1 + (prec - d)) by lia.
    replace (2 ^ prec) with (2 ^ d * 2 ^ (prec - d))
      by (rewrite <- Z.pow_add_r by lia; f_equal; lia).
    rewrite Z.pow_add_r by lia. nia. }
  exists m'. split_and!; [|done|done].
  unfold binary_round, fexp, emin. fold d.
  rewrite (Z.max_l (d + e - prec)) by lia. rewrite Hsh.
  rewrite (binary_round_aux_exact s m' m' 0 (d + e - prec)); [|done|lia|lia|lia|lia].
  by rewrite Z.add_0_r.
Qed.

End RoundingBounds.

(** ** Frequency table against the equal-tempered formula *)

Lemma all_speed_pairs_ok_true :
  forallb (fun n => forallb (speed_pair_ok n) (seq 0 128)) (seq 0 128) = true.
Proof. vm_compute. reflexivity. Qed.

Lemma scaled_pow12_nth c n :
  (n < 128)%nat ->
  nth n (scaled_pow12 c) 0 = c ^ 12 * nth n RT.MIDI_FREQ_TABLE_milli 0 ^ 12.
Proof.
  intros Hn. unfold scaled_pow12.
  rewrite (nth_indep _ 0 ((fun k => c ^ 12 * k ^ 12) 0)).
  - apply (map_nth (fun k => c ^ 12 * k ^ 12)).
  - rewrite length_map. exact Hn.
Qed.

Lemma POW12_LOW_eq : POW12_LOW = scaled_pow12 99993.
Proof. vm_compute. reflexivity. Qed.

Lemma POW12_MID_eq : POW12_MID = scaled_pow12 100000.
Proof. vm_compute. reflexivity. Qed.

Lemma POW12_HIGH_eq : POW12_HIGH = scaled_pow12 100007.
Proof. vm_compute. reflexivity. Qed.

(** The integer inequalities behind one pair of notes. *)
Lemma speed_pair_bounds (n r : nat) :
  (n < 128)%nat -> (r < 128)%nat ->
  let kn := nth n RT.MIDI_FREQ_TABLE_milli 0 in
  let kr := nth r RT.MIDI_FREQ_TABLE_milli 0 in
  0 < kn /\ 0 < kr /\
  99993 ^ 12 * kr ^ 12 * 2 ^ Z.of_nat n <= 100000 ^ 12 * kn ^ 12 * 2 ^ Z.of_nat r /\
  100000 ^ 12 * kn ^ 12 * 2 ^ Z.of_nat r <= 100007 ^ 12 * kr ^ 12 * 2 ^ Z.of_nat n.
Proof.
  intros Hn Hr kn kr.
  pose proof all_speed_pairs_ok_true as Hall.
  rewrite forallb_forall in Hall. specialize (Hall n).
  rewrite forallb_forall in Hall.
  assert (Hok : speed_pair_ok n r = true).
  { apply Hall; apply in_seq; lia. }
  clear Hall. unfold speed_pair_ok in Hok.
  rewrite POW12_LOW_eq, POW12_MID_eq, POW12_HIGH_eq in Hok.
  rewrite !scaled_pow12_nth in Hok by done.
  rewrite !Z.shiftl_mul_pow2 in Hok by lia.
  fold kn kr in Hok.
  apply andb_prop in Hok as [Hok H4]. apply andb_prop in Hok as [Hok H3].
  apply andb_prop in Hok as [H1 H2].
  apply Z.ltb_lt in H1, H2. apply Z.leb_le in H3, H4.
  split_and!; [done|done|exact H3|exact H4].
Qed.

Section EqualTemperament.

Local Open Scope R_scope.

Lemma pow_lt_mono_l (x y : R) (n : nat) :
  0 <= y -> y < x -> y ^ S n < x ^ S n.
Proof.
  intros Hy Hlt. induction n as [|n IH].
  - rewrite !pow_1. exact Hlt.
  - change (y ^ S (S n)) with (y * y ^ S n).
    change (x ^ S (S n)) with (x * x ^ S n).
    apply Rmult_le_0_lt_compat; [exact Hy|apply pow_le; exact Hy|exact Hlt|exact IH].
Qed.

Lemma pow12_le_inv (x y : R) : 0 <= y -> x ^ 12 <= y ^ 12 -> x <= y.
Proof.
  intros Hy Hle. destruct (Rle_or_lt x y) as [H|H]; [exact H|].
  pose proof (pow_lt_mono_l x y 11 Hy H) as Hlt. lra.
Qed.

Lemma Rpower2_pos (t : R) : 0 < Rpower 2 t.
Proof. unfold Rpower. apply exp_pos. Qed.

(** [2^((n - 69)/12)], raised to the twelfth power and scaled by [2^69],
    is [2^n]. *)
Lemma semitone_pow12 (n : nat) :
  Rpower 2 ((INR n - 69) / 12) ^ 12 * 2 ^ 69 = 2 ^ n.
Proof.
  assert (H2 : 0 < 2) by lra.
  rewrite <- (Rpower_pow 12) by apply Rpower2_pos.
  rewrite Rpower_mult.
  rewrite <- (Rpower_pow 69 2 H2), <- (Rpower_pow n 2 H2).
  rewrite <- Rpower_plus. f_equal.
  replace (INR 12) with 12 by (rewrite INR_IZR_INZ; reflexivity).
  replace (INR 69) with 69 by (rewrite INR_IZR_INZ; reflexivity).
  field.
Qed.

Lemma land_127 (n : Z) : (0 <= n <= 127)%Z -> Z.land n 127 = n.
Proof.
  intros Hn. change 127%Z with (Z.ones 7).
  rewrite Z.land_ones by lia. apply Z.mod_small. lia.
Qed.

(** Cross-multiplied form of the bound for one pair of notes. *)
Lemma table_ratio_bounds (n r : nat) :
  (n < 128)%nat -> (r < 128)%nat ->
  let kn := IZR (nth n RT.MIDI_FREQ_TABLE_milli 0%Z) in
  let kr := IZR (nth r RT.MIDI_FREQ_TABLE_milli 0%Z) in
  let a := Rpower 2 ((INR n - 69) / 12) in
  let b := Rpower 2 ((INR r - 69) / 12) in
  0 < kn /\ 0 < kr /\
  99993 * a * kr <= 100000 * kn * b /\ 100000 * kn * b <= 100007 * a * kr.
Proof.
  intros Hn Hr kn kr a b.
  destruct (speed_pair_bounds n r Hn Hr) as (Zn & Zr & Zlo & Zhi).
  cbn zeta in Zn, Zr, Zlo, Zhi.
  apply IZR_lt in Zn, Zr. apply IZR_le in Zlo, Zhi.
  change 12%Z with (Z.of_nat 12) in Zlo, Zhi.
  rewrite !mult_IZR, <- !pow_IZR in Zlo, Zhi.
  fold kn kr in Zn, Zr, Zlo, Zhi.
  pose proof (Rpower2_pos ((INR n - 69) / 12)) as Ha.
  pose proof (Rpower2_pos ((INR r - 69) / 12)) as Hb.
  fold a in Ha. fold b in Hb.
  pose proof (semitone_pow12 n) as Pn. pose proof (semitone_pow12 r) as Pr.
  fold a in Pn. fold b in Pr.
  assert (H69 : 0 < 2 ^ 69) by (apply pow_lt; lra).
  split_and!; [exact Zn|exact Zr| |].
  - apply pow12_le_inv; [nra|].
    apply (Rmult_le_reg_r (2 ^ 69)); [exact H69|].
    rewrite !Rpow_mult_distr.
    replace (99993 ^ 12 * a ^ 12 * kr ^ 12 * 2 ^ 69)
      with (99993 ^ 12 * kr ^ 12 * (a ^ 12 * 2 ^ 69)) by ring.
    replace (100000 ^ 12 * kn ^ 12 * b ^ 12 * 2 ^ 69)
      with (100000 ^ 12 * kn ^ 12 * (b ^ 12 * 2 ^ 69)) by ring.
    rewrite Pn, Pr. exact Zlo.
  - apply pow12_le_inv; [nra|].
    apply (Rmult_le_reg_r (2 ^ 69)); [exact H69|].
    rewrite !Rpow_mult_distr.
    replace (100007 ^ 12 * a ^ 12 * kr ^ 12 * 2 ^ 69)
      with (100007 ^ 12 * kr ^ 12 * (a ^ 12 * 2 ^ 69)) by ring.
    replace (100000 ^ 12 * kn ^ 12 * b ^ 12 * 2 ^ 69)
      with (100000 ^ 12 * kn ^ 12 * (b ^ 12 * 2 ^ 69)) by ring.
    rewrite Pn, Pr. exact Zhi.
Qed.

End EqualTemperament.

Lemma all_ratio_pairs_ok_true :
  forallb (fun n => forallb (ratio_pair_ok n) (seq 0 128)) (seq 0 128) = true.
Proof. vm_compute. reflexivity. Qed.

Lemma SFsame_eq a b : SFsame a b = true -> a = b.
Proof.
  destruct a as [s|s| |s m e], b as [s'|s'| |s' m' e']; cbn; try discriminate.
  - intros H. apply Bool.eqb_prop in H. by subst.
  - intros H. apply Bool.eqb_prop in H. by subst.
  - done.
  - intros H. apply andb_prop in H as [H He]. apply andb_prop in H as [Hs Hm].
    apply Bool.eqb_prop in Hs. apply Pos.eqb_eq in Hm. apply Z.eqb_eq in He.
    by subst.
Qed.

(** What the check says of one pair of notes. *)
Lemma ratio_pair_bounds (n r : nat) :
  (n < 128)%nat -> (r < 128)%nat ->
  exists m e,
    rt_ratio (Z.of_nat n) (Z.of_nat r) = S754_finite false m e /\
    Z.pos (digits2_pos m) = 53 /\ -64 <= e <= -41 /\
    (let kn := nth n RT.MIDI_FREQ_TABLE_milli 0 in
     let kr := nth r RT.MIDI_FREQ_TABLE_milli 0 in
     Z.abs (Z.pos m * kr - kn * 2 ^ (- e)) * 10 ^ 14 <= kn * 2 ^ (- e)) /\
    (n = r -> S754_finite false m e = F64.one).
Proof.
  intros Hn Hr.
  pose proof all_ratio_pairs_ok_true as Hall.
  rewrite forallb_forall in Hall. specialize (Hall n).
  rewrite forallb_forall in Hall.
  assert (Hok : ratio_pair_ok n r = true).
  { apply Hall; apply in_seq; lia. }
  clear Hall. unfold ratio_pair_ok in Hok.
  destruct (rt_ratio (Z.of_nat n) (Z.of_nat r)) as [| | |[] m e]; try discriminate Hok.
  cbn zeta in Hok.
  apply andb_prop in Hok as [Hok H5]. apply andb_prop in Hok as [Hok H4].
  apply andb_prop in Hok as [Hok H3]. apply andb_prop in Hok as [H1 H2].
  apply Z.eqb_eq in H1. apply Z.leb_le in H2, H3, H4.
  exists m, e. split_and!; [done|done|done|done|done|].
  intros ->. rewrite Nat.eqb_refl in H5. by apply SFsame_eq.
Qed.

(** Multiplying a promoted binary32 number by [1.0] changes nothing. *)
Lemma F64_one_mul (x : float) :
  valid_binary F32.prec F32.emax x = true -> SFis_finite x = true ->
  F64.mul F64.one (F64.of_float x) = F64.of_float x.
Proof.
  intros Hv Hfin. destruct x as [s| | |s m e]; try discriminate Hfin; [done|].
  unfold valid_binary, SpecFloat.bounded, SpecFloat.canonical_mantissa, SpecFloat.fexp,
    SpecFloat.emin in Hv.
  unfold F32.prec, F32.emax in Hv.
  apply andb_prop in Hv as [Hc Hb]. apply Z.eqb_eq in Hc. apply Z.leb_le in Hb.
  pose proof (Pos2Z.is_pos (digits2_pos m)) as Hd.
  destruct (binary_round_short 53 1024 ltac:(lia) s m e) as (mb & E & Hmb & Hdig);
    [lia|lia|lia|].
  unfold F64.of_float, F64.prec, F64.emax. rewrite E.
  change F64.one with (S754_finite false 4503599627370496 (-52)).
  unfold F64.mul, SFmul, F64.prec, F64.emax. cbn [xorb].
  rewrite (binary_round_aux_exact 53 1024 ltac:(lia) s mb (4503599627370496 * mb) 52
             (-52 + (Z.pos (digits2_pos m) + e - 53))); [|done|lia|lia|lia|lia].
  f_equal. lia.
Qed.

Section TableSpeed.

Local Open Scope R_scope.

Lemma frequency_spec_nat (n : Z) :
  (0 <= n)%Z ->
  frequency_spec n = 440 * Rpower 2 ((INR (Z.to_nat n) - 69) / 12).
Proof.
  intros Hn. unfold frequency_spec. rewrite INR_IZR_INZ, Z2Nat.id by exact Hn.
  reflexivity.
Qed.

Lemma IZR_pow2 (k : Z) : (0 <= k)%Z -> IZR (2 ^ k) = powerRZ 2 k.
Proof.
  intros Hk. rewrite <- (Z2Nat.id k Hk) at 1.
  by rewrite <- pow_IZR, pow_powerRZ, Z2Nat.id.
Qed.

Lemma powerRZ2_pos (e : Z) : 0 < powerRZ 2 e.
Proof. apply powerRZ_lt. lra. Qed.

Lemma powerRZ2_add (a b : Z) : powerRZ 2 (a + b) = powerRZ 2 a * powerRZ 2 b.
Proof. apply powerRZ_add. lra. Qed.

Lemma powerRZ2_inv (k : Z) : powerRZ 2 k * powerRZ 2 (- k) = 1.
Proof. rewrite <- powerRZ2_add, Z.add_opp_diag_r. reflexivity. Qed.

Lemma SF2R_finite (s : bool) (m : positive) (e : Z) :
  SF2R (S754_finite s m e)
  = (if s then -1 else 1) * (IZR (Z.pos m) * powerRZ 2 e).
Proof.
  destruct s; cbn [SF2R cond_Zopp].
  - change (- Z.pos m)%Z with (Z.opp (Z.pos m)). rewrite opp_IZR. ring.
  - ring.
Qed.

(** The promotion of a binary32 number to [double] is exact and gives a
    normal number. *)
Lemma of_float_finite (s : bool) (m : positive) (e : Z) :
  valid_binary F32.prec F32.emax (S754_finite s m e) = true ->
  exists mb eb,
    F64.of_float (S754_finite s m e) = S754_finite s mb eb /\
    Z.pos (digits2_pos mb) = 53%Z /\ (-201 <= eb <= 75)%Z /\
    IZR (Z.pos mb) * powerRZ 2 eb = IZR (Z.pos m) * powerRZ 2 e.
Proof.
  intros Hv. unfold valid_binary, SpecFloat.bounded, SpecFloat.canonical_mantissa, SpecFloat.fexp,
    SpecFloat.emin in Hv.
  unfold F32.prec, F32.emax in Hv.
  apply andb_prop in Hv as [Hc Hb]. apply Z.eqb_eq in Hc. apply Z.leb_le in Hb.
  pose proof (Pos2Z.is_pos (digits2_pos m)) as Hd.
  destruct (binary_round_short 53 1024 ltac:(lia) s m e) as (mb & E & Hmb & Hdig);
    [lia|lia|lia|].
  exists mb, (Z.pos (digits2_pos m) + e - 53)%Z.
  split_and!; [exact E|exact Hdig|lia|lia|].
  rewrite Hmb, mult_IZR, IZR_pow2 by lia.
  replace (Z.pos (digits2_pos m) + e - 53)%Z
    with (e + - (53 - Z.pos (digits2_pos m)))%Z by lia.
  rewrite powerRZ2_add.
  pose proof (powerRZ2_inv (53 - Z.pos (digits2_pos m))) as Hinv.
  set (u := powerRZ 2 (53 - Z.pos (digits2_pos m))) in *.
  set (w := powerRZ 2 (- (53 - Z.pos (digits2_pos m)))) in *.
  transitivity (IZR (Z.pos m) * powerRZ 2 e * (u * w)); [ring|].
  rewrite Hinv. ring.
Qed.

(** The [double] product of a table quotient and a promoted binary32
    number is within [10^-14] of the exact product. *)
Lemma F64_mul_bound (mq : positive) (eq : Z) (s : bool) (mb : positive) (eb : Z) :
  Z.pos (digits2_pos mq) = 53%Z -> (-64 <= eq <= -41)%Z ->
  Z.pos (digits2_pos mb) = 53%Z -> (-201 <= eb <= 75)%Z ->
  exists m' e',
    F64.mul (S754_finite false mq eq) (S754_finite s mb eb) = S754_finite s m' e' /\
    Rabs (IZR (Z.pos m') * powerRZ 2 e'
          - (IZR (Z.pos mq) * powerRZ 2 eq) * (IZR (Z.pos mb) * powerRZ 2 eb))
    * 100000000000000
    <= (IZR (Z.pos mq) * powerRZ 2 eq) * (IZR (Z.pos mb) * powerRZ 2 eb).
Proof.
  intros Hdq Heq Hdb Heb.
  pose proof (digits2_pos_bounds mq) as [Qlo Qhi]. rewrite Hdq in Qlo, Qhi.
  pose proof (digits2_pos_bounds mb) as [Blo Bhi]. rewrite Hdb in Blo, Bhi.
  pose proof (digits2_pos_bounds (mq * mb)) as [Plo Phi].
  rewrite Pos2Z.inj_mul in Plo, Phi.
  assert (Hd : (105 <= Z.pos (digits2_pos (mq * mb)) <= 106)%Z).
  { change (2 ^ (53 - 1))%Z with 4503599627370496%Z in *.
    change (2 ^ 53)%Z with 9007199254740992%Z in *.
    assert (H1 : (2 ^ 104 < 2 ^ Z.pos (digits2_pos (mq * mb)))%Z).
    { change (2 ^ 104)%Z with (4503599627370496 * 4503599627370496)%Z. nia. }
    assert (H2 : (2 ^ (Z.pos (digits2_pos (mq * mb)) - 1) < 2 ^ 106)%Z).
    { change (2 ^ 106)%Z with (9007199254740992 * 9007199254740992)%Z. nia. }
    apply Z.pow_lt_mono_r_iff in H1; [|lia|lia].
    apply Z.pow_lt_mono_r_iff in H2; [|lia|lia]. lia. }
  destruct (binary_round_aux_bound 53 1024 ltac:(lia) s (mq * mb) (eq + eb))
    as (m' & k & E & Hk & Hb & _); [lia|lia|lia|].
  exists m', (eq + eb + k)%Z. split; [exact E|].
  rewrite Pos2Z.inj_mul in Hb.
  rewrite !powerRZ2_add, <- (IZR_pow2 k) by done.
  pose proof (powerRZ2_pos eq) as Hq. pose proof (powerRZ2_pos eb) as Hbb.
  set (u := powerRZ 2 eq) in *. set (w := powerRZ 2 eb) in *.
  replace (IZR (Z.pos m') * (u * w * IZR (2 ^ k))
           - IZR (Z.pos mq) * u * (IZR (Z.pos mb) * w))
    with (IZR (Z.pos m' * 2 ^ k - Z.pos mq * Z.pos mb) * (u * w))
    by (rewrite minus_IZR, !mult_IZR; ring).
  rewrite Rabs_mult, (Rabs_pos_eq (u * w)) by nra.
  rewrite <- abs_IZR.
  assert (Hz : (Z.abs (Z.pos m' * 2 ^ k - Z.pos mq * Z.pos mb) * 100000000000000
                <= Z.pos mq * Z.pos mb)%Z).
  { change (2 ^ (53 - 1))%Z with 4503599627370496%Z in Hb. lia. }
  apply IZR_le in Hz. rewrite !mult_IZR in Hz.
  set (a := IZR (Z.abs (Z.pos m' * 2 ^ k - Z.pos mq * Z.pos mb))) in *.
  assert (Huw : 0 < u * w) by nra.
  replace (a * (u * w) * 100000000000000) with (a * 100000000000000 * (u * w)) by ring.
  replace (IZR (Z.pos mq) * u * (IZR (Z.pos mb) * w))
    with (IZR (Z.pos mq) * IZR (Z.pos mb) * (u * w)) by ring.
  apply Rmult_le_compat_r; [lra|exact Hz].
Qed.

(** The [double] quotient of two table entries against the
    equal-tempered ratio. *)
Lemma rt_ratio_close (n r : nat) :
  (n < 128)%nat -> (r < 128)%nat ->
  let rho := Rpower 2 ((INR n - 69) / 12) / Rpower 2 ((INR r - 69) / 12) in
  exists m e,
    rt_ratio (Z.of_nat n) (Z.of_nat r) = S754_finite false m e /\
    Z.pos (digits2_pos m) = 53%Z /\ (-64 <= e <= -41)%Z /\
    0 < rho /\
    Rabs (IZR (Z.pos m) * powerRZ 2 e - rho) * 100000 <= rho * 8 /\
    (n = r -> S754_finite false m e = F64.one).
Proof.
  intros Hn Hr rho.
  destruct (ratio_pair_bounds n r Hn Hr) as (m & e & E & Hd & He & Hz & Hone).
  destruct (table_ratio_bounds n r Hn Hr) as (Kn & Kr & Lo & Hi).
  cbn zeta in Hz, Kn, Kr, Lo, Hi.
  exists m, e. split_and!; [exact E|exact Hd|lia|lia| | |exact Hone].
  - apply Rdiv_lt_0_compat; apply Rpower2_pos.
  - pose proof (Rpower2_pos ((INR n - 69) / 12)) as Ha.
    pose proof (Rpower2_pos ((INR r - 69) / 12)) as Hb.
    subst rho.
    set (a := Rpower 2 ((INR n - 69) / 12)) in *.
    set (b := Rpower 2 ((INR r - 69) / 12)) in *.
    set (kn := IZR (nth n RT.MIDI_FREQ_TABLE_milli 0%Z)) in *.
    set (kr := IZR (nth r RT.MIDI_FREQ_TABLE_milli 0%Z)) in *.
    change (10 ^ 14)%Z with 100000000000000%Z in Hz. apply IZR_le in Hz.
    rewrite !mult_IZR, abs_IZR, minus_IZR, !mult_IZR, IZR_pow2 in Hz by lia.
    fold kn kr in Hz.
    pose proof (powerRZ2_inv e) as Hinv.
    pose proof (powerRZ2_pos e) as Hu. pose proof (powerRZ2_pos (- e)) as Hw.
    set (u := powerRZ 2 e) in *. set (w := powerRZ 2 (- e)) in *.
    set (M := IZR (Z.pos m)) in *.
    (* the quotient against the decimal quotient *)
    assert (Hq : Rabs (M * u - kn / kr) * 100000000000000 <= kn / kr).
    { replace (M * u - kn / kr) with ((M * kr - kn * w) * (u / kr)).
      2:{ field_simplify_eq; [|lra].
          transitivity (M * kr * u - kn * (u * w)); [ring|]. rewrite Hinv. ring. }
      assert (Hukr : 0 < u / kr) by (apply Rdiv_lt_0_compat; lra).
      rewrite Rabs_mult, (Rabs_pos_eq (u / kr)) by lra.
      replace (kn / kr) with (kn * w * (u / kr)).
      2:{ field_simplify_eq; [|lra].
          transitivity (kn * (u * w)); [ring|]. rewrite Hinv. ring. }
      replace (Rabs (M * kr - kn * w) * (u / kr) * 100000000000000)
        with (Rabs (M * kr - kn * w) * 100000000000000 * (u / kr)) by ring.
      apply Rmult_le_compat_r; [lra|exact Hz]. }
    (* the decimal quotient against the equal-tempered ratio *)
    assert (Hk : 99993 * (a / b) <= 100000 * (kn / kr) <= 100007 * (a / b)).
    { split.
      - apply (Rmult_le_reg_r (kr * b)); [nra|].
        replace (99993 * (a / b) * (kr * b)) with (99993 * a * kr) by (field; lra).
        replace (100000 * (kn / kr) * (kr * b)) with (100000 * kn * b) by (field; lra).
        exact Lo.
      - apply (Rmult_le_reg_r (kr * b)); [nra|].
        replace (100007 * (a / b) * (kr * b)) with (100007 * a * kr) by (field; lra).
        replace (100000 * (kn / kr) * (kr * b)) with (100000 * kn * b) by (field; lra).
        exact Hi. }
    assert (Hab : 0 < a / b) by (apply Rdiv_lt_0_compat; lra).
    set (rho := a / b) in *. set (kappa := kn / kr) in *.
    assert (Hd1 : Rabs (M * u - kappa) <= kappa / 100000000000000).
    { apply (Rmult_le_reg_r 100000000000000); [lra|].
      replace (kappa / 100000000000000 * 100000000000000) with kappa by (field; lra).
      exact Hq. }
    assert (Hd2 : Rabs (kappa - rho) <= rho * 7 / 100000) by (apply Rabs_le; lra).
    replace (M * u - rho) with ((M * u - kappa) + (kappa - rho)) by ring.
    pose proof (Rabs_triang (M * u - kappa) (kappa - rho)) as Ht.
    lra.
Qed.

(** An error of 8/100000 in the ratio and of [10^-14] in the product stay
    below 1/10000. *)
Lemma speed_error_budget (S q rho B : R) :
  0 < rho -> 0 < q ->
  Rabs (q - rho) * 100000 <= rho * 8 ->
  Rabs (S - q * B) * 100000000000000 <= q * Rabs B ->
  Rabs (S - rho * B) <= Rabs (rho * B) / 10000.
Proof.
  intros Hrho Hq H1 H2.
  pose proof (Rabs_pos B) as HB. pose proof (Rabs_pos (S - q * B)) as HS.
  pose proof (Rabs_pos (q - rho)) as HQ.
  rewrite Rabs_mult, (Rabs_pos_eq rho) by lra.
  replace (S - rho * B) with ((S - q * B) + (q - rho) * B) by ring.
  pose proof (Rabs_triang (S - q * B) ((q - rho) * B)) as Ht.
  rewrite Rabs_mult in Ht.
  set (x := Rabs (S - q * B)) in *. set (y := Rabs (q - rho)) in *.
  set (b := Rabs B) in *.
  assert (Hq1 : q <= rho * 100008 / 100000).
  { assert (q - rho <= y) by apply Rle_abs. lra. }
  assert (Hyb : y * b * 100000 <= rho * b * 8) by nra.
  assert (Hxb : x * 100000000000000 <= rho * b * 100008 / 100000) by nra.
  lra.
Qed.


Lemma SF2R_one : SF2R F32.one = 1.
Proof.
  change F32.one with (S754_finite false 8388608 (-23)).
  rewrite SF2R_finite.
  pose proof (powerRZ2_inv 23) as Hinv. change (- (23))%Z with (-23)%Z in Hinv.
  rewrite <- IZR_pow2 in Hinv by lia.
  change (2 ^ 23)%Z with 8388608%Z in Hinv. cbv iota. lra.
Qed.

End TableSpeed.



(** ** Playback positions at speed 1.0

    The positions a voice goes through at speed 1.0 are the integers,
    which [double] holds exactly below [2^53]. *)

Lemma shl_align_left (mx : positive) (ex ex' : Z) :
  ex' <= ex ->
  exists m', shl_align mx ex ex' = (m', ex') /\ Z.pos m' = Z.pos mx * 2 ^ (ex - ex').
Proof.
  intros Hle. unfold shl_align. destruct (ex' - ex) as [|q|q] eqn:E; [|lia|].
  - exists mx. assert (ex' = ex) as -> by lia. rewrite Z.sub_diag. split; [done|lia].
  - exists (Pos.iter xO mx q). split; [done|].
    rewrite pos_iter_xO. f_equal. f_equal. lia.
Qed.

Lemma shl_align_right (mx : positive) (ex ex' : Z) :
  ex <= ex' -> shl_align mx ex ex' = (mx, ex).
Proof. intros Hle. unfold shl_align. destruct (ex' - ex) eqn:E; [done|done|lia]. Qed.

Lemma digits2_pos_le (k : positive) (d : Z) :
  Z.pos k < 2 ^ d -> Z.pos (digits2_pos k) <= d.
Proof.
  intros Hk. pose proof (digits2_pos_bounds k) as [Dlo _].
  assert (Hd : 0 <= d).
  { destruct (Z.lt_ge_cases d 0) as [H|H]; [|done].
    rewrite Z.pow_neg_r in Hk by done. lia. }
  assert (H : Z.pos (digits2_pos k) - 1 < d) by (apply (Z.pow_lt_mono_r_iff 2); lia).
  lia.
Qed.

(** A positive integer below [2^53] as a [double]. *)
Lemma F64_of_Z_pos (k : positive) :
  Z.pos k < 2 ^ 53 ->
  let d := Z.pos (digits2_pos k) in
  exists m, F64.of_Z (Z.pos k) = S754_finite false m (d - 53) /\
            Z.pos m = Z.pos k * 2 ^ (53 - d) /\
            Z.pos (digits2_pos m) = 53 /\ 1 <= d <= 53.
Proof.
  intros Hk d. pose proof (digits2_pos_le k 53 Hk) as Hd. fold d in Hd.
  pose proof (Pos2Z.is_pos (digits2_pos k)) as Hd0. fold d in Hd0.
  destruct (binary_round_short 53 1024 ltac:(lia) false k 0) as (m & E & Hm & Hdig);
    fold d; [lia|lia|lia|].
  fold d in E, Hm. exists m. rewrite Z.add_0_r in E.
  split_and!; [exact E|exact Hm|exact Hdig|lia|lia].
Qed.

(** One step at speed 1.0. *)
Lemma F64_position_step (k : Z) :
  0 <= k -> k + 1 < 2 ^ 53 -> F64.add (F64.of_Z k) F64.one = F64.of_Z (k + 1).
Proof.
  intros Hk0 Hk. destruct k as [|k|k]; [done| |lia].
  destruct (F64_of_Z_pos k ltac:(lia)) as (m & E & Hm & Hdig & Hd).
  rewrite E. replace (Z.pos k + 1) with (Z.pos (k + 1)) by lia.
  destruct (F64_of_Z_pos (k + 1) Hk) as (m1 & E1 & Hm1 & Hdig1 & Hd1).
  rewrite E1.
  set (d := Z.pos (digits2_pos k)) in *.
  set (d1 := Z.pos (digits2_pos (k + 1))) in *.
  change F64.one with (S754_finite false 4503599627370496 (-52)).
  unfold F64.add, SFadd, F64.prec, F64.emax.
  rewrite (Z.min_r (d - 53) (-52)) by lia.
  destruct (shl_align_left m (d - 53) (-52) ltac:(lia)) as (a & Ea & Ha).
  rewrite Ea, (shl_align_right 4503599627370496 (-52) (-52)) by lia.
  cbn [fst cond_Zopp]. change (Z.pos a + 4503599627370496) with (Z.pos (a + 4503599627370496)).
  cbn [binary_normalize]. unfold binary_round.
  assert (Hsum : Z.pos (a + 4503599627370496) = Z.pos m1 * 2 ^ (d1 - 1)).
  { rewrite Pos2Z.inj_add, Ha, Hm, Hm1.
    replace (d - 53 - -52) with (d - 1) by lia.
    rewrite <- Z.mul_assoc, <- !Z.pow_add_r by lia.
    replace (53 - d + (d - 1)) with 52 by lia.
    rewrite <- Z.mul_assoc, <- Z.pow_add_r by lia.
    replace (53 - d1 + (d1 - 1)) with 52 by lia.
    change (2 ^ 52) with 4503599627370496. lia. }
  assert (Hdsum : Z.pos (digits2_pos (a + 4503599627370496)) = 53 + (d1 - 1)).
  { apply digits2_pos_unique. rewrite Hsum.
    pose proof (digits2_pos_bounds m1) as [Lo Hi]. rewrite Hdig1 in Lo, Hi.
    replace (53 + (d1 - 1) - 1) with (53 - 1 + (d1 - 1)) by lia.
    rewrite !Z.pow_add_r by lia.
    assert (0 < 2 ^ (d1 - 1)) by (apply Z.pow_pos_nonneg; lia). nia. }
  rewrite Hdsum. unfold SpecFloat.fexp, SpecFloat.emin.
  rewrite (Z.max_l (53 + (d1 - 1) + -52 - 53)) by lia.
  rewrite shl_align_right by lia.
  rewrite (binary_round_aux_exact 53 1024 ltac:(lia) false m1 _ (d1 - 1) (-52));
    [|done|lia|exact Hsum|lia|lia].
  f_equal. lia.
Qed.

(** Positions below the frame count are inside the sample. *)
Lemma F64_position_inside (j n : Z) :
  0 <= j < n -> n < 2 ^ 53 -> F64.leb (F64.of_Z n) (F64.of_Z j) = false.
Proof.
  intros Hj Hn. destruct n as [|n|n]; [lia| |lia].
  destruct (F64_of_Z_pos n Hn) as (mn & En & Hmn & Hdn & Hn1).
  rewrite En. destruct j as [|j|j]; [done| |lia].
  destruct (F64_of_Z_pos j ltac:(lia)) as (mj & Ej & Hmj & Hdj & Hj1).
  rewrite Ej. unfold F64.leb, SFleb, SFcompare.
  set (dn := Z.pos (digits2_pos n)) in *. set (dj := Z.pos (digits2_pos j)) in *.
  pose proof (digits2_pos_bounds n) as [Nlo Nhi]. fold dn in Nlo, Nhi.
  pose proof (digits2_pos_bounds j) as [Jlo Jhi]. fold dj in Jlo, Jhi.
  assert (Hle : dj <= dn).
  { assert (H : dj - 1 < dn) by (apply (Z.pow_lt_mono_r_iff 2); lia). lia. }
  destruct (Z.compare_spec (dn - 53) (dj - 53)) as [Heq|Hlt|Hgt]; [|lia|done].
  assert (dn = dj) as Hd by lia.
  assert (Hm : Z.pos mj < Z.pos mn).
  { rewrite Hmn, Hmj, Hd.
    assert (0 < 2 ^ (53 - dj)) by (apply Z.pow_pos_nonneg; lia). nia. }
  change (Pos.compare_cont Eq mn mj) with (mn ?= mj)%positive.
  by rewrite (proj2 (Pos.compare_gt_iff mn mj)) by lia.
Qed.

(** The cast to [size_t] gives the integer back. *)
Lemma to_size_t_of_Z (k : Z) : 0 <= k < 2 ^ 53 -> to_size_t (F64.of_Z k) = k.
Proof.
  intros Hk. destruct k as [|k|k]; [done| |lia].
  destruct (F64_of_Z_pos k ltac:(lia)) as (m & E & Hm & Hdig & Hd).
  rewrite E. unfold to_size_t, SFtrunc.
  set (d := Z.pos (digits2_pos k)) in *.
  assert (Hv : (if 0 <=? d - 53 then Z.pos m * 2 ^ (d - 53)
                else Z.pos m / 2 ^ (- (d - 53))) = Z.pos k).
  { destruct (Z.leb_spec 0 (d - 53)).
    - assert (d = 53) as Hd53 by lia. rewrite Hm, Hd53. cbn. lia.
    - rewrite Hm. replace (- (d - 53)) with (53 - d) by lia.
      apply Z.div_mul. apply Z.pow_nonzero; lia. }
  rewrite Hv. apply Z.mod_small. lia.
Qed.

Lemma F64_sub_diag (x : double) : SFis_finite x = true -> F64.sub x x = S754_zero false.
Proof.
  destruct x as [[]| | |s m e]; try done. intros _.
  unfold F64.sub, SFsub. rewrite Z.min_id, shl_align_right by lia.
  cbn [fst]. by rewrite Z.sub_diag.
Qed.

Lemma F64_of_Z_finite (k : Z) : 0 <= k < 2 ^ 53 -> SFis_finite (F64.of_Z k) = true.
Proof.
  intros Hk. destruct k as [|k|k]; [done| |lia].
  destruct (F64_of_Z_pos k ltac:(lia)) as (m & E & _). by rewrite E.
Qed.

(** At an integer position the fractional part is [0.0f]. *)
Lemma frame_frac_of_Z (k : Z) : 0 <= k < 2 ^ 53 -> frame_frac (F64.of_Z k) = F32.zero.
Proof.
  intros Hk. unfold frame_frac.
  by rewrite to_size_t_of_Z, F64_sub_diag by (done || by apply F64_of_Z_finite).
Qed.

(** ** Round trip through the voice *)

(** Multiplying a valid binary32 number by [1.0f] is exact. *)
Lemma F32_mul_one (s : bool) (m : positive) (e : Z) :
  valid_binary F32.prec F32.emax (S754_finite s m e) = true ->
  F32.mul (S754_finite s m e) F32.one = S754_finite s m e.
Proof.
  intros Hv. unfold valid_binary, bounded in Hv.
  apply andb_prop in Hv as [Hc Hb].
  unfold canonical_mantissa in Hc. apply Z.eqb_eq in Hc. apply Z.leb_le in Hb.
  unfold F32.mul, F32.one, F32.of_Z.
  change (binary_normalize F32.prec F32.emax 1 0 false)
    with (S754_finite false 8388608 (-23)).
  unfold SFmul. rewrite Pos.mul_comm. unfold binary_round_aux.
  assert (Hshr : shr_fexp F32.prec F32.emax (Z.pos (8388608 * m)) (e + -23) loc_Exact
                 = ({| shr_m := Z.pos m; shr_r := false; shr_s := false |}, e)).
  { unfold shr_fexp.
    change (8388608 * m)%positive
      with (m~0~0~0~0~0~0~0~0~0~0~0~0~0~0~0~0~0~0~0~0~0~0~0)%positive.
    cbn [Zdigits2 digits2_pos shr_record_of_loc].
    rewrite !Pos2Z.inj_succ.
    match goal with
    | |- context [fexp _ _ (?d + (e + -23))] =>
        replace (d + (e + -23)) with (Z.pos (digits2_pos m) + e) by lia
    end.
    rewrite Hc. replace (e - (e + -23)) with 23 by lia.
    unfold shr. cbn [iter_pos shr_1 orb]. f_equal. lia. }
  rewrite Hshr. cbn [shr_m loc_of_shr_record round_nearest_even].
  assert (Hshr2 : shr_fexp F32.prec F32.emax (Z.pos m) e loc_Exact
                  = ({| shr_m := Z.pos m; shr_r := false; shr_s := false |}, e)).
  { unfold shr_fexp. cbn [Zdigits2 shr_record_of_loc].
    rewrite Hc, Z.sub_diag. reflexivity. }
  rewrite Hshr2. cbn [shr_m].
  rewrite (proj2 (Z.leb_le _ _) Hb), xorb_false_r. reflexivity.
Qed.

Lemma F32_mul_zero_r (x : float) :
  SFis_finite x = true -> SFis_zero (F32.mul x F32.zero) = true.
Proof. by destruct x. Qed.

Lemma F32_mul_zero_l (z g : float) :
  SFis_zero z = true -> SFis_finite g = true -> SFis_zero (F32.mul z g) = true.
Proof. by destruct z, g. Qed.

Lemma F32_add_zero_zero (z : float) :
  SFis_zero z = true -> F32.add F32.zero z = F32.zero.
Proof. by destruct z as [[]| | |]. Qed.

Lemma F32_add_zero_r (s : bool) (m : positive) (e : Z) (z : float) :
  SFis_zero z = true -> F32.add (S754_finite s m e) z = S754_finite s m e.
Proof. by destruct z. Qed.

Lemma F32_add_zeros (a b : float) :
  SFis_zero a = true -> SFis_zero b = true -> SFis_zero (F32.add a b) = true.
Proof. by destruct a as [[]| | |], b as [[]| | |]. Qed.

Lemma F32_mul_zero_one (z : float) :
  SFis_zero z = true -> SFis_zero (F32.mul z F32.one) = true.
Proof. by destruct z. Qed.

(** Interpolating with a zero fraction returns the frame itself. *)
Lemma interpolation_at_integer (s : bool) (m : positive) (e : Z) (x' : float) :
  SFis_finite (F32.sub x' (S754_finite s m e)) = true ->
  F32.add (S754_finite s m e)
          (F32.mul F32.zero (F32.sub x' (S754_finite s m e)))
  = S754_finite s m e.
Proof.
  intros Hd. apply F32_add_zero_r.
  by destruct (F32.sub x' (S754_finite s m e)).
Qed.

Lemma core_interpolate_mono smp position :
  smp_channels smp = 1 ->
  Core.interpolate smp position
  = let k := to_size_t position in
    F32.add (read_sample (data smp) k)
      (F32.mul (frame_frac position)
         (F32.sub (next_sample smp k) (read_sample (data smp) k))).
Proof.
  intros Hm. unfold Core.interpolate, next_sample, frame_frac.
  by rewrite Hm.
Qed.

Lemma rt_interpolate_mono smp position :
  smp_channels smp = 1 ->
  RT.interpolate smp position
  = let k := to_size_t position in
    F32.add (read_sample (data smp) k)
      (F32.mul (frame_frac position)
         (F32.sub (next_sample smp k) (read_sample (data smp) k))).
Proof.
  intros Hm. unfold RT.interpolate, next_sample, frame_frac.
  by rewrite Hm.
Qed.

Lemma rt_interpolate_core smp position :
  RT.interpolate smp position = Core.interpolate smp position.
Proof. reflexivity. Qed.

(** ** Round trip through load, note-on and render *)

Lemma mix_into_app (pre : list float) (x : float) (rest : list float) (v : float)
    (i : nat) :
  length pre = i -> mix_into (pre ++ x :: rest) i v = pre ++ F32.add x v :: rest.
Proof.
  intros <-. unfold mix_into. rewrite <- (Nat.add_0_r (length pre)) at 1.
  by rewrite alter_app_r.
Qed.

Section CoreRoundTrip.
Import Core.

Lemma core_held_process env :
  core_held env = true ->
  core_held (envelope_process env).2 = true /\
  envelope_is_active (envelope_process env).2 = true.
Proof.
  unfold core_held, envelope_process, envelope_is_active, envelope_advance.
  destruct (stage env); try discriminate; intros _;
    try destruct (samples_processed env <? stage_samples env); done.
Qed.

Lemma core_levels_length n : forall env, length (envelope_run n env).1 = n.
Proof.
  induction n as [|n IH]; intros env; [done|].
  cbn [envelope_run]. destruct (envelope_process env) as [o env1].
  specialize (IH env1). destruct (envelope_run n env1) as [os env2].
  cbn [fst length] in *. by rewrite IH.
Qed.

(** The frame loop over a mono sample at speed 1.0 and gain 1.0, from
    frame [i] at position [i] on, into cells that hold [0.0f]. *)
Lemma core_frames_read_back (smp : ms_sample_data_t) (input : list float) :
  data smp = input -> num_frames smp = Z.of_nat (length input) ->
  smp_channels smp = 1 -> Z.of_nat (length input) < 2 ^ 53 ->
  forall n i env pre post,
    length pre = i -> (i + n <= length input)%nat -> core_held env = true ->
    voice_frames smp F64.one F32.one 1 n i
      {| fs_position := F64.of_Z (Z.of_nat i); fs_envelope := env;
         fs_active := true;
         fs_output := pre ++ replicate n F32.zero ++ post |}
    = {| fs_position := F64.of_Z (Z.of_nat (i + n));
         fs_envelope := (envelope_run n env).2;
         fs_active := true;
         fs_output :=
           pre ++ imap (fun k l => read_back input l (i + k)) (envelope_run n env).1
               ++ post |}.
Proof.
  intros Hdata Hnum Hmono Hsize.
  induction n as [|n IH]; intros i env pre post Hpre Hin Hheld.
  - cbn [voice_frames envelope_run fst snd replicate imap app]. by rewrite Nat.add_0_r.
  - cbn [voice_frames]. unfold voice_frame, check_bounds.
    cbn [fs_position fs_envelope fs_active fs_output].
    rewrite Hnum, F64_position_inside by lia.
    rewrite core_interpolate_mono by done. cbn zeta.
    rewrite to_size_t_of_Z, frame_frac_of_Z by lia.
    unfold next_sample. rewrite Hdata, Hnum.
    destruct (core_held_process env Hheld) as [Hheld1 Hact1].
    cbn [envelope_run].
    destruct (envelope_process env) as [lvl env1]. cbn [fst snd] in Hheld1, Hact1.
    rewrite Hact1. change (1 =? 1) with true. cbn iota.
    cbn [replicate app]. rewrite mix_into_app by done.
    specialize (IH (S i) env1 (pre ++ [read_back input lvl i]) post).
    rewrite length_app in IH. cbn [length] in IH.
    rewrite <- !app_assoc in IH. cbn [app] in IH.
    replace (Z.of_nat i + 1) with (Z.of_nat (S i)) by lia.
    assert (Hrb : F32.add F32.zero
                    (F32.mul
                       (F32.mul
                          (F32.add (read_sample input (Z.of_nat i))
                             (F32.mul F32.zero
                                (F32.sub
                                   (if Z.of_nat (S i) <? Z.of_nat (length input)
                                    then read_sample input (Z.of_nat (S i))
                                    else read_sample input (Z.of_nat i))
                                   (read_sample input (Z.of_nat i))))) lvl)
                       F32.one)
                  = read_back input lvl i).
    { unfold read_back. cbn zeta.
      by replace (Z.of_nat i + 1) with (Z.of_nat (S i)) by lia. }
    rewrite F64_position_step by lia.
    replace (Z.of_nat i + 1) with (Z.of_nat (S i)) by lia.
    rewrite Hrb, IH by (done || lia).
    destruct (envelope_run n env1) as [os env2]. cbn [fst snd].
    rewrite imap_cons, Nat.add_0_r. cbn [app].
    replace (S i + n)%nat with (i + S n)%nat by lia.
    do 3 f_equal. f_equal. apply imap_ext. intros k l _. unfold compose. f_equal. lia.
Qed.

(** Idle slots take no part in the mixing loop. *)
Lemma core_process_voices_idle n : forall vs out frames chans,
  Forall (fun v => active v = false) vs ->
  process_voices n vs out frames chans = (vs, out).
Proof.
  induction n as [|n IH]; intros vs out frames chans Hidle; [by destruct vs|].
  destruct vs as [|v vs]; [done|].
  apply Forall_cons in Hidle as [Hv Hvs]. cbn [process_voices].
  by rewrite Hv, IH.
Qed.

(** A fresh sampler with a pool of at least one voice: slot 0 is idle
    and so are the others. *)
Lemma core_new_sampler_pool cfg :
  1 <= max_polyphony cfg ->
  exists n rest,
    pool_size cfg = S n /\
    voices (new_sampler cfg)
    = voice_init 1 (F32.of_Z (cfg_sample_rate cfg)) :: rest /\
    Forall (fun v => active v = false) rest.
Proof.
  intros Hpoly. unfold new_sampler. cbn [voices].
  assert (Hn : exists n, pool_size cfg = S n).
  { unfold pool_size, MS_MAX_VOICES. exists (Z.to_nat (Z.min (max_polyphony cfg) 64) - 1)%nat.
    lia. }
  destruct Hn as [n Hn]. rewrite Hn. cbn [seq map app].
  eexists n, _. split_and!; [done|done|].
  apply Forall_app. split.
  - apply List.Forall_map. by apply Forall_forall.
  - apply Forall_forall. intros v Hv. by apply elem_of_replicate in Hv as [-> _].
Qed.

End CoreRoundTrip.

Section RTRoundTrip.
Import RT.

Lemma rt_held_process env :
  rt_held env = true ->
  rt_held (envelope_process env).2 = true /\
  envelope_is_active (envelope_process env).2 = true.
Proof.
  unfold rt_held, envelope_process, envelope_is_active, envelope_advance.
  destruct (stage env); try discriminate; intros _;
    try destruct (samples_processed env <? stage_samples env); done.
Qed.

Lemma rt_levels_length n : forall env, length (envelope_run n env).1 = n.
Proof.
  induction n as [|n IH]; intros env; [done|].
  cbn [envelope_run]. destruct (envelope_process env) as [o env1].
  specialize (IH env1). destruct (envelope_run n env1) as [os env2].
  cbn [fst length] in *. by rewrite IH.
Qed.

(** The frame loop over a mono sample at speed 1.0 and gain 1.0, from
    frame [i] at position [i] on, into cells that hold [0.0f]. *)
Lemma rt_frames_read_back (smp : ms_sample_data_t) (input : list float) :
  data smp = input -> num_frames smp = Z.of_nat (length input) ->
  smp_channels smp = 1 -> Z.of_nat (length input) < 2 ^ 53 ->
  forall n i env pre post,
    length pre = i -> (i + n <= length input)%nat -> rt_held env = true ->
    voice_frames smp F64.one F32.one 1 n i
      {| fs_position := F64.of_Z (Z.of_nat i); fs_envelope := env;
         fs_active := true;
         fs_output := pre ++ replicate n F32.zero ++ post |}
    = {| fs_position := F64.of_Z (Z.of_nat (i + n));
         fs_envelope := (envelope_run n env).2;
         fs_active := true;
         fs_output :=
           pre ++ imap (fun k l => read_back input l (i + k)) (envelope_run n env).1
               ++ post |}.
Proof.
  intros Hdata Hnum Hmono Hsize.
  induction n as [|n IH]; intros i env pre post Hpre Hin Hheld.
  - cbn [voice_frames envelope_run fst snd replicate imap app]. by rewrite Nat.add_0_r.
  - cbn [voice_frames]. unfold voice_frame, check_bounds.
    cbn [fs_position fs_envelope fs_active fs_output].
    rewrite Hnum, F64_position_inside by lia.
    rewrite rt_interpolate_mono by done. cbn zeta.
    rewrite to_size_t_of_Z, frame_frac_of_Z by lia.
    unfold next_sample. rewrite Hdata, Hnum.
    destruct (rt_held_process env Hheld) as [Hheld1 Hact1].
    cbn [envelope_run].
    destruct (envelope_process env) as [lvl env1]. cbn [fst snd] in Hheld1, Hact1.
    rewrite Hact1. change (1 =? 2) with false. cbn iota.
    cbn [replicate app]. rewrite mix_into_app by done.
    specialize (IH (S i) env1 (pre ++ [read_back input lvl i]) post).
    rewrite length_app in IH. cbn [length] in IH.
    rewrite <- !app_assoc in IH. cbn [app] in IH.
    replace (Z.of_nat i + 1) with (Z.of_nat (S i)) by lia.
    assert (Hrb : F32.add F32.zero
                    (F32.mul
                       (F32.mul
                          (F32.add (read_sample input (Z.of_nat i))
                             (F32.mul F32.zero
                                (F32.sub
                                   (if Z.of_nat (S i) <? Z.of_nat (length input)
                                    then read_sample input (Z.of_nat (S i))
                                    else read_sample input (Z.of_nat i))
                                   (read_sample input (Z.of_nat i))))) lvl)
                       F32.one)
                  = read_back input lvl i).
    { unfold read_back. cbn zeta.
      by replace (Z.of_nat i + 1) with (Z.of_nat (S i)) by lia. }
    rewrite F64_position_step by lia.
    replace (Z.of_nat i + 1) with (Z.of_nat (S i)) by lia.
    rewrite Hrb, IH by (done || lia).
    destruct (envelope_run n env1) as [os env2]. cbn [fst snd].
    rewrite imap_cons, Nat.add_0_r. cbn [app].
    replace (S i + n)%nat with (i + S n)%nat by lia.
    do 3 f_equal. f_equal. apply imap_ext. intros k l _. unfold compose. f_equal. lia.
Qed.

(** Idle slots take no part in the mixing loop. *)
Lemma rt_process_voices_idle n : forall vs out frames chans,
  Forall (fun v => active v = false) vs ->
  process_voices n vs out frames chans = (vs, out).
Proof.
  induction n as [|n IH]; intros vs out frames chans Hidle; [by destruct vs|].
  destruct vs as [|v vs]; [done|].
  apply Forall_cons in Hidle as [Hv Hvs]. cbn [process_voices].
  by rewrite Hv, IH.
Qed.

(** A fresh sampler with a pool of at least one voice: slot 0 is idle
    and so are the others. *)
Lemma rt_new_sampler_pool cfg :
  1 <= max_polyphony cfg ->
  exists n rest,
    pool_size cfg = S n /\
    voices (new_sampler cfg)
    = voice_init 1 (F32.of_Z (cfg_sample_rate cfg)) :: rest /\
    Forall (fun v => active v = false) rest.
Proof.
  intros Hpoly. unfold new_sampler. cbn [voices].
  assert (Hn : exists n, pool_size cfg = S n).
  { unfold pool_size, MS_MAX_VOICES. exists (Z.to_nat (Z.min (max_polyphony cfg) 64) - 1)%nat.
    lia. }
  destruct Hn as [n Hn]. rewrite Hn. cbn [seq map app].
  eexists n, _. split_and!; [done|done|].
  apply Forall_app. split.
  - apply List.Forall_map. by apply Forall_forall.
  - apply Forall_forall. intros v Hv. by apply elem_of_replicate in Hv as [-> _].
Qed.

End RTRoundTrip.

Section CoreRoundTripRun.
Import Core.

Variable pow : double -> double -> double.
Hypothesis pow_zero : pow (F64.of_Z 2) F64.zero = F64.one.

(** At the root note the plain [voice_trigger] stores speed 1.0. *)
Lemma core_trigger_root (v : voice_t) (smp : ms_sample_data_t) (env : ms_envelope_t) :
  root_note (meta smp) = 69 -> pitch_bend_multiplier v = F32.one ->
  playback_speed (voice_trigger pow v (Some smp) 69 127 (Some env)) = F64.one.
Proof.
  intros Hroot Hbend. cbn [voice_trigger playback_speed]. rewrite Hroot, Hbend.
  unfold midi_note_to_frequency.
  change (F64.div (F64.of_Z (69 - 69)) (F64.of_Z 12)) with F64.zero.
  rewrite pow_zero. vm_compute. reflexivity.
Qed.

Lemma core_run_app (calls1 calls2 : list CoreAPI.call) : forall w,
  core_run pow w (calls1 ++ calls2)
  = ((core_run pow (core_run pow w calls1).1 calls2).1,
     (core_run pow w calls1).2 ++ (core_run pow (core_run pow w calls1).1 calls2).2).
Proof.
  induction calls1 as [|c calls1 IH]; intros w.
  - cbn [app core_run fst snd]. by destruct (core_run pow w calls2).
  - cbn [app core_run fst snd]. by rewrite IH.
Qed.

(** The three calls that set the instrument up. *)
Lemma core_roundtrip_setup (env : ms_envelope_t) (cfg : ms_audio_config_t)
    (input : list float) :
  core_run pow (core_start cfg)
    [CoreAPI.InstrumentCreate;
     CoreAPI.SetEnvelope (Some 0%nat) env;
     CoreAPI.LoadSample (Some 0%nat)
       {| lr_data := input; lr_frames := Z.of_nat (length input);
          lr_channels := 1; lr_meta := roundtrip_meta |}]
  = (([roundtrip_loaded env input], new_sampler cfg),
     [code_only MS_SUCCESS; code_only MS_SUCCESS; code_only MS_SUCCESS]).
Proof. reflexivity. Qed.

(** The note-on takes slot 0 of the fresh sampler. *)
Lemma core_roundtrip_note_on (env : ms_envelope_t) (cfg : ms_audio_config_t)
    (input : list float) (n : nat) (rest : list voice_t) :
  pool_size cfg = S n ->
  voices (new_sampler cfg) = voice_init 1 (F32.of_Z (cfg_sample_rate cfg)) :: rest ->
  ms_note_on pow [roundtrip_loaded env input] (new_sampler cfg) (Some 0%nat) 69 127
             (Some 0)
  = (MS_SUCCESS,
     set_voices (new_sampler cfg)
       (set_instrument
          (voice_trigger pow (voice_init 1 (F32.of_Z (cfg_sample_rate cfg)))
             (Some (roundtrip_sample input)) 69 127 (Some env))
          (Some 0%nat) :: rest),
     Some 1).
Proof.
  intros Hpool Hvoices. unfold ms_note_on.
  cbn [deref lookup list_lookup roundtrip_loaded inst_sampler negb inst_envelope].
  change (instrument_find_sample _ 69 127) with (Some (roundtrip_sample input)).
  cbn zeta.
  assert (Hj : available_voice (pool_size (config (new_sampler cfg)))
                 (voices (new_sampler cfg)) = 0%nat).
  { change (config (new_sampler cfg)) with cfg. rewrite Hpool, Hvoices.
    unfold available_voice, first_inactive. cbn [take].
    cbn [list_find]. rewrite decide_True by done. done. }
  rewrite Hj, Hvoices. cbn [alter list_alter lookup list_lookup fmap option_fmap option_map].
  done.
Qed.


Lemma roundtrip_sample_data (input : list float) :
  data (roundtrip_sample input) = input.
Proof. cbn [roundtrip_sample data]. apply take_ge. lia. Qed.

(** The voice the note-on triggered, over a render call. *)
Lemma core_roundtrip_voice (env : ms_envelope_t) (rate : float)
    (input post : list float) (frames : nat) :
  Z.of_nat (length input) < 2 ^ 53 -> (frames <= length input)%nat ->
  let v1 := set_instrument
              (voice_trigger pow (voice_init 1 rate)
                 (Some (roundtrip_sample input)) 69 127 (Some env))
              (Some 0%nat) in
  let r := voice_process v1 (Some (replicate frames F32.zero ++ post))
             (Z.of_nat frames) 1 in
  active v1 = true /\
  r.2 = Some (imap (fun k l => read_back input l k) (core_levels env frames) ++ post) /\
  playback_speed r.1 = F64.one.
Proof.
  intros Hsize Hf v1 r.
  assert (Hspeed : playback_speed v1 = F64.one).
  { subst v1. cbn [set_instrument playback_speed]. by apply core_trigger_root. }
  split; [done|]. subst r. unfold voice_process.
  change (sample v1) with (Some (roundtrip_sample input)).
  change (active v1) with true. cbn iota.
  change (velocity v1) with 127.
  change (F32.div (F32.of_Z 127) (F32.of_Z 127)) with F32.one.
  rewrite Hspeed, Nat2Z.id.
  change (playback_position v1) with (F64.of_Z (Z.of_nat 0)).
  pose proof (core_frames_read_back (roundtrip_sample input) input
                (roundtrip_sample_data input) eq_refl eq_refl Hsize
                frames 0%nat (envelope v1) [] post eq_refl ltac:(lia) eq_refl) as H.
  cbn [app] in H. rewrite H. cbn [fst snd fs_output]. split; [|done].
  f_equal.
Qed.

(** The render call of the round trip. *)
Lemma core_roundtrip_process (env : ms_envelope_t) (cfg : ms_audio_config_t)
    (input out : list float) (frames n : nat) (rest : list voice_t) :
  channels cfg = 1 -> pool_size cfg = S n ->
  Forall (fun v => active v = false) rest ->
  Z.of_nat (length input) < 2 ^ 53 ->
  (frames <= length input)%nat -> (frames <= length out)%nat ->
  let v1 := set_instrument
              (voice_trigger pow (voice_init 1 (F32.of_Z (cfg_sample_rate cfg)))
                 (Some (roundtrip_sample input)) 69 127 (Some env))
              (Some 0%nat) in
  let r := ms_process (Some (set_voices (new_sampler cfg) (v1 :: rest))) (Some out)
             (Z.of_nat frames) in
  r.1.1 = MS_SUCCESS /\
  r.2 = Some (imap (fun k l => read_back input l k) (core_levels env frames)
              ++ drop frames out) /\
  exists s', r.1.2 = Some s' /\ playback_speed <$> voices s' !! 0%nat = Some F64.one.
Proof.
  intros Hch Hpool Hidle Hsize Hf Ho v1 r.
  destruct (core_roundtrip_voice env (F32.of_Z (cfg_sample_rate cfg)) input
              (drop frames out) frames Hsize Hf) as (Hact & Hblock & Hspeed).
  fold v1 in Hact, Hblock, Hspeed.
  subst r. unfold ms_process.
  change (config (set_voices (new_sampler cfg) (v1 :: rest))) with cfg.
  change (voices (set_voices (new_sampler cfg) (v1 :: rest))) with (v1 :: rest).
  rewrite Hch, Hpool, Z.mul_1_r, Z.mod_small, Nat2Z.id by lia.
  unfold memset_zero. rewrite Nat.min_l by done.
  cbn [process_voices]. rewrite Hact.
  destruct (voice_process v1 (Some (replicate frames F32.zero ++ drop frames out))
              (Z.of_nat frames) 1) as [v1' out1].
  cbn [fst snd] in Hblock, Hspeed.
  rewrite core_process_voices_idle by done.
  cbn [fst snd]. split_and!; [done|done|].
  eexists. split; [done|]. cbn [voices lookup list_lookup fmap option_fmap option_map].
  by rewrite Hspeed.
Qed.

Lemma core_roundtrip_run (env : ms_envelope_t) (cfg : ms_audio_config_t)
    (input out : list float) (frames : nat) :
  channels cfg = 1 -> 1 <= max_polyphony cfg ->
  Z.of_nat (length input) < 2 ^ 53 ->
  (frames <= length input)%nat -> (frames <= length out)%nat ->
  let r := core_run pow (core_start cfg) (core_roundtrip_calls env input out frames) in
  code_and_block <$> r.2
  = [(MS_SUCCESS, None); (MS_SUCCESS, None); (MS_SUCCESS, None); (MS_SUCCESS, None);
     (MS_SUCCESS,
      Some (imap (fun k l => read_back input l k) (core_levels env frames)
            ++ drop frames out))] /\
  playback_speed <$> voices r.1.2 !! 0%nat = Some F64.one.
Proof.
  intros Hch Hpoly Hsize Hf Ho r.
  destruct (core_new_sampler_pool cfg Hpoly) as (n & rest & Hpool & Hvoices & Hidle).
  subst r. unfold core_roundtrip_calls.
  pose proof (core_run_app
             [CoreAPI.InstrumentCreate;
              CoreAPI.SetEnvelope (Some 0%nat) env;
              CoreAPI.LoadSample (Some 0%nat)
                {| lr_data := input; lr_frames := Z.of_nat (length input);
                   lr_channels := 1; lr_meta := roundtrip_meta |}]
             [CoreAPI.NoteOn (Some 0%nat) 69 127;
              CoreAPI.Process out (Z.of_nat frames)] (core_start cfg)) as Happ.
  cbn [app] in Happ. rewrite Happ, core_roundtrip_setup. clear Happ.
  cbn [core_run core_step fst snd app].
  rewrite (core_roundtrip_note_on env cfg input n rest Hpool Hvoices).
  cbn [fst snd].
  destruct (core_roundtrip_process env cfg input out frames n rest
              Hch Hpool Hidle Hsize Hf Ho) as (Hcode & Hblock & s' & Hs' & Hspeed).
  cbn zeta in Hcode, Hblock, Hs'.
  rewrite Hcode, Hblock, Hs'. cbn [default from_option]. split; [done|exact Hspeed].
Qed.

End CoreRoundTripRun.

Section RTRoundTripRun.
Import RT.

Variable powf : float -> float -> float.

Lemma rt_run_app (calls1 calls2 : list RTAPI.call) : forall w,
  rt_run powf w (calls1 ++ calls2)
  = ((rt_run powf (rt_run powf w calls1).1 calls2).1,
     (rt_run powf w calls1).2 ++ (rt_run powf (rt_run powf w calls1).1 calls2).2).
Proof.
  induction calls1 as [|c calls1 IH]; intros w.
  - cbn [app rt_run fst snd]. by destruct (rt_run powf w calls2).
  - cbn [app rt_run fst snd]. by rewrite IH.
Qed.

Lemma rt_roundtrip_setup (env : ms_envelope_t) (cfg : ms_audio_config_t)
    (input : list float) :
  rt_run powf (rt_start cfg)
    [RTAPI.InstrumentCreate;
     RTAPI.SetEnvelope (Some 0%nat) env;
     RTAPI.LoadSample (Some 0%nat)
       {| lr_data := input; lr_frames := Z.of_nat (length input);
          lr_channels := 1; lr_meta := roundtrip_meta |}]
  = (([roundtrip_loaded env input], new_sampler cfg),
     [code_only MS_SUCCESS; code_only MS_SUCCESS; code_only MS_SUCCESS]).
Proof. reflexivity. Qed.

Lemma rt_roundtrip_note_on (env : ms_envelope_t) (cfg : ms_audio_config_t)
    (input : list float) :
  ms_note_on [roundtrip_loaded env input] (new_sampler cfg) (Some 0%nat) 69 127
             (Some 0)
  = (MS_SUCCESS,
     set_queue (new_sampler cfg) (rt_queue_push empty_queue roundtrip_event).2,
     Some 0).
Proof. reflexivity. Qed.

(** What [process_events] makes of the queued note-on: the voice in
    slot 0 is triggered. *)
Lemma rt_roundtrip_events (env : ms_envelope_t) (cfg : ms_audio_config_t)
    (input : list float) (n : nat) (rest : list voice_t) :
  pool_size cfg = S n ->
  voices (new_sampler cfg) = voice_init 1 (F32.of_Z (cfg_sample_rate cfg)) :: rest ->
  let s1 := process_events [roundtrip_loaded env input]
              (set_queue (new_sampler cfg)
                 (rt_queue_push empty_queue roundtrip_event).2) in
  config s1 = cfg /\
  voices s1
  = set_instrument
      (voice_trigger (voice_init 1 (F32.of_Z (cfg_sample_rate cfg)))
         (Some (roundtrip_sample input)) 69 127 (Some env))
      (Some 0%nat) :: rest.
Proof.
  intros Hpool Hvoices s1. subst s1. unfold process_events.
  set (s0 := set_queue (new_sampler cfg) (rt_queue_push empty_queue roundtrip_event).2).
  assert (Hwf : queue_wf (event_queue s0)).
  { subst s0. cbn [set_queue event_queue]. apply push_wf, empty_queue_wf. }
  assert (Hc : contents (event_queue s0) = [roundtrip_event]) by reflexivity.
  destruct (rt_drain [roundtrip_loaded env input] RT_EVENT_QUEUE_SIZE s0 Hwf)
    as (D1 & D2 & _).
  { rewrite Hc. cbn. unfold RT_EVENT_QUEUE_SIZE. lia. }
  rewrite D1, D2, Hc. cbn [fold_left]. split; [done|].
  change (config s0) with cfg. change (voices s0) with (voices (new_sampler cfg)).
  unfold handle_event.
  change (deref [roundtrip_loaded env input] (ev_instrument roundtrip_event))
    with (Some (roundtrip_loaded env input)).
  change (event_type roundtrip_event =? 0) with true. cbn iota.
  change (instrument_find_sample _ _ _) with (Some (roundtrip_sample input)).
  cbn iota beta.
  assert (Hj : available_voice (pool_size cfg) (voices (new_sampler cfg)) = 0%nat).
  { rewrite Hpool, Hvoices.
    unfold available_voice, first_inactive. cbn [take].
    cbn [list_find]. rewrite decide_True by done. done. }
  rewrite Hj, Hvoices. done.
Qed.

(** The voice the note-on triggered, over a render call. *)
Lemma rt_roundtrip_voice (env : ms_envelope_t) (rate : float)
    (input post : list float) (frames : nat) :
  Z.of_nat (length input) < 2 ^ 53 -> (frames <= length input)%nat ->
  let v1 := set_instrument
              (voice_trigger (voice_init 1 rate)
                 (Some (roundtrip_sample input)) 69 127 (Some env))
              (Some 0%nat) in
  let r := voice_process v1 (Some (replicate frames F32.zero ++ post))
             (Z.of_nat frames) 1 in
  active v1 = true /\
  r.2 = Some (imap (fun k l => read_back input l k) (rt_levels env frames) ++ post) /\
  playback_speed r.1 = F64.one.
Proof.
  intros Hsize Hf v1 r.
  assert (Hspeed : playback_speed v1 = F64.one) by (vm_compute; reflexivity).
  assert (Hgain : velocity_gain v1 = F32.one) by (vm_compute; reflexivity).
  split; [done|]. subst r. unfold voice_process.
  change (sample v1) with (Some (roundtrip_sample input)).
  change (active v1) with true. cbn iota.
  rewrite Hspeed, Hgain, Nat2Z.id.
  change (playback_position v1) with (F64.of_Z (Z.of_nat 0)).
  pose proof (rt_frames_read_back (roundtrip_sample input) input
                (roundtrip_sample_data input) eq_refl eq_refl Hsize
                frames 0%nat (envelope v1) [] post eq_refl ltac:(lia) eq_refl) as H.
  cbn [app] in H. rewrite H. cbn [fst snd fs_output]. split; [|done].
  f_equal.
Qed.

Lemma rt_roundtrip_run (env : ms_envelope_t) (cfg : ms_audio_config_t)
    (input out : list float) (frames : nat) :
  channels cfg = 1 -> 1 <= max_polyphony cfg ->
  Z.of_nat (length input) < 2 ^ 53 ->
  (frames <= length input)%nat -> (frames <= length out)%nat ->
  let r := rt_run powf (rt_start cfg) (rt_roundtrip_calls env input out frames) in
  code_and_block <$> r.2
  = [(MS_SUCCESS, None); (MS_SUCCESS, None); (MS_SUCCESS, None); (MS_SUCCESS, None);
     (MS_SUCCESS,
      Some (imap (fun k l => read_back input l k) (rt_levels env frames)
            ++ drop frames out))] /\
  playback_speed <$> voices r.1.2 !! 0%nat = Some F64.one.
Proof.
  intros Hch Hpoly Hsize Hf Ho r.
  destruct (rt_new_sampler_pool cfg Hpoly) as (n & rest & Hpool & Hvoices & Hidle).
  subst r. unfold rt_roundtrip_calls.
  pose proof (rt_run_app
             [RTAPI.InstrumentCreate;
              RTAPI.SetEnvelope (Some 0%nat) env;
              RTAPI.LoadSample (Some 0%nat)
                {| lr_data := input; lr_frames := Z.of_nat (length input);
                   lr_channels := 1; lr_meta := roundtrip_meta |}]
             [RTAPI.NoteOn (Some 0%nat) 69 127;
              RTAPI.Process out (Z.of_nat frames)] (rt_start cfg)) as Happ.
  cbn [app] in Happ. rewrite Happ, rt_roundtrip_setup. clear Happ.
  cbn [rt_run rt_step fst snd app].
  rewrite (rt_roundtrip_note_on env cfg input). cbn [fst snd].
  destruct (rt_roundtrip_events env cfg input n rest Hpool Hvoices) as (Hcfg & Hvs).
  cbn zeta in Hcfg, Hvs.
  destruct (rt_roundtrip_voice env (F32.of_Z (cfg_sample_rate cfg)) input
              (drop frames out) frames Hsize Hf) as (Hact & Hblock & Hspeed).
  cbn zeta in Hact, Hblock, Hspeed.
  unfold ms_process.
  change (config (set_queue (new_sampler cfg)
                    (rt_queue_push empty_queue roundtrip_event).2)) with cfg.
  revert Hcfg Hvs.
  generalize (process_events [roundtrip_loaded env input]
                (set_queue (new_sampler cfg)
                   (rt_queue_push empty_queue roundtrip_event).2)) as s1.
  intros s1 Hcfg Hvs. cbn zeta.
  rewrite Hcfg, Hvs, Hch, Hpool, Z.mul_1_r, Z.mod_small, Nat2Z.id by lia.
  unfold memset_zero. rewrite Nat.min_l by done.
  cbn [process_voices]. rewrite Hact.
  destruct (voice_process _ (Some (replicate frames F32.zero ++ drop frames out))
              (Z.of_nat frames) 1) as [v1' out1].
  cbn [fst snd] in Hblock, Hspeed.
  rewrite rt_process_voices_idle by done.
  unfold Datatypes.id.
  cbn [fst snd default from_option fmap list_fmap code_and_block res_code res_block
       code_only set_voices voices lookup list_lookup option_fmap option_map].
  rewrite Hblock, Hspeed. done.
Qed.

End RTRoundTripRun.

Section CoreLevels.
Import Core.

Lemma core_envelope_run_app a : forall b env,
  envelope_run (a + b) env
  = ((envelope_run a env).1 ++ (envelope_run b (envelope_run a env).2).1,
     (envelope_run b (envelope_run a env).2).2).
Proof.
  induction a as [|a IH]; intros b env.
  - cbn [Nat.add envelope_run fst snd app]. by destruct (envelope_run b env).
  - cbn [Nat.add envelope_run]. destruct (envelope_process env) as [o env1].
    rewrite IH. destruct (envelope_run a env1) as [os env2]. done.
Qed.

Lemma core_frames_levels_length env frames : length (core_levels env frames) = frames.
Proof. unfold core_levels. apply core_levels_length. Qed.

(** The first level after a trigger is 0, whatever the envelope. *)
Lemma core_first_level env frames :
  (0 < frames)%nat -> core_levels env frames !! 0%nat = Some F32.zero.
Proof.
  intros Hf. destruct frames as [|n]; [lia|]. unfold core_levels.
  cbn [envelope_run].
  destruct (envelope_process _) as [o env1] eqn:E.
  destruct (envelope_run n env1) as [os env2]. cbn [fst lookup list_lookup].
  f_equal. by injection E as <- _.
Qed.

(** Once it holds its sustain level the zero-time envelope stays there. *)
Lemma core_sustained_run n :
  envelope_run n core_sustained = (replicate n F32.one, core_sustained).
Proof.
  induction n as [|n IH]; [done|]. cbn [envelope_run replicate].
  change (envelope_process core_sustained) with (F32.one, core_sustained).
  cbn iota. by rewrite IH.
Qed.

(** The levels of the zero-time envelope with sustain level 1.0. *)
Lemma core_zero_time_levels frames :
  core_levels roundtrip_envelope frames
  = take frames (F32.zero :: F32.zero :: replicate frames F32.one).
Proof.
  destruct (Nat.lt_ge_cases frames 4) as [Hlt|Hge].
  - do 4 (destruct frames as [|frames]; [vm_compute; reflexivity|]). lia.
  - replace frames with (4 + (frames - 4))%nat at 1 by lia.
    unfold core_levels. rewrite core_envelope_run_app. cbn [fst].
    fold core_sustained. rewrite core_sustained_run. cbn [fst].
    set (m := (frames - 4)%nat).
    replace frames with (4 + m)%nat by lia.
    change (envelope_run 4 _).1 with ([F32.zero; F32.zero] ++ replicate 2 F32.one).
    rewrite <- app_assoc, <- replicate_add.
    change (F32.zero :: F32.zero :: replicate (4 + m) F32.one)
      with ([F32.zero; F32.zero] ++ replicate (4 + m) F32.one).
    rewrite (take_app_ge [F32.zero; F32.zero]) by (cbn [length]; lia).
    rewrite take_replicate. cbn [length app]. do 3 (try f_equal). lia.
Qed.

End CoreLevels.

Section RTLevels.
Import RT.

Lemma rt_envelope_run_app a : forall b env,
  envelope_run (a + b) env
  = ((envelope_run a env).1 ++ (envelope_run b (envelope_run a env).2).1,
     (envelope_run b (envelope_run a env).2).2).
Proof.
  induction a as [|a IH]; intros b env.
  - cbn [Nat.add envelope_run fst snd app]. by destruct (envelope_run b env).
  - cbn [Nat.add envelope_run]. destruct (envelope_process env) as [o env1].
    rewrite IH. destruct (envelope_run a env1) as [os env2]. done.
Qed.

Lemma rt_frames_levels_length env frames : length (rt_levels env frames) = frames.
Proof. unfold rt_levels. apply rt_levels_length. Qed.

(** The first level after a trigger is 0, whatever the envelope. *)
Lemma rt_first_level env frames :
  (0 < frames)%nat -> rt_levels env frames !! 0%nat = Some F32.zero.
Proof.
  intros Hf. destruct frames as [|n]; [lia|]. unfold rt_levels.
  cbn [envelope_run].
  destruct (envelope_process _) as [o env1] eqn:E.
  destruct (envelope_run n env1) as [os env2]. cbn [fst lookup list_lookup].
  f_equal. by injection E as <- _.
Qed.

(** Once it holds its sustain level the zero-time envelope stays there. *)
Lemma rt_sustained_run n :
  envelope_run n rt_sustained = (replicate n F32.one, rt_sustained).
Proof.
  induction n as [|n IH]; [done|]. cbn [envelope_run replicate].
  change (envelope_process rt_sustained) with (F32.one, rt_sustained).
  cbn iota. by rewrite IH.
Qed.

(** The levels of the zero-time envelope with sustain level 1.0. *)
Lemma rt_zero_time_levels frames :
  rt_levels roundtrip_envelope frames
  = take frames (F32.zero :: replicate frames F32.one).
Proof.
  destruct (Nat.lt_ge_cases frames 3) as [Hlt|Hge].
  - do 3 (destruct frames as [|frames]; [vm_compute; reflexivity|]). lia.
  - replace frames with (3 + (frames - 3))%nat at 1 by lia.
    unfold rt_levels. rewrite rt_envelope_run_app. cbn [fst].
    fold rt_sustained. rewrite rt_sustained_run. cbn [fst].
    set (m := (frames - 3)%nat).
    replace frames with (3 + m)%nat by lia.
    change (envelope_run 3 _).1 with ([F32.zero] ++ replicate 2 F32.one).
    rewrite <- app_assoc, <- replicate_add.
    change (F32.zero :: replicate (3 + m) F32.one)
      with ([F32.zero] ++ replicate (3 + m) F32.one).
    rewrite (take_app_ge [F32.zero]) by (cbn [length]; lia).
    rewrite take_replicate. cbn [length app]. do 3 (try f_equal). lia.
Qed.

End RTLevels.

(** A frame at envelope level 0 reads back [0.0f], a frame at level 1.0
    reads back the input frame. *)
Lemma read_back_level_zero (input : list float) (k : nat) (s0 s1 : float) :
  s0 = read_sample input (Z.of_nat k) ->
  s1 = (if Z.of_nat k + 1 <? Z.of_nat (length input)
        then read_sample input (Z.of_nat k + 1) else s0) ->
  SFis_finite s0 = true -> SFis_finite (F32.sub s1 s0) = true ->
  read_back input F32.zero k = F32.zero.
Proof.
  intros -> -> Hfin Hdiff. unfold read_back. cbn zeta.
  set (s0 := read_sample input (Z.of_nat k)) in *.
  set (s1 := if Z.of_nat k + 1 <? Z.of_nat (length input)
             then read_sample input (Z.of_nat k + 1) else s0) in *.
  apply F32_add_zero_zero. apply F32_mul_zero_one. apply F32_mul_zero_r.
  destruct s0 as [z| | |s m e]; try discriminate Hfin.
  - assert (Hz : SFis_zero (F32.add (S754_zero z) (F32.mul F32.zero (F32.sub s1 (S754_zero z))))
                 = true).
    { apply F32_add_zeros; [done|]. by apply F32_mul_zero_l. }
    by destruct (F32.add _ _).
  - by rewrite interpolation_at_integer.
Qed.

Lemma read_back_level_one (input : list float) (k : nat) (s0 s1 : float) :
  s0 = read_sample input (Z.of_nat k) ->
  s1 = (if Z.of_nat k + 1 <? Z.of_nat (length input)
        then read_sample input (Z.of_nat k + 1) else s0) ->
  SFis_finite (F32.sub s1 s0) = true ->
  (forall s m e, s0 = S754_finite s m e ->
                 valid_binary F32.prec F32.emax s0 = true ->
                 read_back input F32.one k = s0) /\
  (SFis_zero s0 = true -> read_back input F32.one k = F32.zero).
Proof.
  intros -> -> Hdiff. unfold read_back. cbn zeta.
  set (s0 := read_sample input (Z.of_nat k)) in *.
  set (s1 := if Z.of_nat k + 1 <? Z.of_nat (length input)
             then read_sample input (Z.of_nat k + 1) else s0) in *.
  split.
  - intros s m e Hs0 Hvalid. rewrite Hs0 in *.
    rewrite interpolation_at_integer by done.
    by rewrite !F32_mul_one.
  - intros Hzero. apply F32_add_zero_zero. do 2 apply F32_mul_zero_one.
    apply F32_add_zeros; [done|]. by apply F32_mul_zero_l.
Qed.




(** * Further properties of the engine *)

(** ** Range of the envelope level *)

Lemma clamp_level_bounds (x : float) : level_in_range (clamp_level x).
Proof.
  unfold level_in_range, clamp_level.
  destruct (F32.ltb x F32.zero) eqn:E0.
  - change (F32.ltb F32.one F32.zero) with false. cbn iota. done.
  - destruct (F32.ltb F32.one x) eqn:E1; [done|]. done.
Qed.

Lemma level_in_range_zero : level_in_range F32.zero.
Proof. done. Qed.

Section CoreBounds.
Import Core.
Lemma core_process_level env :
  level_in_range (current_level (envelope_process env).2).
Proof. unfold envelope_process, set_level. cbn. apply clamp_level_bounds. Qed.

Lemma core_output_S n env :
  core_envelope_output (S n) env
  = current_level (envelope_process (core_envelope_after n env)).2.
Proof. unfold core_envelope_output. by rewrite core_after_S. Qed.
End CoreBounds.

Section RTBounds.
Import RT.
Lemma rt_output_in_range n env :
  level_in_range (rt_envelope_output (S n) env).
Proof.
  unfold rt_envelope_output. rewrite rt_after_S.
  set (e := rt_envelope_after n env).
  unfold envelope_process at 1.
  destruct (stage (envelope_process e).2) eqn:E; try apply level_in_range_zero;
  cbn [fst]; unfold envelope_process in *; destruct (stage e) eqn:E2;
  try (cbn [snd] in E; congruence); cbn [snd with_state current_level];
  apply clamp_level_bounds.
Qed.
End RTBounds.

(** [X1] Both builds: no level returned by [envelope_process] compares
    below 0 or above 1 from the second call on, whatever state the
    generator was in; for a generator that was initialised and then
    triggered this holds from the first call on. *)
Theorem envelope_levels_stay_in_range
    (cenv : Core.envelope_generator_t) (renv : RT.envelope_generator_t)
    (rate : float) (p : ms_envelope_t) :
  (forall n, level_in_range (core_envelope_output (S n) cenv)) /\
  (forall n, level_in_range (rt_envelope_output (S n) renv)) /\
  (forall n, level_in_range
     (core_envelope_output n
        (Core.envelope_trigger (Core.envelope_init cenv rate (Some p))))) /\
  (forall n, level_in_range
     (rt_envelope_output n
        (RT.envelope_trigger (RT.envelope_init renv rate (Some p))))).
Proof.
  split_and!.
  - intros n. rewrite core_output_S. apply core_process_level.
  - intros n. apply rt_output_in_range.
  - intros [|n]; [done|]. rewrite core_output_S. apply core_process_level.
  - intros [|n]; [done|]. apply rt_output_in_range.
Qed.

(** ** Attack and decay *)

Section CoreTimeline.
Import Core.
Implicit Types (env : envelope_generator_t) (p : ms_envelope_t).

Lemma core_rate_after n env : sample_rate (core_envelope_after n env) = sample_rate env.
Proof.
  induction n as [|n IH]; [done|]. by rewrite core_after_S, core_process_rate.
Qed.

(** The call that finds a counted stage used up. *)
Lemma core_attack_switch env :
  stage env = ENV_ATTACK -> samples_processed env = stage_samples env ->
  let env' := (envelope_process env).2 in
  stage env' = ENV_DECAY /\ current_level env' = F32.one /\
  stage_samples env' = core_decay_samples (sample_rate env) (params env) /\
  samples_processed env' = 0.
Proof.
  intros Hs Hp. unfold envelope_process, envelope_advance.
  rewrite Hs, Hp, Z.ltb_irrefl. done.
Qed.

Lemma core_timeline env rate p :
  let e0 := envelope_trigger (envelope_init env rate (Some p)) in
  let A := Z.to_nat (attack_samples rate p) in
  let D := Z.to_nat (core_decay_samples rate p) in
  (forall n, (n <= A)%nat -> stage (core_envelope_after n e0) = ENV_ATTACK) /\
  (forall k, (k < A)%nat ->
     core_envelope_output (S k) e0
     = clamp_level (F32.div (F32.of_Z (Z.of_nat k))
                            (F32.of_Z (attack_samples rate p)))) /\
  core_envelope_output (A + 1) e0 = F32.one /\
  (forall n, (A + 1 <= n <= A + 1 + D)%nat ->
     stage (core_envelope_after n e0) = ENV_DECAY).
Proof.
  intros e0 A D.
  pose proof (at_least_one_range _ (to_uint32_range (F32.mul (attack_time p) rate))) as HA.
  pose proof (at_least_one_range _ (to_uint32_range (F32.mul (decay_time p) rate))) as HD.
  fold (attack_samples rate p) in HA. fold (core_decay_samples rate p) in HD.
  assert (H0 : stage e0 = ENV_ATTACK /\ stage_samples e0 = attack_samples rate p /\
               samples_processed e0 = 0 /\ params e0 = p /\ sample_rate e0 = rate)
    by done.
  destruct H0 as (S0 & N0 & P0 & Q0 & R0).
  assert (Hcount : forall n, (n <= A)%nat ->
            stage (core_envelope_after n e0) = ENV_ATTACK /\
            stage_samples (core_envelope_after n e0) = attack_samples rate p /\
            samples_processed (core_envelope_after n e0) = Z.of_nat n).
  { intros n Hn. destruct (core_count n e0) as (C1 & C2 & C3);
      [rewrite S0; by left|lia|lia|].
    rewrite C1, C2, C3, S0, N0, P0. split_and!; [done|done|lia]. }
  destruct (Hcount A) as (A1 & A2 & A3); [lia|].
  destruct (core_attack_switch (core_envelope_after A e0)) as (E1 & E2 & E3 & E4);
    [done|rewrite A2, A3; lia|].
  rewrite core_params_after, core_rate_after, Q0, R0 in E3.
  split_and!.
  - intros n Hn. by destruct (Hcount n Hn).
  - intros k Hk. rewrite core_output_S.
    destruct (Hcount k) as (K1 & K2 & K3); [lia|].
    unfold envelope_process, envelope_advance. rewrite K1, K2, K3.
    rewrite (proj2 (Z.ltb_lt _ _)) by lia. done.
  - replace (A + 1)%nat with (S A) by lia. rewrite core_output_S.
    rewrite E2. done.
  - intros n Hn. replace n with (A + (1 + (n - (A + 1))))%nat by lia.
    rewrite !core_after_add.
    change (core_envelope_after 1 (core_envelope_after A e0))
      with (envelope_process (core_envelope_after A e0)).2.
    destruct (core_count (n - (A + 1)) (envelope_process (core_envelope_after A e0)).2)
      as (C1 & _ & _); [rewrite E1; right; by left|lia|rewrite E3, E4; lia|].
    by rewrite C1.
Qed.

End CoreTimeline.

Section RTTimeline.
Import RT.
Implicit Types (env : envelope_generator_t) (p : ms_envelope_t).

Lemma rt_attack_switch env :
  stage env = ENV_ATTACK -> samples_processed env = stage_samples env ->
  let env' := (envelope_process env).2 in
  stage env' = ENV_DECAY /\ current_level env' = F32.one /\
  stage_samples env' = rt_decay_samples (sample_rate env) (params env) /\
  samples_processed env' = 0.
Proof.
  intros Hs Hp. unfold envelope_process, envelope_advance.
  rewrite Hs, Hp, Z.ltb_irrefl. done.
Qed.

Lemma rt_coeff_after n env : attack_coeff (rt_envelope_after n env) = attack_coeff env.
Proof.
  induction n as [|n IH]; [done|]. rewrite rt_after_S.
  unfold envelope_process, envelope_advance, with_state.
  destruct (stage (rt_envelope_after n env)); [done| | | |];
    repeat (destruct (_ <? _)); cbn; done.
Qed.

Lemma rt_timeline env rate p :
  let e0 := envelope_trigger (envelope_init env rate (Some p)) in
  let A := Z.to_nat (attack_samples rate p) in
  let D := Z.to_nat (rt_decay_samples rate p) in
  (forall n, (n <= A)%nat -> stage (rt_envelope_after n e0) = ENV_ATTACK) /\
  (forall k, (k < A)%nat ->
     rt_envelope_output (S k) e0
     = clamp_level (F32.add (rt_envelope_output k e0) (attack_coeff e0))) /\
  rt_envelope_output (A + 1) e0 = F32.one /\
  (forall n, (A + 1 <= n <= A + 1 + D)%nat ->
     stage (rt_envelope_after n e0) = ENV_DECAY).
Proof.
  intros e0 A D.
  pose proof (at_least_one_range _ (to_uint32_range (F32.mul (attack_time p) rate))) as HA.
  pose proof (to_uint32_range (F32.mul (decay_time p) rate)) as HD.
  fold (attack_samples rate p) in HA. fold (rt_decay_samples rate p) in HD.
  assert (H0 : stage e0 = ENV_ATTACK /\ stage_samples e0 = attack_samples rate p /\
               samples_processed e0 = 0 /\ params e0 = p /\ sample_rate e0 = rate)
    by done.
  destruct H0 as (S0 & N0 & P0 & Q0 & R0).
  assert (Hcount : forall n, (n <= A)%nat ->
            stage (rt_envelope_after n e0) = ENV_ATTACK /\
            stage_samples (rt_envelope_after n e0) = attack_samples rate p /\
            samples_processed (rt_envelope_after n e0) = Z.of_nat n).
  { intros n Hn. destruct (rt_count n e0) as (C1 & C2 & C3);
      [rewrite S0; by left|lia|lia|].
    rewrite C1, C2, C3, S0, N0, P0. split_and!; [done|done|lia]. }
  destruct (Hcount A) as (A1 & A2 & A3); [lia|].
  destruct (rt_attack_switch (rt_envelope_after A e0)) as (E1 & E2 & E3 & E4);
    [done|rewrite A2, A3; lia|].
  rewrite rt_params_after, rt_rate_after, Q0, R0 in E3.
  split_and!.
  - intros n Hn. by destruct (Hcount n Hn).
  - intros k Hk. unfold rt_envelope_output. rewrite rt_after_S.
    destruct (Hcount k) as (K1 & K2 & K3); [lia|].
    destruct (Hcount (S k)) as (L1 & _ & _); [lia|]. rewrite rt_after_S in L1.
    unfold envelope_process at 1. rewrite L1. cbn [fst].
    unfold envelope_process at 2. rewrite K1. cbn [fst].
    unfold envelope_process, envelope_advance. rewrite K1, K2, K3.
    rewrite (proj2 (Z.ltb_lt _ _)) by lia. cbn [snd with_state current_level].
    by rewrite rt_coeff_after.
  - replace (A + 1)%nat with (S A) by lia. unfold rt_envelope_output.
    rewrite rt_after_S. unfold envelope_process at 1. rewrite E1. cbn [fst].
    exact E2.
  - intros n Hn. replace n with (A + (1 + (n - (A + 1))))%nat by lia.
    rewrite !rt_after_add.
    change (rt_envelope_after 1 (rt_envelope_after A e0))
      with (envelope_process (rt_envelope_after A e0)).2.
    destruct (rt_count (n - (A + 1)) (envelope_process (rt_envelope_after A e0)).2)
      as (C1 & _ & _); [rewrite E1; right; by left|lia|rewrite E3, E4; lia|].
    by rewrite C1.
Qed.

End RTTimeline.

(** [X2] Attack and decay of a generator that was initialised and then
    triggered, with [A] the attack length in samples (at least 1).  In
    both builds the stage is Attack for the first [A + 1] calls and Decay
    for the next [D + 1] calls, [D] being the decay length ([D' ] in the
    real-time build, which may be 0), and call [A + 2] returns the peak
    level, exactly 1.0.  During the attack the plain build returns the
    clamped ratio [k / A] on call [k + 2]; the real-time build returns the
    previous level plus [attack_coeff], clamped. *)
Theorem envelope_attack_and_decay_timeline
    (cenv : Core.envelope_generator_t) (renv : RT.envelope_generator_t)
    (rate : float) (p : ms_envelope_t) :
  let c0 := Core.envelope_trigger (Core.envelope_init cenv rate (Some p)) in
  let r0 := RT.envelope_trigger (RT.envelope_init renv rate (Some p)) in
  let A := Z.to_nat (attack_samples rate p) in
  let D := Z.to_nat (core_decay_samples rate p) in
  let D' := Z.to_nat (rt_decay_samples rate p) in
  ((forall n, (n <= A)%nat -> Core.stage (core_envelope_after n c0) = ENV_ATTACK) /\
   (forall k, (k < A)%nat ->
      core_envelope_output (S k) c0
      = clamp_level (F32.div (F32.of_Z (Z.of_nat k))
                             (F32.of_Z (attack_samples rate p)))) /\
   core_envelope_output (A + 1) c0 = F32.one /\
   (forall n, (A + 1 <= n <= A + 1 + D)%nat ->
      Core.stage (core_envelope_after n c0) = ENV_DECAY)) /\
  ((forall n, (n <= A)%nat -> RT.stage (rt_envelope_after n r0) = ENV_ATTACK) /\
   (forall k, (k < A)%nat ->
      rt_envelope_output (S k) r0
      = clamp_level (F32.add (rt_envelope_output k r0) (RT.attack_coeff r0))) /\
   rt_envelope_output (A + 1) r0 = F32.one /\
   (forall n, (A + 1 <= n <= A + 1 + D')%nat ->
      RT.stage (rt_envelope_after n r0) = ENV_DECAY)).
Proof.
  intros c0 r0 A D D'. split; [apply core_timeline|apply rt_timeline].
Qed.

(** ** Life of a voice *)

Section CoreVoiceLife.
Import Core.
Implicit Types (v : voice_t) (st : frame_state).

Lemma core_frame_release smp speed gain chans i st :
  stage (fs_envelope st) = ENV_RELEASE ->
  0 <= samples_processed (fs_envelope st) <= stage_samples (fs_envelope st) ->
  stage_samples (fs_envelope st) < 2 ^ 32 ->
  let r := voice_frame smp speed gain chans i st in
  fs_active r.2 = false /\ r.1 = false \/
  r.1 = true /\ fs_active r.2 = fs_active st /\
  stage (fs_envelope r.2) = ENV_RELEASE /\
  stage_samples (fs_envelope r.2) = stage_samples (fs_envelope st) /\
  samples_processed (fs_envelope r.2) = samples_processed (fs_envelope st) + 1 /\
  samples_processed (fs_envelope st) < stage_samples (fs_envelope st).
Proof.
  intros Hs Hp HN. unfold voice_frame.
  destruct (check_bounds smp (fs_position st)) as [position|]; [|by left].
  destruct (envelope_process (fs_envelope st)) as [lvl env1] eqn:E.
  assert (E1 : env1 = (envelope_process (fs_envelope st)).2) by (by rewrite E).
  destruct (Z.ltb_spec (samples_processed (fs_envelope st))
                       (stage_samples (fs_envelope st))) as [Hlt|Hge].
  - destruct (core_count_step (fs_envelope st)) as (C1 & C2 & C3);
      [right; by right|lia|done|].
    rewrite <- E1 in C1, C2, C3.
    unfold envelope_is_active. rewrite C1, Hs. right. cbn.
    split_and!; (done || congruence).
  - assert (Hidle : stage env1 = ENV_IDLE).
    { rewrite E1. unfold envelope_process, envelope_advance. rewrite Hs.
      rewrite (proj2 (Z.ltb_ge _ _)) by lia. done. }
    unfold envelope_is_active. rewrite Hidle. by left.
Qed.

Lemma core_frames_release smp speed gain chans n i st :
  stage (fs_envelope st) = ENV_RELEASE ->
  0 <= samples_processed (fs_envelope st) <= stage_samples (fs_envelope st) ->
  stage_samples (fs_envelope st) < 2 ^ 32 ->
  let st' := voice_frames smp speed gain chans n i st in
  fs_active st' = false \/
  fs_active st' = fs_active st /\
  stage (fs_envelope st') = ENV_RELEASE /\
  stage_samples (fs_envelope st') = stage_samples (fs_envelope st) /\
  samples_processed (fs_envelope st')
  = samples_processed (fs_envelope st) + Z.of_nat n /\
  samples_processed (fs_envelope st') <= stage_samples (fs_envelope st).
Proof.
  revert i st. induction n as [|n IH]; intros i st Hs Hp HN; cbn zeta.
  - right. cbn [voice_frames]. split_and!; [done|done|done|lia|lia].
  - cbn [voice_frames].
    destruct (core_frame_release smp speed gain chans i st Hs Hp HN)
      as [[F1 F2]|(F1 & F2 & F3 & F4 & F5 & F6)];
      destruct (voice_frame smp speed gain chans i st) as [go st1];
      cbn [fst snd] in *; subst go.
    + by left.
    + destruct (IH (S i) st1) as [I|(I1 & I2 & I3 & I4 & I5)];
        [done|lia|lia|by left|].
      right. rewrite I1, I2, I3, I4, F2, F4, F5. split_and!; [done|done|done|lia|lia].
Qed.

Lemma core_process_releasing N p v out frames chans :
  1 <= N < 2 ^ 32 -> 0 <= p -> is_Some (sample v) ->
  core_releasing N p v ->
  core_releasing N (p + Z.max 0 frames) (voice_process v (Some out) frames chans).1.
Proof.
  intros HN Hp [smp Hsmp] [Hoff|(R1 & R2 & R3 & R4)]; unfold voice_process;
    rewrite Hsmp.
  - rewrite Hoff. by left.
  - destruct (active v) eqn:Ha; [|by left].
    match goal with |- context [voice_frames ?a ?b ?c ?d ?e ?f ?g] =>
      destruct (core_frames_release a b c d e f g) as [I|(I1 & I2 & I3 & I4 & I5)]
    end; cbn [fs_envelope]; [done|lia|lia| |].
    + left. cbn [fst active]. exact I.
    + right. cbn [fst envelope]. cbn [fs_envelope] in *.
      rewrite I2, I3, I4, R2, R3. split_and!; [done|done|lia|lia].
Qed.

Lemma core_process_sample v out frames chans :
  sample (voice_process v out frames chans).1 = sample v.
Proof.
  unfold voice_process. destruct out; [|done].
  destruct (sample v) eqn:E; [|done]. destruct (active v); [|done]. by cbn.
Qed.

Lemma core_blocks_releasing chans blocks : forall N p v,
  1 <= N < 2 ^ 32 -> 0 <= p -> is_Some (sample v) ->
  core_releasing N p v ->
  core_releasing N (p + frames_of blocks) (core_voice_blocks chans v blocks).
Proof.
  induction blocks as [|b blocks IH]; intros N p v HN Hp Hsmp Hr.
  - cbn. by rewrite Z.add_0_r.
  - cbn [core_voice_blocks fold_left frames_of fold_right].
    fold (frames_of blocks).
    replace (p + (Z.max 0 b.2 + frames_of blocks))
      with ((p + Z.max 0 b.2) + frames_of blocks) by lia.
    apply IH; [done|lia|by rewrite core_process_sample|].
    by apply core_process_releasing.
Qed.

Lemma core_released_freed chans v blocks :
  is_Some (sample v) ->
  release_samples (sample_rate (envelope v)) (params (envelope v)) + 1
  <= frames_of blocks ->
  active (core_voice_blocks chans (voice_release v) blocks) = false.
Proof.
  intros Hsmp Hn.
  pose proof (at_least_one_range _
    (to_uint32_range (F32.mul (release_time (params (envelope v)))
                              (sample_rate (envelope v))))) as HN.
  fold (release_samples (sample_rate (envelope v)) (params (envelope v))) in HN.
  destruct (core_blocks_releasing chans blocks
              (release_samples (sample_rate (envelope v)) (params (envelope v)))
              0 (voice_release v)) as [Hoff|(_ & _ & H3 & H4)];
    [done|done|done| |done|].
  - right. cbn. split_and!; [done|done|done|lia].
  - lia.
Qed.

(** A sounding voice on a looping sample. *)
Lemma core_process_holding env :
  holding_stage (stage env) -> holding_stage (stage (envelope_process env).2).
Proof.
  unfold holding_stage, envelope_process, envelope_advance, set_level. cbn [snd].
  intros [H|[H|H]]; rewrite H; repeat (destruct (_ <? _)); cbn; auto.
Qed.

Lemma core_holding_active env :
  holding_stage (stage env) -> envelope_is_active env = true.
Proof. unfold envelope_is_active. by intros [H|[H|H]]; rewrite H. Qed.

Lemma core_check_bounds_loops smp position :
  sample_loops smp -> is_Some (check_bounds smp position).
Proof.
  intros Hl. unfold check_bounds. destruct (F64.leb _ _); [|done].
  by rewrite (proj2 (sample_loops_test smp) Hl).
Qed.

Lemma core_frames_hold smp speed gain chans n i st :
  sample_loops smp -> holding_stage (stage (fs_envelope st)) ->
  let st' := voice_frames smp speed gain chans n i st in
  fs_active st' = fs_active st /\ holding_stage (stage (fs_envelope st')).
Proof.
  intros Hl. revert i st. induction n as [|n IH]; intros i st Hh; [done|].
  cbn [voice_frames]. unfold voice_frame.
  destruct (core_check_bounds_loops smp (fs_position st) Hl) as [position ->].
  destruct (envelope_process (fs_envelope st)) as [lvl env1] eqn:E.
  assert (Hh1 : holding_stage (stage env1)).
  { replace env1 with (envelope_process (fs_envelope st)).2 by (by rewrite E).
    by apply core_process_holding. }
  rewrite (core_holding_active env1 Hh1).
  match goal with |- context [voice_frames _ _ _ _ n (S i) ?s] =>
    destruct (IH (S i) s Hh1) as [I1 I2] end.
  by rewrite I1.
Qed.

Lemma core_process_hold smp v out frames chans :
  sample_loops smp -> sample v = Some smp -> active v = true ->
  holding_stage (stage (envelope v)) ->
  let v' := (voice_process v (Some out) frames chans).1 in
  sample v' = Some smp /\ active v' = true /\ holding_stage (stage (envelope v')).
Proof.
  intros Hl Hsmp Ha Hh. unfold voice_process. rewrite Hsmp, Ha. cbn [fst].
  match goal with |- context [voice_frames ?a ?b ?c ?d ?e ?f ?g] =>
    destruct (core_frames_hold a b c d e f g Hl) as [I1 I2] end; [done|].
  cbn [sample active envelope]. by rewrite I1.
Qed.

Lemma core_blocks_hold smp chans blocks : forall v,
  sample_loops smp -> sample v = Some smp -> active v = true ->
  holding_stage (stage (envelope v)) ->
  active (core_voice_blocks chans v blocks) = true.
Proof.
  induction blocks as [|b blocks IH]; intros v Hl Hsmp Ha Hh; [done|].
  cbn [core_voice_blocks fold_left].
  destruct (core_process_hold smp v b.1 b.2 chans Hl Hsmp Ha Hh) as (P1 & P2 & P3).
  by apply IH.
Qed.

End CoreVoiceLife.

Section RTVoiceLife.
Import RT.
Implicit Types (v : voice_t) (st : frame_state).

Lemma rt_frame_release smp speed gain chans i st :
  stage (fs_envelope st) = ENV_RELEASE ->
  0 <= samples_processed (fs_envelope st) <= stage_samples (fs_envelope st) ->
  stage_samples (fs_envelope st) < 2 ^ 32 ->
  let r := voice_frame smp speed gain chans i st in
  fs_active r.2 = false /\ r.1 = false \/
  r.1 = true /\ fs_active r.2 = fs_active st /\
  stage (fs_envelope r.2) = ENV_RELEASE /\
  stage_samples (fs_envelope r.2) = stage_samples (fs_envelope st) /\
  samples_processed (fs_envelope r.2) = samples_processed (fs_envelope st) + 1 /\
  samples_processed (fs_envelope st) < stage_samples (fs_envelope st).
Proof.
  intros Hs Hp HN. unfold voice_frame.
  destruct (check_bounds smp (fs_position st)) as [position|]; [|by left].
  destruct (envelope_process (fs_envelope st)) as [lvl env1] eqn:E.
  assert (E1 : env1 = (envelope_process (fs_envelope st)).2) by (by rewrite E).
  destruct (Z.ltb_spec (samples_processed (fs_envelope st))
                       (stage_samples (fs_envelope st))) as [Hlt|Hge].
  - destruct (rt_count_step (fs_envelope st)) as (C1 & C2 & C3);
      [right; by right|lia|done|].
    rewrite <- E1 in C1, C2, C3.
    unfold envelope_is_active. rewrite C1, Hs. right. cbn.
    split_and!; (done || congruence).
  - assert (Hidle : stage env1 = ENV_IDLE).
    { rewrite E1. unfold envelope_process, envelope_advance. rewrite Hs.
      rewrite (proj2 (Z.ltb_ge _ _)) by lia. done. }
    unfold envelope_is_active. rewrite Hidle. by left.
Qed.

Lemma rt_frames_release smp speed gain chans n i st :
  stage (fs_envelope st) = ENV_RELEASE ->
  0 <= samples_processed (fs_envelope st) <= stage_samples (fs_envelope st) ->
  stage_samples (fs_envelope st) < 2 ^ 32 ->
  let st' := voice_frames smp speed gain chans n i st in
  fs_active st' = false \/
  fs_active st' = fs_active st /\
  stage (fs_envelope st') = ENV_RELEASE /\
  stage_samples (fs_envelope st') = stage_samples (fs_envelope st) /\
  samples_processed (fs_envelope st')
  = samples_processed (fs_envelope st) + Z.of_nat n /\
  samples_processed (fs_envelope st') <= stage_samples (fs_envelope st).
Proof.
  revert i st. induction n as [|n IH]; intros i st Hs Hp HN; cbn zeta.
  - right. cbn [voice_frames]. split_and!; [done|done|done|lia|lia].
  - cbn [voice_frames].
    destruct (rt_frame_release smp speed gain chans i st Hs Hp HN)
      as [[F1 F2]|(F1 & F2 & F3 & F4 & F5 & F6)];
      destruct (voice_frame smp speed gain chans i st) as [go st1];
      cbn [fst snd] in *; subst go.
    + by left.
    + destruct (IH (S i) st1) as [I|(I1 & I2 & I3 & I4 & I5)];
        [done|lia|lia|by left|].
      right. rewrite I1, I2, I3, I4, F2, F4, F5. split_and!; [done|done|done|lia|lia].
Qed.

Lemma rt_process_releasing N p v out frames chans :
  1 <= N < 2 ^ 32 -> 0 <= p -> is_Some (sample v) ->
  rt_releasing N p v ->
  rt_releasing N (p + Z.max 0 frames) (voice_process v (Some out) frames chans).1.
Proof.
  intros HN Hp [smp Hsmp] [Hoff|(R1 & R2 & R3 & R4)]; unfold voice_process;
    rewrite Hsmp.
  - rewrite Hoff. by left.
  - destruct (active v) eqn:Ha; [|by left].
    match goal with |- context [voice_frames ?a ?b ?c ?d ?e ?f ?g] =>
      destruct (rt_frames_release a b c d e f g) as [I|(I1 & I2 & I3 & I4 & I5)]
    end; cbn [fs_envelope]; [done|lia|lia| |].
    + left. cbn [fst active]. exact I.
    + right. cbn [fst envelope]. cbn [fs_envelope] in *.
      rewrite I2, I3, I4, R2, R3. split_and!; [done|done|lia|lia].
Qed.

Lemma rt_process_sample v out frames chans :
  sample (voice_process v out frames chans).1 = sample v.
Proof.
  unfold voice_process. destruct out; [|done].
  destruct (sample v) eqn:E; [|done]. destruct (active v); [|done]. by cbn.
Qed.

Lemma rt_blocks_releasing chans blocks : forall N p v,
  1 <= N < 2 ^ 32 -> 0 <= p -> is_Some (sample v) ->
  rt_releasing N p v ->
  rt_releasing N (p + frames_of blocks) (rt_voice_blocks chans v blocks).
Proof.
  induction blocks as [|b blocks IH]; intros N p v HN Hp Hsmp Hr.
  - cbn. by rewrite Z.add_0_r.
  - cbn [rt_voice_blocks fold_left frames_of fold_right].
    fold (frames_of blocks).
    replace (p + (Z.max 0 b.2 + frames_of blocks))
      with ((p + Z.max 0 b.2) + frames_of blocks) by lia.
    apply IH; [done|lia|by rewrite rt_process_sample|].
    by apply rt_process_releasing.
Qed.

Lemma rt_released_freed chans v blocks :
  is_Some (sample v) ->
  release_samples (sample_rate (envelope v)) (params (envelope v)) + 1
  <= frames_of blocks ->
  active (rt_voice_blocks chans (voice_release v) blocks) = false.
Proof.
  intros Hsmp Hn.
  pose proof (at_least_one_range _
    (to_uint32_range (F32.mul (release_time (params (envelope v)))
                              (sample_rate (envelope v))))) as HN.
  fold (release_samples (sample_rate (envelope v)) (params (envelope v))) in HN.
  destruct (rt_blocks_releasing chans blocks
              (release_samples (sample_rate (envelope v)) (params (envelope v)))
              0 (voice_release v)) as [Hoff|(_ & _ & H3 & H4)];
    [done|done|done| |done|].
  - right. cbn. split_and!; [done|done|done|lia].
  - lia.
Qed.

(** A sounding voice on a looping sample. *)
Lemma rt_process_holding env :
  holding_stage (stage env) -> holding_stage (stage (envelope_process env).2).
Proof.
  unfold holding_stage, envelope_process, envelope_advance, with_state. cbn [snd].
  intros [H|[H|H]]; rewrite H; repeat (destruct (_ <? _)); cbn; auto.
Qed.

Lemma rt_holding_active env :
  holding_stage (stage env) -> envelope_is_active env = true.
Proof. unfold envelope_is_active. by intros [H|[H|H]]; rewrite H. Qed.

Lemma rt_check_bounds_loops smp position :
  sample_loops smp -> is_Some (check_bounds smp position).
Proof.
  intros Hl. unfold check_bounds. destruct (F64.leb _ _); [|done].
  by rewrite (proj2 (sample_loops_test smp) Hl).
Qed.

Lemma rt_frames_hold smp speed gain chans n i st :
  sample_loops smp -> holding_stage (stage (fs_envelope st)) ->
  let st' := voice_frames smp speed gain chans n i st in
  fs_active st' = fs_active st /\ holding_stage (stage (fs_envelope st')).
Proof.
  intros Hl. revert i st. induction n as [|n IH]; intros i st Hh; [done|].
  cbn [voice_frames]. unfold voice_frame.
  destruct (rt_check_bounds_loops smp (fs_position st) Hl) as [position ->].
  destruct (envelope_process (fs_envelope st)) as [lvl env1] eqn:E.
  assert (Hh1 : holding_stage (stage env1)).
  { replace env1 with (envelope_process (fs_envelope st)).2 by (by rewrite E).
    by apply rt_process_holding. }
  rewrite (rt_holding_active env1 Hh1).
  match goal with |- context [voice_frames _ _ _ _ n (S i) ?s] =>
    destruct (IH (S i) s Hh1) as [I1 I2] end.
  by rewrite I1.
Qed.

Lemma rt_process_hold smp v out frames chans :
  sample_loops smp -> sample v = Some smp -> active v = true ->
  holding_stage (stage (envelope v)) ->
  let v' := (voice_process v (Some out) frames chans).1 in
  sample v' = Some smp /\ active v' = true /\ holding_stage (stage (envelope v')).
Proof.
  intros Hl Hsmp Ha Hh. unfold voice_process. rewrite Hsmp, Ha. cbn [fst].
  match goal with |- context [voice_frames ?a ?b ?c ?d ?e ?f ?g] =>
    destruct (rt_frames_hold a b c d e f g Hl) as [I1 I2] end; [done|].
  cbn [sample active envelope]. by rewrite I1.
Qed.

Lemma rt_blocks_hold smp chans blocks : forall v,
  sample_loops smp -> sample v = Some smp -> active v = true ->
  holding_stage (stage (envelope v)) ->
  active (rt_voice_blocks chans v blocks) = true.
Proof.
  induction blocks as [|b blocks IH]; intros v Hl Hsmp Ha Hh; [done|].
  cbn [rt_voice_blocks fold_left].
  destruct (rt_process_hold smp v b.1 b.2 chans Hl Hsmp Ha Hh) as (P1 & P2 & P3).
  by apply IH.
Qed.

End RTVoiceLife.

(** [X3] A released voice is freed.  In both builds, once [voice_release]
    has been called on a voice that holds a sample, rendering [N + 1]
    frames or more through [voice_process], in any number of blocks of any
    size and channel count, leaves the voice inactive; [N] is the release
    length in samples, [release_time * sample_rate] truncated and at least
    1, taken from the voice's envelope generator. *)
Theorem released_voice_is_freed (cv : Core.voice_t) (rv : RT.voice_t)
    (chans : Z) (blocks : list (list float * Z)) :
  (is_Some (Core.sample cv) ->
   release_samples (Core.sample_rate (Core.envelope cv))
                   (Core.params (Core.envelope cv)) + 1 <= frames_of blocks ->
   Core.active (core_voice_blocks chans (Core.voice_release cv) blocks) = false) /\
  (is_Some (RT.sample rv) ->
   release_samples (RT.sample_rate (RT.envelope rv))
                   (RT.params (RT.envelope rv)) + 1 <= frames_of blocks ->
   RT.active (rt_voice_blocks chans (RT.voice_release rv) blocks) = false).
Proof.
  split; intros Hsmp Hn.
  - by apply core_released_freed.
  - by apply rt_released_freed.
Qed.

Lemma released_voice_is_freed_witness :
  let cv := example_core_voice example_looping_sample F64.zero in
  let rv := example_rt_voice example_looping_sample F64.zero in
  let blocks := replicate 30 (example_output, 512) in
  release_samples (F32.of_Z 44100) example_envelope = 13230 /\
  frames_of blocks = 15360 /\
  Core.active (core_voice_blocks 1 (Core.voice_release cv) blocks) = false /\
  RT.active (rt_voice_blocks 1 (RT.voice_release rv) blocks) = false.
Proof.
  intros cv rv blocks.
  assert (HN : release_samples (F32.of_Z 44100) example_envelope = 13230)
    by (vm_compute; reflexivity).
  assert (HF : frames_of blocks = 15360) by (vm_compute; reflexivity).
  split; [exact HN|]. split; [exact HF|].
  destruct (released_voice_is_freed cv rv 1 blocks) as [Hc Hr].
  split.
  - apply Hc; [by eexists|]. rewrite HF.
    change (Core.sample_rate (Core.envelope cv)) with (F32.of_Z 44100).
    change (Core.params (Core.envelope cv)) with example_envelope.
    rewrite HN. lia.
  - apply Hr; [by eexists|]. rewrite HF.
    change (RT.sample_rate (RT.envelope rv)) with (F32.of_Z 44100).
    change (RT.params (RT.envelope rv)) with example_envelope.
    rewrite HN. lia.
Defined.

(** [X4] A sounding voice on a looping sample never stops by itself.  In
    both builds, a voice triggered on a sample whose loop is enabled with
    [loop_end > loop_start] is still active after any run of
    [voice_process] calls, whatever the block sizes and the buffers: only
    [voice_release], [ms_all_notes_off] or a new note taking the slot end
    it.  (The activity flag does not depend on the sample values read.) *)
Theorem looping_voice_sounds_until_released
    (pow : double -> double -> double)
    (cv : Core.voice_t) (rv : RT.voice_t) (smp : ms_sample_data_t)
    (n vel : Z) (e : ms_envelope_t) (chans : Z) (blocks : list (list float * Z)) :
  sample_loops smp ->
  Core.active
    (core_voice_blocks chans
       (Core.voice_trigger pow cv (Some smp) n vel (Some e)) blocks) = true /\
  RT.active
    (rt_voice_blocks chans
       (RT.voice_trigger rv (Some smp) n vel (Some e)) blocks) = true.
Proof.
  intros Hl. split.
  - apply (core_blocks_hold smp); [done|done|done|by left].
  - apply (rt_blocks_hold smp); [done|done|done|by left].
Qed.

Lemma looping_voice_sounds_until_released_witness :
  let blocks := replicate 100 (example_output, 512) in
  sample_loops example_looping_sample /\
  Core.active
    (core_voice_blocks 2
       (Core.voice_trigger example_pow (Core.voice_init 1 (F32.of_Z 44100))
          (Some example_looping_sample) 69 100 (Some example_envelope))
       blocks) = true /\
  RT.active
    (rt_voice_blocks 2
       (RT.voice_trigger (RT.voice_init 1 (F32.of_Z 44100))
          (Some example_looping_sample) 69 100 (Some example_envelope))
       blocks) = true.
Proof.
  intros blocks.
  assert (Hl : sample_loops example_looping_sample) by (split; [reflexivity|cbn; lia]).
  split; [exact Hl|].
  apply (looping_voice_sounds_until_released example_pow
           (Core.voice_init 1 (F32.of_Z 44100)) (RT.voice_init 1 (F32.of_Z 44100))
           example_looping_sample 69 100 example_envelope 2 blocks Hl).
Defined.

(** ** The output block *)

Lemma same_from_trans k a b c :
  same_from k a b -> same_from k b c -> same_from k a c.
Proof.
  intros [L1 H1] [L2 H2]. split; [congruence|].
  intros j Hj. by rewrite H1, H2.
Qed.

Lemma same_from_mono k k' a b :
  (k <= k')%nat -> same_from k a b -> same_from k' a b.
Proof. intros Hk [L H]. split; [done|]. intros j Hj. apply H. lia. Qed.

Lemma mix_into_same_from k out i v :
  (i < k)%nat -> same_from k (mix_into out i v) out.
Proof.
  intros Hi. unfold mix_into. split; [by rewrite length_alter|].
  intros j Hj. rewrite list_lookup_alter_ne by lia. done.
Qed.

Lemma memset_zero_same_from n out : same_from n (memset_zero n out) out.
Proof.
  unfold memset_zero. split.
  - rewrite length_app, length_replicate, length_drop. lia.
  - intros j Hj. destruct (decide (j < length out)%nat) as [Hlt|Hge].
    + rewrite lookup_app_r by (rewrite length_replicate; lia).
      rewrite length_replicate, lookup_drop. f_equal. lia.
    + rewrite !lookup_ge_None_2; [done|lia|].
      rewrite length_app, length_replicate, length_drop. lia.
Qed.

Lemma memset_zero_all n out :
  (length out <= n)%nat -> memset_zero n out = replicate (length out) F32.zero.
Proof.
  intros Hn. unfold memset_zero. rewrite drop_ge by done.
  rewrite app_nil_r. f_equal. lia.
Qed.

Section CoreBlock.
Import Core.

Lemma core_frame_same_from smp speed gain chans i st :
  same_from (core_block_end chans (S i))
            (fs_output (voice_frame smp speed gain chans i st).2) (fs_output st).
Proof.
  unfold voice_frame, core_block_end.
  destruct (check_bounds smp (fs_position st)); [|done].
  destruct (envelope_process (fs_envelope st)) as [lvl env1].
  destruct (envelope_is_active env1); cbn [snd fs_output];
    destruct (chans =? 1);
    repeat (first [apply mix_into_same_from; lia
                  |eapply same_from_trans; [apply mix_into_same_from; lia|]]).
Qed.

Lemma core_frames_same_from smp speed gain chans n : forall i st,
  same_from (core_block_end chans (i + n))
            (fs_output (voice_frames smp speed gain chans n i st)) (fs_output st).
Proof.
  induction n as [|n IH]; intros i st; [done|]. cbn [voice_frames].
  pose proof (core_frame_same_from smp speed gain chans i st) as Hf.
  destruct (voice_frame smp speed gain chans i st) as [go st1]. cbn [snd] in Hf.
  assert (Hle : (core_block_end chans (S i) <= core_block_end chans (i + S n))%nat)
    by (unfold core_block_end; destruct (chans =? 1); lia).
  destruct go.
  - eapply same_from_trans.
    + replace (i + S n)%nat with (S i + n)%nat by lia. apply IH.
    + by eapply same_from_mono.
  - by eapply same_from_mono.
Qed.

Lemma core_voice_same_from v out frames chans :
  exists out', (voice_process v (Some out) frames chans).2 = Some out' /\
               same_from (core_block_end chans (Z.to_nat frames)) out' out.
Proof.
  unfold voice_process. destruct (sample v) as [smp|]; [|by exists out].
  destruct (active v); [|by exists out]. cbn [snd]. eexists. split; [done|].
  apply (core_frames_same_from smp _ _ chans (Z.to_nat frames) 0%nat).
Qed.

Lemma core_voices_same_from frames chans n : forall vs out,
  exists out', (process_voices n vs (Some out) frames chans).2 = Some out' /\
               same_from (core_block_end chans (Z.to_nat frames)) out' out.
Proof.
  induction n as [|n IH]; intros vs out; [by exists out|].
  destruct vs as [|v vs]; [by exists out|]. cbn [process_voices].
  destruct (active v).
  - destruct (core_voice_same_from v out frames chans) as (o1 & E1 & S1).
    destruct (voice_process v (Some out) frames chans) as [v1 out1].
    cbn [snd] in E1. subst out1.
    destruct (IH vs o1) as (o2 & E2 & S2).
    destruct (process_voices n vs (Some o1) frames chans) as [vs1 out2].
    cbn [snd] in *. exists o2. split; [done|]. by eapply same_from_trans.
  - destruct (IH vs out) as (o2 & E2 & S2).
    destruct (process_voices n vs (Some out) frames chans) as [vs1 out2].
    cbn [snd] in *. by exists o2.
Qed.

Lemma core_process_same_from s out frames :
  0 <= frames -> 1 <= channels (config s) ->
  frames * channels (config s) < 2 ^ 64 ->
  exists out', (ms_process (Some s) (Some out) frames).2 = Some out' /\
               same_from (Z.to_nat (frames * channels (config s))) out' out.
Proof.
  intros Hf Hc Hb. unfold ms_process.
  rewrite Z.mod_small by lia.
  set (n := Z.to_nat (frames * channels (config s))).
  destruct (core_voices_same_from frames (channels (config s))
              (pool_size (config s)) (voices s) (memset_zero n out))
    as (o & E & S).
  destruct (process_voices _ _ _ _ _) as [vs out1]. cbn [snd] in *.
  exists o. split; [done|].
  eapply same_from_trans; [|apply memset_zero_same_from].
  eapply same_from_mono; [|exact S].
  unfold core_block_end, n. destruct (channels (config s) =? 1) eqn:E1.
  - apply Z.eqb_eq in E1. rewrite E1. lia.
  - apply Z.eqb_neq in E1. nia.
Qed.

(** Nothing sounds: the mixing loop leaves voices and buffer alone. *)
Lemma core_voices_idle frames chans n : forall vs out,
  Forall (fun v => active v = false) (take n vs) ->
  process_voices n vs out frames chans = (vs, out).
Proof.
  induction n as [|n IH]; intros vs out Hidle; [done|].
  destruct vs as [|v vs]; [done|]. cbn [process_voices].
  rewrite firstn_cons in Hidle. apply Forall_cons in Hidle as [Hv Hvs].
  rewrite Hv. by rewrite (IH vs out Hvs).
Qed.

Lemma core_all_notes_off_idle s :
  Forall (fun v => active v = false)
         (take (pool_size (config s)) (voices (ms_all_notes_off s))).
Proof.
  unfold ms_all_notes_off. cbn [voices set_voices].
  set (n := pool_size (config s)). rewrite take_app. apply Forall_app. split.
  - apply Forall_take, Forall_fmap. by apply Forall_true.
  - rewrite length_map, length_take.
    destruct (decide (n <= length (voices s))%nat) as [Hle|Hgt].
    + replace (n - n `min` length (voices s))%nat with 0%nat by lia. constructor.
    + rewrite drop_ge by lia. rewrite take_nil. constructor.
Qed.

End CoreBlock.

Section RTBlock.
Import RT.

Lemma rt_frame_same_from smp speed gain chans i st :
  same_from (rt_block_end chans (S i))
            (fs_output (voice_frame smp speed gain chans i st).2) (fs_output st).
Proof.
  unfold voice_frame, rt_block_end. cbn zeta.
  destruct (check_bounds smp (fs_position st)); [|done].
  destruct (envelope_process (fs_envelope st)) as [lvl env1].
  destruct (envelope_is_active env1); cbn [snd fs_output];
    destruct (chans =? 2);
    repeat (first [apply mix_into_same_from; lia
                  |eapply same_from_trans; [apply mix_into_same_from; lia|]]).
Qed.

Lemma rt_frames_same_from smp speed gain chans n : forall i st,
  same_from (rt_block_end chans (i + n))
            (fs_output (voice_frames smp speed gain chans n i st)) (fs_output st).
Proof.
  induction n as [|n IH]; intros i st; [done|]. cbn [voice_frames].
  pose proof (rt_frame_same_from smp speed gain chans i st) as Hf.
  destruct (voice_frame smp speed gain chans i st) as [go st1]. cbn [snd] in Hf.
  assert (Hle : (rt_block_end chans (S i) <= rt_block_end chans (i + S n))%nat)
    by (unfold rt_block_end; destruct (chans =? 2); lia).
  destruct go.
  - eapply same_from_trans.
    + replace (i + S n)%nat with (S i + n)%nat by lia. apply IH.
    + by eapply same_from_mono.
  - by eapply same_from_mono.
Qed.

Lemma rt_voice_same_from v out frames chans :
  exists out', (voice_process v (Some out) frames chans).2 = Some out' /\
               same_from (rt_block_end chans (Z.to_nat frames)) out' out.
Proof.
  unfold voice_process. destruct (sample v) as [smp|]; [|by exists out].
  destruct (active v); [|by exists out]. cbn [snd]. eexists. split; [done|].
  apply (rt_frames_same_from smp _ _ chans (Z.to_nat frames) 0%nat).
Qed.

Lemma rt_voices_same_from frames chans n : forall vs out,
  exists out', (process_voices n vs (Some out) frames chans).2 = Some out' /\
               same_from (rt_block_end chans (Z.to_nat frames)) out' out.
Proof.
  induction n as [|n IH]; intros vs out; [by exists out|].
  destruct vs as [|v vs]; [by exists out|]. cbn [process_voices].
  destruct (active v).
  - destruct (rt_voice_same_from v out frames chans) as (o1 & E1 & S1).
    destruct (voice_process v (Some out) frames chans) as [v1 out1].
    cbn [snd] in E1. subst out1.
    destruct (IH vs o1) as (o2 & E2 & S2).
    destruct (process_voices n vs (Some o1) frames chans) as [vs1 out2].
    cbn [snd] in *. exists o2. split; [done|]. by eapply same_from_trans.
  - destruct (IH vs out) as (o2 & E2 & S2).
    destruct (process_voices n vs (Some out) frames chans) as [vs1 out2].
    cbn [snd] in *. by exists o2.
Qed.

Lemma rt_drain_config heap fuel : forall s, config (drain heap fuel s) = config s.
Proof.
  induction fuel as [|fuel IH]; intros s; [done|]. cbn [drain].
  destruct (rt_queue_pop (event_queue s)) as [[e|] q]; [|done].
  by rewrite IH.
Qed.

Lemma rt_process_events_config heap s : config (process_events heap s) = config s.
Proof. apply rt_drain_config. Qed.

Lemma rt_process_same_from heap s out frames :
  0 <= frames -> 1 <= channels (config s) ->
  frames * channels (config s) < 2 ^ 64 ->
  exists out', (ms_process heap (Some s) (Some out) frames).2 = Some out' /\
               same_from (Z.to_nat (frames * channels (config s))) out' out.
Proof.
  intros Hf Hc Hb. unfold ms_process.
  rewrite Z.mod_small by lia. rewrite rt_process_events_config.
  set (n := Z.to_nat (frames * channels (config s))).
  destruct (rt_voices_same_from frames (channels (config s))
              (pool_size (config s))
              (voices (process_events heap s)) (memset_zero n out))
    as (o & E & S).
  destruct (process_voices _ _ _ _ _) as [vs out1]. cbn [snd] in *.
  exists o. split; [exact E|].
  eapply same_from_trans; [|apply memset_zero_same_from].
  eapply same_from_mono; [|exact S].
  unfold rt_block_end, n. destruct (channels (config s) =? 2) eqn:E1.
  - apply Z.eqb_eq in E1. rewrite E1. lia.
  - nia.
Qed.

Lemma rt_voices_idle frames chans n : forall vs out,
  Forall (fun v => active v = false) (take n vs) ->
  process_voices n vs out frames chans = (vs, out).
Proof.
  induction n as [|n IH]; intros vs out Hidle; [done|].
  destruct vs as [|v vs]; [done|]. cbn [process_voices].
  rewrite firstn_cons in Hidle. apply Forall_cons in Hidle as [Hv Hvs].
  rewrite Hv. by rewrite (IH vs out Hvs).
Qed.

Lemma rt_all_notes_off_idle s :
  Forall (fun v => active v = false)
         (take (pool_size (config s)) (voices (ms_all_notes_off s))).
Proof.
  unfold ms_all_notes_off. cbn [voices set_voices].
  set (n := pool_size (config s)). rewrite take_app. apply Forall_app. split.
  - apply Forall_take, Forall_fmap. by apply Forall_true.
  - rewrite length_map, length_take.
    destruct (decide (n <= length (voices s))%nat) as [Hle|Hgt].
    + replace (n - n `min` length (voices s))%nat with 0%nat by lia. constructor.
    + rewrite drop_ge by lia. rewrite take_nil. constructor.
Qed.

Lemma rt_process_events_empty heap s :
  read_idx (event_queue s) = write_idx (event_queue s) ->
  process_events heap s = s.
Proof.
  intros Hq. unfold process_events.
  generalize RT_EVENT_QUEUE_SIZE. intros [|fuel]; [reflexivity|].
  cbn [drain]. unfold rt_queue_pop. rewrite Hq, Nat.eqb_refl. reflexivity.
Qed.

End RTBlock.

(** [X5] With at least one output channel, [ms_process] touches only the
    block it renders: in both builds the buffer keeps its length and every
    float from index [num_frames * channels] on keeps its value, whatever
    the voices play. *)
Theorem ms_process_touches_only_the_block :
  (forall s out frames,
      0 <= frames -> 1 <= channels (Core.config s) ->
      frames * channels (Core.config s) < 2 ^ 64 ->
      exists out',
        (Core.ms_process (Some s) (Some out) frames).2 = Some out' /\
        length out' = length out /\
        forall j, (Z.to_nat (frames * channels (Core.config s)) <= j)%nat ->
                  out' !! j = out !! j) /\
  (forall heap s out frames,
      0 <= frames -> 1 <= channels (RT.config s) ->
      frames * channels (RT.config s) < 2 ^ 64 ->
      exists out',
        (RT.ms_process heap (Some s) (Some out) frames).2 = Some out' /\
        length out' = length out /\
        forall j, (Z.to_nat (frames * channels (RT.config s)) <= j)%nat ->
                  out' !! j = out !! j).
Proof.
  split.
  - intros s out frames Hf Hc Hb.
    destruct (core_process_same_from s out frames Hf Hc Hb) as (o & E & L & H).
    by exists o.
  - intros heap s out frames Hf Hc Hb.
    destruct (rt_process_same_from heap s out frames Hf Hc Hb) as (o & E & L & H).
    by exists o.
Qed.

Lemma ms_process_touches_only_the_block_witness :
  exists out',
    (Core.ms_process (Some (Core.new_sampler example_config))
                     (Some example_output) 2).2 = Some out' /\
    length out' = 8%nat /\ out' !! 5%nat = Some (f32_lit 25 2).
Proof.
  destruct (proj1 ms_process_touches_only_the_block
              (Core.new_sampler example_config) example_output 2)
    as (o & E & L & H); [lia|cbn; lia|cbn; lia|].
  exists o. split; [exact E|]. split; [exact L|].
  rewrite H by (cbn; lia). reflexivity.
Defined.

(** ** Silencing the sampler *)

Lemma rt_first_slot_free n (vs : list RT.voice_t) :
  (0 < n)%nat -> Forall (fun v => RT.active v = false) (take n vs) ->
  vs <> [] -> pool_slot RT.active n vs = 0%nat.
Proof.
  intros Hn Hidle Hne. unfold pool_slot, pool_first_free.
  destruct vs as [|v vs]; [done|]. destruct n as [|n]; [lia|].
  rewrite firstn_cons in *. apply Forall_cons in Hidle as [Hv _].
  cbn [list_find]. rewrite decide_True by done. done.
Qed.

(** [X6] [ms_all_notes_off] silences the sampler at once.  After it no
    voice of the pool is active, and the next [ms_process] returns the
    block zeroed and the voices as they were: in the plain build always,
    in the real-time build when no event waits in the ring.  The real-time
    call does not clear the ring: a note-on queued before it is triggered
    by the next [process_events] all the same. *)
Theorem all_notes_off_silences :
  (forall s out frames,
      let s' := Core.ms_all_notes_off s in
      let r := Core.ms_process (Some s') (Some out) frames in
      let n := Z.to_nat ((frames * channels (Core.config s)) mod 2 ^ 64) in
      Forall (fun v => Core.active v = false)
             (take (Core.pool_size (Core.config s)) (Core.voices s')) /\
      r.2 = Some (memset_zero n out) /\
      Core.voices <$> r.1.2 = Some (Core.voices s') /\
      ((length out <= n)%nat -> r.2 = Some (replicate (length out) F32.zero))) /\
  (forall heap s out frames,
      read_idx (RT.event_queue s) = write_idx (RT.event_queue s) ->
      let s' := RT.ms_all_notes_off s in
      let r := RT.ms_process heap (Some s') (Some out) frames in
      let n := Z.to_nat ((frames * channels (RT.config s)) mod 2 ^ 64) in
      Forall (fun v => RT.active v = false)
             (take (RT.pool_size (RT.config s)) (RT.voices s')) /\
      r.2 = Some (memset_zero n out) /\
      RT.voices <$> r.1.2 = Some (RT.voices s') /\
      ((length out <= n)%nat -> r.2 = Some (replicate (length out) F32.zero))) /\
  (forall heap s instrument i n vel smp vid,
      RT.deref heap instrument = Some i -> inst_sampler i = true ->
      instrument_find_sample (Some i) n vel = Some smp ->
      queue_wf (RT.event_queue s) ->
      read_idx (RT.event_queue s) = write_idx (RT.event_queue s) ->
      (0 < RT.pool_size (RT.config s))%nat -> RT.voices s <> [] ->
      let queued := RT.ms_note_on heap s instrument n vel vid in
      let s' := RT.process_events heap (RT.ms_all_notes_off queued.1.2) in
      queued.1.1 = MS_SUCCESS /\
      exists v, RT.voices s' !! 0%nat = Some v /\
                RT.active v = true /\ RT.note v = n).
Proof.
  split_and!.
  - intros s out frames s' r n.
    pose proof (core_all_notes_off_idle s) as Hidle. fold s' in Hidle.
    assert (Hr : r = (MS_SUCCESS,
                      Some {| Core.config := Core.config s';
                              Core.voices := Core.voices s';
                              Core.next_voice_id := Core.next_voice_id s';
                              Core.playback_event_index := Core.playback_event_index s';
                              Core.playback_sample_count :=
                                (Core.playback_sample_count s' + frames) mod 2 ^ 64;
                              Core.is_playing := Core.is_playing s' |},
                      Some (memset_zero n out))).
    { unfold r, Core.ms_process.
      change (Core.config s') with (Core.config s).
      by rewrite core_voices_idle. }
    split; [exact Hidle|]. rewrite Hr. cbn [fst snd fmap option_fmap option_map].
    split_and!; [done|done|]. intros Hn. by rewrite memset_zero_all.
  - intros heap s out frames Hq s' r n.
    pose proof (rt_all_notes_off_idle s) as Hidle. fold s' in Hidle.
    assert (He : RT.process_events heap s' = s')
      by (by apply rt_process_events_empty).
    assert (Hr : r.2 = Some (memset_zero n out) /\
                 RT.voices <$> r.1.2 = Some (RT.voices s')).
    { unfold r, RT.ms_process. rewrite He.
      change (RT.config s') with (RT.config s).
      by rewrite rt_voices_idle. }
    destruct Hr as [Hr1 Hr2].
    split_and!; [exact Hidle|exact Hr1|exact Hr2|].
    intros Hn. by rewrite Hr1, memset_zero_all.
  - intros heap s instrument i n vel smp vid Hd Hs Hfind Hwf Hq Hpool Hne queued s'.
    set (ev := note_on_event instrument (n, vel)).
    assert (Hpend : pending (RT.event_queue s) = 0%nat).
    { unfold pending. rewrite Hq. destruct Hwf as (Hw & _ & _).
      replace (write_idx (RT.event_queue s) + RT_EVENT_QUEUE_SIZE
               - write_idx (RT.event_queue s))%nat
        with (1 * RT_EVENT_QUEUE_SIZE)%nat by lia.
      apply Nat.Div0.mod_mul. }
    assert (Hok : (rt_queue_push (RT.event_queue s) ev).1 = true).
    { destruct (rt_queue_push (RT.event_queue s) ev).1 eqn:E; [done|].
      apply (push_full_iff _ _ Hwf) in E. rewrite Hpend in E.
      unfold RT_EVENT_QUEUE_SIZE in E. lia. }
    assert (Hcont : contents (rt_queue_push (RT.event_queue s) ev).2 = [ev]).
    { rewrite push_contents by done.
      pose proof (pending_length _ Hwf) as Hl. rewrite Hpend in Hl.
      by destruct (contents (RT.event_queue s)). }
    assert (Hqd : queued = (MS_SUCCESS,
                            RT.set_queue s (rt_queue_push (RT.event_queue s) ev).2,
                            vid)).
    { unfold queued. rewrite (rt_note_on_push _ _ _ _ _ _ _ Hd Hs). cbn zeta.
      fold ev. by rewrite Hok. }
    split; [by rewrite Hqd|].
    set (s1 := RT.ms_all_notes_off queued.1.2).
    assert (Hq1 : RT.event_queue s1 = (rt_queue_push (RT.event_queue s) ev).2)
      by (unfold s1; by rewrite Hqd).
    destruct (rt_drain heap RT_EVENT_QUEUE_SIZE s1) as (D1 & _ & _).
    { rewrite Hq1. by apply push_wf. }
    { rewrite Hq1, Hcont. unfold RT_EVENT_QUEUE_SIZE. cbn [length]. lia. }
    unfold s', RT.process_events. fold s1. rewrite D1, Hq1, Hcont. cbn [fold_left].
    unfold ev. rewrite (rt_handle_note_on heap instrument i Hd _ _ _ _ smp Hfind).
    assert (Hcfg : RT.config s1 = RT.config s) by (unfold s1; by rewrite Hqd).
    assert (Hidle : Forall (fun v => RT.active v = false)
                           (take (RT.pool_size (RT.config s1)) (RT.voices s1))).
    { unfold s1. rewrite Hqd. cbn [fst snd].
      apply (rt_all_notes_off_idle (RT.set_queue s _)). }
    assert (Hne1 : RT.voices s1 <> []).
    { unfold s1. rewrite Hqd. cbn [fst snd RT.ms_all_notes_off RT.voices
        RT.set_voices RT.set_queue RT.config].
      destruct (RT.voices s) as [|v vs]; [done|].
      destruct (RT.pool_size (RT.config s)); [lia|]. done. }
    rewrite rt_first_slot_free; [|by rewrite Hcfg|done|done].
    destruct (RT.voices s1) as [|v vs] eqn:Ev; [done|].
    eexists. split; [reflexivity|]. apply rt_fill_spec.
Qed.

Lemma all_notes_off_silences_witness :
  (RT.ms_process example_heap
     (Some (RT.ms_all_notes_off (RT.new_sampler example_config)))
     (Some example_output) 4).2 = Some (replicate 8 F32.zero) /\
  exists v,
    RT.voices
      (RT.process_events example_heap
         (RT.ms_all_notes_off
            (RT.ms_note_on example_heap (RT.new_sampler example_config)
                           (Some 0%nat) 60 100 None).1.2)) !! 0%nat = Some v /\
    RT.active v = true /\ RT.note v = 60.
Proof.
  destruct all_notes_off_silences as (_ & Hr & Hq). split.
  - destruct (Hr example_heap (RT.new_sampler example_config) example_output 4
                eq_refl) as (_ & _ & _ & H).
    apply H. vm_compute. lia.
  - edestruct (Hq example_heap (RT.new_sampler example_config) (Some 0%nat)
                 example_instrument 60 100) as [_ H];
      [reflexivity|reflexivity|vm_compute; reflexivity|apply empty_queue_wf
      |reflexivity|vm_compute; lia|discriminate|exact H].
Defined.

(** ** Draining the event ring *)

Section Drain.

Local Arguments Nat.modulo : simpl never.

Lemma pending_zero_indices q :
  queue_wf q -> pending q = 0%nat -> read_idx q = write_idx q.
Proof.
  intros (Hw & Hr & _). unfold pending, RT_EVENT_QUEUE_SIZE in *. intros H.
  destruct (decide (read_idx q <= write_idx q)%nat).
  - replace (write_idx q + 256 - read_idx q)%nat
      with ((write_idx q - read_idx q) + 1 * 256)%nat in H by lia.
    rewrite Nat.Div0.mod_add, Nat.mod_small in H by lia. lia.
  - rewrite Nat.mod_small in H by lia. lia.
Qed.

Lemma rt_drain_wf heap fuel : forall s,
  queue_wf (RT.event_queue s) -> queue_wf (RT.event_queue (RT.drain heap fuel s)).
Proof.
  induction fuel as [|fuel IH]; intros s Hwf; [done|]. cbn [RT.drain].
  pose proof (pop_wf _ Hwf) as Hwf1.
  destruct (rt_queue_pop (RT.event_queue s)) as [[e|] q]; [|done].
  apply IH. exact Hwf1.
Qed.

Lemma rt_drain_other heap fuel : forall s,
  RT.frames_processed (RT.drain heap fuel s) = RT.frames_processed s /\
  RT.xruns (RT.drain heap fuel s) = RT.xruns s /\
  RT.next_voice_id (RT.drain heap fuel s) = RT.next_voice_id s.
Proof.
  induction fuel as [|fuel IH]; intros s; [done|]. cbn [RT.drain].
  destruct (rt_queue_pop (RT.event_queue s)) as [[e|] q]; [|done].
  destruct (IH (RT.set_voices (RT.set_queue s q)
                  (RT.handle_event heap (RT.config s) (RT.voices s) e)))
    as (I1 & I2 & I3).
  by rewrite I1, I2, I3.
Qed.

Lemma rt_process_queue heap s out frames :
  RT.event_queue <$> (RT.ms_process heap (Some s) (Some out) frames).1.2
  = Some (RT.event_queue (RT.process_events heap s)).
Proof.
  unfold RT.ms_process. generalize (RT.process_events heap s) as s1. intros s1.
  by destruct (RT.process_voices _ _ _ _ _).
Qed.

End Drain.

(** [X7] The real-time render call consumes the whole ring.  For every
    well-formed ring, [process_events] handles the pending events oldest
    first, each through sample lookup and voice allocation or through the
    release loop, and leaves the ring empty with its two indices equal;
    the sampler [ms_process] hands back has that empty ring, so 255 more
    events can be queued before the next render call. *)
Theorem process_events_drains_the_ring (heap : list ms_instrument_t)
    (s : RT.ms_sampler_t) :
  queue_wf (RT.event_queue s) ->
  let s1 := RT.process_events heap s in
  RT.voices s1
  = fold_left (RT.handle_event heap (RT.config s))
              (contents (RT.event_queue s)) (RT.voices s) /\
  contents (RT.event_queue s1) = [] /\
  read_idx (RT.event_queue s1) = write_idx (RT.event_queue s1) /\
  queue_wf (RT.event_queue s1) /\
  (forall out frames,
      RT.event_queue <$> (RT.ms_process heap (Some s) (Some out) frames).1.2
      = Some (RT.event_queue s1)) /\
  (forall l : list rt_event_t,
      length l = 255%nat ->
      (push_all (RT.event_queue s1) l).1 = replicate 255 true).
Proof.
  intros Hwf s1. subst s1.
  pose proof (rt_process_queue heap s) as HQ. revert HQ.
  unfold RT.process_events.
  destruct (rt_drain heap RT_EVENT_QUEUE_SIZE s Hwf) as (D1 & D2 & D3).
  { rewrite pending_length by done. pose proof (pending_lt _ Hwf). lia. }
  pose proof (rt_drain_wf heap RT_EVENT_QUEUE_SIZE s Hwf) as Hwf1.
  revert D1 D2 D3 Hwf1. generalize (RT.drain heap RT_EVENT_QUEUE_SIZE s) as s1.
  intros s1 D1 D2 D3 Hwf1 HQ.
  assert (Hp : pending (RT.event_queue s1) = 0%nat)
    by (by rewrite <- pending_length, D3).
  split_and!;
    [exact D1|exact D3|by apply pending_zero_indices|exact Hwf1|exact HQ|].
  intros l Hl.
  destruct (push_all_room (RT.event_queue s1) l Hwf1) as [H1 _].
  { rewrite Hp, Hl. unfold RT_EVENT_QUEUE_SIZE. lia. }
  by rewrite H1, Hl.
Qed.

Lemma process_events_drains_the_ring_witness :
  let s := (rt_note_on_all example_heap (RT.new_sampler example_config)
              (Some 0%nat) [(60, 100); (64, 100); (67, 100)]).2 in
  length (contents (RT.event_queue s)) = 3%nat /\
  contents (RT.event_queue (RT.process_events example_heap s)) = [] /\
  read_idx (RT.event_queue (RT.process_events example_heap s)) = 3%nat /\
  write_idx (RT.event_queue (RT.process_events example_heap s)) = 3%nat.
Proof.
  intros s.
  assert (Hwf : queue_wf (RT.event_queue s)).
  { split_and!; [vm_compute; lia|vm_compute; lia|vm_compute; reflexivity]. }
  destruct (process_events_drains_the_ring example_heap s Hwf)
    as (_ & H2 & H3 & _ & _ & _).
  split; [vm_compute; reflexivity|]. split; [exact H2|].
  split; [|rewrite <- H3]; vm_compute; reflexivity.
Defined.

(** ** A note-on that resolves to no sample *)

(** [X8] A note-on for which [instrument_find_sample] finds no sample (an
    instrument without samples).  The plain build refuses it:
    [ms_note_on] returns [MS_ERROR_INVALID_PARAM] and changes neither the
    sampler nor the [voice_id] cell.  The real-time build accepts it: with
    room in the ring [ms_note_on] returns [MS_SUCCESS], and the next
    [process_events] drops the event, leaving every voice as it was and
    the ring empty. *)
Theorem unresolved_note_on (pow : double -> double -> double)
    (heap : list ms_instrument_t) (instrument : option nat) (i : ms_instrument_t)
    (n vel : Z) (vid : option Z) :
  RT.deref heap instrument = Some i -> inst_sampler i = true ->
  instrument_find_sample (Some i) n vel = None ->
  (forall s, Core.ms_note_on pow heap s instrument n vel vid
             = (MS_ERROR_INVALID_PARAM, s, vid)) /\
  (forall s,
      queue_wf (RT.event_queue s) ->
      read_idx (RT.event_queue s) = write_idx (RT.event_queue s) ->
      let queued := RT.ms_note_on heap s instrument n vel vid in
      queued.1.1 = MS_SUCCESS /\ queued.2 = vid /\
      RT.voices (RT.process_events heap queued.1.2) = RT.voices s /\
      contents (RT.event_queue (RT.process_events heap queued.1.2)) = []).
Proof.
  intros Hd Hs Hfind. split.
  - intros s. unfold Core.ms_note_on.
    change (Core.deref heap instrument) with (RT.deref heap instrument).
    by rewrite Hd, Hs, Hfind.
  - intros s Hwf Hq queued.
    set (ev := note_on_event instrument (n, vel)).
    assert (Hpend : pending (RT.event_queue s) = 0%nat).
    { unfold pending. rewrite Hq.
      replace (write_idx (RT.event_queue s) + RT_EVENT_QUEUE_SIZE
               - write_idx (RT.event_queue s))%nat
        with (1 * RT_EVENT_QUEUE_SIZE)%nat by lia.
      apply Nat.Div0.mod_mul. }
    assert (Hok : (rt_queue_push (RT.event_queue s) ev).1 = true).
    { destruct (rt_queue_push (RT.event_queue s) ev).1 eqn:E; [done|].
      apply (push_full_iff _ _ Hwf) in E. rewrite Hpend in E.
      unfold RT_EVENT_QUEUE_SIZE in E. lia. }
    assert (Hcont : contents (rt_queue_push (RT.event_queue s) ev).2 = [ev]).
    { rewrite push_contents by done.
      pose proof (pending_length _ Hwf) as Hl. rewrite Hpend in Hl.
      by destruct (contents (RT.event_queue s)). }
    assert (Hqd : queued = (MS_SUCCESS,
                            RT.set_queue s (rt_queue_push (RT.event_queue s) ev).2,
                            vid)).
    { unfold queued. rewrite (rt_note_on_push _ _ _ _ _ _ _ Hd Hs). cbn zeta.
      fold ev. by rewrite Hok. }
    rewrite Hqd. cbn [fst snd]. split; [done|]. split; [done|].
    destruct (rt_drain heap RT_EVENT_QUEUE_SIZE
                (RT.set_queue s (rt_queue_push (RT.event_queue s) ev).2))
      as (D1 & _ & D3).
    { by apply push_wf. }
    { cbn [RT.set_queue RT.event_queue]. rewrite Hcont.
      unfold RT_EVENT_QUEUE_SIZE. cbn [length]. lia. }
    unfold RT.process_events. rewrite D1, D3. split; [|done].
    cbn [RT.set_queue RT.event_queue RT.voices RT.config]. rewrite Hcont.
    cbn [fold_left]. unfold RT.handle_event, ev, note_on_event.
    cbn [event_type ev_instrument ev_note ev_velocity fst snd].
    by rewrite Hd, Hfind.
Qed.

Lemma unresolved_note_on_witness :
  let empty := {| samples := []; inst_envelope := example_envelope;
                  pitch_bend_range := F32.of_Z 2; current_pitch_bend := 0;
                  inst_sampler := true |} in
  Core.ms_note_on example_pow [empty] (Core.new_sampler example_config)
                  (Some 0%nat) 60 100 (Some 7)
  = (MS_ERROR_INVALID_PARAM, Core.new_sampler example_config, Some 7) /\
  (RT.ms_note_on [empty] (RT.new_sampler example_config)
                 (Some 0%nat) 60 100 (Some 7)).1.1 = MS_SUCCESS.
Proof.
  intros empty.
  destruct (unresolved_note_on example_pow [empty] (Some 0%nat) empty 60 100
              (Some 7) eq_refl eq_refl eq_refl) as [Hc Hr].
  split; [apply Hc|].
  destruct (Hr (RT.new_sampler example_config) empty_queue_wf eq_refl) as (H & _).
  exact H.
Defined.

(** ** From note-off to a free voice *)

Section CoreNoteOff.
Import Core.

(** What the mixing loop does to the voice in slot [j]. *)
Lemma core_voices_lookup frames chans n : forall vs out j v,
  vs !! j = Some v ->
  exists o, (process_voices n vs (Some out) frames chans).1 !! j
            = Some (if (j <? n)%nat then (voice_process v (Some o) frames chans).1
                    else v).
Proof.
  induction n as [|n IH]; intros vs out j v Hj; [by exists out|].
  destruct vs as [|v0 vs]; [done|]. cbn [process_voices].
  destruct (core_voice_same_from v0 out frames chans) as (o1 & E1 & _).
  assert (Hstep : exists o1',
            (if active v0 then voice_process v0 (Some out) frames chans
             else (v0, Some out))
            = ((voice_process v0 (Some out) frames chans).1, Some o1')).
  { destruct (active v0) eqn:Ha.
    - exists o1. rewrite <- E1. by destruct (voice_process _ _ _ _).
    - exists out. by rewrite core_voice_inactive. }
  destruct Hstep as [o1' ->].
  destruct j as [|j].
  - cbn in Hj. injection Hj as ->. exists out.
    by destruct (process_voices n vs (Some o1') frames chans).
  - cbn in Hj. destruct (IH vs o1' j v Hj) as [o Ho]. exists o.
    destruct (process_voices n vs (Some o1') frames chans) as [vs1 out2].
    cbn [fst] in *. cbn. exact Ho.
Qed.

Lemma core_release_matching_lookup n vs nt instr j v :
  vs !! j = Some v -> (j < n)%nat ->
  release_matching n vs nt instr !! j
  = Some (if active v && (note v =? nt) && bool_decide (instrument v = instr)
          then voice_release v else v).
Proof.
  intros Hj Hn. unfold release_matching.
  rewrite lookup_app_l by (rewrite length_map, length_take;
                           apply lookup_lt_Some in Hj; lia).
  by rewrite list_lookup_fmap, lookup_take_lt, Hj.
Qed.

Lemma core_note_off_frees heap s instr i nt out frames j v :
  deref heap instr = Some i -> inst_sampler i = true ->
  (j < pool_size (config s))%nat -> voices s !! j = Some v ->
  active v = true -> note v = nt -> instrument v = instr -> is_Some (sample v) ->
  release_samples (sample_rate (envelope v)) (params (envelope v)) + 1 <= frames ->
  let off := ms_note_off heap s instr nt in
  off.1 = MS_SUCCESS /\
  voices off.2 !! j = Some (voice_release v) /\
  exists s2 v2, (ms_process (Some off.2) (Some out) frames).1.2 = Some s2 /\
                voices s2 !! j = Some v2 /\ active v2 = false.
Proof.
  intros Hd Hs Hj Hv Ha Hn Hi Hsmp Hf off.
  assert (Hoff : off = (MS_SUCCESS,
            set_voices s (release_matching (pool_size (config s)) (voices s) nt instr))).
  { unfold off, ms_note_off. by rewrite Hd, Hs. }
  rewrite Hoff. cbn [fst snd set_voices voices].
  assert (Hrel : release_matching (pool_size (config s)) (voices s) nt instr !! j
                 = Some (voice_release v)).
  { rewrite (core_release_matching_lookup _ _ _ _ j v) by done.
    rewrite Ha, Hn, Z.eqb_refl, bool_decide_eq_true_2 by done. done. }
  split; [done|]. split; [done|].
  unfold ms_process. cbn [config voices set_voices].
  destruct (core_voices_lookup frames (channels (config s)) (pool_size (config s))
              (release_matching (pool_size (config s)) (voices s) nt instr)
              (memset_zero (Z.to_nat ((frames * channels (config s)) mod 2 ^ 64)) out)
              j (voice_release v) Hrel) as [o Ho].
  destruct (process_voices _ _ _ _ _) as [vs1 out1]. cbn [fst snd voices] in *.
  eexists _, _. split; [reflexivity|]. cbn [voices]. split; [exact Ho|].
  rewrite (proj2 (Nat.ltb_lt _ _) Hj).
  apply (core_released_freed (channels (config s)) v [(o, frames)] Hsmp).
  cbn. lia.
Qed.

End CoreNoteOff.

Section RTNoteOff.
Import RT.

Lemma push_on_empty q ev :
  queue_wf q -> read_idx q = write_idx q ->
  (rt_queue_push q ev).1 = true /\ contents (rt_queue_push q ev).2 = [ev] /\
  queue_wf (rt_queue_push q ev).2.
Proof.
  intros Hwf Hq.
  assert (Hpend : pending q = 0%nat).
  { unfold pending. rewrite Hq.
    replace (write_idx q + RT_EVENT_QUEUE_SIZE - write_idx q)%nat
      with (1 * RT_EVENT_QUEUE_SIZE)%nat by lia.
    apply Nat.Div0.mod_mul. }
  assert (Hok : (rt_queue_push q ev).1 = true).
  { destruct (rt_queue_push q ev).1 eqn:E; [done|].
    apply (push_full_iff _ _ Hwf) in E. rewrite Hpend in E.
    unfold RT_EVENT_QUEUE_SIZE in E. lia. }
  split_and!; [done| |by apply push_wf].
  rewrite push_contents by done.
  pose proof (pending_length _ Hwf) as Hl. rewrite Hpend in Hl.
  by destruct (contents q).
Qed.

Lemma rt_voices_lookup frames chans n : forall vs out j v,
  vs !! j = Some v ->
  exists o, (process_voices n vs (Some out) frames chans).1 !! j
            = Some (if (j <? n)%nat then (voice_process v (Some o) frames chans).1
                    else v).
Proof.
  induction n as [|n IH]; intros vs out j v Hj; [by exists out|].
  destruct vs as [|v0 vs]; [done|]. cbn [process_voices].
  destruct (rt_voice_same_from v0 out frames chans) as (o1 & E1 & _).
  assert (Hstep : exists o1',
            (if active v0 then voice_process v0 (Some out) frames chans
             else (v0, Some out))
            = ((voice_process v0 (Some out) frames chans).1, Some o1')).
  { destruct (active v0) eqn:Ha.
    - exists o1. rewrite <- E1. by destruct (voice_process _ _ _ _).
    - exists out. by rewrite rt_voice_inactive. }
  destruct Hstep as [o1' ->].
  destruct j as [|j].
  - cbn in Hj. injection Hj as ->. exists out.
    by destruct (process_voices n vs (Some o1') frames chans).
  - cbn in Hj. destruct (IH vs o1' j v Hj) as [o Ho]. exists o.
    destruct (process_voices n vs (Some o1') frames chans) as [vs1 out2].
    cbn [fst] in *. cbn. exact Ho.
Qed.

Lemma rt_release_matching_lookup n vs nt instr j v :
  vs !! j = Some v -> (j < n)%nat ->
  release_matching n vs nt instr !! j
  = Some (if active v && (note v =? nt) && bool_decide (instrument v = instr)
          then voice_release v else v).
Proof.
  intros Hj Hn. unfold release_matching.
  rewrite lookup_app_l by (rewrite length_map, length_take;
                           apply lookup_lt_Some in Hj; lia).
  by rewrite list_lookup_fmap, lookup_take_lt, Hj.
Qed.

Lemma rt_note_off_frees heap s instr i nt out frames j v :
  deref heap instr = Some i -> inst_sampler i = true ->
  queue_wf (event_queue s) -> read_idx (event_queue s) = write_idx (event_queue s) ->
  (j < pool_size (config s))%nat -> voices s !! j = Some v ->
  active v = true -> note v = nt -> instrument v = instr -> is_Some (sample v) ->
  release_samples (sample_rate (envelope v)) (params (envelope v)) + 1 <= frames ->
  let off := ms_note_off heap s instr nt in
  off.1 = MS_SUCCESS /\ voices off.2 = voices s /\
  exists s2 v2, (ms_process heap (Some off.2) (Some out) frames).1.2 = Some s2 /\
                voices s2 !! j = Some v2 /\ active v2 = false.
Proof.
  intros Hd Hs Hwf Hq Hj Hv Ha Hn Hi Hsmp Hf off.
  set (ev := {| ev_note := nt; ev_velocity := 0; event_type := 1;
                ev_instrument := instr |}).
  destruct (push_on_empty (event_queue s) ev Hwf Hq) as (Hok & Hcont & Hwf1).
  assert (Hoff : off = (MS_SUCCESS, set_queue s (rt_queue_push (event_queue s) ev).2)).
  { unfold off, ms_note_off. rewrite Hd, Hs. cbn [negb]. fold ev.
    destruct (rt_queue_push (event_queue s) ev) as [ok q]. cbn [fst snd] in *.
    by rewrite Hok. }
  rewrite Hoff. cbn [fst snd]. split; [done|]. split; [done|].
  set (s1 := set_queue s (rt_queue_push (event_queue s) ev).2).
  destruct (rt_drain heap RT_EVENT_QUEUE_SIZE s1) as (D1 & D2 & _).
  { exact Hwf1. }
  { unfold s1. cbn [set_queue event_queue]. rewrite Hcont.
    unfold RT_EVENT_QUEUE_SIZE. cbn [length]. lia. }
  assert (Hvs : voices (process_events heap s1)
                = release_matching (pool_size (config s)) (voices s) nt instr).
  { unfold process_events. rewrite D1. unfold s1 at 2.
    cbn [set_queue event_queue]. rewrite Hcont. cbn [fold_left].
    unfold handle_event, ev. cbn [event_type ev_note ev_instrument]. done. }
  assert (Hcfg : config (process_events heap s1) = config s)
    by (by rewrite rt_process_events_config).
  unfold ms_process. revert Hvs Hcfg.
  generalize (process_events heap s1) as s1'. intros s1' Hvs Hcfg.
  rewrite Hcfg, Hvs.
  assert (Hrel : release_matching (pool_size (config s)) (voices s) nt instr !! j
                 = Some (voice_release v)).
  { rewrite (rt_release_matching_lookup _ _ _ _ j v) by done.
    rewrite Ha, Hn, Z.eqb_refl, bool_decide_eq_true_2 by done. done. }
  destruct (rt_voices_lookup frames (channels (config s)) (pool_size (config s))
              (release_matching (pool_size (config s)) (voices s) nt instr)
              (memset_zero (Z.to_nat ((frames * channels (config s1)) mod 2 ^ 64)) out)
              j (voice_release v) Hrel) as [o Ho].
  destruct (process_voices _ _ _ _ _) as [vs1 out1]. cbn [fst snd voices] in *.
  eexists _, _. split; [reflexivity|]. cbn [voices set_voices]. split; [exact Ho|].
  rewrite (proj2 (Nat.ltb_lt _ _) Hj).
  apply (rt_released_freed (channels (config s)) v [(o, frames)] Hsmp).
  cbn. lia.
Qed.

End RTNoteOff.

(** [X9] From note-off to a free voice.  Take a sounding voice of the pool
    that holds a sample, and call [ms_note_off] for its note and
    instrument.  In the plain build the call puts the voice at the start
    of its release stage; in the real-time build it only queues the event.
    In both builds the voice is inactive, free to be allocated again,
    after one [ms_process] call of at least [N + 1] frames, [N] being the
    release length of the voice in samples. *)
Theorem note_off_frees_the_voice (heap : list ms_instrument_t)
    (instr : option nat) (i : ms_instrument_t) (nt : Z)
    (out : list float) (frames : Z) (j : nat) :
  RT.deref heap instr = Some i -> inst_sampler i = true ->
  (forall s v,
      (j < Core.pool_size (Core.config s))%nat -> Core.voices s !! j = Some v ->
      Core.active v = true -> Core.note v = nt -> Core.instrument v = instr ->
      is_Some (Core.sample v) ->
      release_samples (Core.sample_rate (Core.envelope v))
                      (Core.params (Core.envelope v)) + 1 <= frames ->
      let off := Core.ms_note_off heap s instr nt in
      off.1 = MS_SUCCESS /\
      Core.voices off.2 !! j = Some (Core.voice_release v) /\
      exists s2 v2,
        (Core.ms_process (Some off.2) (Some out) frames).1.2 = Some s2 /\
        Core.voices s2 !! j = Some v2 /\ Core.active v2 = false) /\
  (forall s v,
      queue_wf (RT.event_queue s) ->
      read_idx (RT.event_queue s) = write_idx (RT.event_queue s) ->
      (j < RT.pool_size (RT.config s))%nat -> RT.voices s !! j = Some v ->
      RT.active v = true -> RT.note v = nt -> RT.instrument v = instr ->
      is_Some (RT.sample v) ->
      release_samples (RT.sample_rate (RT.envelope v))
                      (RT.params (RT.envelope v)) + 1 <= frames ->
      let off := RT.ms_note_off heap s instr nt in
      off.1 = MS_SUCCESS /\ RT.voices off.2 = RT.voices s /\
      exists s2 v2,
        (RT.ms_process heap (Some off.2) (Some out) frames).1.2 = Some s2 /\
        RT.voices s2 !! j = Some v2 /\ RT.active v2 = false).
Proof.
  intros Hd Hs. split.
  - intros s v. by apply (core_note_off_frees heap s instr i).
  - intros s v. by apply (rt_note_off_frees heap s instr i).
Qed.

Lemma note_off_frees_the_voice_witness :
  let s := (Core.ms_note_on example_pow example_heap
              (Core.new_sampler example_config) (Some 0%nat) 60 50 None).1.2 in
  let out := replicate (Z.to_nat 26462) F32.zero in
  exists s2 v2,
    (Core.ms_process (Some (Core.ms_note_off example_heap s (Some 0%nat) 60).2)
                     (Some out) 13231).1.2 = Some s2 /\
    Core.voices s2 !! 0%nat = Some v2 /\ Core.active v2 = false.
Proof.
  intros s out.
  edestruct (proj1 (note_off_frees_the_voice example_heap (Some 0%nat)
                      example_instrument 60 out 13231 0%nat eq_refl eq_refl) s)
    as (_ & _ & H);
    [vm_compute; lia|vm_compute; reflexivity|reflexivity|reflexivity|reflexivity
    |eexists; reflexivity|apply Z.leb_le; vm_compute; reflexivity|exact H].
Defined.

(** ** Ties in sample resolution *)

Section FindSampleFirst.

Variables (note velocity : Z).

Implicit Types (s : ms_sample_data_t) (l : list ms_sample_data_t) (st : find_state).

(** A scan either keeps the state it started from or ends on the first
    of the competing samples that attain the least distance. *)
Lemma guarded_fold_first p l : forall st,
  let st' := fold_left (guarded_step note p) l st in
  st' = st \/
  exists k s, l !! k = Some s /\ st'.1 = Some s /\ p s = true /\
              note_distance note s < st.2 /\
              forall j t, (j < k)%nat -> l !! j = Some t -> p t = true ->
                          note_distance note s < note_distance note t.
Proof.
  induction l as [|x l IH] using rev_ind; intros st; [by left|].
  cbn zeta. rewrite fold_left_app. cbn [fold_left].
  destruct (guarded_fold note p l st) as (Hle & Hmin & _).
  specialize (IH st). cbn zeta in IH.
  set (st0 := fold_left (guarded_step note p) l st) in *.
  assert (Hstep : guarded_step note p st0 x
                  = if p x then
                      if note_distance note x <? st0.2
                      then (Some x, note_distance note x) else st0
                    else st0) by reflexivity.
  rewrite Hstep. clear Hstep.
  destruct (p x) eqn:Hp; [destruct (_ <? _) eqn:E|].
  - right. exists (length l), x. apply Z.ltb_lt in E. cbn [fst snd].
    split_and!; [by rewrite lookup_app_r, Nat.sub_diag by lia|done|done|lia|].
    intros j t Hj Ht Hpt. rewrite lookup_app_l in Ht by done.
    apply list_elem_of_lookup_2 in Ht. specialize (Hmin t Ht Hpt). lia.
  - destruct IH as [IH|(k & s & H1 & H2 & H3 & H4 & H5)]; [by left|right].
    exists k, s. pose proof (lookup_lt_Some _ _ _ H1) as Hk.
    split_and!; [by rewrite lookup_app_l|done|done|done|].
    intros j t Hj Ht Hpt. rewrite lookup_app_l in Ht by lia.
    exact (H5 j t Hj Ht Hpt).
  - destruct IH as [IH|(k & s & H1 & H2 & H3 & H4 & H5)]; [by left|right].
    exists k, s. pose proof (lookup_lt_Some _ _ _ H1) as Hk.
    split_and!; [by rewrite lookup_app_l|done|done|done|].
    intros j t Hj Ht Hpt. rewrite lookup_app_l in Ht by lia.
    exact (H5 j t Hj Ht Hpt).
Qed.

End FindSampleFirst.

(** [X10] Ties go to the sample loaded first.  Whenever
    [instrument_find_sample] returns a sample, every sample that stands
    before it in the instrument's list and competes with it (its velocity
    range holds the velocity, or no sample's range does) lies strictly
    farther from the note: among equally close samples the earliest
    loaded one is returned. *)
Theorem find_sample_prefers_the_first (inst : ms_instrument_t)
    (note velocity : Z) (b : ms_sample_data_t) :
  instrument_find_sample (Some inst) note velocity = Some b ->
  exists k, samples inst !! k = Some b /\
    forall j t, (j < k)%nat -> samples inst !! j = Some t ->
      velocity_match velocity t \/
      (forall u, u ∈ samples inst -> ~ velocity_match velocity u) ->
      note_distance note b < note_distance note t.
Proof.
  unfold instrument_find_sample.
  rewrite (velocity_scan_guarded note velocity).
  destruct (guarded_fold_first note (in_velocity_range velocity) (samples inst)
              (None, 128)) as [Hsame|(k & s & H1 & H2 & H3 & H4 & H5)].
  - rewrite Hsame. cbn [fst]. destruct (0 <? num_samples inst); [|done].
    rewrite (closest_scan_guarded note).
    destruct (guarded_fold_first note (fun _ => true) (samples inst) (None, 128))
      as [Hsame2|(k & s & H1 & H2 & H3 & H4 & H5)]; [by rewrite Hsame2|].
    rewrite H2. intros [= <-]. exists k. split; [done|].
    intros j t Hj Ht _. by apply (H5 j t).
  - rewrite H2. intros [= <-]. exists k. split; [done|].
    intros j t Hj Ht [Hm|Hnone].
    + apply (H5 j t Hj Ht). by apply in_velocity_range_spec.
    + exfalso. apply (Hnone s (list_elem_of_lookup_2 _ _ _ H1)).
      by apply in_velocity_range_spec.
Qed.

Lemma find_sample_prefers_the_first_witness :
  instrument_find_sample (Some example_instrument) 60 100
  = Some (example_sample 72 64 127) /\
  note_distance 60 (example_sample 72 64 127)
  = note_distance 60 (example_sample 48 64 127) /\
  exists k, samples example_instrument !! k = Some (example_sample 72 64 127).
Proof.
  assert (H : instrument_find_sample (Some example_instrument) 60 100
              = Some (example_sample 72 64 127)) by (vm_compute; reflexivity).
  split; [exact H|]. split; [reflexivity|].
  destruct (find_sample_prefers_the_first example_instrument 60 100 _ H)
    as (k & Hk & _).
  by exists k.
Defined.

(** ** Loading samples from memory *)

Lemma load_all_spec l : forall inst,
  (length (samples inst) <= 128)%nat ->
  let room := (128 - length (samples inst))%nat in
  (load_all (Some inst) l).1
  = replicate (length l `min` room) MS_SUCCESS
    ++ replicate (length l - room) MS_ERROR_BUFFER_OVERFLOW /\
  exists inst',
    (load_all (Some inst) l).2 = Some inst' /\
    samples inst' = samples inst ++ (loaded_sample <$> take room l) /\
    inst_envelope inst' = inst_envelope inst /\
    pitch_bend_range inst' = pitch_bend_range inst /\
    current_pitch_bend inst' = current_pitch_bend inst /\
    inst_sampler inst' = inst_sampler inst.
Proof.
  induction l as [|r l IH]; intros inst Hlen room.
  - cbn. split; [done|]. exists inst. by rewrite take_nil, app_nil_r.
  - cbn [load_all]. unfold Core.ms_instrument_load_sample_memory.
    unfold num_samples, MS_MAX_SAMPLES_PER_INSTRUMENT.
    destruct (Z.leb_spec 128 (Z.of_nat (length (samples inst)))) as [Hfull|Hroom].
    + assert (Hr : room = 0%nat) by (unfold room; lia).
      destruct (IH inst Hlen) as (I1 & inst' & I2 & I3 & I4).
      fold room in I1, I3. rewrite Hr in *.
      destruct (load_all (Some inst) l) as [errs inst2]. cbn [fst snd] in *.
      rewrite I1. split.
      * rewrite Nat.min_0_r, !Nat.sub_0_r. cbn [length replicate app]. done.
      * exists inst'. by rewrite take_0 in *.
    + set (inst1 := {| samples := samples inst ++ [_] |}).
      assert (Hlen1 : length (samples inst1) = S (length (samples inst)))
        by (unfold inst1; cbn [samples]; rewrite length_app; cbn; lia).
      destruct (IH inst1) as (I1 & inst' & I2 & I3 & I4); [lia|].
      rewrite Hlen1 in I1, I3.
      destruct (load_all (Some inst1) l) as [errs inst2]. cbn [fst snd] in *.
      assert (Hr : room = S (128 - S (length (samples inst)))) by (unfold room; lia).
      rewrite Hr, I1. split.
      * cbn [length]. rewrite <- Nat.succ_min_distr. cbn [replicate app].
        do 2 f_equal.
      * exists inst'. split; [done|]. split; [|exact I4].
        rewrite I3. unfold inst1. cbn [samples take fmap list_fmap].
        by rewrite <- app_assoc.
Qed.

(** [X11] Loading samples from memory.  A run of
    [ms_instrument_load_sample_memory] calls into a freshly created
    instrument succeeds for the first 128 loads and returns
    [MS_ERROR_BUFFER_OVERFLOW] for every later one; the instrument then
    holds the samples of the successful loads in load order, each with the
    first [num_frames * channels] floats of its buffer, and never more
    than 128.  Any [NULL] argument gives [MS_ERROR_INVALID_PARAM] and leaves
    the instrument as it was.  A single sample with root note in 0..127
    loaded into a fresh instrument is what [instrument_find_sample] returns
    for every note and velocity in 0..127.  The real-time build has the
    same function. *)
Theorem load_sample_memory_capacity_and_order :
  (forall l : list load_request,
      let inst0 := (Core.ms_instrument_create true).2 in
      (load_all inst0 l).1
      = replicate (length l `min` 128) MS_SUCCESS
        ++ replicate (length l - 128) MS_ERROR_BUFFER_OVERFLOW /\
      samples <$> (load_all inst0 l).2 = Some (loaded_sample <$> take 128 l) /\
      (num_samples <$> (load_all inst0 l).2
       = Some (Z.of_nat (length l) `min` 128))) /\
  (forall instrument d frames chans metadata,
      instrument = None \/ d = None \/ metadata = None ->
      Core.ms_instrument_load_sample_memory instrument d frames chans metadata
      = (MS_ERROR_INVALID_PARAM, instrument)) /\
  (forall (r : load_request) note velocity,
      0 <= root_note (lr_meta r) <= 127 ->
      0 <= note <= 127 ->
      instrument_find_sample
        (load_all (Core.ms_instrument_create true).2 [r]).2 note velocity
      = Some (loaded_sample r)) /\
  (forall instrument d frames chans metadata,
      RT.ms_instrument_load_sample_memory instrument d frames chans metadata
      = Core.ms_instrument_load_sample_memory instrument d frames chans metadata).
Proof.
  split_and!.
  - intros l inst0.
    destruct (load_all_spec l {| samples := [];
                inst_envelope :=
                  {| attack_time := f32_lit 1 2; decay_time := f32_lit 1 1;
                     sustain_level := f32_lit 7 1; release_time := f32_lit 3 1 |};
                pitch_bend_range := F32.of_Z 2; current_pitch_bend := 0;
                inst_sampler := true |})
      as (H1 & inst' & H2 & H3 & _); [cbn; lia|].
    cbn [samples length Nat.sub app] in H1, H3.
    change (load_all inst0 l) with (load_all (Some {| samples := [];
                inst_envelope :=
                  {| attack_time := f32_lit 1 2; decay_time := f32_lit 1 1;
                     sustain_level := f32_lit 7 1; release_time := f32_lit 3 1 |};
                pitch_bend_range := F32.of_Z 2; current_pitch_bend := 0;
                inst_sampler := true |}) l).
    rewrite H1, H2. cbn [fmap option_fmap option_map].
    split; [done|]. split; [by rewrite H3|].
    unfold num_samples. rewrite H3, length_fmap, length_take. f_equal. lia.
  - intros instrument d frames chans metadata [->|[->| ->]]; [done| |].
    + by destruct instrument.
    + by destruct instrument, d.
  - intros r note velocity Hroot Hnote.
    destruct (Core.ms_instrument_create true).2 as [inst0|] eqn:E0; [|done].
    destruct (load_all_spec [r] inst0) as (_ & inst' & H2 & H3 & _).
    { injection E0 as <-. cbn. lia. }
    assert (Hs : samples inst' = [loaded_sample r]).
    { rewrite H3. injection E0 as <-. reflexivity. }
    rewrite H2. unfold instrument_find_sample, num_samples. rewrite Hs.
    cbn [fold_left velocity_step closest_step length].
    change (meta (loaded_sample r)) with (lr_meta r).
    assert (Hd : (Z.abs (note - root_note (lr_meta r)) <? 128) = true)
      by (apply Z.ltb_lt; lia).
    rewrite Hd.
    destruct ((velocity_low (lr_meta r) <=? velocity)
              && (velocity <=? velocity_high (lr_meta r))); [done|].
    cbn [fst closest_step]. change (meta (loaded_sample r)) with (lr_meta r).
    by rewrite Hd.
  - reflexivity.
Qed.

Lemma load_sample_memory_capacity_and_order_witness :
  let r := {| lr_data := data (example_sample 60 0 127); lr_frames := 4;
              lr_channels := 1; lr_meta := example_meta 60 0 127 |} in
  instrument_find_sample
    (load_all (Core.ms_instrument_create true).2 [r]).2 72 100
  = Some (example_sample 60 0 127) /\
  Core.ms_instrument_load_sample_memory None (Some (lr_data r)) 4 1
    (Some (lr_meta r)) = (MS_ERROR_INVALID_PARAM, None).
Proof.
  intros r.
  destruct load_sample_memory_capacity_and_order as (_ & Hnull & Hfind & _).
  split.
  - rewrite (Hfind r 72 100) by (cbn; lia). reflexivity.
  - apply Hnull. by left.
Defined.

(** ** Velocity gain *)

Lemma CORE_GAINS_eq :
  CORE_GAINS = map (fun k => core_velocity_gain (Z.of_nat k)) (seq 0 256).
Proof. vm_compute. reflexivity. Qed.

Lemma RT_GAINS_eq :
  RT_GAINS = map (fun k => rt_velocity_gain (Z.of_nat k)) (seq 0 256).
Proof. vm_compute. reflexivity. Qed.

Lemma core_gain_nth vel :
  0 <= vel <= 255 -> nth (Z.to_nat vel) CORE_GAINS F32.zero = core_velocity_gain vel.
Proof.
  intros Hv. rewrite CORE_GAINS_eq.
  rewrite (nth_indep _ F32.zero ((fun k => core_velocity_gain (Z.of_nat k)) 0%nat))
    by (rewrite length_map, length_seq; lia).
  rewrite (map_nth (fun k => core_velocity_gain (Z.of_nat k))).
  rewrite seq_nth by lia. f_equal. lia.
Qed.

Lemma rt_gain_nth vel :
  0 <= vel <= 255 -> nth (Z.to_nat vel) RT_GAINS F32.zero = rt_velocity_gain vel.
Proof.
  intros Hv. rewrite RT_GAINS_eq.
  rewrite (nth_indep _ F32.zero ((fun k => rt_velocity_gain (Z.of_nat k)) 0%nat))
    by (rewrite length_map, length_seq; lia).
  rewrite (map_nth (fun k => rt_velocity_gain (Z.of_nat k))).
  rewrite seq_nth by lia. f_equal. lia.
Qed.

Lemma all_gains_ok :
  forallb (fun a => forallb (gains_ok a) (seq 0 256)) (seq 0 256) = true.
Proof. vm_compute. reflexivity. Qed.

Lemma all_gains_agree_ok : forallb gains_agree_ok (seq 0 128) = true.
Proof. vm_compute. reflexivity. Qed.

(** [X12] Velocity gain.  The plain build scales every frame by
    [velocity / 127.0f], the real-time build by the [velocity_gain] that
    [voice_trigger] stores, [velocity * (1.0f / 127.0f)].  In both builds
    the gain is [+0.0] at velocity 0, exactly 1.0 at velocity 127, and
    strictly increasing over the whole [uint8_t] range 0..255 (so above 1
    past 127).  The two builds compute the same gain for every velocity
    up to 127 except 9, 13, 18, 26, 36, 52, 72 and 104, where the two
    roundings differ. *)
Theorem velocity_gain_monotone :
  (forall v smp out frames chans,
      Core.sample v = Some smp -> Core.active v = true ->
      (Core.voice_process v (Some out) frames chans).2
      = Some (Core.fs_output
                (Core.voice_frames smp (Core.playback_speed v)
                   (core_velocity_gain (Core.velocity v)) chans
                   (Z.to_nat frames) 0%nat
                   {| Core.fs_position := Core.playback_position v;
                      Core.fs_envelope := Core.envelope v;
                      Core.fs_active := true; Core.fs_output := out |}))) /\
  (forall v smp n vel e,
      RT.velocity_gain (RT.voice_trigger v (Some smp) n vel (Some e))
      = rt_velocity_gain vel) /\
  core_velocity_gain 0 = F32.zero /\ rt_velocity_gain 0 = F32.zero /\
  core_velocity_gain 127 = F32.one /\ rt_velocity_gain 127 = F32.one /\
  (forall a b, 0 <= a -> a < b -> b <= 255 ->
      SFltb (core_velocity_gain a) (core_velocity_gain b) = true /\
      SFltb (rt_velocity_gain a) (rt_velocity_gain b) = true) /\
  (forall a, 0 <= a <= 127 ->
      SFeqb (core_velocity_gain a) (rt_velocity_gain a) = true
      <-> ~ In a GAIN_MISMATCHES).
Proof.
  split_and!.
  - intros v smp out frames chans Hs Ha. unfold Core.voice_process.
    by rewrite Hs, Ha.
  - reflexivity.
  - reflexivity.
  - reflexivity.
  - vm_compute. reflexivity.
  - vm_compute. reflexivity.
  - intros a b Ha Hab Hb.
    pose proof all_gains_ok as Hall.
    rewrite forallb_forall in Hall. specialize (Hall (Z.to_nat a)).
    rewrite forallb_forall in Hall.
    assert (Hok : gains_ok (Z.to_nat a) (Z.to_nat b) = true)
      by (apply Hall; apply in_seq; lia).
    clear Hall. unfold gains_ok in Hok.
    rewrite (proj2 (Nat.ltb_lt _ _)) in Hok by lia. cbn [implb] in Hok.
    rewrite !core_gain_nth, !rt_gain_nth in Hok by lia.
    by apply andb_prop in Hok.
  - intros a Ha.
    pose proof all_gains_agree_ok as Hall. rewrite forallb_forall in Hall.
    assert (Hok : gains_agree_ok (Z.to_nat a) = true)
      by (apply Hall; apply in_seq; lia).
    clear Hall. unfold gains_agree_ok in Hok.
    rewrite core_gain_nth, rt_gain_nth, Z2Nat.id in Hok by lia.
    apply Bool.eqb_prop in Hok. rewrite Hok, negb_true_iff.
    rewrite <- not_true_iff_false, existsb_exists.
    split; intros H Hin; apply H.
    + exists a. split; [done|]. apply Z.eqb_refl.
    + destruct Hin as (x & Hx & E). apply Z.eqb_eq in E. by subst.
Qed.

Lemma velocity_gain_monotone_witness :
  SFltb (core_velocity_gain 64) (core_velocity_gain 100) = true /\
  SFltb (rt_velocity_gain 64) (rt_velocity_gain 100) = true /\
  SFeqb (core_velocity_gain 100) (rt_velocity_gain 100) = true /\
  SFeqb (core_velocity_gain 104) (rt_velocity_gain 104) = false.
Proof.
  destruct velocity_gain_monotone as (_ & _ & _ & _ & _ & _ & Hmono & Hagree).
  destruct (Hmono 64 100) as [Hc Hr]; [lia|lia|lia|].
  split; [exact Hc|]. split; [exact Hr|]. split.
  - apply Hagree; [lia|]. cbn. intros H. decompose [or] H; lia.
  - apply not_true_iff_false. intros H. apply (Hagree 104) in H; [|lia].
    apply H. cbn. tauto.
Defined.

(** ** Direction of the transposition *)

Lemma all_speed_directions_ok :
  forallb (fun n => forallb (speed_direction_ok n) (seq 0 128)) (seq 0 128) = true.
Proof. vm_compute. reflexivity. Qed.

Lemma speed_direction (note root : Z) :
  0 <= note <= 127 -> 0 <= root <= 127 ->
  speed_direction_ok (Z.to_nat note) (Z.to_nat root) = true.
Proof.
  intros Hn Hr. pose proof all_speed_directions_ok as Hall.
  rewrite forallb_forall in Hall. specialize (Hall (Z.to_nat note)).
  rewrite forallb_forall in Hall. apply Hall; apply in_seq; lia.
Qed.

(** [X13] Direction of the transposition in the real-time build.  For a
    voice whose pitch-bend multiplier is 1.0 (as [voice_init] leaves it)
    and every note and root note in 0..127, the playback speed
    [voice_trigger] computes from the frequency table is below 1.0 when the
    note lies below the root, exactly 1.0 when it is the root, and above
    1.0 when it lies above.  The table rises strictly with the note, and a
    note number above 127 reads the entry of the note 128 below it. *)
Theorem rt_transposition_direction :
  (forall v smp note vel e,
      RT.playback_speed (RT.voice_trigger v (Some smp) note vel (Some e))
      = rt_speed note (root_note (meta smp)) (RT.pitch_bend_multiplier v)) /\
  (forall note root,
      0 <= note <= 127 -> 0 <= root <= 127 ->
      (note < root -> SFltb (rt_speed note root F32.one) F64.one = true) /\
      (note = root -> rt_speed note root F32.one = F64.one) /\
      (root < note -> SFltb F64.one (rt_speed note root F32.one) = true)) /\
  (forall m n,
      0 <= m -> m < n -> n <= 127 ->
      SFltb (RT.midi_note_to_frequency m) (RT.midi_note_to_frequency n) = true) /\
  (forall n, RT.midi_note_to_frequency (n + 128) = RT.midi_note_to_frequency n).
Proof.
  split_and!.
  - reflexivity.
  - intros note root Hn Hr. pose proof (speed_direction note root Hn Hr) as Hok.
    unfold speed_direction_ok in Hok. rewrite !Z2Nat.id in Hok by lia.
    split_and!.
    + intros Hlt. rewrite (proj2 (Nat.compare_lt_iff _ _)) in Hok by lia.
      by apply andb_prop in Hok as [? _].
    + intros Heq. rewrite (proj2 (Nat.compare_eq_iff _ _)) in Hok by lia.
      by apply SFsame_eq.
    + intros Hgt. rewrite (proj2 (Nat.compare_gt_iff _ _)) in Hok by lia. done.
  - intros m n Hm Hmn Hn. pose proof (speed_direction m n) as Hok.
    unfold speed_direction_ok in Hok. rewrite !Z2Nat.id in Hok by lia.
    rewrite (proj2 (Nat.compare_lt_iff _ _)) in Hok by lia.
    specialize (Hok ltac:(lia) ltac:(lia)). by apply andb_prop in Hok as [_ ?].
  - intros n. unfold RT.midi_note_to_frequency. do 3 f_equal.
    change 127 with (Z.ones 7). rewrite !Z.land_ones by lia.
    change 128 with (1 * 2 ^ 7). by rewrite Z.mod_add.
Qed.

Lemma rt_transposition_direction_witness :
  SFltb (rt_speed 60 72 F32.one) F64.one = true /\
  rt_speed 60 60 F32.one = F64.one /\
  SFltb F64.one (rt_speed 72 60 F32.one) = true.
Proof.
  destruct rt_transposition_direction as (_ & H & _).
  destruct (H 60 72) as (H1 & _ & _); [lia|lia|].
  destruct (H 60 60) as (_ & H2 & _); [lia|lia|].
  destruct (H 72 60) as (_ & _ & H3); [lia|lia|].
  split; [apply H1; lia|]. split; [apply H2; lia|apply H3; lia].
Defined.

(** ** Pitch bend *)

Section CoreBend.
Import Core.

Lemma core_same_but_bend_set v m : core_same_but_bend v (set_pitch_bend_multiplier v m).
Proof. done. Qed.

Lemma core_same_but_bend_inv v v' :
  core_same_but_bend v v' ->
  v' = set_pitch_bend_multiplier v (pitch_bend_multiplier v').
Proof.
  destruct v, v'. unfold core_same_but_bend, set_pitch_bend_multiplier. cbn.
  intros [= -> -> -> -> -> -> -> -> ->]. reflexivity.
Qed.

Lemma core_bend_voice_process v m out frames chans :
  voice_process (set_pitch_bend_multiplier v m) out frames chans
  = (set_pitch_bend_multiplier (voice_process v out frames chans).1 m,
     (voice_process v out frames chans).2).
Proof.
  unfold voice_process. cbn [sample active set_pitch_bend_multiplier].
  destruct out as [out|]; [|reflexivity].
  destruct (sample v) as [smp|]; [|reflexivity].
  destruct (active v); reflexivity.
Qed.

Lemma core_bend_voices frames chans n : forall vs vs' out,
  Forall2 core_same_but_bend vs vs' ->
  Forall2 core_same_but_bend (process_voices n vs out frames chans).1
                             (process_voices n vs' out frames chans).1 /\
  (process_voices n vs' out frames chans).2 = (process_voices n vs out frames chans).2.
Proof.
  induction n as [|n IH]; intros vs vs' out Hvs; [by destruct vs, vs'|].
  destruct Hvs as [|v v' vs vs' Hv Hvs]; [done|]. cbn [process_voices].
  rewrite (core_same_but_bend_inv v v' Hv).
  set (m := pitch_bend_multiplier v').
  cbn [active set_pitch_bend_multiplier].
  assert (Hstep :
    (if active v then voice_process (set_pitch_bend_multiplier v m) out frames chans
     else (set_pitch_bend_multiplier v m, out))
    = (set_pitch_bend_multiplier
         (if active v then voice_process v out frames chans else (v, out)).1 m,
       (if active v then voice_process v out frames chans else (v, out)).2)).
  { destruct (active v); [apply core_bend_voice_process|done]. }
  fold (set_pitch_bend_multiplier v m). rewrite Hstep.
  destruct (if active v then voice_process v out frames chans else (v, out))
    as [v1 out1]. cbn [fst snd].
  destruct (IH vs vs' out1 Hvs) as [I1 I2].
  destruct (process_voices n vs out1 frames chans) as [r1 o1].
  destruct (process_voices n vs' out1 frames chans) as [r2 o2].
  cbn [fst snd] in *. split; [|done].
  constructor; [apply core_same_but_bend_set|done].
Qed.

Lemma core_bend_matching_same vs instr m :
  Forall2 core_same_but_bend vs (bend_matching vs instr m).
Proof.
  unfold bend_matching. rewrite <- (take_drop (Z.to_nat MS_MAX_VOICES) vs) at 1.
  apply Forall2_app.
  - apply Forall2_fmap_r, Forall_Forall2_diag, Forall_forall. intros v _.
    unfold compose. destruct (active v && bool_decide (instrument v = instr));
      [apply core_same_but_bend_set|done].
  - apply Forall_Forall2_diag, Forall_forall. by intros v _.
Qed.

Lemma core_bend_matching_silent vs instr m :
  core_instrument_silent instr vs -> bend_matching vs instr m = vs.
Proof.
  intros Hs. unfold bend_matching.
  rewrite <- (take_drop (Z.to_nat MS_MAX_VOICES) vs) at 3. f_equal.
  apply Forall_take with (n := Z.to_nat MS_MAX_VOICES) in Hs.
  induction Hs as [|v l Hv Hl IH]; [done|]. cbn [map]. by rewrite Hv, IH.
Qed.

Lemma core_bend_process s vs' out frames :
  Forall2 core_same_but_bend (voices s) vs' ->
  (ms_process (Some (set_voices s vs')) out frames).2
  = (ms_process (Some s) out frames).2.
Proof.
  intros Hvs. unfold ms_process. destruct out as [out|]; [|done].
  cbn [config voices set_voices].
  match goal with |- context [process_voices ?n _ ?o ?f ?c] =>
    destruct (core_bend_voices f c n (voices s) vs' o Hvs) as [_ H2] end.
  destruct (process_voices _ vs' _ _ _) as [r2 o2].
  destruct (process_voices _ (voices s) _ _ _) as [r1 o1].
  cbn [snd] in *. done.
Qed.

End CoreBend.

Section RTBend.
Import RT.

Lemma rt_same_but_bend_set v m : rt_same_but_bend v (set_pitch_bend_multiplier v m).
Proof. done. Qed.

Lemma rt_same_but_bend_inv v v' :
  rt_same_but_bend v v' ->
  v' = set_pitch_bend_multiplier v (pitch_bend_multiplier v').
Proof.
  destruct v, v'. unfold rt_same_but_bend, set_pitch_bend_multiplier. cbn.
  intros [= -> -> -> -> -> -> -> -> -> ->]. reflexivity.
Qed.

Lemma rt_bend_voice_process v m out frames chans :
  voice_process (set_pitch_bend_multiplier v m) out frames chans
  = (set_pitch_bend_multiplier (voice_process v out frames chans).1 m,
     (voice_process v out frames chans).2).
Proof.
  unfold voice_process. cbn [sample active set_pitch_bend_multiplier].
  destruct out as [out|]; [|reflexivity].
  destruct (sample v) as [smp|]; [|reflexivity].
  destruct (active v); reflexivity.
Qed.

Lemma rt_bend_voices frames chans n : forall vs vs' out,
  Forall2 rt_same_but_bend vs vs' ->
  Forall2 rt_same_but_bend (process_voices n vs out frames chans).1
                             (process_voices n vs' out frames chans).1 /\
  (process_voices n vs' out frames chans).2 = (process_voices n vs out frames chans).2.
Proof.
  induction n as [|n IH]; intros vs vs' out Hvs; [by destruct vs, vs'|].
  destruct Hvs as [|v v' vs vs' Hv Hvs]; [done|]. cbn [process_voices].
  rewrite (rt_same_but_bend_inv v v' Hv).
  set (m := pitch_bend_multiplier v').
  cbn [active set_pitch_bend_multiplier].
  assert (Hstep :
    (if active v then voice_process (set_pitch_bend_multiplier v m) out frames chans
     else (set_pitch_bend_multiplier v m, out))
    = (set_pitch_bend_multiplier
         (if active v then voice_process v out frames chans else (v, out)).1 m,
       (if active v then voice_process v out frames chans else (v, out)).2)).
  { destruct (active v); [apply rt_bend_voice_process|done]. }
  fold (set_pitch_bend_multiplier v m). rewrite Hstep.
  destruct (if active v then voice_process v out frames chans else (v, out))
    as [v1 out1]. cbn [fst snd].
  destruct (IH vs vs' out1 Hvs) as [I1 I2].
  destruct (process_voices n vs out1 frames chans) as [r1 o1].
  destruct (process_voices n vs' out1 frames chans) as [r2 o2].
  cbn [fst snd] in *. split; [|done].
  constructor; [apply rt_same_but_bend_set|done].
Qed.

Lemma rt_bend_matching_same vs instr m :
  Forall2 rt_same_but_bend vs (bend_matching vs instr m).
Proof.
  unfold bend_matching. rewrite <- (take_drop (Z.to_nat MS_MAX_VOICES) vs) at 1.
  apply Forall2_app.
  - apply Forall2_fmap_r, Forall_Forall2_diag, Forall_forall. intros v _.
    unfold compose. destruct (active v && bool_decide (instrument v = instr));
      [apply rt_same_but_bend_set|done].
  - apply Forall_Forall2_diag, Forall_forall. by intros v _.
Qed.

Lemma rt_bend_matching_silent vs instr m :
  rt_instrument_silent instr vs -> bend_matching vs instr m = vs.
Proof.
  intros Hs. unfold bend_matching.
  rewrite <- (take_drop (Z.to_nat MS_MAX_VOICES) vs) at 3. f_equal.
  apply Forall_take with (n := Z.to_nat MS_MAX_VOICES) in Hs.
  induction Hs as [|v l Hv Hl IH]; [done|]. cbn [map]. by rewrite Hv, IH.
Qed.

Lemma rt_bend_process heap heap' s vs' out frames :
  read_idx (event_queue s) = write_idx (event_queue s) ->
  Forall2 rt_same_but_bend (voices s) vs' ->
  (ms_process heap' (Some (set_voices s vs')) out frames).2
  = (ms_process heap (Some s) out frames).2.
Proof.
  intros Hq Hvs. unfold ms_process. destruct out as [out|]; [|done].
  rewrite !rt_process_events_empty by done.
  cbn [config voices set_voices].
  match goal with |- context [process_voices ?n vs' ?o ?f ?c] =>
    destruct (rt_bend_voices f c n (voices s) vs' o Hvs) as [_ H2] end.
  destruct (process_voices _ vs' _ _ _) as [r2 o2].
  destruct (process_voices _ (voices s) _ _ _) as [r1 o1].
  cbn [snd] in *. done.
Qed.

End RTBend.

Lemma core_same_but_bend_speed vs vs' :
  Forall2 core_same_but_bend vs vs' ->
  Core.playback_speed <$> vs' = Core.playback_speed <$> vs.
Proof.
  induction 1 as [|v v' vs vs' Hv Hvs IH]; [done|]. cbn. rewrite IH. f_equal.
  by rewrite (core_same_but_bend_inv v v' Hv).
Qed.

Lemma rt_same_but_bend_speed vs vs' :
  Forall2 rt_same_but_bend vs vs' ->
  RT.playback_speed <$> vs' = RT.playback_speed <$> vs.
Proof.
  induction 1 as [|v v' vs vs' Hv Hvs IH]; [done|]. cbn. rewrite IH. f_equal.
  by rewrite (rt_same_but_bend_inv v v' Hv).
Qed.

Lemma core_bend_spec pow heap s instr value :
  let r := Core.ms_pitch_bend pow heap s instr value in
  Forall2 core_same_but_bend (Core.voices s) (Core.voices r.2) /\
  r.2 = Core.set_voices s (Core.voices r.2) /\
  (core_instrument_silent instr (Core.voices s) -> Core.voices r.2 = Core.voices s).
Proof.
  unfold Core.ms_pitch_bend. destruct instr as [a|]; cbn [Core.deref].
  2:{ cbn. split_and!; [by apply Forall_Forall2_diag, Forall_true|by destruct s|done]. }
  destruct (heap !! a) as [inst|].
  2:{ cbn. split_and!; [by apply Forall_Forall2_diag, Forall_true|by destruct s|done]. }
  destruct (inst_sampler inst); cbn [fst snd Core.voices Core.set_voices].
  - split_and!; [apply core_bend_matching_same|done|apply core_bend_matching_silent].
  - split_and!; [by apply Forall_Forall2_diag, Forall_true|by destruct s|done].
Qed.

Lemma rt_bend_spec powf heap s instr value :
  let r := RT.ms_pitch_bend powf heap s instr value in
  Forall2 rt_same_but_bend (RT.voices s) (RT.voices r.2) /\
  r.2 = RT.set_voices s (RT.voices r.2) /\
  (rt_instrument_silent instr (RT.voices s) -> RT.voices r.2 = RT.voices s).
Proof.
  unfold RT.ms_pitch_bend. destruct instr as [a|]; cbn [RT.deref].
  2:{ cbn. split_and!; [by apply Forall_Forall2_diag, Forall_true|by destruct s|done]. }
  destruct (heap !! a) as [inst|].
  2:{ cbn. split_and!; [by apply Forall_Forall2_diag, Forall_true|by destruct s|done]. }
  destruct (inst_sampler inst); cbn [fst snd RT.voices RT.set_voices].
  - split_and!; [apply rt_bend_matching_same|done|apply rt_bend_matching_silent].
  - split_and!; [by apply Forall_Forall2_diag, Forall_true|by destruct s|done].
Qed.

(** [X14] A pitch bend leaves sounding notes alone.  In both builds
    [ms_pitch_bend] stores the value in the instrument and returns
    [MS_SUCCESS] ([MS_ERROR_INVALID_PARAM] for a [NULL] instrument, with
    nothing changed); in the voices it changes the
    [pitch_bend_multiplier] field at most.  The playback speed of every
    voice stays what it was, and the next [ms_process] renders the very
    same output as without the bend (in the real-time build when no event
    waits in the ring): the multiplier is only read by a later
    [voice_trigger] on the same slot.  When no sounding voice belongs to
    the instrument, no voice changes at all. *)
Theorem pitch_bend_leaves_sounding_notes_alone
    (pow : double -> double -> double) (powf : float -> float -> float)
    (heap : list ms_instrument_t) (instr : option nat) (value : Z) :
  (forall s,
      let r := Core.ms_pitch_bend pow heap s instr value in
      (instr = None -> r = (MS_ERROR_INVALID_PARAM, heap, s)) /\
      (forall a inst, instr = Some a -> heap !! a = Some inst ->
         r.1.1 = MS_SUCCESS /\
         r.1.2 = <[a := Core.set_current_pitch_bend inst value]> heap) /\
      Forall2 core_same_but_bend (Core.voices s) (Core.voices r.2) /\
      Core.playback_speed <$> Core.voices r.2 = Core.playback_speed <$> Core.voices s /\
      (forall out frames,
         (Core.ms_process (Some r.2) out frames).2
         = (Core.ms_process (Some s) out frames).2) /\
      (core_instrument_silent instr (Core.voices s) -> r.2 = s)) /\
  (forall s,
      let r := RT.ms_pitch_bend powf heap s instr value in
      (instr = None -> r = (MS_ERROR_INVALID_PARAM, heap, s)) /\
      (forall a inst, instr = Some a -> heap !! a = Some inst ->
         r.1.1 = MS_SUCCESS /\
         r.1.2 = <[a := RT.set_current_pitch_bend inst value]> heap) /\
      Forall2 rt_same_but_bend (RT.voices s) (RT.voices r.2) /\
      RT.playback_speed <$> RT.voices r.2 = RT.playback_speed <$> RT.voices s /\
      (read_idx (RT.event_queue s) = write_idx (RT.event_queue s) ->
       forall out frames,
         (RT.ms_process r.1.2 (Some r.2) out frames).2
         = (RT.ms_process heap (Some s) out frames).2) /\
      (rt_instrument_silent instr (RT.voices s) -> r.2 = s)).
Proof.
  split.
  - intros s r. destruct (core_bend_spec pow heap s instr value) as (H1 & H2 & H3).
    fold r in H1, H2, H3. split_and!.
    + intros ->. reflexivity.
    + intros a inst -> Ha. unfold r, Core.ms_pitch_bend. cbn [Core.deref].
      rewrite Ha. by destruct (inst_sampler inst).
    + exact H1.
    + by apply core_same_but_bend_speed.
    + intros out frames. rewrite H2. by apply core_bend_process.
    + intros Hs. rewrite H2, (H3 Hs). by destruct s.
  - intros s r. destruct (rt_bend_spec powf heap s instr value) as (H1 & H2 & H3).
    fold r in H1, H2, H3. split_and!.
    + intros ->. reflexivity.
    + intros a inst -> Ha. unfold r, RT.ms_pitch_bend. cbn [RT.deref].
      rewrite Ha. by destruct (inst_sampler inst).
    + exact H1.
    + by apply rt_same_but_bend_speed.
    + intros Hq out frames. rewrite H2. by apply rt_bend_process.
    + intros Hs. rewrite H2, (H3 Hs). by destruct s.
Qed.

Lemma pitch_bend_leaves_sounding_notes_alone_witness :
  let s := (Core.ms_note_on example_pow example_heap
              (Core.new_sampler example_config) (Some 0%nat) 60 50 None).1.2 in
  let r := Core.ms_pitch_bend example_pow example_heap s (Some 0%nat) 4096 in
  r.1.1 = MS_SUCCESS /\
  current_pitch_bend <$> r.1.2 !! 0%nat = Some 4096 /\
  (Core.ms_process (Some r.2) (Some example_output) 4).2
  = (Core.ms_process (Some s) (Some example_output) 4).2.
Proof.
  intros s r.
  destruct (proj1 (pitch_bend_leaves_sounding_notes_alone example_pow
                     (fun _ _ => F32.one) example_heap (Some 0%nat) 4096) s)
    as (_ & Hok & _ & _ & Hout & _).
  destruct (Hok 0%nat example_instrument eq_refl eq_refl) as [H1 H2].
  split; [exact H1|]. split; [|apply Hout].
  fold r in H2. rewrite H2. reflexivity.
Defined.

(** ** Invariants of a run of API calls *)

Lemma fmap_alter_same {A B} (g : A -> B) (f : A -> A) (j : nat) (l : list A) :
  (forall x, g (f x) = g x) -> g <$> alter f j l = g <$> l.
Proof.
  intros H. revert j. induction l as [|x l IH]; intros [|j]; cbn; [done|done| |].
  - by rewrite H.
  - by rewrite IH.
Qed.

Lemma fmap_prefix_same {A B} (g : A -> B) (f : A -> A) (n : nat) (l : list A) :
  (forall x, g (f x) = g x) -> g <$> (map f (take n l) ++ drop n l) = g <$> l.
Proof.
  intros H. rewrite fmap_app.
  transitivity (g <$> (take n l ++ drop n l)); [|by rewrite take_drop].
  rewrite fmap_app. f_equal.
  induction (take n l) as [|x l' IH]; cbn; [done|]. by rewrite H, IH.
Qed.

Lemma slot_ids_length cfg : length (slot_ids cfg) = 64%nat.
Proof.
  unfold slot_ids. rewrite length_app, length_fmap, length_seq, length_replicate.
  unfold Core.pool_size, MS_MAX_VOICES. lia.
Qed.

Lemma slot_ids_pool cfg j :
  (j < Core.pool_size cfg)%nat -> slot_ids cfg !! j = Some (1 + Z.of_nat j).
Proof.
  intros Hj. unfold slot_ids.
  rewrite lookup_app_l by (by rewrite length_fmap, length_seq).
  rewrite list_lookup_fmap, lookup_seq_lt by done. done.
Qed.

Lemma slot_ids_rest cfg j :
  (Core.pool_size cfg <= j < 64)%nat -> slot_ids cfg !! j = Some 0.
Proof.
  intros Hj. unfold slot_ids.
  rewrite lookup_app_r by (rewrite length_fmap, length_seq; lia).
  rewrite length_fmap, length_seq. apply lookup_replicate_2.
  unfold MS_MAX_VOICES. lia.
Qed.

Section CoreShape.
Import Core.

Variable pow : double -> double -> double.

Lemma core_new_sampler_ids cfg :
  voice_id <$> voices (new_sampler cfg) = slot_ids cfg.
Proof.
  unfold new_sampler, slot_ids. cbn [voices]. rewrite fmap_app. f_equal.
  - rewrite <- list_fmap_compose. done.
  - by rewrite fmap_replicate.
Qed.

Lemma core_voice_process_id v out frames chans :
  voice_id (voice_process v out frames chans).1 = voice_id v.
Proof.
  unfold voice_process. destruct out; [|done].
  destruct (sample v); [|done]. by destruct (active v).
Qed.

Lemma core_process_voices_ids frames chans n : forall vs out,
  voice_id <$> (process_voices n vs out frames chans).1 = voice_id <$> vs.
Proof.
  induction n as [|n IH]; intros vs out; [done|].
  destruct vs as [|v vs]; [done|]. cbn [process_voices].
  pose proof (core_voice_process_id v out frames chans) as Hv.
  destruct (active v).
  - destruct (voice_process v out frames chans) as [v1 out1]. cbn [fst] in Hv.
    specialize (IH vs out1).
    destruct (process_voices n vs out1 frames chans) as [vs1 out2].
    cbn [fst] in *. cbn. by rewrite Hv, IH.
  - specialize (IH vs out).
    destruct (process_voices n vs out frames chans) as [vs1 out2].
    cbn [fst] in *. cbn. by rewrite IH.
Qed.

(** No call changes the configuration, the identifier of a slot or the
    identifier counter. *)
Lemma core_step_shape w c :
  let s' := (core_step pow w c).1.2 in
  config s' = config w.2 /\
  voice_id <$> voices s' = voice_id <$> voices w.2 /\
  next_voice_id s' = next_voice_id w.2.
Proof.
  destruct w as [heap s].
  destruct c as [|instr l|instr e|instr nt vel|instr nt| |instr value|out frames| |];
    cbn [core_step fst snd]; try done.
  - (* note-on *)
    unfold ms_note_on. destruct (deref heap instr) as [inst|]; [|done].
    destruct (negb (inst_sampler inst)); [done|].
    destruct (instrument_find_sample (Some inst) nt vel) as [smp|]; [|done].
    cbn [fst snd set_voices config voices next_voice_id].
    split_and!; [done| |done]. by apply fmap_alter_same.
  - (* note-off *)
    unfold ms_note_off. destruct (deref heap instr) as [inst|]; [|done].
    destruct (negb (inst_sampler inst)); [done|].
    cbn [fst snd set_voices config voices next_voice_id].
    split_and!; [done| |done]. unfold release_matching.
    apply (fmap_prefix_same voice_id
             (fun v => if active v && (note v =? nt) && bool_decide (instrument v = instr)
                       then voice_release v else v)).
    intros v. by destruct (_ && _).
  - (* all notes off *)
    unfold ms_all_notes_off. cbn [set_voices config voices next_voice_id].
    split_and!; [done| |done]. by apply fmap_prefix_same.
  - (* pitch bend *)
    unfold ms_pitch_bend. destruct instr as [a|]; [|done]. cbn [deref].
    destruct (heap !! a) as [inst|]; [|done].
    destruct (inst_sampler inst); [|done].
    cbn [fst snd set_voices config voices next_voice_id].
    split_and!; [done| |done]. unfold bend_matching.
    apply (fmap_prefix_same voice_id
             (fun v => if active v && bool_decide (instrument v = Some a)
                       then set_pitch_bend_multiplier v _ else v)).
    intros v. by destruct (_ && _).
  - (* process *)
    unfold ms_process.
    pose proof (core_process_voices_ids frames (channels (config s))
                  (pool_size (config s)) (voices s)
                  (Some (memset_zero
                           (Z.to_nat ((frames * channels (config s)) mod 2 ^ 64)) out)))
      as Hids.
    destruct (process_voices _ _ _ _ _) as [vs out1].
    cbn [fst snd default from_option config voices next_voice_id] in *.
    unfold Datatypes.id. cbn [config voices next_voice_id]. done.
Qed.

Lemma core_run_shape calls : forall w,
  let s' := (core_run pow w calls).1.2 in
  config s' = config w.2 /\
  voice_id <$> voices s' = voice_id <$> voices w.2 /\
  next_voice_id s' = next_voice_id w.2.
Proof.
  induction calls as [|c calls IH]; intros w; [done|].
  cbn [core_run fst snd].
  destruct (IH (core_step pow w c).1) as (I1 & I2 & I3).
  destruct (core_step_shape w c) as (S1 & S2 & S3).
  cbn zeta in *. rewrite I1, I2, I3. done.
Qed.

End CoreShape.

Section RTShape.
Import RT.

Variable powf : float -> float -> float.

Lemma rt_new_sampler_ids cfg :
  voice_id <$> voices (new_sampler cfg) = slot_ids cfg.
Proof.
  unfold new_sampler, slot_ids. cbn [voices]. rewrite fmap_app. f_equal.
  - rewrite <- list_fmap_compose. done.
  - by rewrite fmap_replicate.
Qed.

Lemma rt_voice_process_id v out frames chans :
  voice_id (voice_process v out frames chans).1 = voice_id v.
Proof.
  unfold voice_process. destruct out; [|done].
  destruct (sample v); [|done]. by destruct (active v).
Qed.

Lemma rt_process_voices_ids frames chans n : forall vs out,
  voice_id <$> (process_voices n vs out frames chans).1 = voice_id <$> vs.
Proof.
  induction n as [|n IH]; intros vs out; [done|].
  destruct vs as [|v vs]; [done|]. cbn [process_voices].
  pose proof (rt_voice_process_id v out frames chans) as Hv.
  destruct (active v).
  - destruct (voice_process v out frames chans) as [v1 out1]. cbn [fst] in Hv.
    specialize (IH vs out1).
    destruct (process_voices n vs out1 frames chans) as [vs1 out2].
    cbn [fst] in *. cbn. by rewrite Hv, IH.
  - specialize (IH vs out).
    destruct (process_voices n vs out frames chans) as [vs1 out2].
    cbn [fst] in *. cbn. by rewrite IH.
Qed.

Lemma rt_handle_event_ids heap cfg vs ev :
  voice_id <$> handle_event heap cfg vs ev = voice_id <$> vs.
Proof.
  unfold handle_event. destruct (event_type ev =? 0).
  - destruct (instrument_find_sample _ _ _) as [smp|]; [|done].
    destruct (deref heap (ev_instrument ev)) as [i|]; [|done].
    by apply fmap_alter_same.
  - unfold release_matching.
    apply (fmap_prefix_same voice_id
             (fun v => if active v && (note v =? ev_note ev)
                          && bool_decide (instrument v = ev_instrument ev)
                       then voice_release v else v)).
    intros v. by destruct (_ && _).
Qed.

Lemma rt_drain_ids heap fuel : forall s,
  voice_id <$> voices (drain heap fuel s) = voice_id <$> voices s.
Proof.
  induction fuel as [|fuel IH]; intros s; [done|]. cbn [drain].
  destruct (rt_queue_pop (event_queue s)) as [[e|] q]; [|done].
  rewrite IH. cbn [set_voices set_queue voices config].
  apply rt_handle_event_ids.
Qed.

(** What a call leaves alone, and what a render call counts. *)
Lemma rt_step_shape w c :
  let s' := (rt_step powf w c).1.2 in
  config s' = config w.2 /\
  voice_id <$> voices s' = voice_id <$> voices w.2 /\
  next_voice_id s' = next_voice_id w.2 /\
  xruns s' = xruns w.2 /\
  frames_processed s'
  = match c with
    | RTAPI.Process _ frames => (frames_processed w.2 + frames) mod 2 ^ 64
    | _ => frames_processed w.2
    end.
Proof.
  destruct w as [heap s].
  destruct c as [|instr l|instr e|instr nt vel|instr nt| |instr value|out frames
                |priority locked scheduled];
    cbn [rt_step fst snd]; try done.
  - (* note-on *)
    unfold ms_note_on. destruct (deref heap instr) as [inst|]; [|done].
    destruct (negb (inst_sampler inst)); [done|].
    by destruct (rt_queue_push _ _) as [[] q].
  - (* note-off *)
    unfold ms_note_off. destruct (deref heap instr) as [inst|]; [|done].
    destruct (negb (inst_sampler inst)); [done|].
    by destruct (rt_queue_push _ _) as [[] q].
  - (* all notes off *)
    unfold ms_all_notes_off. cbn [set_voices config voices next_voice_id xruns
                                  frames_processed].
    split_and!; [done| |done|done|done]. by apply fmap_prefix_same.
  - (* pitch bend *)
    unfold ms_pitch_bend. destruct instr as [a|]; [|done]. cbn [deref].
    destruct (heap !! a) as [inst|]; [|done].
    destruct (inst_sampler inst); [|done].
    cbn [fst snd set_voices config voices next_voice_id xruns frames_processed].
    split_and!; [done| |done|done|done]. unfold bend_matching.
    apply (fmap_prefix_same voice_id
             (fun v => if active v && bool_decide (instrument v = Some a)
                       then set_pitch_bend_multiplier v _ else v)).
    intros v. by destruct (_ && _).
  - (* process *)
    unfold ms_process, process_events.
    pose proof (rt_drain_config heap RT_EVENT_QUEUE_SIZE s) as Hcfg.
    pose proof (rt_drain_ids heap RT_EVENT_QUEUE_SIZE s) as Hids.
    pose proof (rt_drain_other heap RT_EVENT_QUEUE_SIZE s) as (Hf & Hx & Hn).
    revert Hcfg Hids Hf Hx Hn.
    generalize (drain heap RT_EVENT_QUEUE_SIZE s) as s1.
    intros s1 Hcfg Hids Hf Hx Hn.
    pose proof (rt_process_voices_ids frames (channels (config s1))
                  (pool_size (config s1)) (voices s1)
                  (Some (memset_zero
                           (Z.to_nat ((frames * channels (config s)) mod 2 ^ 64)) out)))
      as Hp.
    destruct (process_voices _ _ _ _ _) as [vs out1].
    cbn [fst snd default from_option config voices next_voice_id xruns
         frames_processed set_voices] in *.
    unfold Datatypes.id.
    cbn [config voices next_voice_id xruns frames_processed].
    split_and!; congruence.
Qed.

Lemma rt_run_shape calls : forall w,
  0 <= frames_processed w.2 < 2 ^ 64 ->
  let s' := (rt_run powf w calls).1.2 in
  config s' = config w.2 /\
  voice_id <$> voices s' = voice_id <$> voices w.2 /\
  next_voice_id s' = next_voice_id w.2 /\
  xruns s' = xruns w.2 /\
  frames_processed s' = (frames_processed w.2 + rt_frames_rendered calls) mod 2 ^ 64.
Proof.
  induction calls as [|c calls IH]; intros w Hw.
  - cbn. rewrite Z.add_0_r, Z.mod_small by lia. done.
  - cbn [rt_run fst snd rt_frames_rendered fold_right].
    fold (rt_frames_rendered calls).
    destruct (rt_step_shape w c) as (S1 & S2 & S3 & S4 & S5). cbn zeta in *.
    destruct (IH (rt_step powf w c).1) as (I1 & I2 & I3 & I4 & I5).
    { rewrite S5. destruct c; lia. }
    cbn zeta in *. rewrite I1, I2, I3, I4, I5, S1, S2, S3, S4, S5.
    split_and!; [done|done|done|done|].
    destruct c; try done. rewrite Zplus_mod_idemp_l. f_equal. lia.
Qed.

End RTShape.

Section CoreIds.
Import Core.

Variable pow : double -> double -> double.

Lemma core_available_voice_bound n (vs : list voice_t) :
  (available_voice n vs < n)%nat \/ available_voice n vs = 0%nat.
Proof.
  unfold available_voice, first_inactive.
  destruct (list_find _ (take n vs)) as [[j v]|] eqn:E; [|by right].
  left. cbn. apply list_find_Some in E as (Hj & _).
  apply lookup_lt_Some in Hj. rewrite length_take in Hj. lia.
Qed.

(** The identifier a successful note-on stores is the one of the slot it
    takes. *)
Lemma core_note_on_id cfg heap s instr nt vel :
  config s = cfg -> voice_id <$> voices s = slot_ids cfg ->
  let r := ms_note_on pow heap s instr nt vel (Some 0) in
  r.1.1 = MS_SUCCESS ->
  exists id, r.2 = Some id /\
             if (pool_size cfg =? 0)%nat then id = 0
             else 1 <= id <= Z.of_nat (pool_size cfg).
Proof.
  intros Hcfg Hids r. subst r. unfold ms_note_on.
  destruct (deref heap instr) as [inst|]; [|done].
  destruct (negb (inst_sampler inst)); [done|].
  destruct (instrument_find_sample (Some inst) nt vel) as [smp|]; [|done].
  cbn [fst snd]. intros _. eexists. split; [reflexivity|].
  rewrite Hcfg. set (j := available_voice (pool_size cfg) (voices s)).
  rewrite <- list_lookup_fmap, fmap_alter_same, Hids by done.
  destruct (core_available_voice_bound (pool_size cfg) (voices s)) as [Hj|Hj];
    fold j in Hj.
  - rewrite slot_ids_pool by done. cbn.
    rewrite (proj2 (Nat.eqb_neq _ _)) by lia. lia.
  - rewrite Hj. destruct (Nat.eqb_spec (pool_size cfg) 0) as [E|E].
    + rewrite slot_ids_rest by lia. done.
    + rewrite slot_ids_pool by lia. cbn. lia.
Qed.

Lemma core_run_ids cfg calls : forall w,
  config w.2 = cfg -> voice_id <$> voices w.2 = slot_ids cfg ->
  forall r id, r ∈ (core_run pow w calls).2 ->
    res_code r = MS_SUCCESS -> res_voice_id r = Some id ->
    if (pool_size cfg =? 0)%nat then id = 0
    else 1 <= id <= Z.of_nat (pool_size cfg).
Proof.
  induction calls as [|c calls IH]; intros w Hcfg Hids r id Hr Hcode Hid.
  - by apply elem_of_nil in Hr.
  - cbn [core_run snd] in Hr. apply elem_of_cons in Hr as [->|Hr].
    + destruct w as [heap s]. destruct c; try discriminate Hid.
      cbn [core_step fst snd res_code res_voice_id] in Hcode, Hid.
      destruct (core_note_on_id cfg heap s instr note0 vel Hcfg Hids Hcode)
        as (id' & E & H).
      rewrite E in Hid. by injection Hid as <-.
    + destruct (core_step_shape pow w c) as (S1 & S2 & _). cbn zeta in *.
      apply (IH (core_step pow w c).1 ltac:(congruence) ltac:(congruence)
                r id Hr Hcode Hid).
Qed.

End CoreIds.

(** [X15] Voice slots keep their identifiers.  Whatever calls a client
    makes after [ms_sampler_create], in either build the configuration
    stays the one given, the sampler keeps its 64 slots, slot [k] of the
    pool keeps the identifier [k + 1] that [voice_init] gave it, the slots
    past the pool keep identifier 0, and [next_voice_id] stays at pool size
    plus one.  So every identifier a successful plain-build [ms_note_on]
    stores lies in 1..pool size (it names the slot, and a stolen slot
    hands out its identifier again); with [max_polyphony] 0 it is 0. *)
Theorem voice_slots_keep_their_ids (pow : double -> double -> double)
    (powf : float -> float -> float) (cfg : ms_audio_config_t) :
  (forall calls,
      let r := core_run pow (core_start cfg) calls in
      Core.config r.1.2 = cfg /\
      Core.voice_id <$> Core.voices r.1.2 = slot_ids cfg /\
      length (Core.voices r.1.2) = 64%nat /\
      Core.next_voice_id r.1.2 = 1 + Z.of_nat (Core.pool_size cfg) /\
      forall res id,
        res ∈ r.2 -> res_code res = MS_SUCCESS -> res_voice_id res = Some id ->
        if (Core.pool_size cfg =? 0)%nat then id = 0
        else 1 <= id <= Z.of_nat (Core.pool_size cfg)) /\
  (forall calls,
      let r := rt_run powf (rt_start cfg) calls in
      RT.config r.1.2 = cfg /\
      RT.voice_id <$> RT.voices r.1.2 = slot_ids cfg /\
      length (RT.voices r.1.2) = 64%nat /\
      RT.next_voice_id r.1.2 = 1 + Z.of_nat (Core.pool_size cfg)) /\
  (forall k, (k < Core.pool_size cfg)%nat ->
             slot_ids cfg !! k = Some (1 + Z.of_nat k)) /\
  (forall k, (Core.pool_size cfg <= k < 64)%nat -> slot_ids cfg !! k = Some 0).
Proof.
  split_and!.
  - intros calls r.
    destruct (core_run_shape pow calls (core_start cfg)) as (H1 & H2 & H3).
    cbn zeta in *. fold r in H1, H2, H3.
    cbn [core_start snd] in H1, H2, H3.
    rewrite core_new_sampler_ids in H2.
    split_and!; [exact H1|exact H2| |exact H3|].
    + rewrite <- (length_fmap Core.voice_id), H2. apply slot_ids_length.
    + intros res id Hres. apply (core_run_ids pow cfg calls (core_start cfg)).
      * done.
      * apply core_new_sampler_ids.
      * exact Hres.
  - intros calls r.
    destruct (rt_run_shape powf calls (rt_start cfg)) as (H1 & H2 & H3 & _).
    { cbn. lia. }
    cbn zeta in *. fold r in H1, H2, H3.
    cbn [rt_start snd] in H1, H2, H3.
    rewrite rt_new_sampler_ids in H2.
    split_and!; [exact H1|exact H2| |exact H3].
    rewrite <- (length_fmap RT.voice_id), H2. apply slot_ids_length.
  - apply slot_ids_pool.
  - apply slot_ids_rest.
Qed.

Lemma voice_slots_keep_their_ids_witness :
  let calls := [CoreAPI.NoteOn (Some 0%nat) 60 100; CoreAPI.NoteOn (Some 0%nat) 64 100;
                CoreAPI.NoteOn (Some 0%nat) 67 100] in
  let r := core_run example_pow (example_heap, Core.new_sampler example_config) calls in
  res_voice_id <$> r.2 = [Some 1; Some 2; Some 1] /\
  Core.voice_id <$> Core.voices
    (core_run example_pow (core_start example_config) calls).1.2
  = slot_ids example_config.
Proof.
  intros calls r. split; [vm_compute; reflexivity|].
  destruct (proj1 (voice_slots_keep_their_ids example_pow (fun _ _ => F32.one)
                     example_config) calls) as (_ & H & _).
  exact H.
Defined.

(** ** Statistics of the real-time build *)

(** [X16] Statistics of the real-time build.  After any run of calls on a
    freshly created sampler, [ms_get_stats] reports as [frames] the sum of
    the frame counts of all render calls so far, modulo 2^64, and as
    [xruns] 0: no function of the library ever writes the underrun
    counter.  A [NULL] sampler leaves both cells as they were, a [NULL]
    cell is skipped. *)
Theorem rt_statistics (powf : float -> float -> float)
    (cfg : ms_audio_config_t) (calls : list RTAPI.call) :
  let s := (rt_run powf (rt_start cfg) calls).1.2 in
  (forall f x,
      RT.ms_get_stats (Some s) (Some f) (Some x)
      = (Some (rt_frames_rendered calls mod 2 ^ 64), Some 0)) /\
  (forall frames xruns, RT.ms_get_stats None frames xruns = (frames, xruns)) /\
  RT.ms_get_stats (Some s) None None = (None, None).
Proof.
  intros s.
  destruct (rt_run_shape powf calls (rt_start cfg)) as (_ & _ & _ & H4 & H5).
  { cbn. lia. }
  cbn zeta in *. fold s in H4, H5. cbn [rt_start snd] in H4, H5.
  split_and!; [|done|done].
  intros f x. unfold RT.ms_get_stats. rewrite H4, H5. done.
Qed.

(** ** Playback flags of the plain build *)

Section CorePlayback.
Import Core.

Variable pow : double -> double -> double.
Variable fs : list Byte.byte -> option (list Byte.byte).

Lemma core_step_playback w c :
  let s' := (core_step pow w c).1.2 in
  is_playing s'
  = match c with
    | CoreAPI.StartPlayback => true
    | CoreAPI.StopPlayback => false
    | _ => is_playing w.2
    end /\
  playback_event_index s'
  = match c with
    | CoreAPI.StartPlayback => 0
    | _ => playback_event_index w.2
    end /\
  playback_sample_count s'
  = match c with
    | CoreAPI.StartPlayback => 0
    | CoreAPI.Process _ frames => (playback_sample_count w.2 + frames) mod 2 ^ 64
    | _ => playback_sample_count w.2
    end.
Proof.
  destruct w as [heap s].
  destruct c as [|instr l|instr e|instr nt vel|instr nt| |instr value|out frames| |];
    cbn [core_step fst snd]; try done.
  - unfold ms_note_on. destruct (deref heap instr) as [inst|]; [|done].
    destruct (negb (inst_sampler inst)); [done|].
    by destruct (instrument_find_sample (Some inst) nt vel).
  - unfold ms_note_off. destruct (deref heap instr) as [inst|]; [|done].
    by destruct (negb (inst_sampler inst)).
  - unfold ms_pitch_bend. destruct instr as [a|]; [|done]. cbn [deref].
    destruct (heap !! a) as [inst|]; [|done]. by destruct (inst_sampler inst).
  - unfold ms_process. by destruct (process_voices _ _ _ _ _).
Qed.

(** What [ms_load_midi_file] does to the playback fields: a load that
    returns [MS_SUCCESS] zeroes the two counters, any other leaves the
    sampler as it was; neither touches the flag. *)
Lemma load_midi_playback s track instr path err s' t :
  Midi.ms_load_midi_file fs (Some s) track instr path = Some (err, s', t) ->
  match err with
  | MS_SUCCESS =>
      exists s1, s' = Some s1 /\ is_playing s1 = is_playing s /\
                 playback_event_index s1 = 0 /\ playback_sample_count s1 = 0
  | _ => s' = Some s
  end.
Proof.
  unfold Midi.ms_load_midi_file.
  destruct instr as [a|]; [|by intros [= <- <- <-]].
  destruct path as [p|]; [|by intros [= <- <- <-]].
  destruct (Midi.midi_parse_file fs (Some p) (Some Midi.zero_track)) as [[e t1]|];
    [|discriminate].
  cbn [mbind option_bind].
  destruct e; intros [= <- <- <-]; try done.
  eexists. split; [done|]. done.
Qed.

(** The playback fields across one call of the player. *)
Lemma player_step_playback w c w' res :
  player_step pow fs w c = Some (w', res) ->
  is_playing (p_sampler w')
  = match c with
    | Plain CoreAPI.StartPlayback => true
    | Plain CoreAPI.StopPlayback => false
    | _ => is_playing (p_sampler w)
    end /\
  (playback_event_index (p_sampler w) = 0 -> playback_event_index (p_sampler w') = 0) /\
  playback_sample_count (p_sampler w')
  = (if resets_count c res then 0
     else match c with
          | Plain (CoreAPI.Process _ frames) =>
              (playback_sample_count (p_sampler w) + frames) mod 2 ^ 64
          | _ => playback_sample_count (p_sampler w)
          end).
Proof.
  destruct c as [c|instr path]; cbn [player_step].
  - intros [= <- <-]. cbn [p_sampler].
    destruct (core_step_playback (p_heap w, p_sampler w) c) as (S1 & S2 & S3).
    cbn zeta in *. cbn [snd] in *. rewrite S1, S2, S3.
    unfold resets_count. by destruct c.
  - destruct (Midi.ms_load_midi_file fs (Some (p_sampler w)) (p_track w) instr path)
      as [[[err s1] t]|] eqn:E; [|discriminate].
    cbn [mbind option_bind fst snd]. intros [= <- <-]. cbn [p_sampler].
    apply load_midi_playback in E. unfold resets_count, code_only. cbn [res_code].
    destruct err; try (subst s1; cbn [default from_option]; done).
    destruct E as (s2 & -> & E1 & E2 & E3). cbn [default from_option]. done.
Qed.

Lemma frames_since_reset_mod trace : forall n m,
  n mod 2 ^ 64 = m mod 2 ^ 64 ->
  frames_since_reset trace n mod 2 ^ 64 = frames_since_reset trace m mod 2 ^ 64.
Proof.
  induction trace as [|[c res] trace IH]; intros n m Hnm; [done|].
  cbn [frames_since_reset fold_left fst snd]. apply IH.
  destruct (resets_count c res); [done|].
  destruct c as [[]|]; try done.
  rewrite <- (Zplus_mod_idemp_l n), <- (Zplus_mod_idemp_l m). by rewrite Hnm.
Qed.

Lemma player_run_playback calls : forall w w' rs,
  0 <= playback_sample_count (p_sampler w) < 2 ^ 64 ->
  player_run pow fs w calls = Some (w', rs) ->
  length rs = length calls /\
  is_playing (p_sampler w') = playing_after calls (is_playing (p_sampler w)) /\
  (playback_event_index (p_sampler w) = 0 -> playback_event_index (p_sampler w') = 0) /\
  playback_sample_count (p_sampler w')
  = frames_since_reset (zip calls rs) (playback_sample_count (p_sampler w)) mod 2 ^ 64.
Proof.
  induction calls as [|c calls IH]; intros w w' rs Hw.
  - intros [= <- <-]. cbn. rewrite Z.mod_small by lia. done.
  - cbn [player_run].
    destruct (player_step pow fs w c) as [[w1 res]|] eqn:E1; [|discriminate].
    cbn [mbind option_bind fst snd].
    destruct (player_run pow fs w1 calls) as [[w2 rs2]|] eqn:E2; [|discriminate].
    cbn [mbind option_bind fst snd]. intros [= <- <-].
    apply player_step_playback in E1 as (S1 & S2 & S3).
    destruct (IH w1 w2 rs2) as (I0 & I1 & I2 & I3); [|done|].
    { rewrite S3. destruct (resets_count c res); [lia|].
      destruct c as [[]|]; lia. }
    cbn [length zip zip_with playing_after frames_since_reset fold_left fst snd].
    rewrite I0, I1, I3, S1, S3. split_and!.
    + done.
    + by destruct c as [[]|].
    + intros H0. apply I2. by apply S2.
    + destruct (resets_count c res); [done|].
      destruct c as [[]|]; try done. apply frames_since_reset_mod.
      by rewrite Z.mod_mod by lia.
Qed.

(** A run without file loads is a run of the plain calls. *)
Lemma player_run_plain calls : forall w,
  player_run pow fs w (Plain <$> calls)
  = Some ({| p_heap := (core_run pow (p_heap w, p_sampler w) calls).1.1;
             p_sampler := (core_run pow (p_heap w, p_sampler w) calls).1.2;
             p_track := p_track w |},
          (core_run pow (p_heap w, p_sampler w) calls).2).
Proof.
  induction calls as [|c calls IH]; intros w.
  - by destruct w.
  - cbn [fmap list_fmap player_run player_step mbind option_bind fst snd].
    rewrite IH. cbn [mbind option_bind fst snd p_heap p_sampler p_track core_run].
    by destruct (core_step pow (p_heap w, p_sampler w) c) as [[heap1 s1] res].
Qed.

Lemma playing_after_start calls :
  Plain CoreAPI.StopPlayback ∉ calls -> playing_after calls true = true.
Proof.
  induction calls as [|c calls IH]; intros Hno; [done|].
  cbn [playing_after fold_left].
  apply not_elem_of_cons in Hno as [Hc Hno].
  destruct c as [[]|]; try (by apply IH). done.
Qed.

Lemma playing_after_app l1 l2 b :
  playing_after (l1 ++ l2) b = playing_after l2 (playing_after l1 b).
Proof. unfold playing_after. by rewrite fold_left_app. Qed.

End CorePlayback.



(** ** The event ring across a run *)

Section RTRing.
Import RT.

Variable powf : float -> float -> float.

Lemma rt_process_events_ring heap s :
  queue_wf (event_queue s) ->
  queue_wf (event_queue (process_events heap s)) /\
  contents (event_queue (process_events heap s)) = [].
Proof.
  intros Hwf. unfold process_events. split; [by apply rt_drain_wf|].
  destruct (rt_drain heap RT_EVENT_QUEUE_SIZE s Hwf) as (_ & _ & D3); [|exact D3].
  rewrite pending_length by done. pose proof (pending_lt _ Hwf). lia.
Qed.

Lemma rt_step_ring w c :
  queue_wf (event_queue w.2) ->
  queue_wf (event_queue (rt_step powf w c).1.2) /\
  match c with
  | RTAPI.Process _ _ => contents (event_queue (rt_step powf w c).1.2) = []
  | _ => True
  end.
Proof.
  destruct w as [heap s]. intros Hwf. cbn [snd] in Hwf.
  destruct c as [|instr l|instr e|instr nt vel|instr nt| |instr value|out frames
                |priority locked scheduled];
    cbn [rt_step fst snd].
  - done.
  - done.
  - done.
  - split; [|done]. unfold ms_note_on.
    destruct (deref heap instr) as [inst|]; [|done].
    destruct (negb (inst_sampler inst)); [done|].
    pose proof (push_wf (event_queue s)
                  {| ev_note := nt; ev_velocity := vel; event_type := 0;
                     ev_instrument := instr |} Hwf) as Hp.
    by destruct (rt_queue_push _ _) as [[] q].
  - split; [|done]. unfold ms_note_off.
    destruct (deref heap instr) as [inst|]; [|done].
    destruct (negb (inst_sampler inst)); [done|].
    pose proof (push_wf (event_queue s)
                  {| ev_note := nt; ev_velocity := 0; event_type := 1;
                     ev_instrument := instr |} Hwf) as Hp.
    by destruct (rt_queue_push _ _) as [[] q].
  - done.
  - split; [|done]. unfold ms_pitch_bend. destruct instr as [a|]; [|done].
    cbn [deref]. destruct (heap !! a) as [inst|]; [|done].
    by destruct (inst_sampler inst).
  - destruct (rt_process_events_ring heap s Hwf) as (H1 & H2).
    pose proof (rt_process_queue heap s out frames) as HQ.
    revert H1 H2 HQ. generalize (event_queue (process_events heap s)) as q1.
    generalize (ms_process heap (Some s) (Some out) frames) as r.
    intros [[code [s'|]] o] q1 H1 H2 HQ; [|discriminate HQ].
    cbn [fst snd fmap option_fmap option_map default from_option] in *.
    unfold Datatypes.id. injection HQ as ->. split; [exact H1|exact H2].
  - done.
Qed.

End RTRing.

(** [X18] The event ring across a run.  After any run of calls on a
    freshly created real-time sampler the ring is well formed: both
    indices are below 256 and the slot array has its 256 entries, so no
    push or pop indexes outside the array; at most 255 events are pending;
    and right after a render call the ring is empty. *)
Theorem event_ring_stays_well_formed (powf : float -> float -> float)
    (cfg : ms_audio_config_t) :
  (forall calls,
      let q := RT.event_queue (rt_run powf (rt_start cfg) calls).1.2 in
      queue_wf q /\ (length (contents q) <= 255)%nat) /\
  (forall calls out frames,
      contents (RT.event_queue
                  (rt_run powf (rt_start cfg)
                     (calls ++ [RTAPI.Process out frames])).1.2) = []).
Proof.
  assert (Hrun : forall calls w,
            queue_wf (RT.event_queue w.2) ->
            queue_wf (RT.event_queue (rt_run powf w calls).1.2)).
  { induction calls as [|c calls IH]; intros w Hwf; [done|].
    cbn [rt_run fst snd]. apply IH. by apply rt_step_ring. }
  assert (Happ : forall l1 l2 w,
            (rt_run powf w (l1 ++ l2)).1 = (rt_run powf (rt_run powf w l1).1 l2).1).
  { induction l1 as [|c l1 IH]; intros l2 w; [done|].
    cbn [rt_run app fst snd]. apply IH. }
  split.
  - intros calls q.
    assert (Hwf : queue_wf q) by (apply Hrun, empty_queue_wf).
    split; [exact Hwf|]. rewrite pending_length by done.
    pose proof (pending_lt _ Hwf). unfold RT_EVENT_QUEUE_SIZE in *. lia.
  - intros calls out frames. rewrite Happ. cbn [rt_run fst snd].
    apply (rt_step_ring powf _ (RTAPI.Process out frames)).
    apply Hrun, empty_queue_wf.
Qed.

(** ** The configured sample rate *)

Section CoreRate.
Import Core.

Variable pow : double -> double -> double.

Lemma core_step_rate heap s rate c :
  core_step pow (heap, core_with_rate s rate) c
  = ((core_step pow (heap, s) c).1.1,
     core_with_rate (core_step pow (heap, s) c).1.2 rate,
     (core_step pow (heap, s) c).2).
Proof.
  destruct c as [|instr l|instr e|instr nt vel|instr nt| |instr value|out frames| |];
    cbn [core_step fst snd].
  - reflexivity.
  - reflexivity.
  - reflexivity.
  - unfold ms_note_on. destruct (deref heap instr) as [inst|]; [|reflexivity].
    destruct (negb (inst_sampler inst)); [reflexivity|].
    destruct (instrument_find_sample (Some inst) nt vel); reflexivity.
  - unfold ms_note_off. destruct (deref heap instr) as [inst|]; [|reflexivity].
    destruct (negb (inst_sampler inst)); reflexivity.
  - reflexivity.
  - unfold ms_pitch_bend. destruct instr as [a|]; [|reflexivity]. cbn [deref].
    destruct (heap !! a) as [inst|]; [|reflexivity].
    destruct (inst_sampler inst); reflexivity.
  - unfold ms_process.
    change (config (core_with_rate s rate)) with (config_with_rate (config s) rate).
    change (pool_size (config_with_rate (config s) rate)) with (pool_size (config s)).
    change (channels (config_with_rate (config s) rate)) with (channels (config s)).
    change (voices (core_with_rate s rate)) with (voices s).
    destruct (process_voices _ _ _ _ _) as [vs out1]. reflexivity.
  - reflexivity.
  - reflexivity.
Qed.

Lemma core_run_rate rate calls : forall heap s,
  core_run pow (heap, core_with_rate s rate) calls
  = ((core_run pow (heap, s) calls).1.1,
     core_with_rate (core_run pow (heap, s) calls).1.2 rate,
     (core_run pow (heap, s) calls).2).
Proof.
  induction calls as [|c calls IH]; intros heap s; [reflexivity|].
  cbn [core_run]. rewrite core_step_rate. cbn [fst snd].
  destruct (core_step pow (heap, s) c) as [[heap1 s1] r1]. cbn [fst snd].
  rewrite IH. reflexivity.
Qed.

Lemma core_new_sampler_rate cfg rate :
  new_sampler (config_with_rate cfg rate) = core_with_rate (new_sampler cfg) rate.
Proof. reflexivity. Qed.

End CoreRate.

Section RTRate.
Import RT.

Variable powf : float -> float -> float.

Lemma rt_drain_rate heap rate fuel : forall s,
  drain heap fuel (rt_with_rate s rate) = rt_with_rate (drain heap fuel s) rate.
Proof.
  induction fuel as [|fuel IH]; intros s; [reflexivity|]. cbn [drain].
  change (event_queue (rt_with_rate s rate)) with (event_queue s).
  destruct (rt_queue_pop (event_queue s)) as [[e|] q]; [|reflexivity].
  rewrite <- IH. reflexivity.
Qed.

Lemma rt_process_events_rate heap rate s :
  process_events heap (rt_with_rate s rate) = rt_with_rate (process_events heap s) rate.
Proof. apply rt_drain_rate. Qed.

Lemma rt_ms_process_render heap s out frames :
  ms_process heap (Some s) (Some out) frames
  = rt_render (process_events heap s)
              ((frames * channels (config s)) mod 2 ^ 64) out frames.
Proof. unfold ms_process, rt_render. reflexivity. Qed.

Lemma rt_render_rate s1 rate b out frames :
  rt_render (rt_with_rate s1 rate) b out frames
  = ((rt_render s1 b out frames).1.1,
     (fun s' => rt_with_rate s' rate) <$> (rt_render s1 b out frames).1.2,
     (rt_render s1 b out frames).2).
Proof.
  unfold rt_render.
  change (config (rt_with_rate s1 rate)) with (config_with_rate (config s1) rate).
  change (pool_size (config_with_rate (config s1) rate)) with (pool_size (config s1)).
  change (channels (config_with_rate (config s1) rate)) with (channels (config s1)).
  change (voices (rt_with_rate s1 rate)) with (voices s1).
  destruct (process_voices _ _ _ _ _) as [vs out1]. reflexivity.
Qed.

Lemma rt_ms_process_rate heap s rate out frames :
  ms_process heap (Some (rt_with_rate s rate)) (Some out) frames
  = ((ms_process heap (Some s) (Some out) frames).1.1,
     (fun s' => rt_with_rate s' rate) <$> (ms_process heap (Some s) (Some out) frames).1.2,
     (ms_process heap (Some s) (Some out) frames).2).
Proof.
  rewrite !rt_ms_process_render, rt_process_events_rate.
  change (channels (config (rt_with_rate s rate))) with (channels (config s)).
  apply rt_render_rate.
Qed.

Lemma rt_step_rate heap s rate c :
  rt_step powf (heap, rt_with_rate s rate) c
  = ((rt_step powf (heap, s) c).1.1,
     rt_with_rate (rt_step powf (heap, s) c).1.2 rate,
     (rt_step powf (heap, s) c).2).
Proof.
  destruct c as [|instr l|instr e|instr nt vel|instr nt| |instr value|out frames
                |priority locked scheduled];
    cbn [rt_step fst snd].
  - reflexivity.
  - reflexivity.
  - reflexivity.
  - unfold ms_note_on. destruct (deref heap instr) as [inst|]; [|reflexivity].
    destruct (negb (inst_sampler inst)); [reflexivity|].
    change (event_queue (rt_with_rate s rate)) with (event_queue s).
    destruct (rt_queue_push _ _) as [[] q]; reflexivity.
  - unfold ms_note_off. destruct (deref heap instr) as [inst|]; [|reflexivity].
    destruct (negb (inst_sampler inst)); [reflexivity|].
    change (event_queue (rt_with_rate s rate)) with (event_queue s).
    destruct (rt_queue_push _ _) as [[] q]; reflexivity.
  - reflexivity.
  - unfold ms_pitch_bend. destruct instr as [a|]; [|reflexivity]. cbn [deref].
    destruct (heap !! a) as [inst|]; [|reflexivity].
    destruct (inst_sampler inst); reflexivity.
  - rewrite rt_ms_process_rate.
    generalize (ms_process heap (Some s) (Some out) frames) as r.
    intros [[code [s1|]] o]; reflexivity.
  - reflexivity.
Qed.

Lemma rt_run_rate rate calls : forall heap s,
  rt_run powf (heap, rt_with_rate s rate) calls
  = ((rt_run powf (heap, s) calls).1.1,
     rt_with_rate (rt_run powf (heap, s) calls).1.2 rate,
     (rt_run powf (heap, s) calls).2).
Proof.
  induction calls as [|c calls IH]; intros heap s; [reflexivity|].
  cbn [rt_run]. rewrite rt_step_rate. cbn [fst snd].
  destruct (rt_step powf (heap, s) c) as [[heap1 s1] r1]. cbn [fst snd].
  rewrite IH. reflexivity.
Qed.

Lemma rt_new_sampler_rate cfg rate :
  new_sampler (config_with_rate cfg rate) = rt_with_rate (new_sampler cfg) rate.
Proof. reflexivity. Qed.

End RTRate.

(** [X19] The configured sample rate is never used.  Two samplers created
    from configurations that differ only in [sample_rate] answer every run
    of calls with the same result codes, voice identifiers and output
    blocks, in both builds, and end with the same instruments and, but for
    the stored rate, the same sampler.  The envelope of a voice always runs
    at the 44100 Hz that [voice_trigger] passes to [envelope_init]. *)
Theorem sample_rate_is_never_used (pow : double -> double -> double)
    (powf : float -> float -> float) (cfg : ms_audio_config_t) (rate : Z) :
  (forall calls,
      let r := core_run pow (core_start cfg) calls in
      core_run pow (core_start (config_with_rate cfg rate)) calls
      = (r.1.1, core_with_rate r.1.2 rate, r.2)) /\
  (forall calls,
      let r := rt_run powf (rt_start cfg) calls in
      rt_run powf (rt_start (config_with_rate cfg rate)) calls
      = (r.1.1, rt_with_rate r.1.2 rate, r.2)) /\
  (forall v smp n vel e,
      Core.sample_rate (Core.envelope (Core.voice_trigger pow v (Some smp) n vel (Some e)))
      = F32.of_Z 44100) /\
  (forall v smp n vel e,
      RT.sample_rate (RT.envelope (RT.voice_trigger v (Some smp) n vel (Some e)))
      = F32.of_Z 44100).
Proof.
  split_and!.
  - intros calls r. unfold core_start. rewrite core_new_sampler_rate.
    apply core_run_rate.
  - intros calls r. unfold rt_start. rewrite rt_new_sampler_rate.
    apply rt_run_rate.
  - intros v smp n vel e. reflexivity.
  - intros v smp n vel e. reflexivity.
Qed.

(** ** Reading files *)

Section Files.
Import Stdio.

Lemma u8_range b : 0 <= u8 b < 256.
Proof.
  unfold u8. pose proof (Byte.to_N_bounded b) as H. lia.
Qed.

Lemma u8_byte_of z : 0 <= z < 256 -> u8 (byte_of z) = z.
Proof.
  intros Hz. unfold u8, byte_of.
  pose proof (Byte.to_of_N_option_map (Z.to_N z)) as H.
  destruct (Byte.of_N (Z.to_N z)) as [b|] eqn:E.
  - cbn in H. destruct (N.leb_spec (Z.to_N z) 255); [|lia].
    injection H as H. unfold default, from_option, Datatypes.id. rewrite H. lia.
  - cbn in H. destruct (N.leb_spec (Z.to_N z) 255); [discriminate|lia].
Qed.

Lemma check_from_spec f n v x :
  check_from f n v = true -> v <= x < v + Z.of_nat n -> f x = true.
Proof.
  revert v. induction n as [|n IH]; intros v H Hx; [lia|].
  cbn [check_from] in H. apply andb_prop in H as [H0 H1].
  destruct (decide (x = v)) as [->|Hne]; [exact H0|].
  apply (IH (v + 1)); [exact H1|lia].
Qed.

Lemma fopen_one_file path c :
  fopen (one_file path c) path = Some (file_at [] c).
Proof.
  unfold fopen, one_file. by rewrite bool_decide_eq_true_2.
Qed.

Lemma fread_at n pre bs rest :
  length bs = n ->
  fread n (file_at pre (bs ++ rest)) = (bs, file_at (pre ++ bs) rest).
Proof.
  intros <-. unfold fread, file_at. cbn [content position].
  rewrite Nat2Z.id, drop_app_length, take_app_length.
  f_equal. rewrite length_app, Nat2Z.inj_add, <- app_assoc. reflexivity.
Qed.

(** A read that asks for more than the file has left. *)
Lemma fread_short n pre rest :
  (length rest <= n)%nat ->
  fread n (file_at pre rest) = (rest, file_at (pre ++ rest) []).
Proof.
  intros Hn. unfold fread, file_at. cbn [content position].
  rewrite Nat2Z.id, drop_app_length, take_ge by exact Hn.
  f_equal. rewrite length_app, Nat2Z.inj_add, app_nil_r. reflexivity.
Qed.

Lemma fseek_at pre bs rest :
  fseek_cur (file_at pre (bs ++ rest)) (Z.of_nat (length bs))
  = file_at (pre ++ bs) rest.
Proof.
  unfold fseek_cur, file_at. cbn [content position].
  destruct (Z.ltb_spec (Z.of_nat (length pre) + Z.of_nat (length bs)) 0); [lia|].
  rewrite length_app, Nat2Z.inj_add, <- app_assoc. reflexivity.
Qed.

Lemma fseek_back pre b rest :
  fseek_cur (file_at (pre ++ [b]) rest) (-1) = file_at pre (b :: rest).
Proof.
  unfold fseek_cur, file_at. cbn [content position].
  rewrite length_app. cbn [length].
  destruct (Z.ltb_spec (Z.of_nat (length pre + 1) + -1) 0); [lia|].
  rewrite <- app_assoc. cbn [app]. f_equal. lia.
Qed.

End Files.

(** ** The WAV loader *)

Section WavFiles.
Import Stdio Wav.

Lemma le16_bytes_value v :
  0 <= v < 2 ^ 16 ->
  le16 (byte_of (v mod 256)) (byte_of (v / 256 mod 256)) = v.
Proof.
  intros Hv. unfold le16.
  rewrite !u8_byte_of by (apply Z.mod_pos_bound; lia).
  Z.div_mod_to_equations. lia.
Qed.

Lemma le32_bytes_value v :
  0 <= v < 2 ^ 32 ->
  le32 (byte_of (v mod 256)) (byte_of (v / 256 mod 256))
       (byte_of (v / 65536 mod 256)) (byte_of (v / 16777216 mod 256)) = v.
Proof.
  intros Hv. unfold le32.
  rewrite !u8_byte_of by (apply Z.mod_pos_bound; lia).
  Z.div_mod_to_equations. lia.
Qed.

Lemma memcmp_eq_other lit c : other_chunk lit c -> memcmp_eq (ck_id c) lit = false.
Proof.
  intros (_ & Hne & _). unfold memcmp_eq. by apply bool_decide_eq_false_2.
Qed.

Lemma read_chunk_header_at pre i0 i1 i2 i3 n rest :
  0 <= n < 2 ^ 32 ->
  read_chunk_header (file_at pre ([i0; i1; i2; i3] ++ le32_bytes n ++ rest))
  = (Some {| id := [i0; i1; i2; i3]; size := n |},
     file_at (pre ++ [i0; i1; i2; i3] ++ le32_bytes n) rest).
Proof.
  intros Hn. unfold read_chunk_header.
  pose proof (fread_at 8 pre ([i0; i1; i2; i3] ++ le32_bytes n) rest eq_refl) as H.
  rewrite <- app_assoc in H. rewrite H. clear H.
  cbn [app le32_bytes]. by rewrite le32_bytes_value.
Qed.

Lemma chunk_skip lit pre c rest :
  other_chunk lit c ->
  exists chunk,
    read_chunk_header (file_at pre (chunk_bytes c ++ rest))
    = (Some chunk, file_at (pre ++ ck_id c ++ le32_bytes (Z.of_nat (length (ck_body c))))
                           (ck_body c ++ rest)) /\
    memcmp_eq (id chunk) lit = false /\
    size chunk = Z.of_nat (length (ck_body c)).
Proof.
  intros Hc. pose proof (memcmp_eq_other _ _ Hc) as Hm.
  destruct Hc as (Hlen & _ & Hsz). destruct c as [i body]. cbn [ck_id ck_body] in *.
  destruct i as [|i0 [|i1 [|i2 [|i3 [|]]]]]; try discriminate Hlen.
  eexists. unfold chunk_bytes. cbn [ck_id ck_body].
  rewrite <- !app_assoc. rewrite read_chunk_header_at by lia.
  split_and!; [reflexivity|exact Hm|reflexivity].
Qed.

Lemma find_fmt_skip lit cs : forall fuel pre rest,
  Forall (other_chunk lit) cs ->
  lit = [102; 109; 116; 32] ->
  find_fmt (length cs + fuel) (file_at pre (chunks_bytes cs ++ rest))
  = find_fmt fuel (file_at (pre ++ chunks_bytes cs) rest).
Proof.
  induction cs as [|c cs IH]; intros fuel pre rest Hcs ->.
  - unfold chunks_bytes. cbn. by rewrite app_nil_r.
  - apply Forall_cons in Hcs as [Hc Hcs].
    unfold chunks_bytes. cbn [fmap list_fmap concat length Nat.add find_fmt].
    fold (chunks_bytes cs). rewrite <- !app_assoc.
    destruct (chunk_skip _ pre c (chunks_bytes cs ++ rest) Hc) as (chunk & -> & -> & ->).
    rewrite fseek_at. rewrite IH by done.
    unfold chunk_bytes. by rewrite <- !app_assoc.
Qed.

Lemma find_data_skip lit cs : forall fuel pre rest,
  Forall (other_chunk lit) cs ->
  lit = [100; 97; 116; 97] ->
  find_data (length cs + fuel) (file_at pre (chunks_bytes cs ++ rest))
  = find_data fuel (file_at (pre ++ chunks_bytes cs) rest).
Proof.
  induction cs as [|c cs IH]; intros fuel pre rest Hcs ->.
  - unfold chunks_bytes. cbn. by rewrite app_nil_r.
  - apply Forall_cons in Hcs as [Hc Hcs].
    unfold chunks_bytes. cbn [fmap list_fmap concat length Nat.add find_data].
    fold (chunks_bytes cs). rewrite <- !app_assoc.
    destruct (chunk_skip _ pre c (chunks_bytes cs ++ rest) Hc) as (chunk & -> & -> & ->).
    rewrite fseek_at. rewrite IH by done.
    unfold chunk_bytes. by rewrite <- !app_assoc.
Qed.

Lemma chunks_bytes_length lit cs :
  Forall (other_chunk lit) cs -> (length cs <= length (chunks_bytes cs))%nat.
Proof.
  induction 1 as [|c cs (Hlen & _) _ IH]; [done|].
  unfold chunks_bytes. cbn [fmap list_fmap concat length].
  fold (chunks_bytes cs). unfold chunk_bytes. rewrite !length_app. lia.
Qed.

Lemma skip_fmt_extra pre extra rest :
  (if 16 <? 16 + Z.of_nat (length extra)
   then fseek_cur (file_at pre (extra ++ rest)) (16 + Z.of_nat (length extra) - 16)
   else file_at pre (extra ++ rest))
  = file_at (pre ++ extra) rest.
Proof.
  destruct (Z.ltb_spec 16 (16 + Z.of_nat (length extra))) as [H|H].
  - replace (16 + Z.of_nat (length extra) - 16) with (Z.of_nat (length extra)) by lia.
    apply fseek_at.
  - destruct extra as [|b extra]; [|cbn [length] in H; lia].
    by rewrite app_nil_r.
Qed.

End WavFiles.

Section WavHeader.
Import Stdio Wav.

Lemma memcmp_RIFF : memcmp_eq [Byte.x52; Byte.x49; Byte.x46; Byte.x46] [82; 73; 70; 70] = true.
Proof. vm_compute. reflexivity. Qed.

Lemma memcmp_WAVE : memcmp_eq [Byte.x57; Byte.x41; Byte.x56; Byte.x45] [87; 65; 86; 69] = true.
Proof. vm_compute. reflexivity. Qed.

Lemma memcmp_fmt : memcmp_eq [Byte.x66; Byte.x6d; Byte.x74; Byte.x20] [102; 109; 116; 32] = true.
Proof. vm_compute. reflexivity. Qed.

Lemma memcmp_data : memcmp_eq [Byte.x64; Byte.x61; Byte.x74; Byte.x61] [100; 97; 116; 97] = true.
Proof. vm_compute. reflexivity. Qed.

Lemma read_fmt_chunk_at pre w rest :
  0 <= wl_format w < 2 ^ 16 -> 0 <= wl_channels w < 2 ^ 16 ->
  0 <= wl_bits w < 2 ^ 16 ->
  exists fmt,
    read_fmt_chunk (file_at pre (fmt_fields w ++ rest))
    = (Some fmt, file_at (pre ++ fmt_fields w) rest) /\
    audio_format fmt = wl_format w /\ num_channels fmt = wl_channels w /\
    bits_per_sample fmt = wl_bits w.
Proof.
  intros Hf Hc Hb. unfold read_fmt_chunk.
  rewrite (fread_at 16 pre (fmt_fields w) rest eq_refl).
  unfold fmt_fields, le16_bytes, le32_bytes. cbn [app].
  eexists. split; [reflexivity|].
  cbn [audio_format num_channels bits_per_sample].
  by rewrite !le16_bytes_value.
Qed.

Lemma find_fmt_at fuel pre w rest :
  layout_ok w -> (length (wl_before_fmt w) < fuel)%nat ->
  exists fmt,
    find_fmt fuel
      (file_at pre (chunks_bytes (wl_before_fmt w) ++ fmt_header w ++ fmt_fields w
                    ++ wl_fmt_extra w ++ rest))
    = Some (fmt, file_at (pre ++ chunks_bytes (wl_before_fmt w) ++ fmt_header w
                          ++ fmt_fields w ++ wl_fmt_extra w) rest) /\
    audio_format fmt = wl_format w /\ num_channels fmt = wl_channels w /\
    bits_per_sample fmt = wl_bits w.
Proof.
  intros (Hcs & _ & Hf & Hc & Hb & Hx & _) Hfuel.
  replace fuel with (length (wl_before_fmt w) + S (fuel - length (wl_before_fmt w) - 1))%nat
    by lia.
  rewrite (find_fmt_skip _ _ _ _ _ Hcs eq_refl).
  cbn [find_fmt]. unfold fmt_header. rewrite <- !app_assoc.
  rewrite read_chunk_header_at by lia.
  cbn [id size]. rewrite memcmp_fmt.
  destruct (read_fmt_chunk_at
              (pre ++ chunks_bytes (wl_before_fmt w)
                   ++ [Byte.x66; Byte.x6d; Byte.x74; Byte.x20]
                   ++ le32_bytes (16 + Z.of_nat (length (wl_fmt_extra w))))
              w (wl_fmt_extra w ++ rest) Hf Hc Hb)
    as (fmt & Hr & Hfmt).
  exists fmt. split; [|exact Hfmt].
  rewrite <- !app_assoc in Hr. rewrite <- !app_assoc. rewrite Hr.
  rewrite skip_fmt_extra. by rewrite <- !app_assoc.
Qed.

Lemma find_data_at fuel pre w :
  layout_ok w -> (length (wl_before_data w) < fuel)%nat ->
  find_data fuel
    (file_at pre (chunks_bytes (wl_before_data w) ++ data_header w ++ wl_body w))
  = Some (wl_data_size w,
          file_at (pre ++ chunks_bytes (wl_before_data w) ++ data_header w)
                  (wl_body w)).
Proof.
  intros (_ & Hcs & _ & _ & _ & _ & Hd) Hfuel.
  replace fuel with (length (wl_before_data w) + S (fuel - length (wl_before_data w) - 1))%nat
    by lia.
  rewrite (find_data_skip _ _ _ _ _ Hcs eq_refl).
  cbn [find_data]. unfold data_header. rewrite <- !app_assoc.
  rewrite read_chunk_header_at by lia.
  cbn [id size]. rewrite memcmp_data. by rewrite <- !app_assoc.
Qed.

(** What [read_wav_header] makes of a file with the given layout. *)
Lemma read_wav_header_layout w :
  layout_ok w ->
  (wl_format w <> 1 ->
   (read_wav_header (file_at [] (wav_file w))).1 = (MS_ERROR_INVALID_FORMAT, None)) /\
  (wl_format w = 1 ->
   exists h,
     read_wav_header (file_at [] (wav_file w))
     = (MS_SUCCESS, Some h, file_at (wav_prefix w) (wl_body w)) /\
     hdr_channels h = wl_channels w /\ hdr_bits_per_sample h = wl_bits w /\
     hdr_data_size h = wl_data_size w).
Proof.
  intros Hok.
  assert (Hhead : forall rest,
    fread 12 (file_at [] (riff_header w ++ rest))
    = (riff_header w, file_at (riff_header w) rest)).
  { intros rest. apply (fread_at 12 [] (riff_header w) rest eq_refl). }
  pose proof Hok as (Hcs1 & Hcs2 & _).
  pose proof (chunks_bytes_length _ _ Hcs1) as Hl1.
  pose proof (chunks_bytes_length _ _ Hcs2) as Hl2.
  unfold read_wav_header, wav_file, wav_prefix.
  rewrite <- !app_assoc. rewrite Hhead.
  unfold riff_header at 1 3. unfold le32_bytes at 1 2. cbn [app].
  rewrite memcmp_RIFF, memcmp_WAVE. cbn [negb orb].
  set (fuel := length (content _)).
  assert (Hfuel : (length (wl_before_fmt w) < fuel)%nat
                  /\ (length (wl_before_data w) < fuel)%nat).
  { subst fuel. unfold file_at. cbn [content].
    rewrite !length_app. unfold data_header. cbn [length app]. lia. }
  destruct (find_fmt_at fuel (riff_header w) w
              (chunks_bytes (wl_before_data w) ++ data_header w ++ wl_body w)
              Hok (proj1 Hfuel)) as (fmt & Hfind & Hfa & Hfc & Hfb).
  rewrite Hfind. rewrite Hfa.
  split.
  - intros Hne. destruct (Z.eqb_spec (wl_format w) 1); [done|]. reflexivity.
  - intros ->. cbn [Z.eqb Pos.eqb negb].
    set (fuel2 := length (content _)).
    assert (Hfuel2 : (length (wl_before_data w) < fuel2)%nat).
    { subst fuel2. unfold file_at. cbn [content].
      rewrite !length_app. unfold data_header. cbn [length app]. lia. }
    rewrite find_data_at by done.
    eexists. split.
    + f_equal. f_equal. by rewrite <- !app_assoc.
    + cbn [hdr_channels hdr_bits_per_sample hdr_data_size]. by rewrite Hfc, Hfb.
Qed.

End WavHeader.

Section WavData.
Import Stdio Wav.

Lemma all_pcm16_ok : check_from pcm16_ok (Z.to_nat 65536) (-32768) = true.
Proof. vm_compute. reflexivity. Qed.

Lemma all_pcm8_ok : check_from pcm8_ok (Z.to_nat 256) 0 = true.
Proof. vm_compute. reflexivity. Qed.

Lemma pcm16_ok_all v : -32768 <= v < 32768 -> pcm16_ok v = true.
Proof.
  intros Hv. apply (check_from_spec _ _ _ _ all_pcm16_ok). lia.
Qed.

Lemma pcm8_ok_all v : 0 <= v < 256 -> pcm8_ok v = true.
Proof.
  intros Hv. apply (check_from_spec _ _ _ _ all_pcm8_ok). lia.
Qed.

Lemma int16_at_range buf i : -32768 <= int16_at buf i < 32768.
Proof.
  unfold int16_at, le16.
  pose proof (u8_range (default Byte.x00 (buf !! (2 * i)%nat))).
  pose proof (u8_range (default Byte.x00 (buf !! (2 * i + 1)%nat))).
  cbv zeta. destruct (Z.ltb_spec (u8 (default Byte.x00 (buf !! (2 * i)%nat))
                                  + 256 * u8 (default Byte.x00 (buf !! (2 * i + 1)%nat)))
                                 32768); lia.
Qed.

Lemma uint8_at_range buf i : 0 <= uint8_at buf i < 256.
Proof. apply u8_range. Qed.

Lemma pcm16_bytes_length samples :
  length (pcm16_bytes samples) = (2 * length samples)%nat.
Proof.
  induction samples as [|v l IH]; [done|].
  unfold pcm16_bytes in *. cbn [fmap list_fmap concat length app le16_bytes].
  cbn [fmap] in IH. rewrite IH. lia.
Qed.

Lemma int16_at_pcm16_bytes samples : forall i v,
  samples !! i = Some v -> -32768 <= v < 32768 ->
  int16_at (pcm16_bytes samples) i = v.
Proof.
  induction samples as [|x l IH]; intros i v Hi Hv; [done|].
  destruct i as [|i].
  - injection Hi as ->. unfold int16_at, pcm16_bytes.
    cbn [fmap list_fmap concat app le16_bytes Nat.mul Nat.add lookup list_lookup default
         from_option Datatypes.id].
    change (2 * 0 + 1)%nat with 1%nat. cbn [lookup list_lookup default from_option].
    unfold Datatypes.id. rewrite le16_bytes_value by (apply Z.mod_pos_bound; lia).
    destruct (Z.ltb_spec (v mod 65536) 32768); Z.div_mod_to_equations; lia.
  - cbn [lookup list_lookup] in Hi. rewrite <- (IH i v Hi Hv).
    unfold int16_at, pcm16_bytes.
    cbn [fmap list_fmap concat app le16_bytes].
    replace (2 * S i)%nat with (S (S (2 * i))) by lia.
    replace (S (S (2 * i)) + 1)%nat with (S (S (2 * i + 1))) by lia.
    reflexivity.
Qed.

Lemma uint8_at_pcm8_bytes samples i v :
  samples !! i = Some v -> 0 <= v < 256 ->
  uint8_at (pcm8_bytes samples) i = v.
Proof.
  intros Hi Hv. unfold uint8_at, pcm8_bytes.
  rewrite list_lookup_fmap, Hi. cbn. by apply u8_byte_of.
Qed.

(** Decoding the first [n] samples of a buffer that holds [samples]. *)
Lemma decode_pcm16 samples n :
  (n <= length samples)%nat ->
  Forall (fun v => -32768 <= v < 32768) samples ->
  (fun i => pcm16_to_float (int16_at (pcm16_bytes samples) i)) <$> seq 0 n
  = pcm16_to_float <$> take n samples.
Proof.
  intros Hn Hr. apply list_eq. intros i.
  rewrite !list_lookup_fmap.
  destruct (decide (i < n)%nat) as [Hi|Hi].
  - rewrite lookup_seq_lt by done. rewrite lookup_take_lt by done.
    destruct (lookup_lt_is_Some_2 samples i ltac:(lia)) as [v Hv].
    rewrite Hv. cbn. f_equal. f_equal. apply int16_at_pcm16_bytes; [done|].
    by eapply Forall_lookup_1 in Hr.
  - rewrite lookup_seq_ge by lia. rewrite lookup_take_ge by lia. done.
Qed.

Lemma decode_pcm8 samples n :
  (n <= length samples)%nat ->
  Forall (fun v => 0 <= v < 256) samples ->
  (fun i => pcm8_to_float (uint8_at (pcm8_bytes samples) i)) <$> seq 0 n
  = pcm8_to_float <$> take n samples.
Proof.
  intros Hn Hr. apply list_eq. intros i.
  rewrite !list_lookup_fmap.
  destruct (decide (i < n)%nat) as [Hi|Hi].
  - rewrite lookup_seq_lt by done. rewrite lookup_take_lt by done.
    destruct (lookup_lt_is_Some_2 samples i ltac:(lia)) as [v Hv].
    rewrite Hv. cbn. f_equal. f_equal. apply uint8_at_pcm8_bytes; [done|].
    by eapply Forall_lookup_1 in Hr.
  - rewrite lookup_seq_ge by lia. rewrite lookup_take_ge by lia. done.
Qed.

End WavData.

Section WavLoad.
Import Stdio Wav.

(** The loader on a file with the given layout, after the header. *)
Lemma load_wav_layout w path smp :
  layout_ok w -> wl_format w = 1 ->
  wl_channels w * (wl_bits w / 8) <> 0 ->
  load_wav_file (one_file path (wav_file w)) (Some path) (Some smp)
  = let num_frames := wl_data_size w / (wl_channels w * (wl_bits w / 8)) in
    let filled d :=
      {| data := d; num_frames := num_frames;
         smp_channels := wl_channels w; meta := meta smp |} in
    let count := Z.to_nat (num_frames * wl_channels w) in
    let temp_buffer := take (Z.to_nat (wl_data_size w)) (wl_body w) in
    if (wl_bits w =? 16) || (wl_bits w =? 8) then
      if Z.of_nat (length (wl_body w)) <? wl_data_size w
      then Some (MS_ERROR_INVALID_FORMAT, Some (filled []))
      else if wl_bits w =? 16 then
        Some (MS_SUCCESS,
              Some (filled ((fun i => pcm16_to_float (int16_at temp_buffer i))
                              <$> seq 0 count)))
      else
        Some (MS_SUCCESS,
              Some (filled ((fun i => pcm8_to_float (uint8_at temp_buffer i))
                              <$> seq 0 count)))
    else Some (MS_ERROR_INVALID_FORMAT, Some (filled [])).
Proof.
  intros Hok Hf Hdiv. unfold load_wav_file. rewrite fopen_one_file.
  destruct (proj2 (read_wav_header_layout w Hok) Hf) as (h & -> & Hc & Hb & Hd).
  rewrite Hc, Hb, Hd.
  destruct (Z.eqb_spec (wl_channels w * (wl_bits w / 8)) 0) as [|_]; [done|].
  pose proof Hok as (_ & _ & _ & _ & _ & _ & Hsz).
  assert (Hread : fread (Z.to_nat (wl_data_size w)) (file_at (wav_prefix w) (wl_body w))
                  = (take (Z.to_nat (wl_data_size w)) (wl_body w),
                     (fread (Z.to_nat (wl_data_size w))
                            (file_at (wav_prefix w) (wl_body w))).2)).
  { unfold fread, file_at. cbn [content position snd].
    by rewrite Nat2Z.id, drop_app_length. }
  assert (Hlen : negb (Z.of_nat (length (take (Z.to_nat (wl_data_size w)) (wl_body w)))
                       =? wl_data_size w)
                 = (Z.of_nat (length (wl_body w)) <? wl_data_size w)).
  { rewrite length_take.
    destruct (Z.ltb_spec (Z.of_nat (length (wl_body w))) (wl_data_size w));
      destruct (Z.eqb_spec (Z.of_nat (Z.to_nat (wl_data_size w) `min` length (wl_body w)))
                           (wl_data_size w)); cbn [negb]; lia. }
  cbv zeta.
  destruct (Z.eqb_spec (wl_bits w) 16) as [H16|H16].
  - cbn [orb]. rewrite Hread, Hlen.
    by destruct (Z.of_nat (length (wl_body w)) <? wl_data_size w).
  - cbn [orb]. destruct (Z.eqb_spec (wl_bits w) 8) as [H8|H8]; [|done].
    rewrite Hread, Hlen.
    by destruct (Z.of_nat (length (wl_body w)) <? wl_data_size w).
Qed.

End WavLoad.

Section WavAnyFile.
Import Stdio Wav.

Lemma le16_range a b : 0 <= le16 a b < 2 ^ 16.
Proof.
  unfold le16. pose proof (u8_range a). pose proof (u8_range b). lia.
Qed.

Lemma le32_range a b c d : 0 <= le32 a b c d < 2 ^ 32.
Proof.
  unfold le32. pose proof (u8_range a). pose proof (u8_range b).
  pose proof (u8_range c). pose proof (u8_range d). lia.
Qed.

Lemma read_chunk_header_size fp chunk fp1 :
  read_chunk_header fp = (Some chunk, fp1) -> 0 <= size chunk < 2 ^ 32.
Proof.
  unfold read_chunk_header. destruct (fread 8 fp) as [l fp2].
  do 9 (destruct l as [|? l]; try discriminate).
  intros [= <- _]. apply le32_range.
Qed.

Lemma read_fmt_chunk_ranges fp fmt fp1 :
  read_fmt_chunk fp = (Some fmt, fp1) ->
  0 <= num_channels fmt < 2 ^ 16 /\ 0 <= bits_per_sample fmt < 2 ^ 16.
Proof.
  unfold read_fmt_chunk. destruct (fread 16 fp) as [l fp2].
  do 17 (destruct l as [|? l]; try discriminate).
  intros [= <- _]. split; apply le16_range.
Qed.

Lemma find_fmt_ranges fuel : forall fp fmt fp1,
  find_fmt fuel fp = Some (fmt, fp1) ->
  0 <= num_channels fmt < 2 ^ 16 /\ 0 <= bits_per_sample fmt < 2 ^ 16.
Proof.
  induction fuel as [|fuel IH]; intros fp fmt fp1; [discriminate|].
  cbn [find_fmt].
  destruct (read_chunk_header fp) as [[chunk|] fp2]; [|discriminate].
  destruct (memcmp_eq (id chunk) [102; 109; 116; 32]); [|apply IH].
  destruct (read_fmt_chunk fp2) as [[fmt'|] fp3] eqn:E; [|discriminate].
  intros [= <- _]. by eapply read_fmt_chunk_ranges.
Qed.

Lemma find_data_range fuel : forall fp n fp1,
  find_data fuel fp = Some (n, fp1) -> 0 <= n < 2 ^ 32.
Proof.
  induction fuel as [|fuel IH]; intros fp n fp1; [discriminate|].
  cbn [find_data].
  destruct (read_chunk_header fp) as [[chunk|] fp2] eqn:E; [|discriminate].
  destruct (memcmp_eq (id chunk) [100; 97; 116; 97]); [|apply IH].
  intros [= <- _]. by eapply read_chunk_header_size.
Qed.

Lemma read_wav_header_ranges fp e h fp1 :
  read_wav_header fp = (e, Some h, fp1) ->
  0 <= hdr_channels h < 2 ^ 16 /\ 0 <= hdr_bits_per_sample h < 2 ^ 16 /\
  0 <= hdr_data_size h < 2 ^ 32.
Proof.
  unfold read_wav_header. destruct (fread 12 fp) as [l fp2].
  do 13 (destruct l as [|? l]; try discriminate).
  destruct (_ || _); [discriminate|].
  destruct (find_fmt _ _) as [[fmt fp3]|] eqn:Ef; [|discriminate].
  destruct (negb _); [discriminate|].
  destruct (find_data _ _) as [[n fp4]|] eqn:Ed; [|discriminate].
  intros [= _ <- _]. cbn [hdr_channels hdr_bits_per_sample hdr_data_size].
  apply find_fmt_ranges in Ef. apply find_data_range in Ed. lia.
Qed.

Lemma read_wav_header_success fp fp1 :
  read_wav_header fp <> (MS_SUCCESS, None, fp1).
Proof.
  unfold read_wav_header. destruct (fread 12 fp) as [l fp2].
  do 13 (destruct l as [|? l]; try discriminate).
  destruct (_ || _); [discriminate|].
  destruct (find_fmt _ _) as [[fmt fp3]|]; [|discriminate].
  destruct (negb _); [discriminate|].
  destruct (find_data _ _) as [[n fp4]|]; discriminate.
Qed.

(** A header shorter than its twelve bytes. *)
Lemma read_wav_header_short c :
  (length c < 12)%nat ->
  (read_wav_header (file_at [] c)).1 = (MS_ERROR_INVALID_FORMAT, None).
Proof.
  intros Hc. unfold read_wav_header.
  rewrite fread_short by lia.
  do 12 (destruct c as [|? c]; [reflexivity|]).
  cbn [length] in Hc. lia.
Qed.

Lemma Forall_fmap_seq {A} (P : A -> Prop) (f : nat -> A) n :
  (forall i, P (f i)) -> Forall P (f <$> seq 0 n).
Proof.
  intros H. apply Forall_fmap, Forall_forall. intros i _. apply H.
Qed.

Lemma load_wav_file_success fs path smp s1 :
  load_wav_file fs (Some path) (Some smp) = Some (MS_SUCCESS, Some s1) ->
  1 <= smp_channels s1 < 2 ^ 16 /\ 0 <= num_frames s1 < 2 ^ 32 /\
  length (data s1) = Z.to_nat (num_frames s1 * smp_channels s1) /\
  Forall (fun x => unit_range x = true) (data s1) /\
  meta s1 = meta smp.
Proof.
  unfold load_wav_file. destruct (fopen fs path) as [fp|]; [|discriminate].
  destruct (read_wav_header fp) as [[e [h|]] fp1] eqn:Eh.
  2:{ destruct e; try discriminate. by apply read_wav_header_success in Eh. }
  destruct e; try discriminate.
  apply read_wav_header_ranges in Eh as (Hc & Hb & Hd).
  destruct (Z.eqb_spec (hdr_channels h * (hdr_bits_per_sample h / 8)) 0) as [|Hne];
    [discriminate|].
  assert (Hbps : 0 <= hdr_bits_per_sample h / 8) by (apply Z.div_pos; lia).
  assert (Hpos : 0 < hdr_channels h * (hdr_bits_per_sample h / 8)) by nia.
  assert (Hfr : 0 <= hdr_data_size h / (hdr_channels h * (hdr_bits_per_sample h / 8))
                < 2 ^ 32).
  { split; [apply Z.div_pos; lia|].
    apply Z.div_lt_upper_bound; [lia|]. nia. }
  destruct (hdr_bits_per_sample h =? 16).
  - destruct (fread _ fp1) as [buf fp2]. destruct (negb _); [discriminate|].
    intros [= <-]. cbn [data num_frames smp_channels meta].
    split_and!; try lia; try done.
    + by rewrite length_fmap, length_seq.
    + apply Forall_fmap_seq. intros i.
      pose proof (pcm16_ok_all _ (int16_at_range buf i)) as H.
      unfold pcm16_ok in H. by apply andb_prop in H as [_ H].
  - destruct (hdr_bits_per_sample h =? 8); [|discriminate].
    destruct (fread _ fp1) as [buf fp2]. destruct (negb _); [discriminate|].
    intros [= <-]. cbn [data num_frames smp_channels meta].
    split_and!; try lia; try done.
    + by rewrite length_fmap, length_seq.
    + apply Forall_fmap_seq. intros i.
      pose proof (pcm8_ok_all _ (uint8_at_range buf i)) as H.
      unfold pcm8_ok in H. by apply andb_prop in H as [_ H].
Qed.

End WavAnyFile.

Section WavTheorems.
Import Stdio Wav.

Lemma layout_ok_example : layout_ok wav_example.
Proof.
  unfold layout_ok, wav_example; cbn.
  split_and!; try lia; try done.
  apply Forall_cons. split; [|done].
  unfold other_chunk; cbn. split_and!; [done| |lia].
  vm_compute. discriminate.
Qed.

Lemma layout_ok_float_example : layout_ok wav_float_example.
Proof.
  unfold layout_ok, wav_float_example; cbn.
  split_and!; try lia; done.
Qed.

End WavTheorems.

Section WavRoundTrip.
Import Stdio Wav.

Lemma frames_count (samples : list Z) chans :
  1 <= chans ->
  (Z.to_nat (Z.of_nat (length samples) / chans * chans) <= length samples)%nat.
Proof.
  intros Hc. pose proof (Z.mul_div_le (Z.of_nat (length samples)) chans). nia.
Qed.

Lemma load_wav_pcm16 w path smp samples trailer :
  layout_ok w -> wl_format w = 1 -> 1 <= wl_channels w ->
  wl_bits w = 16 ->
  Forall (fun v => -32768 <= v < 32768) samples ->
  wl_body w = pcm16_bytes samples ++ trailer ->
  wl_data_size w = 2 * Z.of_nat (length samples) ->
  load_wav_file (one_file path (wav_file w)) (Some path) (Some smp)
  = Some (MS_SUCCESS,
          Some {| data := pcm16_to_float
                            <$> take (Z.to_nat (Z.of_nat (length samples) / wl_channels w
                                                * wl_channels w)) samples;
                  num_frames := Z.of_nat (length samples) / wl_channels w;
                  smp_channels := wl_channels w; meta := meta smp |}).
Proof.
  intros Hok Hf Hc Hb Hr Hbody Hsz.
  pose proof (frames_count samples _ Hc) as Hcount.
  rewrite load_wav_layout by (try done; rewrite Hb; change (16 / 8) with 2; lia).
  cbv zeta. rewrite Hb, Hsz, Hbody. change (16 / 8) with 2. cbn [Z.eqb Pos.eqb orb].
  rewrite length_app, pcm16_bytes_length.
  destruct (Z.ltb_spec (Z.of_nat (2 * length samples + length trailer))
                       (2 * Z.of_nat (length samples))); [lia|].
  replace (Z.to_nat (2 * Z.of_nat (length samples)))
    with (length (pcm16_bytes samples)) by (rewrite pcm16_bytes_length; lia).
  rewrite take_app_length.
  replace (2 * Z.of_nat (length samples) / (wl_channels w * 2))
    with (Z.of_nat (length samples) / wl_channels w).
  2:{ rewrite (Z.mul_comm (wl_channels w) 2).
      rewrite Z.div_mul_cancel_l by lia. reflexivity. }
  by rewrite decode_pcm16.
Qed.

Lemma load_wav_pcm8 w path smp samples trailer :
  layout_ok w -> wl_format w = 1 -> 1 <= wl_channels w ->
  wl_bits w = 8 ->
  Forall (fun v => 0 <= v < 256) samples ->
  wl_body w = pcm8_bytes samples ++ trailer ->
  wl_data_size w = Z.of_nat (length samples) ->
  load_wav_file (one_file path (wav_file w)) (Some path) (Some smp)
  = Some (MS_SUCCESS,
          Some {| data := pcm8_to_float
                            <$> take (Z.to_nat (Z.of_nat (length samples) / wl_channels w
                                                * wl_channels w)) samples;
                  num_frames := Z.of_nat (length samples) / wl_channels w;
                  smp_channels := wl_channels w; meta := meta smp |}).
Proof.
  intros Hok Hf Hc Hb Hr Hbody Hsz.
  pose proof (frames_count samples _ Hc) as Hcount.
  rewrite load_wav_layout by (try done; rewrite Hb; change (8 / 8) with 1; lia).
  cbv zeta. rewrite Hb, Hsz, Hbody. change (8 / 8) with 1. cbn [Z.eqb Pos.eqb orb].
  unfold pcm8_bytes at 1. rewrite length_app, length_fmap.
  destruct (Z.ltb_spec (Z.of_nat (length samples + length trailer))
                       (Z.of_nat (length samples))); [lia|].
  replace (Z.to_nat (Z.of_nat (length samples)))
    with (length (pcm8_bytes samples)) by (unfold pcm8_bytes; rewrite length_fmap; lia).
  rewrite take_app_length.
  rewrite Z.mul_1_r.
  by rewrite decode_pcm8.
Qed.

End WavRoundTrip.

(** [X20] A PCM file loads to exactly its samples.  Take a RIFF/WAVE file
    with any chunks before the format chunk and before the data chunk,
    format tag 1, at least one channel, and a data chunk that holds
    [samples] (16-bit little-endian, or 8-bit) followed by any other
    bytes.  Then [load_wav_file] returns [MS_SUCCESS]; the frame count is
    the number of samples divided by the channel count, rounded down; the
    data are the first [frames * channels] samples, each divided by 32768
    (16-bit) or offset by 128 and divided by 128 (8-bit); and the metadata
    of the record are left alone.  The RIFF size, the sample rate, the
    byte rate and the block alignment of the file play no part. *)
Theorem wav_file_loads (w : wav_layout) (path : list Byte.byte)
    (smp : ms_sample_data_t) (samples : list Z) (trailer : list Byte.byte) :
  layout_ok w -> wl_format w = 1 -> 1 <= wl_channels w ->
  let frames := Z.of_nat (length samples) / wl_channels w in
  let loaded d :=
    Some (MS_SUCCESS,
          Some {| data := d; num_frames := frames;
                  smp_channels := wl_channels w; meta := meta smp |}) in
  let load :=
    Wav.load_wav_file (one_file path (wav_file w)) (Some path) (Some smp) in
  (wl_bits w = 16 ->
   Forall (fun v => -32768 <= v < 32768) samples ->
   wl_body w = pcm16_bytes samples ++ trailer ->
   wl_data_size w = 2 * Z.of_nat (length samples) ->
   load = loaded (Wav.pcm16_to_float
                    <$> take (Z.to_nat (frames * wl_channels w)) samples)) /\
  (wl_bits w = 8 ->
   Forall (fun v => 0 <= v < 256) samples ->
   wl_body w = pcm8_bytes samples ++ trailer ->
   wl_data_size w = Z.of_nat (length samples) ->
   load = loaded (Wav.pcm8_to_float
                    <$> take (Z.to_nat (frames * wl_channels w)) samples)).
Proof.
  intros Hok Hf Hc frames loaded load. split.
  - intros Hb Hr Hbody Hsz. by apply (load_wav_pcm16 w path smp samples trailer).
  - intros Hb Hr Hbody Hsz. by apply (load_wav_pcm8 w path smp samples trailer).
Qed.

Lemma wav_file_loads_witness :
  Wav.load_wav_file (one_file [] (wav_file wav_example)) (Some []) (Some Wav.zero_sample)
  = Some (MS_SUCCESS,
          Some {| data := Wav.pcm16_to_float <$> [0; 16384; -32768];
                  num_frames := 3; smp_channels := 1;
                  meta := meta Wav.zero_sample |}).
Proof.
  refine (proj1 (wav_file_loads wav_example [] Wav.zero_sample [0; 16384; -32768] []
                   layout_ok_example eq_refl _) eq_refl _ eq_refl eq_refl).
  - cbn. lia.
  - repeat constructor; lia.
Defined.

(** [X21] Loaded samples are exact and lie in [-1, 1).  Whatever the file,
    when [load_wav_file] returns [MS_SUCCESS] the record has between 1 and
    65535 channels, [num_frames * channels] floats, every one of them at
    least -1.0 and below 1.0, and its metadata untouched.  The two
    conversions round nothing: [k / 32768.0f] is the fraction k/32768 for
    every 16-bit [k], and [(b - 128) / 128.0f] the fraction (b-128)/128
    for every byte [b]; so full scale negative is -1.0 and +1.0 is never
    reached. *)
Theorem wav_samples_exact_and_in_range :
  (forall fs path smp s1,
      Wav.load_wav_file fs (Some path) (Some smp) = Some (MS_SUCCESS, Some s1) ->
      1 <= smp_channels s1 < 2 ^ 16 /\ 0 <= num_frames s1 < 2 ^ 32 /\
      length (data s1) = Z.to_nat (num_frames s1 * smp_channels s1) /\
      Forall (fun x => unit_range x = true) (data s1) /\
      meta s1 = meta smp) /\
  (forall k, -32768 <= k < 32768 ->
      SFis_fraction (Wav.pcm16_to_float k) k 32768 = true /\
      unit_range (Wav.pcm16_to_float k) = true) /\
  (forall b, 0 <= b < 256 ->
      SFis_fraction (Wav.pcm8_to_float b) (b - 128) 128 = true /\
      unit_range (Wav.pcm8_to_float b) = true) /\
  Wav.pcm16_to_float (-32768) = F32.of_Z (-1) /\
  Wav.pcm8_to_float 0 = F32.of_Z (-1) /\
  Wav.pcm16_to_float 0 = F32.zero /\
  Wav.pcm8_to_float 128 = F32.zero.
Proof.
  split_and!.
  - intros fs path smp s1. apply load_wav_file_success.
  - intros k Hk. apply andb_prop. by apply pcm16_ok_all.
  - intros b Hb. apply andb_prop. by apply pcm8_ok_all.
  - vm_compute. reflexivity.
  - vm_compute. reflexivity.
  - vm_compute. reflexivity.
  - vm_compute. reflexivity.
Qed.

(** [X22] What the WAV loader refuses.  For a file laid out as RIFF/WAVE
    with a format chunk and a data chunk: a format tag other than 1 gives
    [MS_ERROR_INVALID_FORMAT] and leaves the record alone; with tag 1, a
    bit depth other than 8 and 16 and a data chunk that declares more
    bytes than the file holds give [MS_ERROR_INVALID_FORMAT] as well; but
    zero channels or a bit depth below 8 make the frame count divide by
    zero, before the bit depth is looked at.  A file shorter than the
    12-byte RIFF header gives [MS_ERROR_INVALID_FORMAT], a path that does
    not open [MS_ERROR_FILE_NOT_FOUND], a [NULL] argument
    [MS_ERROR_INVALID_PARAM], each with the record untouched. *)
Theorem wav_file_rejections (w : wav_layout) (path : list Byte.byte)
    (smp : ms_sample_data_t) :
  layout_ok w ->
  let load :=
    Wav.load_wav_file (one_file path (wav_file w)) (Some path) (Some smp) in
  (wl_format w <> 1 -> load = Some (MS_ERROR_INVALID_FORMAT, Some smp)) /\
  (wl_format w = 1 -> wl_channels w = 0 \/ wl_bits w < 8 -> load = None) /\
  (wl_format w = 1 -> 1 <= wl_channels w -> 8 <= wl_bits w ->
   wl_bits w <> 8 -> wl_bits w <> 16 ->
   fst <$> load = Some MS_ERROR_INVALID_FORMAT) /\
  (wl_format w = 1 -> 1 <= wl_channels w -> wl_bits w = 8 \/ wl_bits w = 16 ->
   Z.of_nat (length (wl_body w)) < wl_data_size w ->
   fst <$> load = Some MS_ERROR_INVALID_FORMAT) /\
  (forall c, (length c < 12)%nat ->
     Wav.load_wav_file (one_file path c) (Some path) (Some smp)
     = Some (MS_ERROR_INVALID_FORMAT, Some smp)) /\
  (forall fs, fs path = None ->
     Wav.load_wav_file fs (Some path) (Some smp)
     = Some (MS_ERROR_FILE_NOT_FOUND, Some smp)) /\
  (forall fs, Wav.load_wav_file fs None (Some smp)
              = Some (MS_ERROR_INVALID_PARAM, Some smp)) /\
  (forall fs p, Wav.load_wav_file fs p None = Some (MS_ERROR_INVALID_PARAM, None)).
Proof.
  intros Hok load.
  pose proof Hok as (_ & _ & _ & Hc & Hb & _ & _).
  split_and!.
  - intros Hf. subst load. unfold Wav.load_wav_file. rewrite fopen_one_file.
    pose proof (proj1 (read_wav_header_layout w Hok) Hf) as H.
    destruct (Wav.read_wav_header _) as [[e h] fp1]. cbn [fst] in H.
    by injection H as -> ->.
  - intros Hf Hz. subst load. unfold Wav.load_wav_file. rewrite fopen_one_file.
    destruct (proj2 (read_wav_header_layout w Hok) Hf) as (h & -> & -> & -> & _).
    assert (Hzero : wl_channels w * (wl_bits w / 8) = 0).
    { destruct Hz as [->|Hz]; [lia|]. rewrite Z.div_small by lia. lia. }
    by rewrite Hzero.
  - intros Hf Hch Hb8 Hn8 Hn16. subst load.
    assert (1 <= wl_bits w / 8) by (apply Z.div_le_lower_bound; lia).
    rewrite load_wav_layout by (try done; nia). cbv zeta.
    destruct (Z.eqb_spec (wl_bits w) 16); [done|].
    destruct (Z.eqb_spec (wl_bits w) 8); done.
  - intros Hf Hch Hbits Hshort. subst load.
    assert (1 <= wl_bits w / 8)
      by (destruct Hbits as [-> | ->]; [change (8 / 8) with 1|change (16 / 8) with 2]; lia).
    rewrite load_wav_layout by (try done; nia). cbv zeta.
    destruct (Z.ltb_spec (Z.of_nat (length (wl_body w))) (wl_data_size w)); [|lia].
    by destruct Hbits as [-> | ->].
  - intros c Hlen. unfold Wav.load_wav_file. rewrite fopen_one_file.
    pose proof (read_wav_header_short c Hlen) as H.
    destruct (Wav.read_wav_header _) as [[e h] fp1]. cbn [fst] in H.
    by injection H as -> ->.
  - intros fs Hfs. unfold Wav.load_wav_file, Stdio.fopen. by rewrite Hfs.
  - reflexivity.
  - intros fs [p|]; reflexivity.
Qed.

Lemma wav_file_rejections_witness :
  Wav.load_wav_file (one_file [] (wav_file wav_float_example)) (Some [])
                    (Some Wav.zero_sample)
  = Some (MS_ERROR_INVALID_FORMAT, Some Wav.zero_sample).
Proof.
  refine (proj1 (wav_file_rejections wav_float_example [] Wav.zero_sample
                   layout_ok_float_example) _).
  cbn. lia.
Defined.

(** [X23] Loading a sample file into an instrument.
    [ms_instrument_load_sample] on an instrument that holds 128 samples
    returns [MS_ERROR_BUFFER_OVERFLOW] without opening the file; otherwise
    every error of [load_wav_file] is passed on and leaves the instrument
    as it was, and a success appends one sample (the ones already there
    keep their places) that carries the metadata given.  For a 16-bit PCM
    file laid out as in [X20] the call succeeds and the new sample holds
    the file's samples. *)
Theorem load_sample_from_file (fs : list Byte.byte -> option (list Byte.byte))
    (inst : ms_instrument_t) (path : list Byte.byte) (m : ms_sample_metadata_t) :
  let call fs := Wav.ms_instrument_load_sample fs (Some inst) (Some path) (Some m) in
  let added smp :=
    Some (MS_SUCCESS,
          Some {| samples := samples inst ++ [smp];
                  inst_envelope := inst_envelope inst;
                  pitch_bend_range := pitch_bend_range inst;
                  current_pitch_bend := current_pitch_bend inst;
                  inst_sampler := inst_sampler inst |}) in
  (128 <= num_samples inst ->
   call fs = Some (MS_ERROR_BUFFER_OVERFLOW, Some inst)) /\
  (num_samples inst < 128 ->
   forall e s1,
     Wav.load_wav_file fs (Some path) (Some Wav.zero_sample) = Some (e, s1) ->
     e <> MS_SUCCESS -> call fs = Some (e, Some inst)) /\
  (num_samples inst < 128 ->
   forall s1,
     Wav.load_wav_file fs (Some path) (Some Wav.zero_sample)
     = Some (MS_SUCCESS, Some s1) ->
     call fs = added {| data := data s1; num_frames := num_frames s1;
                        smp_channels := smp_channels s1; meta := m |}) /\
  (num_samples inst < 128 ->
   forall w samples trailer,
     layout_ok w -> wl_format w = 1 -> 1 <= wl_channels w -> wl_bits w = 16 ->
     Forall (fun v => -32768 <= v < 32768) samples ->
     wl_body w = pcm16_bytes samples ++ trailer ->
     wl_data_size w = 2 * Z.of_nat (length samples) ->
     let frames := Z.of_nat (length samples) / wl_channels w in
     call (one_file path (wav_file w))
     = added {| data := Wav.pcm16_to_float
                          <$> take (Z.to_nat (frames * wl_channels w)) samples;
                num_frames := frames; smp_channels := wl_channels w;
                meta := m |}).
Proof.
  intros call added.
  assert (Hsucc : forall fs s1, num_samples inst < 128 ->
     Wav.load_wav_file fs (Some path) (Some Wav.zero_sample)
     = Some (MS_SUCCESS, Some s1) ->
     call fs = added {| data := data s1; num_frames := num_frames s1;
                        smp_channels := smp_channels s1; meta := m |}).
  { intros fs' s1 Hn Hl. subst call added. unfold Wav.ms_instrument_load_sample.
    unfold MS_MAX_SAMPLES_PER_INSTRUMENT.
    destruct (Z.leb_spec 128 (num_samples inst)); [lia|].
    rewrite Hl. reflexivity. }
  split_and!.
  - intros Hn. subst call. unfold Wav.ms_instrument_load_sample.
    unfold MS_MAX_SAMPLES_PER_INSTRUMENT.
    by destruct (Z.leb_spec 128 (num_samples inst)); [|lia].
  - intros Hn e s1 Hl He. subst call. unfold Wav.ms_instrument_load_sample.
    unfold MS_MAX_SAMPLES_PER_INSTRUMENT.
    destruct (Z.leb_spec 128 (num_samples inst)); [lia|].
    rewrite Hl. cbn. by destruct e, s1.
  - intros Hn s1. by apply Hsucc.
  - intros Hn w samples trailer Hok Hf Hc Hb Hr Hbody Hsz frames.
    by rewrite (Hsucc _ _ Hn
                  (load_wav_pcm16 w path Wav.zero_sample samples trailer
                     Hok Hf Hc Hb Hr Hbody Hsz)).
Qed.

(** ** The MIDI parser *)

Section Bits.

Lemma lor_shiftl_add a b n :
  0 <= n -> 0 <= b < 2 ^ n -> Z.lor (Z.shiftl a n) b = a * 2 ^ n + b.
Proof.
  intros Hn Hb. rewrite Z.shiftl_mul_pow2 by exact Hn.
  assert (Hland : Z.land (a * 2 ^ n) b = 0).
  { apply Z.bits_inj'. intros k Hk. rewrite Z.land_spec, Z.bits_0.
    destruct (Z.lt_ge_cases k n) as [Hlt|Hge].
    - by rewrite Z.mul_pow2_bits_low.
    - destruct (Z.eq_dec b 0) as [->|Hb0]; [by rewrite Z.bits_0, andb_false_r|].
      rewrite (Z.bits_above_log2 b k); [by rewrite andb_false_r|lia|].
      apply Z.log2_lt_pow2; [lia|].
      apply Z.lt_le_trans with (2 ^ n); [lia|]. apply Z.pow_le_mono_r; lia. }
  rewrite <- Z.lxor_lor by exact Hland.
  symmetry. by apply Z.add_nocarry_lxor.
Qed.

Lemma land_ones_mod a n m :
  0 <= n -> m = Z.ones n -> Z.land a m = a mod 2 ^ n.
Proof. intros Hn ->. by apply Z.land_ones. Qed.

Lemma be16_value b0 b1 :
  0 <= b1 < 256 -> Z.lor (Z.shiftl b0 8) b1 = b0 * 256 + b1.
Proof. intros H. by rewrite lor_shiftl_add. Qed.

Lemma be24_value b0 b1 b2 :
  0 <= b0 -> 0 <= b1 < 256 -> 0 <= b2 < 256 ->
  Z.lor (Z.lor (Z.shiftl b0 16) (Z.shiftl b1 8)) b2 = b0 * 65536 + b1 * 256 + b2.
Proof.
  intros H0 H1 H2.
  replace (Z.shiftl b0 16) with (Z.shiftl (Z.shiftl b0 8) 8)
    by (rewrite Z.shiftl_shiftl by lia; reflexivity).
  rewrite <- Z.shiftl_lor, be16_value by done.
  rewrite lor_shiftl_add by lia. lia.
Qed.

Lemma be32_value b0 b1 b2 b3 :
  0 <= b0 -> 0 <= b1 < 256 -> 0 <= b2 < 256 -> 0 <= b3 < 256 ->
  Z.lor (Z.lor (Z.lor (Z.shiftl b0 24) (Z.shiftl b1 16)) (Z.shiftl b2 8)) b3
  = b0 * 16777216 + b1 * 65536 + b2 * 256 + b3.
Proof.
  intros H0 H1 H2 H3.
  replace (Z.shiftl b0 24) with (Z.shiftl (Z.shiftl b0 16) 8)
    by (rewrite Z.shiftl_shiftl by lia; reflexivity).
  replace (Z.shiftl b1 16) with (Z.shiftl (Z.shiftl b1 8) 8)
    by (rewrite Z.shiftl_shiftl by lia; reflexivity).
  rewrite <- !Z.shiftl_lor. rewrite be24_value by done.
  rewrite lor_shiftl_add by lia. lia.
Qed.

Lemma lor_bound a b n :
  0 <= n -> 0 <= a < 2 ^ n -> 0 <= b < 2 ^ n -> 0 <= Z.lor a b < 2 ^ n.
Proof.
  intros Hn Ha Hb. split; [apply Z.lor_nonneg; lia|].
  destruct (Z.eq_dec (Z.lor a b) 0) as [->|Hne]; [lia|].
  assert (0 <= Z.lor a b) by (apply Z.lor_nonneg; lia).
  apply Z.log2_lt_pow2; [lia|].
  rewrite Z.log2_lor by lia.
  destruct (Z.eq_dec a 0) as [->|Ha0]; destruct (Z.eq_dec b 0) as [->|Hb0].
  - done.
  - cbn [Z.log2]. rewrite Z.max_r by apply Z.log2_nonneg. apply Z.log2_lt_pow2; lia.
  - cbn [Z.log2]. rewrite Z.max_l by apply Z.log2_nonneg. apply Z.log2_lt_pow2; lia.
  - apply Z.max_lub_lt; apply Z.log2_lt_pow2; lia.
Qed.

Lemma land_128_low x : 0 <= x < 128 -> Z.land x 128 = 0.
Proof.
  intros Hx. apply Z.bits_inj'. intros k Hk. rewrite Z.land_spec, Z.bits_0.
  destruct (Z.eq_dec k 7) as [->|Hk7].
  - destruct (Z.eq_dec x 0) as [->|Hx0]; [done|].
    rewrite (Z.bits_above_log2 x 7); [done|lia|].
    apply Z.log2_lt_pow2; lia.
  - replace 128 with (2 ^ 7) by reflexivity.
    rewrite Z.pow2_bits_eqb by lia.
    destruct (Z.eqb_spec 7 k); [lia|]. by rewrite andb_false_r.
Qed.

Lemma land_128_high x : 0 <= x < 128 -> Z.land (128 + x) 128 = 128.
Proof.
  intros Hx.
  replace (128 + x) with (Z.lor (Z.shiftl 1 7) x)
    by (rewrite lor_shiftl_add by (change (2 ^ 7) with 128; lia); lia).
  rewrite Z.land_lor_distr_l, (land_128_low x) by done. reflexivity.
Qed.

Lemma land_127_low x : 0 <= x < 128 -> Z.land x 127 = x.
Proof.
  intros Hx. rewrite (land_ones_mod _ 7 127) by done. change (2 ^ 7) with 128.
  by apply Z.mod_small.
Qed.

Lemma land_127_high x : 0 <= x < 128 -> Z.land (128 + x) 127 = x.
Proof.
  intros Hx. rewrite (land_ones_mod _ 7 127) by done. change (2 ^ 7) with 128.
  Z.div_mod_to_equations. lia.
Qed.

(** One turn of the variable-length loop on a small value. *)
Lemma vlq_step value x :
  0 <= value -> value * 128 < 2 ^ 32 -> 0 <= x < 128 ->
  Z.lor (Z.shiftl value 7 mod 2 ^ 32) x = value * 128 + x.
Proof.
  intros Hv Hs Hx.
  rewrite (Z.mod_small (Z.shiftl value 7))
    by (rewrite Z.shiftl_mul_pow2 by lia; change (2 ^ 7) with 128; lia).
  rewrite lor_shiftl_add by (change (2 ^ 7) with 128; lia). reflexivity.
Qed.

End Bits.

Section MidiReads.
Import Stdio Midi.

Lemma read_byte_at pre b rest :
  read_byte (file_at pre (b :: rest)) = Some (u8 b, file_at (pre ++ [b]) rest).
Proof.
  unfold read_byte. change (b :: rest) with ([b] ++ rest).
  by rewrite (fread_at 1 pre [b] rest eq_refl).
Qed.

Lemma read_byte_range fp v fp1 : read_byte fp = Some (v, fp1) -> 0 <= v < 256.
Proof.
  unfold read_byte. destruct (fread 1 fp) as [[|b [|]] fp2]; try discriminate.
  intros [= <- _]. apply u8_range.
Qed.

Lemma read_bytes_at n pre bs rest :
  length bs = n ->
  read_bytes n (file_at pre (bs ++ rest)) = Some (bs, file_at (pre ++ bs) rest).
Proof.
  intros Hn. unfold read_bytes. rewrite (fread_at n pre bs rest Hn).
  by rewrite Hn, Nat.eqb_refl.
Qed.

Lemma read_be16_at pre v rest :
  0 <= v < 2 ^ 16 ->
  read_be16 (file_at pre (be16_bytes v ++ rest))
  = Some (v, file_at (pre ++ be16_bytes v) rest).
Proof.
  intros Hv. unfold read_be16.
  rewrite (fread_at 2 pre (be16_bytes v) rest eq_refl).
  unfold be16_bytes. rewrite !u8_byte_of by (apply Z.mod_pos_bound; lia).
  rewrite be16_value by (apply Z.mod_pos_bound; lia).
  do 3 f_equal. Z.div_mod_to_equations. lia.
Qed.

Lemma read_be32_at pre v rest :
  0 <= v < 2 ^ 32 ->
  read_be32 (file_at pre (be32_bytes v ++ rest))
  = Some (v, file_at (pre ++ be32_bytes v) rest).
Proof.
  intros Hv. unfold read_be32.
  rewrite (fread_at 4 pre (be32_bytes v) rest eq_refl).
  unfold be32_bytes. rewrite !u8_byte_of by (apply Z.mod_pos_bound; lia).
  rewrite be32_value by (apply Z.mod_pos_bound; lia).
  do 3 f_equal. Z.div_mod_to_equations. lia.
Qed.

(** The loop on continuation bytes with the digits [ds], then a last byte
    with the digit [d]. *)
Lemma variable_length_loop_at ds : forall fuel value pre d rest,
  (length ds < fuel)%nat ->
  Forall (fun x => 0 <= x < 128) ds -> 0 <= d < 128 ->
  0 <= value -> (value + 1) * 128 ^ Z.of_nat (S (length ds)) <= 2 ^ 32 ->
  variable_length_loop fuel value
    (file_at pre (((fun x => byte_of (128 + x)) <$> ds) ++ [byte_of d] ++ rest))
  = Some (fold_left (fun acc x => acc * 128 + x) (ds ++ [d]) value,
          file_at (pre ++ ((fun x => byte_of (128 + x)) <$> ds) ++ [byte_of d]) rest).
Proof.
  induction ds as [|x ds IH]; intros fuel value pre d rest Hfuel Hds Hd Hv Hbound.
  - destruct fuel as [|fuel]; [cbn in Hfuel; lia|].
    cbn [fmap list_fmap app variable_length_loop fold_left].
    rewrite read_byte_at. cbn [mbind option_bind].
    rewrite u8_byte_of by lia.
    cbn [length] in Hbound. change (128 ^ Z.of_nat 1) with 128 in Hbound.
    rewrite land_127_low, land_128_low by done. cbn [Z.eqb].
    by rewrite vlq_step by lia.
  - destruct fuel as [|fuel]; [cbn in Hfuel; lia|].
    apply Forall_cons in Hds as [Hx Hds].
    rewrite fmap_cons, <- !app_comm_cons. cbn [variable_length_loop fold_left].
    rewrite read_byte_at. cbn [mbind option_bind].
    rewrite u8_byte_of by lia.
    assert (Hpow : 0 < 128 ^ Z.of_nat (S (length ds))) by (apply Z.pow_pos_nonneg; lia).
    assert (Hstep : 128 ^ Z.of_nat (S (length (x :: ds)))
                    = 128 * 128 ^ Z.of_nat (S (length ds))).
    { cbn [length]. rewrite (Nat2Z.inj_succ (S (length ds))).
      rewrite Z.pow_succ_r by lia. reflexivity. }
    rewrite Hstep in Hbound.
    assert (Hsmall : value * 128 < 2 ^ 32) by nia.
    assert (Hnext : (value * 128 + x + 1) * 128 ^ Z.of_nat (S (length ds)) <= 2 ^ 32) by nia.
    rewrite land_127_high, land_128_high by done. cbn [Z.eqb Pos.eqb].
    rewrite vlq_step by done.
    etrans;
      [apply (IH fuel (value * 128 + x) (pre ++ [byte_of (128 + x)]) d rest);
       [cbn [length] in Hfuel; lia|done|done|lia|exact Hnext]|].
    f_equal. f_equal. rewrite <- !app_assoc. reflexivity.
Qed.

Lemma vlq_high_digits_range n :
  0 <= n < 2 ^ 28 ->
  Forall (fun x => 0 <= x < 128) (vlq_high_digits n) /\
  (length (vlq_high_digits n) <= 3)%nat /\
  fold_left (fun acc x => acc * 128 + x) (vlq_high_digits n ++ [n mod 128]) 0 = n.
Proof.
  intros Hn. unfold vlq_high_digits.
  destruct (Z.leb_spec 2097152 n); destruct (Z.leb_spec 16384 n);
    destruct (Z.leb_spec 128 n); try lia; cbn [app length fold_left];
    (split_and!;
     [repeat (apply Forall_cons; split; [apply Z.mod_pos_bound; lia|]); by apply Forall_nil
     |lia
     |Z.div_mod_to_equations; lia]).
Qed.

Lemma read_variable_length_at pre n rest :
  0 <= n < 2 ^ 28 ->
  read_variable_length (file_at pre (vlq_bytes n ++ rest))
  = Some (n, file_at (pre ++ vlq_bytes n) rest).
Proof.
  intros Hn. destruct (vlq_high_digits_range n Hn) as (Hds & Hlen & Hval).
  unfold read_variable_length, vlq_bytes. rewrite <- !app_assoc.
  rewrite variable_length_loop_at; [by rewrite Hval| |done|apply Z.mod_pos_bound; lia|lia|].
  2:{ change (2 ^ 32) with (16 * 128 ^ 4). rewrite Z.add_0_l, Z.mul_1_l.
      transitivity (128 ^ 4); [apply Z.pow_le_mono_r; lia|lia]. }
  unfold file_at. cbn [content]. rewrite !length_app, length_fmap. cbn [length]. lia.
Qed.

Lemma vlq_bytes_length n : (1 <= length (vlq_bytes n) <= 4)%nat.
Proof.
  unfold vlq_bytes, vlq_high_digits. rewrite length_app, length_fmap, !length_app.
  destruct (2097152 <=? n), (16384 <=? n), (128 <=? n); cbn [length]; lia.
Qed.

End MidiReads.

Section MidiStep.
Import Stdio Midi.

Lemma all_status_nibbles_ok : check_from status_nibbles_ok (Z.to_nat 256) 0 = true.
Proof. vm_compute. reflexivity. Qed.

Lemma status_nibbles hi ch :
  0 <= ch < 16 -> hi mod 16 = 0 -> 0 <= hi < 256 ->
  Z.land (hi + ch) 240 = hi /\ Z.land (hi + ch) 15 = ch.
Proof.
  intros Hch Hhi Hr.
  pose proof (check_from_spec _ _ _ (hi + ch) all_status_nibbles_ok) as H.
  unfold status_nibbles_ok in H.
  apply andb_prop in H as [H1 H2]; [|Z.div_mod_to_equations; lia].
  apply Z.eqb_eq in H1, H2. rewrite H1, H2.
  Z.div_mod_to_equations. lia.
Qed.

Lemma msg_status_range m : msg_ok m -> 128 <= msg_status m < 256.
Proof.
  destruct m as [[]| | | | | | | |[]]; cbn [msg_ok msg_status]; lia.
Qed.

End MidiStep.

Section MidiParseEvent.
Import Stdio Midi.

Lemma fread_1_at pre b rest :
  fread 1 (file_at pre (b :: rest)) = ([b], file_at (pre ++ [b]) rest).
Proof. apply (fread_at 1 pre [b] rest eq_refl). Qed.

Lemma bend_bytes lsb msb :
  0 <= lsb < 128 -> 0 <= msb < 128 ->
  Z.land (Z.lor (Z.shiftl msb 7) lsb - 8192) 255 = (msb * 128 + lsb - 8192) mod 256 /\
  Z.land (Z.shiftr (Z.lor (Z.shiftl msb 7) lsb - 8192) 8) 255
  = (msb * 128 + lsb - 8192) / 256 mod 256.
Proof.
  intros Hl Hm. rewrite lor_shiftl_add by (change (2 ^ 7) with 128; lia).
  change (2 ^ 7) with 128.
  rewrite !(land_ones_mod _ 8 255) by done. rewrite Z.shiftr_div_pow2 by lia.
  done.
Qed.

Lemma file_at_snoc2 pre a b rest :
  file_at ((pre ++ [a]) ++ [b]) rest = file_at (pre ++ [a; b]) rest.
Proof. by rewrite <- app_assoc. Qed.

(** The dispatch on a message of a track. *)
Lemma parse_message_item pre m rest t time rs :
  msg_ok m ->
  parse_message t time (msg_status m) rs (file_at pre (msg_data m ++ rest))
  = Some {| fp := file_at (pre ++ msg_data m) rest;
            track := track_step t time m;
            current_time := time; running_status := rs |}.
Proof.
  intros Hm. unfold parse_message.
  destruct m as [on ch a b|ch a b|ch a b|ch a|ch a|ch a b|v|ty p|esc p];
    cbn [msg_ok msg_status msg_data] in *.
  - destruct Hm as (Hch & Ha & Hb).
    assert (Hs : Z.land ((if on then 144 else 128) + ch) 240 = (if on then 144 else 128)
                 /\ Z.land ((if on then 144 else 128) + ch) 15 = ch)
      by (destruct on; by apply status_nibbles).
    destruct Hs as [-> ->]. cbn [app].
    rewrite !read_byte_at. cbn [mbind option_bind]. rewrite read_byte_at.
    cbn [mbind option_bind]. rewrite !u8_byte_of by lia.
    rewrite file_at_snoc2. unfold track_step. cbn [msg_event].
    destruct on; reflexivity.
  - destruct Hm as (Hch & Ha & Hb).
    destruct (status_nibbles 224 ch Hch eq_refl ltac:(lia)) as [-> ->].
    cbn [Z.eqb Pos.eqb orb app].
    rewrite !read_byte_at. cbn [mbind option_bind]. rewrite read_byte_at.
    cbn [mbind option_bind]. rewrite !u8_byte_of by lia.
    rewrite file_at_snoc2. unfold track_step. cbn [msg_event].
    destruct (bend_bytes a b Ha Hb) as [-> ->]. reflexivity.
  - destruct Hm as (Hch & Ha & Hb).
    destruct (status_nibbles 176 ch Hch eq_refl ltac:(lia)) as [-> ->].
    cbn [Z.eqb Pos.eqb orb app].
    rewrite fread_1_at. cbn [snd]. rewrite fread_1_at. cbn [snd].
    by rewrite file_at_snoc2.
  - destruct Hm as (Hch & Ha).
    destruct (status_nibbles 192 ch Hch eq_refl ltac:(lia)) as [-> ->].
    cbn [Z.eqb Pos.eqb orb app].
    by rewrite fread_1_at.
  - destruct Hm as (Hch & Ha).
    destruct (status_nibbles 208 ch Hch eq_refl ltac:(lia)) as [-> ->].
    cbn [Z.eqb Pos.eqb orb app].
    by rewrite fread_1_at.
  - destruct Hm as (Hch & Ha & Hb).
    destruct (status_nibbles 160 ch Hch eq_refl ltac:(lia)) as [-> ->].
    cbn [Z.eqb Pos.eqb orb app].
    rewrite fread_1_at. cbn [snd]. rewrite fread_1_at. cbn [snd].
    by rewrite file_at_snoc2.
  - change (Z.land 255 240) with 240. cbn [Z.eqb Pos.eqb orb].
    rewrite <- app_comm_cons, <- app_assoc.
    rewrite read_byte_at. cbn [mbind option_bind].
    rewrite read_variable_length_at by lia. cbn [mbind option_bind].
    rewrite u8_byte_of by lia. cbn [Z.eqb Pos.eqb andb].
    rewrite (fread_at 3 _ [byte_of (v / 65536 mod 256); byte_of (v / 256 mod 256);
                           byte_of (v mod 256)] rest eq_refl).
    rewrite !u8_byte_of by (apply Z.mod_pos_bound; lia).
    rewrite be24_value by (apply Z.mod_pos_bound; lia).
    unfold track_step. cbn [msg_event].
    f_equal. f_equal.
    + by rewrite <- !app_assoc.
    + f_equal. Z.div_mod_to_equations. lia.
  - destruct Hm as (Hty & Hlen & Hnot).
    change (Z.land 255 240) with 240. cbn [Z.eqb Pos.eqb orb].
    rewrite <- app_comm_cons, <- app_assoc.
    rewrite read_byte_at. cbn [mbind option_bind].
    rewrite read_variable_length_at by lia. cbn [mbind option_bind].
    rewrite u8_byte_of by lia.
    assert (Hno : (ty =? 81) && (Z.of_nat (length p) =? 3) = false).
    { destruct (Z.eqb_spec ty 81); [|done].
      destruct (Z.eqb_spec (Z.of_nat (length p)) 3); [|done].
      exfalso. apply Hnot. lia. }
    rewrite Hno. rewrite fseek_at. unfold track_step. cbn [msg_event].
    f_equal. f_equal. by rewrite <- !app_assoc.
  - assert (Hs : Z.land (if esc then 247 else 240) 240 = 240) by (by destruct esc).
    rewrite Hs. cbn [Z.eqb Pos.eqb orb].
    assert (H255 : ((if esc then 247 else 240) =? 255) = false) by (by destruct esc).
    assert (Hsx : ((if esc then 247 else 240) =? 240) || ((if esc then 247 else 240) =? 247)
                  = true) by (by destruct esc).
    rewrite H255, Hsx. rewrite <- app_assoc.
    rewrite read_variable_length_at by lia. cbn [mbind option_bind].
    rewrite fseek_at. unfold track_step. cbn [msg_event].
    f_equal. f_equal. by rewrite <- !app_assoc.
Qed.

(** One turn of the track loop on an item of a track. *)
Lemma parse_event_item pre it rest t time prev :
  0 <= it_delta it < 2 ^ 28 -> msg_ok (it_msg it) ->
  (it_running it = true ->
   channel_msg (it_msg it) = true /\ msg_status (it_msg it) = prev) ->
  parse_event {| fp := file_at pre (item_bytes it ++ rest); track := t;
                 current_time := time; running_status := prev |}
  = Some {| fp := file_at (pre ++ item_bytes it) rest;
            track := track_step t ((time + it_delta it) mod 2 ^ 32) (it_msg it);
            current_time := (time + it_delta it) mod 2 ^ 32;
            running_status := msg_status (it_msg it) |}.
Proof.
  intros Hd Hm Hrun. destruct it as [delta running m].
  cbn [it_delta it_running it_msg] in *.
  unfold parse_event, item_bytes.
  cbn [fp track current_time running_status it_delta it_running it_msg].
  rewrite <- !app_assoc. rewrite read_variable_length_at by done.
  cbn [mbind option_bind].
  destruct running.
  - destruct (Hrun eq_refl) as [Hch <-]. cbn [app].
    assert (Hfirst : exists a l, msg_data m = byte_of a :: l /\ 0 <= a < 128).
    { destruct m as [on ch a b|ch a b|ch a b|ch a|ch a|ch a b| | |];
        try discriminate Hch; cbn [msg_data msg_ok] in *;
        eexists _, _; (split; [reflexivity|lia]). }
    destruct Hfirst as (a & l & Hdata & Ha).
    rewrite Hdata at 1. cbn [app]. rewrite read_byte_at. cbn [mbind option_bind].
    rewrite u8_byte_of by lia.
    destruct (Z.ltb_spec a 128); [|lia].
    rewrite fseek_back.
    change (byte_of a :: l ++ rest) with ((byte_of a :: l) ++ rest).
    rewrite <- Hdata. rewrite parse_message_item by done.
    by rewrite <- !app_assoc.
  - pose proof (msg_status_range m Hm) as Hs.
    cbn [app]. rewrite read_byte_at. cbn [mbind option_bind].
    rewrite u8_byte_of by lia.
    destruct (Z.ltb_spec (msg_status m) 128); [lia|].
    rewrite parse_message_item by done.
    f_equal. f_equal. by rewrite <- !app_assoc.
Qed.

End MidiParseEvent.

Section MidiTrack.
Import Stdio Midi.

Lemma item_bytes_length it : (1 <= length (item_bytes it))%nat.
Proof.
  unfold item_bytes. rewrite length_app.
  pose proof (vlq_bytes_length (it_delta it)). lia.
Qed.

Lemma track_bytes_cons it l : track_bytes (it :: l) = item_bytes it ++ track_bytes l.
Proof. reflexivity. Qed.

Lemma track_bytes_length items : (length items <= length (track_bytes items))%nat.
Proof.
  induction items as [|it l IH]; [done|].
  rewrite track_bytes_cons, length_app. cbn [length].
  pose proof (item_bytes_length it). lia.
Qed.

(** The track loop on the items of a track. *)
Lemma parse_events_items items : forall fuel pre rest t time prev,
  items_ok prev items -> (length items <= fuel)%nat ->
  parse_events fuel (Z.of_nat (length (pre ++ track_bytes items)))
    {| fp := file_at pre (track_bytes items ++ rest); track := t;
       current_time := time; running_status := prev |}
  = Some {| fp := file_at (pre ++ track_bytes items) rest;
            track := track_after t time items;
            current_time := time_after time items;
            running_status := status_after prev items |}.
Proof.
  induction items as [|it l IH]; intros fuel pre rest t time prev Hok Hfuel.
  - assert (Hexit : (ftell (file_at pre (track_bytes [] ++ rest))
                     <? Z.of_nat (length (pre ++ track_bytes []))) = false).
    { unfold ftell, file_at. cbn [position]. apply Z.ltb_ge.
      change (track_bytes []) with (@nil Byte.byte). rewrite app_nil_r. lia. }
    destruct fuel; cbn [parse_events fp]; rewrite Hexit;
      change (track_bytes []) with (@nil Byte.byte); by rewrite app_nil_r.
  - destruct Hok as (Hd & Hm & Hrun & Hl).
    destruct fuel as [|fuel]; [cbn [length] in Hfuel; lia|].
    assert (Hgo : (ftell (file_at pre (track_bytes (it :: l) ++ rest))
                   <? Z.of_nat (length (pre ++ track_bytes (it :: l)))) = true).
    { unfold ftell, file_at. cbn [position]. apply Z.ltb_lt.
      rewrite length_app, track_bytes_cons, length_app.
      pose proof (item_bytes_length it). lia. }
    cbn [parse_events fp]. rewrite Hgo.
    rewrite track_bytes_cons, <- !app_assoc.
    rewrite parse_event_item by done. cbn [mbind option_bind].
    rewrite (app_assoc pre).
    rewrite (IH fuel (pre ++ item_bytes it) rest); [|done|cbn [length] in Hfuel; lia].
    reflexivity.
Qed.

Lemma track_after_spec items : forall t time,
  events (track_after t time items) = events t ++ track_events time items /\
  tempo (track_after t time items) = track_tempo (tempo t) items /\
  ticks_per_beat (track_after t time items) = ticks_per_beat t /\
  capacity (track_after t time items)
  = capacity_after (capacity t) (num_events t) (length (track_events time items)).
Proof.
  induction items as [|it l IH]; intros t time.
  - cbn. by rewrite app_nil_r.
  - cbn [track_after track_events].
    destruct (IH (track_step t ((time + it_delta it) mod 2 ^ 32) (it_msg it))
                 ((time + it_delta it) mod 2 ^ 32)) as (He & Ht & Hk & Hc).
    rewrite He, Ht, Hk, Hc. clear IH He Ht Hk Hc.
    unfold track_step, track_tempo. cbn [fold_left].
    destruct (msg_event _ (it_msg it)) as [e|] eqn:Ee.
    + assert (Hnt : match it_msg it with MsgTempo v => v | _ => tempo t end = tempo t)
        by (destruct (it_msg it); try done; discriminate Ee).
      rewrite Hnt. unfold add_midi_event. cbn [snd events tempo ticks_per_beat capacity].
      split_and!; [by rewrite <- app_assoc|done|done|].
      cbn [length capacity_after]. f_equal.
      unfold num_events. cbn [events]. rewrite length_app. cbn [length]. lia.
    + destruct (it_msg it); try discriminate Ee; done.
Qed.

Lemma skip_header_extra pre extra rest :
  (if 6 <? 6 + Z.of_nat (length extra)
   then fseek_cur (file_at pre (extra ++ rest)) (6 + Z.of_nat (length extra) - 6)
   else file_at pre (extra ++ rest))
  = file_at (pre ++ extra) rest.
Proof.
  destruct (Z.ltb_spec 6 (6 + Z.of_nat (length extra))) as [H|H].
  - replace (6 + Z.of_nat (length extra) - 6) with (Z.of_nat (length extra)) by lia.
    apply fseek_at.
  - destruct extra as [|b extra]; [|cbn [length] in H; lia].
    by rewrite app_nil_r.
Qed.

Lemma memcmp_MThd : memcmp_eq [Byte.x4d; Byte.x54; Byte.x68; Byte.x64] [77; 84; 104; 100] = true.
Proof. vm_compute. reflexivity. Qed.

Lemma memcmp_MTrk : memcmp_eq [Byte.x4d; Byte.x54; Byte.x72; Byte.x6b] [77; 84; 114; 107] = true.
Proof. vm_compute. reflexivity. Qed.

(** A header chunk followed by a chunk that is no track. *)
Lemma midi_parse_file_no_track fmt ntracks division extra magic rest path t0 :
  0 <= fmt < 2 ^ 16 -> 0 <= ntracks < 2 ^ 16 -> 0 <= division < 2 ^ 16 ->
  6 + Z.of_nat (length extra) < 2 ^ 32 ->
  length magic = 4%nat -> u8 <$> magic <> [77; 84; 114; 107] ->
  midi_parse_file (one_file path (midi_header fmt ntracks division extra ++ magic ++ rest))
                  (Some path) (Some t0)
  = Some (MS_ERROR_INVALID_FORMAT,
          Some {| events := []; capacity := 0;
                  ticks_per_beat := division mod 32768; tempo := 500000 |}).
Proof.
  intros Hf Hn Hd Hx Hlen Hmagic.
  unfold midi_parse_file. rewrite fopen_one_file. unfold midi_header.
  rewrite <- !app_assoc.
  rewrite (read_bytes_at 4 [] [Byte.x4d; Byte.x54; Byte.x68; Byte.x64]) by done.
  cbn [mbind option_bind]. rewrite memcmp_MThd. cbn [negb].
  rewrite read_be32_at by lia. cbn [mbind option_bind].
  rewrite read_be16_at by lia. cbn [mbind option_bind].
  rewrite read_be16_at by lia. cbn [mbind option_bind].
  rewrite read_be16_at by lia. cbn [mbind option_bind].
  rewrite skip_header_extra.
  rewrite (read_bytes_at 4 _ magic) by done.
  cbn [mbind option_bind].
  unfold memcmp_eq. rewrite bool_decide_eq_false_2 by done. cbn [negb].
  by rewrite (land_ones_mod division 15 32767).
Qed.

(** A file that does not start with the header magic. *)
Lemma midi_parse_file_no_header magic rest path t0 :
  length magic = 4%nat -> u8 <$> magic <> [77; 84; 104; 100] ->
  midi_parse_file (one_file path (magic ++ rest)) (Some path) (Some t0)
  = Some (MS_ERROR_INVALID_FORMAT, Some zero_track).
Proof.
  intros Hlen Hmagic.
  unfold midi_parse_file. rewrite fopen_one_file.
  rewrite (read_bytes_at 4 [] magic) by done.
  cbn [mbind option_bind].
  unfold memcmp_eq. by rewrite bool_decide_eq_false_2.
Qed.

(** [X24] A MIDI file parses to its notes and bends.  Take a file with a
    header chunk (any format, track count and extra header bytes), then a
    first track chunk whose declared length is that of its messages, each
    with a delta time below 2^28, with or without running status.  Then
    [midi_parse_file] returns [MS_SUCCESS] and the track holds, in file
    order, one event per note and pitch-bend message and nothing for any
    other message: the time stamp is the sum of the delta times so far
    (modulo 2^32), a note-on with velocity 0 is stored as a note-off, a
    bend as the low and high byte of its 14-bit value minus 8192.  The tempo
    is that of the last tempo message, 500000 without one;
    [ticks_per_beat] is the low 15 bits of the division; whatever follows
    the first track is not read. *)
Theorem midi_file_parses (fmt ntracks division : Z) (extra : list Byte.byte)
    (items : list track_item) (rest path : list Byte.byte)
    (t0 : Midi.midi_track_t) :
  0 <= fmt < 2 ^ 16 -> 0 <= ntracks < 2 ^ 16 -> 0 <= division < 2 ^ 16 ->
  6 + Z.of_nat (length extra) < 2 ^ 32 ->
  Z.of_nat (length (track_bytes items)) < 2 ^ 32 ->
  items_ok 0 items ->
  Midi.midi_parse_file
    (one_file path (midi_file fmt ntracks division extra items rest))
    (Some path) (Some t0)
  = Some (MS_SUCCESS,
          Some {| Midi.events := track_events 0 items;
                  Midi.capacity :=
                    capacity_after 0 0 (length (track_events 0 items));
                  Midi.ticks_per_beat := division mod 32768;
                  Midi.tempo := track_tempo 500000 items |}).
Proof.
  intros Hf Hn Hd Hx Hlen Hok.
  unfold midi_parse_file. rewrite fopen_one_file. unfold midi_file, midi_header.
  rewrite <- !app_assoc.
  rewrite (read_bytes_at 4 [] [Byte.x4d; Byte.x54; Byte.x68; Byte.x64]) by done.
  cbn [mbind option_bind]. rewrite memcmp_MThd. cbn [negb].
  rewrite read_be32_at by lia. cbn [mbind option_bind].
  rewrite read_be16_at by lia. cbn [mbind option_bind].
  rewrite read_be16_at by lia. cbn [mbind option_bind].
  rewrite read_be16_at by lia. cbn [mbind option_bind].
  rewrite skip_header_extra.
  rewrite (read_bytes_at 4 _ [Byte.x4d; Byte.x54; Byte.x72; Byte.x6b]) by done.
  cbn [mbind option_bind]. rewrite memcmp_MTrk. cbn [negb].
  rewrite read_be32_at by lia. cbn [mbind option_bind].
  set (pre := (_ ++ be32_bytes (Z.of_nat (length (track_bytes items))))).
  assert (Hend : ftell (file_at pre (track_bytes items ++ rest))
                 + Z.of_nat (length (track_bytes items))
                 = Z.of_nat (length (pre ++ track_bytes items))).
  { unfold ftell, file_at. cbn [position]. rewrite length_app. lia. }
  rewrite Hend.
  rewrite parse_events_items; [|done|].
  2:{ unfold file_at. cbn [content]. rewrite !length_app.
      pose proof (track_bytes_length items). lia. }
  cbn [mbind option_bind track].
  destruct (track_after_spec items
              {| events := []; capacity := 0;
                 ticks_per_beat := Z.land division 32767; tempo := 500000 |} 0)
    as (He & Ht & Hk & Hc).
  destruct (track_after _ _ _) as [ev cap tk tp].
  cbn [events capacity ticks_per_beat tempo num_events length] in *.
  rewrite He, Ht, Hk, Hc.
  by rewrite (land_ones_mod division 15 32767).
Qed.

Lemma midi_file_parses_witness :
  Midi.midi_parse_file
    (one_file [] (midi_file 1 1 480 [] midi_example_items []))
    (Some []) (Some Midi.zero_track)
  = Some (MS_SUCCESS,
          Some {| Midi.events :=
                    [{| Midi.timestamp := 0; Midi.type := Midi.MIDI_NOTE_ON;
                        Midi.channel := 0; Midi.data1 := 60; Midi.data2 := 100 |};
                     {| Midi.timestamp := 480; Midi.type := Midi.MIDI_NOTE_OFF;
                        Midi.channel := 0; Midi.data1 := 60; Midi.data2 := 0 |};
                     {| Midi.timestamp := 720; Midi.type := Midi.MIDI_PITCH_BEND;
                        Midi.channel := 1; Midi.data1 := 0; Midi.data2 := 16 |}];
                  Midi.capacity := 1024;
                  Midi.ticks_per_beat := 480;
                  Midi.tempo := 600000 |}).
Proof.
  refine (midi_file_parses 1 1 480 [] midi_example_items [] [] Midi.zero_track
            _ _ _ _ _ _); try (cbn; lia).
  cbn. repeat split; try lia; discriminate.
Defined.

End MidiTrack.

Section MidiAnyFile.
Import Stdio Midi.

Lemma land_range a n m : 0 <= n -> m = Z.ones n -> 0 <= Z.land a m < 2 ^ n.
Proof.
  intros Hn ->. rewrite Z.land_ones by exact Hn. apply Z.mod_pos_bound.
  by apply Z.pow_pos_nonneg.
Qed.

Lemma capacity_after_snoc adds : forall cap count,
  capacity_after cap count (adds + 1)
  = (let c := capacity_after cap count adds in
     if c <=? count + Z.of_nat adds
     then (if c =? 0 then 1024 else (c * 2) mod 2 ^ 64) else c).
Proof.
  induction adds as [|adds IH]; intros cap count.
  - cbn [Nat.add capacity_after]. by rewrite Z.add_0_r.
  - cbn [Nat.add capacity_after]. rewrite IH. cbv zeta.
    replace (count + 1 + Z.of_nat adds) with (count + Z.of_nat (S adds)) by lia.
    reflexivity.
Qed.

(** Adding an event keeps a track well formed. *)
Lemma add_midi_event_ok t e :
  track_ok t -> event_ok e -> track_ok (add_midi_event t e).2.
Proof.
  intros (Hev & Hk & Ht & Hc) He. unfold track_ok, add_midi_event.
  cbn [snd events capacity ticks_per_beat tempo].
  split_and!; try lia.
  - apply Forall_app. split; [done|]. by apply Forall_cons.
  - rewrite length_app. cbn [length]. rewrite capacity_after_snoc. cbv zeta.
    rewrite <- Hc. unfold num_events. by rewrite Z.add_0_l.
Qed.

Lemma set_tempo_ok t v : track_ok t -> 0 <= v < 2 ^ 24 -> track_ok (set_tempo t v).
Proof.
  intros (Hev & Hk & Ht & Hc) Hv. unfold track_ok, set_tempo.
  cbn [events capacity ticks_per_beat tempo]. split_and!; try lia; done.
Qed.

Lemma parse_message_ok t time status rs fp3 st :
  track_ok t -> 0 <= time < 2 ^ 32 ->
  parse_message t time status rs fp3 = Some st ->
  track_ok (track st) /\ current_time st = time.
Proof.
  intros Ht Htime. unfold parse_message.
  pose proof (land_range status 4 15 ltac:(lia) eq_refl) as Hch.
  destruct ((Z.land status 240 =? 144) || (Z.land status 240 =? 128)) eqn:Enote.
  { destruct (read_byte fp3) as [[note fp4]|] eqn:E1; [|discriminate].
    cbn [mbind option_bind].
    destruct (read_byte fp4) as [[velocity fp5]|] eqn:E2; [|discriminate].
    cbn [mbind option_bind]. intros [= <-]. cbn [track current_time].
    split; [|done]. apply add_midi_event_ok; [done|].
    apply read_byte_range in E1, E2.
    unfold event_ok. cbn [timestamp type channel data1 data2].
    split_and!; try lia.
    - by destruct (_ && _).
    - destruct (Z.eqb_spec (Z.land status 240) 144); cbn [andb]; [|done].
      destruct (Z.ltb_spec 0 velocity); [done|done]. }
  destruct (Z.land status 240 =? 224).
  { destruct (read_byte fp3) as [[lsb fp4]|] eqn:E1; [|discriminate].
    cbn [mbind option_bind].
    destruct (read_byte fp4) as [[msb fp5]|] eqn:E2; [|discriminate].
    cbn [mbind option_bind]. intros [= <-]. cbn [track current_time].
    split; [|done]. apply add_midi_event_ok; [done|].
    unfold event_ok. cbn [timestamp type channel data1 data2].
    pose proof (land_range (Z.lor (Z.shiftl msb 7) lsb - 8192) 8 255 ltac:(lia) eq_refl).
    pose proof (land_range (Z.shiftr (Z.lor (Z.shiftl msb 7) lsb - 8192) 8) 8 255
                  ltac:(lia) eq_refl).
    split_and!; try lia; done. }
  destruct (Z.land status 240 =? 176); [by intros [= <-]|].
  destruct ((Z.land status 240 =? 192) || (Z.land status 240 =? 208));
    [by intros [= <-]|].
  destruct (Z.land status 240 =? 160); [by intros [= <-]|].
  destruct (status =? 255).
  { destruct (read_byte fp3) as [[meta_type fp4]|]; [|discriminate].
    cbn [mbind option_bind].
    destruct (read_variable_length fp4) as [[len fp5]|]; [|discriminate].
    cbn [mbind option_bind].
    destruct (_ && _); [|by intros [= <-]].
    destruct (fread 3 fp5) as [[|b0 [|b1 [|b2 [|]]]] fp6]; try discriminate.
    intros [= <-]. cbn [track current_time]. split; [|done].
    apply set_tempo_ok; [done|].
    pose proof (u8_range b0). pose proof (u8_range b1). pose proof (u8_range b2).
    rewrite be24_value by lia. lia. }
  destruct ((status =? 240) || (status =? 247)).
  { destruct (read_variable_length fp3) as [[len fp4]|]; [|discriminate].
    cbn [mbind option_bind]. by intros [= <-]. }
  by intros [= <-].
Qed.

Lemma parse_event_ok st st1 :
  track_ok (track st) -> parse_event st = Some st1 ->
  track_ok (track st1) /\ 0 <= current_time st1 < 2 ^ 32.
Proof.
  intros Ht. unfold parse_event.
  destruct (read_variable_length (fp st)) as [[delta fp1]|]; [|discriminate].
  cbn [mbind option_bind].
  destruct (read_byte fp1) as [[status0 fp2]|]; [|discriminate].
  cbn [mbind option_bind].
  assert (Htime : 0 <= (current_time st + delta) mod 2 ^ 32 < 2 ^ 32)
    by (apply Z.mod_pos_bound; lia).
  destruct (status0 <? 128); intros H;
    apply parse_message_ok in H as [H1 H2]; try done; by rewrite H2.
Qed.

Lemma parse_events_ok fuel : forall track_end st st1,
  track_ok (track st) -> parse_events fuel track_end st = Some st1 ->
  track_ok (track st1).
Proof.
  induction fuel as [|fuel IH]; intros track_end st st1 Ht; cbn [parse_events].
  - destruct (_ <? _); [discriminate|]. by intros [= <-].
  - destruct (_ <? _); [|by intros [= <-]].
    destruct (parse_event st) as [st2|] eqn:E; [|discriminate].
    cbn [mbind option_bind]. apply IH.
    by apply (parse_event_ok st st2).
Qed.

Lemma zero_track_ok : track_ok zero_track.
Proof. unfold track_ok, zero_track. cbn. split_and!; try lia; done. Qed.

(** Whatever the file, what [midi_parse_file] leaves in the track. *)
Lemma midi_parse_file_ok fs path t0 code t :
  midi_parse_file fs (Some path) (Some t0) = Some (code, Some t) ->
  track_ok t /\
  (code = MS_SUCCESS \/ code = MS_ERROR_FILE_NOT_FOUND \/ code = MS_ERROR_INVALID_FORMAT) /\
  (code <> MS_SUCCESS -> events t = []).
Proof.
  unfold midi_parse_file. destruct (fopen fs path) as [fp0|].
  2:{ intros [= <- <-]. split_and!; [apply zero_track_ok|auto|done]. }
  destruct (read_bytes 4 fp0) as [[header_id fp1]|]; [|discriminate].
  cbn [mbind option_bind]. destruct (negb _).
  { intros [= <- <-]. split_and!; [apply zero_track_ok|auto|done]. }
  destruct (read_be32 fp1) as [[header_length fp2]|]; [|discriminate].
  cbn [mbind option_bind].
  destruct (read_be16 fp2) as [[fmt fp3]|]; [|discriminate].
  cbn [mbind option_bind].
  destruct (read_be16 fp3) as [[ntracks fp4]|]; [|discriminate].
  cbn [mbind option_bind].
  destruct (read_be16 fp4) as [[division fp5]|] eqn:Ed; [|discriminate].
  cbn [mbind option_bind].
  assert (Ht1 : track_ok {| events := []; capacity := 0;
                            ticks_per_beat := Z.land division 32767;
                            tempo := 500000 |}).
  { unfold track_ok. cbn [events capacity ticks_per_beat tempo length capacity_after].
    pose proof (land_range division 15 32767 ltac:(lia) eq_refl).
    split_and!; try lia; done. }
  destruct (read_bytes 4 _) as [[track_id fp7]|]; [|discriminate].
  cbn [mbind option_bind]. destruct (negb _).
  { intros [= <- <-]. split_and!; [done|auto|done]. }
  destruct (read_be32 fp7) as [[track_length fp8]|]; [|discriminate].
  cbn [mbind option_bind].
  destruct (parse_events _ _ _) as [st|] eqn:Ep; [|discriminate].
  cbn [mbind option_bind]. intros [= <- <-].
  split_and!; [|auto|done].
  by apply parse_events_ok in Ep.
Qed.

(** The capacity in closed form: the least of 1024, 2048, 4096, ... that
    holds the events. *)
Lemma capacity_after_grow adds : forall cap count k,
  0 <= k -> cap = 1024 * 2 ^ k -> 0 < count <= cap ->
  cap = 1024 \/ cap < 2 * count ->
  count + Z.of_nat adds <= 2 ^ 62 ->
  exists k1,
    0 <= k1 /\
    capacity_after cap count adds = 1024 * 2 ^ k1 /\
    count + Z.of_nat adds <= capacity_after cap count adds /\
    (capacity_after cap count adds = 1024
     \/ capacity_after cap count adds < 2 * (count + Z.of_nat adds)).
Proof.
  induction adds as [|adds IH]; intros cap count k Hk Hcap Hcount Hmin Hmax.
  - exists k. cbn [capacity_after]. split_and!; try lia.
  - cbn [capacity_after].
    assert (Hpow : 0 < 2 ^ k) by (apply Z.pow_pos_nonneg; lia).
    destruct (Z.leb_spec cap count) as [Hfull|Hroom].
    + destruct (Z.eqb_spec cap 0) as [|_]; [lia|].
      rewrite Z.mod_small by lia.
      destruct (IH (cap * 2) (count + 1) (k + 1)) as (k1 & H1 & H2 & H3 & H4);
        [lia|rewrite Z.pow_add_r by lia; lia|lia|lia|lia|].
      exists k1. split_and!; try lia.
    + destruct (IH cap (count + 1) k) as (k1 & H1 & H2 & H3 & H4);
        [lia|lia|lia|lia|lia|].
      exists k1. split_and!; try lia.
Qed.

End MidiAnyFile.

(** [X25] What a parsed track holds, whatever the file.  When
    [midi_parse_file] returns with a track, the code is [MS_SUCCESS],
    [MS_ERROR_FILE_NOT_FOUND] or [MS_ERROR_INVALID_FORMAT], and events
    are stored only on success.  Every stored event is a note-on, a
    note-off or a pitch bend (never a control change), with a channel
    below 16, data bytes below 256, a time stamp below 2^32, and a
    velocity above 0 when it is a note-on; the tempo is below 2^24 and
    [ticks_per_beat] below 2^15.  The capacity of the event array is 0
    without events and otherwise the power-of-two multiple of 1024 that
    [add_midi_event] reaches by doubling: at least the number of events,
    and below twice that number unless it is 1024. *)
Theorem midi_parsed_track_well_formed :
  (forall fs path t0 code t,
      Midi.midi_parse_file fs (Some path) (Some t0) = Some (code, Some t) ->
      track_ok t /\
      (code = MS_SUCCESS \/ code = MS_ERROR_FILE_NOT_FOUND
       \/ code = MS_ERROR_INVALID_FORMAT) /\
      (code <> MS_SUCCESS -> Midi.events t = [])) /\
  capacity_after 0 0 0 = 0 /\
  (forall n, (0 < n)%nat -> Z.of_nat n <= 2 ^ 62 ->
     exists k, 0 <= k /\ capacity_after 0 0 n = 1024 * 2 ^ k /\
               Z.of_nat n <= capacity_after 0 0 n /\
               (capacity_after 0 0 n = 1024 \/ capacity_after 0 0 n < 2 * Z.of_nat n)).
Proof.
  split_and!.
  - intros fs path t0 code t. apply midi_parse_file_ok.
  - reflexivity.
  - intros [|n] Hn Hmax; [lia|]. cbn [capacity_after Z.leb Z.compare Z.eqb].
    destruct (capacity_after_grow n 1024 1 0) as (k & Hk & H1 & H2 & H3); try lia.
    exists k. replace (Z.of_nat (S n)) with (1 + Z.of_nat n) by lia.
    change (0 + 1) with 1. by split_and!.
Qed.

(** [X26] What the MIDI loader refuses, and what it leaves behind.
    [midi_parse_file] zeroes the track before it opens the file, so a
    path that does not open ([MS_ERROR_FILE_NOT_FOUND]) and a file that
    does not start with "MThd" ([MS_ERROR_INVALID_FORMAT]) both leave a
    zeroed track, whatever it held; a [NULL] argument
    ([MS_ERROR_INVALID_PARAM]) leaves it alone.  A chunk other than
    "MTrk" after the header chunk is not stepped over: the file is
    refused with [MS_ERROR_INVALID_FORMAT], the division and the default
    tempo already stored.  [ms_load_midi_file] hands every error of the
    parser on and then holds no track at all, also when one was loaded
    before; on success it holds the parsed track and has reset both
    playback counters, and it leaves voices and the playing flag alone;
    with a [NULL] argument it changes nothing. *)
Theorem midi_load_failures (fs : list Byte.byte -> option (list Byte.byte))
    (path : list Byte.byte) (t0 : Midi.midi_track_t) :
  Midi.midi_parse_file fs None (Some t0) = Some (MS_ERROR_INVALID_PARAM, Some t0) /\
  (forall p, Midi.midi_parse_file fs p None = Some (MS_ERROR_INVALID_PARAM, None)) /\
  (fs path = None ->
   Midi.midi_parse_file fs (Some path) (Some t0)
   = Some (MS_ERROR_FILE_NOT_FOUND, Some Midi.zero_track)) /\
  (forall magic rest,
     length magic = 4%nat -> Stdio.u8 <$> magic <> [77; 84; 104; 100] ->
     Midi.midi_parse_file (one_file path (magic ++ rest)) (Some path) (Some t0)
     = Some (MS_ERROR_INVALID_FORMAT, Some Midi.zero_track)) /\
  (forall fmt ntracks division extra magic rest,
     0 <= fmt < 2 ^ 16 -> 0 <= ntracks < 2 ^ 16 -> 0 <= division < 2 ^ 16 ->
     6 + Z.of_nat (length extra) < 2 ^ 32 ->
     length magic = 4%nat -> Stdio.u8 <$> magic <> [77; 84; 114; 107] ->
     Midi.midi_parse_file
       (one_file path (midi_header fmt ntracks division extra ++ magic ++ rest))
       (Some path) (Some t0)
     = Some (MS_ERROR_INVALID_FORMAT,
             Some {| Midi.events := []; Midi.capacity := 0;
                     Midi.ticks_per_beat := division mod 32768;
                     Midi.tempo := 500000 |})) /\
  (forall s cur instr e t,
     Midi.midi_parse_file fs (Some path) (Some Midi.zero_track) = Some (e, t) ->
     e <> MS_SUCCESS ->
     Midi.ms_load_midi_file fs (Some s) cur (Some instr) (Some path)
     = Some (e, Some s, None)) /\
  (forall s cur instr t,
     Midi.midi_parse_file fs (Some path) (Some Midi.zero_track)
     = Some (MS_SUCCESS, t) ->
     Midi.ms_load_midi_file fs (Some s) cur (Some instr) (Some path)
     = Some (MS_SUCCESS,
             Some {| Core.config := Core.config s; Core.voices := Core.voices s;
                     Core.next_voice_id := Core.next_voice_id s;
                     Core.playback_event_index := 0;
                     Core.playback_sample_count := 0;
                     Core.is_playing := Core.is_playing s |},
             t)) /\
  (forall s cur instr p,
     s = None \/ instr = None \/ p = None ->
     Midi.ms_load_midi_file fs s cur instr p = Some (MS_ERROR_INVALID_PARAM, s, cur)).
Proof.
  split_and!.
  - reflexivity.
  - intros [p|]; reflexivity.
  - intros Hfs. unfold Midi.midi_parse_file, Stdio.fopen. by rewrite Hfs.
  - intros magic rest. apply midi_parse_file_no_header.
  - intros fmt ntracks division extra magic rest. apply midi_parse_file_no_track.
  - intros s cur instr e t Hp He. unfold Midi.ms_load_midi_file.
    rewrite Hp. cbn [mbind option_bind]. by destruct e.
  - intros s cur instr t Hp. unfold Midi.ms_load_midi_file. by rewrite Hp.
  - intros [s|] cur [instr|] [p|] H; try reflexivity.
    destruct H as [H|[H|H]]; discriminate H.
Qed.

(** ** A sampler without voices *)

Section NoPool.

Variable pow : double -> double -> double.
Variable powf : float -> float -> float.

Lemma core_process_no_pool s out frames :
  Core.pool_size (Core.config s) = 0%nat ->
  (Core.ms_process (Some s) (Some out) frames).1.1 = MS_SUCCESS /\
  (Core.ms_process (Some s) (Some out) frames).2
  = Some (silent_block (Core.config s) out frames).
Proof.
  intros Hp. unfold Core.ms_process. rewrite Hp. done.
Qed.

Lemma core_run_silent calls : forall w,
  Core.pool_size (Core.config w.2) = 0%nat ->
  Forall2 (core_renders_silence (Core.config w.2)) calls (core_run pow w calls).2.
Proof.
  induction calls as [|c calls IH]; intros w Hp; [constructor|].
  cbn [core_run snd]. constructor.
  - destruct w as [heap s]. destruct c; try exact I.
    cbn [core_renders_silence core_step snd fst res_code res_block].
    by apply core_process_no_pool.
  - destruct (core_step_shape pow w c) as (Hc & _). cbn zeta in Hc.
    rewrite <- Hc. apply IH. by rewrite Hc.
Qed.

Lemma rt_process_no_pool heap s out frames :
  RT.pool_size (RT.config s) = 0%nat ->
  (RT.ms_process heap (Some s) (Some out) frames).1.1 = MS_SUCCESS /\
  (RT.ms_process heap (Some s) (Some out) frames).2
  = Some (silent_block (RT.config s) out frames).
Proof.
  intros Hp. unfold RT.ms_process.
  rewrite rt_process_events_config, Hp.
  generalize (RT.process_events heap s) as s1. intros s1. done.
Qed.

Lemma rt_run_silent calls : forall w,
  RT.pool_size (RT.config w.2) = 0%nat ->
  Forall2 (rt_renders_silence (RT.config w.2)) calls (rt_run powf w calls).2.
Proof.
  induction calls as [|c calls IH]; intros w Hp; [constructor|].
  cbn [rt_run snd]. constructor.
  - destruct w as [heap s]. destruct c; try exact I.
    cbn [rt_renders_silence rt_step snd fst res_code res_block].
    by apply rt_process_no_pool.
  - destruct (rt_step_shape powf w c) as (Hc & _). cbn zeta in Hc.
    rewrite <- Hc. apply IH. by rewrite Hc.
Qed.

End NoPool.

(** [X27] A sampler created with [max_polyphony] 0 is silent.
    [ms_sampler_create] accepts the configuration, and a note-on whose
    sample is found still returns [MS_SUCCESS] in the plain build: it
    triggers slot 0, which lies outside the empty pool.  But the mixing
    loop of [ms_process] runs over the pool only, so in both builds every
    render call of every run of calls returns [MS_SUCCESS] with the block
    set to zero and the rest of the buffer as it was. *)
Theorem zero_polyphony_is_silent (pow : double -> double -> double)
    (powf : float -> float -> float) (cfg : ms_audio_config_t) :
  max_polyphony cfg = 0 ->
  Core.ms_sampler_create (Some cfg) = (MS_SUCCESS, Some (Core.new_sampler cfg)) /\
  RT.ms_sampler_create (Some cfg) = (MS_SUCCESS, Some (RT.new_sampler cfg)) /\
  (forall calls,
      Forall2 (core_renders_silence cfg) calls (core_run pow (core_start cfg) calls).2) /\
  (forall calls,
      Forall2 (rt_renders_silence cfg) calls (rt_run powf (rt_start cfg) calls).2) /\
  (forall heap s a inst note vel smp,
      Core.config s = cfg -> heap !! a = Some inst -> inst_sampler inst = true ->
      instrument_find_sample (Some inst) note vel = Some smp ->
      let r := Core.ms_note_on pow heap s (Some a) note vel (Some 0) in
      r.1.1 = MS_SUCCESS /\
      Core.voices r.1.2
      = alter (fun v => Core.set_instrument
                          (Core.voice_trigger pow v (Some smp) note vel
                                              (Some (inst_envelope inst)))
                          (Some a))
              0%nat (Core.voices s)).
Proof.
  intros Hz.
  assert (Hp : Core.pool_size cfg = 0%nat).
  { unfold Core.pool_size, MS_MAX_VOICES. rewrite Hz. reflexivity. }
  split_and!.
  - reflexivity.
  - reflexivity.
  - intros calls. apply (core_run_silent pow calls (core_start cfg)). exact Hp.
  - intros calls. apply (rt_run_silent powf calls (rt_start cfg)). exact Hp.
  - intros heap s a inst note vel smp Hc Ha Hs Hf r. subst r.
    unfold Core.ms_note_on. cbn [Core.deref]. rewrite Ha, Hs, Hf. cbn [negb fst snd].
    rewrite Hc, Hp. done.
Qed.

Lemma zero_polyphony_is_silent_witness :
  Forall2 (core_renders_silence {| cfg_sample_rate := 44100; channels := 2;
                          max_polyphony := 0; buffer_size := 256 |})
          [CoreAPI.Process [F32.one; F32.one; F32.one] 1]
          [{| res_code := MS_SUCCESS;
              res_block := Some [F32.zero; F32.zero; F32.one];
              res_voice_id := None |}].
Proof.
  refine (proj1 (proj2 (proj2
            (zero_polyphony_is_silent (fun x _ => x) (fun x _ => x)
               {| cfg_sample_rate := 44100; channels := 2;
                  max_polyphony := 0; buffer_size := 256 |} eq_refl)))
            [CoreAPI.Process [F32.one; F32.one; F32.one] 1]).
Defined.

(** ** The chunk loops of the WAV loader end *)

Section Fuel.
Import Stdio.

Lemma fread_progress n fp :
  0 <= position fp ->
  content (fread n fp).2 = content fp /\
  position (fread n fp).2 = position fp + Z.of_nat (length (fread n fp).1) /\
  (length (fread n fp).1 <= n)%nat /\
  (length (fread n fp).1 <= bytes_left fp)%nat /\
  bytes_left (fread n fp).2 = (bytes_left fp - length (fread n fp).1)%nat.
Proof.
  intros Hp. unfold fread, bytes_left. cbn [fst snd content position].
  rewrite length_take, length_drop. split_and!; try done; lia.
Qed.

Lemma fseek_progress fp offset :
  0 <= position fp -> 0 <= offset ->
  content (fseek_cur fp offset) = content fp /\
  position (fseek_cur fp offset) = position fp + offset /\
  (bytes_left (fseek_cur fp offset) <= bytes_left fp)%nat.
Proof.
  intros Hp Ho. unfold fseek_cur, bytes_left.
  destruct (Z.ltb_spec (position fp + offset) 0); [lia|].
  cbn [content position]. split_and!; try done; lia.
Qed.

(** A chunk header that was read took eight bytes of the file. *)
Lemma read_chunk_header_progress fp chunk fp1 :
  0 <= position fp -> Wav.read_chunk_header fp = (Some chunk, fp1) ->
  0 <= position fp1 /\ (bytes_left fp1 + 8 = bytes_left fp)%nat /\
  0 <= Wav.size chunk.
Proof.
  intros Hp. unfold Wav.read_chunk_header.
  pose proof (fread_progress 8 fp Hp) as (H1 & H2 & H3 & H4 & H5).
  destruct (fread 8 fp) as [l fp2].
  do 9 (destruct l as [|? l]; try discriminate).
  intros [= <- <-]. cbn [fst snd length Wav.size] in *.
  pose proof (le32_range b3 b4 b5 b6). split_and!; lia.
Qed.

Lemma read_chunk_header_end fp :
  0 <= position fp -> (bytes_left fp < 8)%nat ->
  (Wav.read_chunk_header fp).1 = None.
Proof.
  intros Hp H0. destruct (Wav.read_chunk_header fp) as [[chunk|] fp1] eqn:E; [|done].
  apply read_chunk_header_progress in E; [lia|done].
Qed.

(** Each turn of a chunk loop costs eight bytes, so one turn more than
    an eighth of the bytes left is as good as any number of turns. *)
Lemma find_fmt_turns fuel : forall fuel' fp,
  0 <= position fp ->
  (bytes_left fp / 8 < fuel)%nat -> (bytes_left fp / 8 < fuel')%nat ->
  Wav.find_fmt fuel fp = Wav.find_fmt fuel' fp.
Proof.
  induction fuel as [|fuel IH]; intros fuel' fp Hp Hf Hf'; [lia|].
  destruct fuel' as [|fuel']; [lia|]. cbn [Wav.find_fmt].
  destruct (Wav.read_chunk_header fp) as [[chunk|] fp1] eqn:E; [|done].
  apply read_chunk_header_progress in E as (H1 & H2 & H3); [|done].
  destruct (memcmp_eq _ _); [done|].
  pose proof (fseek_progress fp1 (Wav.size chunk) H1 H3) as (S1 & S2 & S3).
  apply IH; lia.
Qed.

Lemma find_data_turns fuel : forall fuel' fp,
  0 <= position fp ->
  (bytes_left fp / 8 < fuel)%nat -> (bytes_left fp / 8 < fuel')%nat ->
  Wav.find_data fuel fp = Wav.find_data fuel' fp.
Proof.
  induction fuel as [|fuel IH]; intros fuel' fp Hp Hf Hf'; [lia|].
  destruct fuel' as [|fuel']; [lia|]. cbn [Wav.find_data].
  destruct (Wav.read_chunk_header fp) as [[chunk|] fp1] eqn:E; [|done].
  apply read_chunk_header_progress in E as (H1 & H2 & H3); [|done].
  destruct (memcmp_eq _ _); [done|].
  pose proof (fseek_progress fp1 (Wav.size chunk) H1 H3) as (S1 & S2 & S3).
  apply IH; lia.
Qed.

Lemma bytes_left_le fp : (bytes_left fp <= length (content fp))%nat.
Proof. unfold bytes_left. lia. Qed.

End Fuel.

(** [X28] The two chunk loops of the WAV loader end.  Each loop tests
    [fread] before every turn: a turn is made only when the eight bytes of
    a chunk header were read, which leaves eight bytes fewer in the file,
    and with fewer than eight bytes left the read fails and the loop
    stops.  The [fseek] over a chunk never moves back: the chunk size is
    a [uint32_t], a non-negative offset where [long] has 64 bits.  So neither loop makes more turns than an eighth of the bytes
    left, plus the one that fails: any larger number of turns allowed
    gives the same result, and so does the size of the file, which is
    what the model passes. *)
Theorem wav_chunk_loops_end (fp : Stdio.FILE) (fuel : nat) :
  0 <= Stdio.position fp -> (bytes_left fp / 8 < fuel)%nat ->
  ((bytes_left fp < 8)%nat -> (Wav.read_chunk_header fp).1 = None) /\
  (forall chunk fp1,
      Wav.read_chunk_header fp = (Some chunk, fp1) ->
      (bytes_left fp1 + 8 = bytes_left fp)%nat /\
      (bytes_left (Stdio.fseek_cur fp1 (Wav.size chunk)) + 8 <= bytes_left fp)%nat) /\
  Wav.find_fmt fuel fp = Wav.find_fmt (S (bytes_left fp / 8)) fp /\
  Wav.find_data fuel fp = Wav.find_data (S (bytes_left fp / 8)) fp /\
  Wav.find_fmt fuel fp = Wav.find_fmt (length (Stdio.content fp)) fp /\
  Wav.find_data fuel fp = Wav.find_data (length (Stdio.content fp)) fp.
Proof.
  intros Hp Hfuel. pose proof (bytes_left_le fp) as Hl.
  assert (Hshort : length (Stdio.content fp) = 0%nat ->
                   (Wav.read_chunk_header fp).1 = None).
  { intros H0. apply read_chunk_header_end; [done|lia]. }
  split_and!.
  - by apply read_chunk_header_end.
  - intros chunk fp1 E.
    apply read_chunk_header_progress in E as (H1 & H2 & H3); [|done].
    pose proof (fseek_progress fp1 (Wav.size chunk) H1 H3) as (_ & _ & S3).
    split; lia.
  - apply find_fmt_turns; [done|lia|lia].
  - apply find_data_turns; [done|lia|lia].
  - destruct (length (Stdio.content fp)) as [|n] eqn:E.
    + specialize (Hshort eq_refl). destruct fuel as [|fuel]; [done|].
      cbn [Wav.find_fmt]. by destruct (Wav.read_chunk_header fp) as [[chunk|] fp1].
    + apply find_fmt_turns; [done|lia|].
      pose proof (Nat.Div0.div_le_mono (bytes_left fp) (S n) 8 Hl) as Hd.
      pose proof (Nat.Div0.div_le_upper_bound (S n) 8 (S n)). lia.
  - destruct (length (Stdio.content fp)) as [|n] eqn:E.
    + specialize (Hshort eq_refl). destruct fuel as [|fuel]; [done|].
      cbn [Wav.find_data]. by destruct (Wav.read_chunk_header fp) as [[chunk|] fp1].
    + apply find_data_turns; [done|lia|].
      pose proof (Nat.Div0.div_le_mono (bytes_left fp) (S n) 8 Hl) as Hd.
      pose proof (Nat.Div0.div_le_upper_bound (S n) 8 (S n)). lia.
Qed.

Lemma wav_chunk_loops_end_witness :
  let fp := file_at (take 12 (wav_file wav_example))
                    (drop 12 (wav_file wav_example)) in
  Wav.find_fmt 100 fp = Wav.find_fmt (S (bytes_left fp / 8)) fp.
Proof.
  intros fp.
  refine (proj1 (proj2 (proj2 (wav_chunk_loops_end fp 100 _ _)))).
  - vm_compute. discriminate.
  - vm_compute. lia.
Defined.
